(** * kite: adaptive quadtree and leaf covariance

    A shallow embedding of [quadtree.py] and [covariance.py].

    Conventions of the embedding.
    - Python integers are [Z]; list positions are [nat].
    - A finite float is the rational it denotes ([Q], arithmetic idealised
      as exact); where the code depends on NaN the value is an [fval].
    - A 2-D numpy array is the list of its rows.
    - Python exceptions are values of [exn]; a computation that may raise
      has type [result A].
    - numpy / scipy routines whose numerics are not part of this repository
      (nanstd, median, sqrt, DCT, FFT binning, interpolation) are the
      operations of the class [Numpy]; [num.linalg.inv] is the exact
      inverse over the rationals. *)

From Stdlib Require Import ZArith QArith Lia.
From stdpp Require Import base list gmap strings pretty.

Open Scope Z_scope.

(** ** Exceptions *)

Inductive exn : Type :=
  | AttributeError (msg : string)
  | KeyError (msg : string)
  | IndexError
  | ZeroDivisionError
  | ValueError
  | AssertionError (msg : string)
  | LinAlgError (msg : string)
  | OutOfFuel.

Inductive result (A : Type) : Type :=
  | Ok (a : A)
  | Raise (e : exn).
Arguments Ok {A} a.
Arguments Raise {A} e.

#[global] Instance result_ret : MRet result := λ A a, Ok a.
#[global] Instance result_bind : MBind result :=
  λ A B f m, match m with Ok a => f a | Raise e => Raise e end.

(** ** Floats with NaN *)

Inductive fval : Type :=
  | NaN
  | Fin (q : Q).

Definition Qlt_bool (x y : Q) : bool := negb (Qle_bool y x).

(** IEEE comparisons: every comparison with NaN is false. *)
Definition f_lt (a b : fval) : bool :=
  match a, b with
  | Fin x, Fin y => Qlt_bool x y
  | _, _ => false
  end.

Definition f_gt (a b : fval) : bool := f_lt b a.

Definition f_eq (a b : fval) : bool :=
  match a, b with
  | Fin x, Fin y => Qeq_bool x y
  | _, _ => false
  end.

Definition f_isnan (a : fval) : bool :=
  match a with NaN => true | Fin _ => false end.

Definition f_sub (a b : fval) : fval :=
  match a, b with
  | Fin x, Fin y => Fin (x - y)
  | _, _ => NaN
  end.

Definition f_mul (a b : fval) : fval :=
  match a, b with
  | Fin x, Fin y => Fin (x * y)
  | _, _ => NaN
  end.

(** Python truthiness of a float: [0.0] is false, everything else
    (NaN included) is true. *)
Definition f_truthy (a : fval) : bool :=
  match a with
  | NaN => true
  | Fin x => negb (Qeq_bool x 0)
  end.

(** [int(x)] of a finite float: truncation toward zero. *)
Definition Qtrunc (x : Q) : Z := Z.quot (Qnum x) (Zpos (Qden x)).

(** ** Slicing *)

(** Position denoted by a slice bound [i] on a sequence of [n] items. *)
Definition slice_index (i n : Z) : Z :=
  if i <? 0 then Z.max (i + n) 0 else Z.min i n.

(** [l[start:stop]] *)
Definition py_slice {A} (start stop : Z) (l : list A) : list A :=
  let n := Z.of_nat (length l) in
  let a := slice_index start n in
  let b := slice_index stop n in
  take (Z.to_nat (b - a)) (drop (Z.to_nat a) l).

(** [a[r0:r1, c0:c1]] *)
Definition py_slice2 {A} (r0 r1 c0 c1 : Z) (a : list (list A))
  : list (list A) :=
  map (py_slice c0 c1) (py_slice r0 r1 a).

(** [a.size] *)
Definition size2 {A} (a : list (list A)) : Z := Z.of_nat (length (concat a)).

(** [a.shape] of a 2-D array *)
Definition shape2 {A} (a : list (list A)) : Z * Z :=
  (Z.of_nat (length a), Z.of_nat (length (hd [] a))).

(** Masked arrays: [a.compressed()] and [a.filled()] *)
Definition compressed {A} (a : list (list (option A))) : list A :=
  omap (λ x, x) (concat a).

Definition fill_value : Q := 100000000000000000000.

Definition filled (a : list (list (option Q))) : list (list Q) :=
  map (map (default fill_value)) a.

(** ** Numerical library *)

Class Numpy : Type := {
  nanstd : list fval → fval;
  nanmean : list fval → fval;
  nanmedian : list fval → fval;
  (** [kite.meta.derampMatrix] *)
  derampMatrix : list (list fval) → list (list fval);
  (** [num.sqrt] on finite floats *)
  num_sqrt : Q → Q;
  (** [num.median] of finite floats *)
  num_median : list Q → Q;
  (** [kite.meta.trimMatrix] *)
  trimMatrix : list (list fval) → list (list fval);
  (** [num.abs(num.fft.fft2(noise)) / size], reduced over the radial
      wavenumbers of the grid with spacings [dE], [dN] by
      [scipy.stats.binned_statistic(..., statistic='mean', bins=bins)]:
      the binned means *)
  binned_power : list (list Q) → Q → Q → list Q → list fval;
  (** [scipy.fftpack.dct(x, type=2)] *)
  dct2 : list Q → list Q;
  (** [scipy.interpolate.interp1d(d, cov, kind='nearest',
      bounds_error=False, fill_value=0.)] applied to one distance *)
  interp1d_nearest : list Q → list Q → Q → Q
}.

(** ** Scene *)

Module Frame.
(** [gridE] and [gridN] are masked arrays: [None] is a masked cell. *)
Record t : Type := mk {
  dE : Q;
  dN : Q;
  gridE : list (list (option Q));
  gridN : list (list (option Q))
}.
End Frame.

Module Scene.
Record t : Type := mk {
  displacement : list (list fval);
  frame : Frame.t
}.
End Scene.

(** ** QuadNode *)

Module QuadNode.

#[warnings="-register-all"]
Inductive t : Type := mk {
  llr : Z;
  llc : Z;
  length : Z;
  children : option (list t)
}.

(** [QuadNode(quadtree, llr, llc, length)] *)
Definition new (llr llc length : Z) : t := mk llr llc length None.

Definition id (self : t) : string :=
  "node_" +:+ pretty (llr self) +:+ "-" +:+ pretty (llc self)
          +:+ "_" +:+ pretty (length self).

Definition has_children (self : t) : bool :=
  match children self with Some _ => true | None => false end.

Section Node.
Context `{Numpy}.
(** [self.scene] *)
Variable scene : Scene.t.

Definition displacement (self : t) : list (list fval) :=
  py_slice2 (llr self) (llr self + length self)
            (llc self) (llc self + length self)
            (Scene.displacement scene).

Definition displacement_mask (self : t) : list (list bool) :=
  map (map f_isnan) (displacement self).

(** [num.sum(mask)] *)
Definition num_sum (mask : list (list bool)) : Z :=
  Z.of_nat (List.length (filter (λ b, b = true) (concat mask))).

(** [num.all(mask)] *)
Definition num_all (mask : list (list bool)) : bool :=
  forallb (λ b, b) (concat mask).

Definition nan_fraction (self : t) : result Q :=
  let n := size2 (displacement self) in
  if n =? 0 then Raise ZeroDivisionError
  else Ok (inject_Z (num_sum (displacement_mask self)) / inject_Z n)%Q.

Definition mean (self : t) : fval := nanmean (concat (displacement self)).
Definition median (self : t) : fval :=
  nanmedian (concat (displacement self)).
Definition std (self : t) : fval := nanstd (concat (displacement self)).

Definition corr_median (self : t) : fval :=
  let m := median self in
  nanstd (map (λ x, f_sub x m) (concat (displacement self))).

Definition corr_mean (self : t) : fval :=
  let m := mean self in
  nanstd (map (λ x, f_sub x m) (concat (displacement self))).

Definition corr_bilinear (self : t) : fval :=
  nanstd (concat (derampMatrix (displacement self))).

Definition gridE (self : t) : list (list (option Q)) :=
  py_slice2 (llr self) (llr self + length self)
            (llc self) (llc self + length self)
            (Frame.gridE (Scene.frame scene)).

Definition gridN (self : t) : list (list (option Q)) :=
  py_slice2 (llr self) (llr self + length self)
            (llc self) (llc self + length self)
            (Frame.gridN (Scene.frame scene)).

(** Node focal point in local coordinates respecting NaN values *)
Definition focal_point (self : t) : Q * Q :=
  (num_median (compressed (gridE self)),
   num_median (compressed (gridN self))).

(** What a node reads through its back reference [self.quadtree]. *)
Variable _corr_func : t → fval.
Variable epsilon : option fval.
Variable epsilon_min : fval.
(** The value of the property [_tile_size_lim_px]; it is evaluated
    only where the walk reads it. *)
Variable _tile_size_lim_px : result (Z * Z).

Fixpoint iterChildren (self : t) : list t :=
  self :: match children self with
          | Some cs => concat (map iterChildren cs)
          | None => []
          end.

(** [corr < epsilon]; an unset epsilon ([None]) compares below every
    number, so the test is false. *)
Definition below_epsilon (self : t) : bool :=
  match epsilon with
  | Some e => f_lt (_corr_func self) e
  | None => false
  end.

Fixpoint iterLeafs (self : t) : result (list t) :=
  let descend (cs : list t) : result (list t) :=
    match cs with
    | [] => Raise IndexError
    | c0 :: _ =>
        lim ← _tile_size_lim_px;
        if length c0 <? lim.1 then Ok [self]
        else ls ← mapM iterLeafs cs; Ok (concat ls)
    end in
  match children self with
  | None =>
      if below_epsilon self then
        lim ← _tile_size_lim_px; Ok [self]
      else Ok [self]
  | Some cs =>
      if below_epsilon self then
        lim ← _tile_size_lim_px;
        if negb (length self >? lim.2) then Ok [self] else descend cs
      else descend cs
  end.

(** The candidate child of [self] in quadrant [(_nr, _nc)] *)
Definition quadrant (self : t) (q : Z * Z) : t :=
  let '(_nr, _nc) := q in
  new (llr self + length self / 2 * _nr)
      (llc self + length self / 2 * _nc)
      (length self / 2).

(** [n.displacement.size == 0 or num.all(n.displacement_mask)] *)
Definition omitted (n : t) : bool :=
  (size2 (displacement n) =? 0) || num_all (displacement_mask n).

Definition _iterSplitNode (self : t) : list (option t) :=
  (if length self =? 1 then [None] else []) ++
  map Some (filter (λ n, omitted n = false)
                   (map (quadrant self) [(0, 0); (0, 1); (1, 0); (1, 1)])).

Definition split_test (self : t) : bool :=
  (f_gt (_corr_func self) epsilon_min || (length self >=? 64))
  && negb (length self <? 16).

(** [createTree] returns the node with its subtree rebuilt.  The
    recursion is bounded by [fuel]; [OutOfFuel] is raised when it runs
    out. *)
Fixpoint createTree (fuel : nat) (self : t) : result t :=
  match fuel with
  | O => Raise OutOfFuel
  | S fuel' =>
      if split_test self then
        cs ← mapM (λ c, match c with
                        | Some c => createTree fuel' c
                        | None => Raise (AttributeError "createTree")
                        end)
                  (_iterSplitNode self);
        Ok (mk (llr self) (llc self) (length self) (Some cs))
      else Ok (mk (llr self) (llc self) (length self) None)
  end.

(** Recursion depth that [createTree] needs on a node. *)
Definition fuel_for (self : t) : nat := S (Z.to_nat (length self)).

End Node.
End QuadNode.

(** ** State and exceptions together *)

(** A method of an object with state [S]: it returns a value and the
    updated object, or raises. *)
Definition Py (S A : Type) : Type := S → result (A * S).

#[global] Instance Py_ret {S} : MRet (Py S) := λ A a s, Ok (a, s).
#[global] Instance Py_bind {S} : MBind (Py S) :=
  λ A B f m s, match m s with Ok (a, s') => f a s' | Raise e => Raise e end.

Definition py_get {S} : Py S S := λ s, Ok (s, s).
Definition py_modify {S} (f : S → S) : Py S unit := λ s, Ok (tt, f s).
Definition py_raise {S A} (e : exn) : Py S A := λ _, Raise e.
Definition py_lift {S A} (r : result A) : Py S A :=
  λ s, match r with Ok a => Ok (a, s) | Raise e => Raise e end.

(** ** Quadtree *)

Module QuadtreeConfig.
Record t : Type := mk {
  correction : string;
  epsilon : option fval;
  nan_allowed : Q;
  tile_size_min : Q;
  tile_size_max : Q
}.

Definition default : t := mk "median" None (9 # 10) 250 25000.

Definition with_correction (v : string) (c : t) : t :=
  mk v (epsilon c) (nan_allowed c) (tile_size_min c) (tile_size_max c).
Definition with_epsilon (v : option fval) (c : t) : t :=
  mk (correction c) v (nan_allowed c) (tile_size_min c) (tile_size_max c).
Definition with_nan_allowed (v : Q) (c : t) : t :=
  mk (correction c) (epsilon c) v (tile_size_min c) (tile_size_max c).
Definition with_tile_size_min (v : Q) (c : t) : t :=
  mk (correction c) (epsilon c) (nan_allowed c) v (tile_size_max c).
Definition with_tile_size_max (v : Q) (c : t) : t :=
  mk (correction c) (epsilon c) (nan_allowed c) (tile_size_min c) v.
End QuadtreeConfig.

(** Messages passed to [self._log.warning]. *)
Inductive warning : Type :=
  | EpsilonOutOfBounds (value epsilon_min : fval)
  | NanFractionOutOfRange
  | TileSizeOrder.

Module Quadtree.

(** The object.  The three [cached_] fields are the stores of the
    [property_cached] attributes [_base_nodes], [leafs] and
    [_tile_size_lim_px] ([None]: not computed or cleared).  [_log] holds
    the warnings issued, newest first; [evChanged] and [evConfigChanged]
    count the notifications sent.  The cached properties [nodes],
    [_epsilon_init] and [epsilon_min] depend only on data that no
    modelled method changes between their clearing and their next
    reading, and are functions of the object here. *)
Record t : Type := mk {
  scene : Scene.t;
  config : QuadtreeConfig.t;
  _corr_func : QuadNode.t → fval;
  cached__base_nodes : option (list QuadNode.t);
  cached_leafs : option (list QuadNode.t);
  cached__tile_size_lim_px : option (Z * Z);
  _log : list warning;
  evChanged : nat;
  evConfigChanged : nat
}.

Definition with_config (v : QuadtreeConfig.t) (q : t) : t :=
  mk (scene q) v (_corr_func q) (cached__base_nodes q) (cached_leafs q)
     (cached__tile_size_lim_px q) (_log q) (evChanged q) (evConfigChanged q).
Definition with__corr_func (v : QuadNode.t → fval) (q : t) : t :=
  mk (scene q) (config q) v (cached__base_nodes q) (cached_leafs q)
     (cached__tile_size_lim_px q) (_log q) (evChanged q) (evConfigChanged q).
Definition with__base_nodes (v : option (list QuadNode.t)) (q : t) : t :=
  mk (scene q) (config q) (_corr_func q) v (cached_leafs q)
     (cached__tile_size_lim_px q) (_log q) (evChanged q) (evConfigChanged q).
Definition with_leafs (v : option (list QuadNode.t)) (q : t) : t :=
  mk (scene q) (config q) (_corr_func q) (cached__base_nodes q) v
     (cached__tile_size_lim_px q) (_log q) (evChanged q) (evConfigChanged q).
Definition with__tile_size_lim_px (v : option (Z * Z)) (q : t) : t :=
  mk (scene q) (config q) (_corr_func q) (cached__base_nodes q)
     (cached_leafs q) v (_log q) (evChanged q) (evConfigChanged q).
Definition log_warning (w : warning) (q : t) : t :=
  mk (scene q) (config q) (_corr_func q) (cached__base_nodes q)
     (cached_leafs q) (cached__tile_size_lim_px q) (w :: _log q)
     (evChanged q) (evConfigChanged q).
Definition notify_evChanged (q : t) : t :=
  mk (scene q) (config q) (_corr_func q) (cached__base_nodes q)
     (cached_leafs q) (cached__tile_size_lim_px q) (_log q)
     (S (evChanged q)) (evConfigChanged q).
Definition notify_evConfigChanged (q : t) : t :=
  mk (scene q) (config q) (_corr_func q) (cached__base_nodes q)
     (cached_leafs q) (cached__tile_size_lim_px q) (_log q)
     (evChanged q) (S (evConfigChanged q)).

Section Methods.
Context `{Numpy}.

Definition displacement (self : t) : list (list fval) :=
  Scene.displacement (scene self).
Definition frame (self : t) : Frame.t := Scene.frame (scene self).

Definition _corrections
  : gmap string (string * (Scene.t → QuadNode.t → fval)) :=
  list_to_map
    [ ("mean", ("Std around mean", QuadNode.corr_mean));
      ("median", ("Std around median", QuadNode.corr_median));
      ("bilinear", ("Std around bilinear detrended node",
                    QuadNode.corr_bilinear));
      ("std", ("Standard deviation (std)", QuadNode.std)) ].

(** Initial epsilon for virgin tree creation *)
Definition _epsilon_init (self : t) : fval :=
  nanstd (concat (displacement self)).

(** Lowest allowed epsilon *)
Definition epsilon_min (self : t) : fval :=
  f_mul (_epsilon_init self) (Fin (2 # 10)).

Definition epsilon (self : t) : option fval :=
  QuadtreeConfig.epsilon (config self).
Definition nan_allowed (self : t) : Q :=
  QuadtreeConfig.nan_allowed (config self).
Definition tile_size_min (self : t) : Q :=
  QuadtreeConfig.tile_size_min (config self).
Definition tile_size_max (self : t) : Q :=
  QuadtreeConfig.tile_size_max (config self).

(** The value [_tile_size_lim_px] evaluates to on [self]. *)
Definition eval__tile_size_lim_px (self : t) : result (Z * Z) :=
  match cached__tile_size_lim_px self with
  | Some v => Ok v
  | None =>
      let dpx := if Qlt_bool (Frame.dN (frame self)) (Frame.dE (frame self))
                 then Frame.dE (frame self) else Frame.dN (frame self) in
      if Qeq_bool dpx 0 then Raise ZeroDivisionError
      else Ok (Qtrunc (tile_size_min self / dpx),
               Qtrunc (tile_size_max self / dpx))
  end.

Definition _tile_size_lim_px : Py t (Z * Z) :=
  self ← py_get;
  v ← py_lift (eval__tile_size_lim_px self);
  _ ← py_modify (with__tile_size_lim_px (Some v));
  mret v.

Definition _base_nodes : Py t (list QuadNode.t) :=
  self ← py_get;
  match cached__base_nodes self with
  | Some bs => mret bs
  | None =>
      let '(rows, cols) := shape2 (displacement self) in
      if Z.min rows cols <=? 0 then py_raise ValueError
      else
        let init_length := 2 ^ Z.log2_up (Z.min rows cols) in
        let nx := (rows + init_length - 1) / init_length in
        let ny := (cols + init_length - 1) / init_length in
        let bs := ir ← seqZ 0 nx; ic ← seqZ 0 ny;
                  [QuadNode.new (ir * init_length) (ic * init_length)
                                init_length] in
        if Z.of_nat (length bs) =? 0
        then py_raise (AssertionError "Could not init base nodes.")
        else _ ← py_modify (with__base_nodes (Some bs)); mret bs
  end.

Definition createTree (self : t) (b : QuadNode.t) : result QuadNode.t :=
  QuadNode.createTree (scene self) (_corr_func self) (epsilon_min self)
                      (QuadNode.fuel_for b) b.

Definition _initTree : Py t unit :=
  bs ← _base_nodes;
  self ← py_get;
  bs' ← py_lift (mapM (createTree self) bs);
  py_modify (with__base_nodes (Some bs')).

(** Setter of [epsilon] *)
Definition set_epsilon (value : fval) : Py t unit :=
  self ← py_get;
  if match epsilon self with Some e => f_eq e value | None => false end
  then mret tt
  else if f_lt value (epsilon_min self)
  then py_modify (log_warning (EpsilonOutOfBounds value (epsilon_min self)))
  else
    _ ← py_modify (with_leafs None);
    _ ← py_modify (λ q, with_config
                          (QuadtreeConfig.with_epsilon (Some value)
                                                       (config q)) q);
    py_modify notify_evChanged.

(** Setter of [nan_allowed] *)
Definition set_nan_allowed (value : Q) : Py t unit :=
  if Qlt_bool 1 value || Qle_bool value 0
  then py_modify (log_warning NanFractionOutOfRange)
  else
    _ ← py_modify (with_leafs None);
    _ ← py_modify (λ q, with_config
                          (QuadtreeConfig.with_nan_allowed value
                                                           (config q)) q);
    py_modify notify_evChanged.

Definition _tileSizeChanged : Py t unit :=
  _ ← py_modify (with__tile_size_lim_px None);
  _ ← py_modify (with_leafs None);
  py_modify notify_evChanged.

(** Setter of [tile_size_min] *)
Definition set_tile_size_min (value : Q) : Py t unit :=
  self ← py_get;
  if Qlt_bool (tile_size_max self) value
  then py_modify (log_warning TileSizeOrder)
  else
    _ ← py_modify (λ q, with_config
                          (QuadtreeConfig.with_tile_size_min value
                                                             (config q)) q);
    _tileSizeChanged.

(** Setter of [tile_size_max] *)
Definition set_tile_size_max (value : Q) : Py t unit :=
  self ← py_get;
  if Qlt_bool value (tile_size_min self)
  then py_modify (log_warning TileSizeOrder)
  else
    _ ← py_modify (λ q, with_config
                          (QuadtreeConfig.with_tile_size_max value
                                                             (config q)) q);
    _tileSizeChanged.

Definition setCorrection (correction : string) : Py t unit :=
  match _corrections !! correction with
  | None => py_raise (AttributeError ("Method " +:+ correction))
  | Some (_, f) =>
      _ ← py_modify (λ q, with_config
                            (QuadtreeConfig.with_correction correction
                                                            (config q)) q);
      _ ← py_modify (λ q, with__corr_func (f (scene q)) q);
      _ ← py_modify (with_leafs None);
      self ← py_get;
      _ ← set_epsilon (match epsilon self with
                       | Some e => if f_truthy e then e
                                   else _epsilon_init self
                       | None => _epsilon_init self
                       end);
      _ ← _initTree;
      py_modify notify_evChanged
  end.

Definition setConfig (config : QuadtreeConfig.t) : Py t unit :=
  _ ← py_modify (with_config config);
  _ ← setCorrection (QuadtreeConfig.correction config);
  py_modify notify_evConfigChanged.

(** [Quadtree(scene, config)].  [_corr_func] is first assigned by
    [setCorrection]; the value it is given here is never read. *)
Definition __init__ (scene : Scene.t) (config : QuadtreeConfig.t)
  : result t :=
  match setConfig config (mk scene config (λ _, NaN) None None None [] O O)
  with
  | Ok (_, self) => Ok self
  | Raise e => Raise e
  end.

(** All nodes of the tree *)
Definition nodes : Py t (list QuadNode.t) :=
  bs ← _base_nodes;
  mret (b ← bs; QuadNode.iterChildren b).

(** [[l for l in leafs if l.nan_fraction < self.nan_allowed]] *)
Fixpoint filter_nan_allowed (self : t) (ls : list QuadNode.t)
  : result (list QuadNode.t) :=
  match ls with
  | [] => Ok []
  | l :: ls' =>
      f ← QuadNode.nan_fraction (scene self) l;
      rest ← filter_nan_allowed self ls';
      Ok (if Qlt_bool f (nan_allowed self) then l :: rest else rest)
  end.

Definition iterLeafs (self : t) (b : QuadNode.t)
  : result (list QuadNode.t) :=
  QuadNode.iterLeafs (_corr_func self) (epsilon self)
                     (eval__tile_size_lim_px self) b.

(** Whether walking [b] reads [_tile_size_lim_px]. *)
Definition reads_lim (self : t) (b : QuadNode.t) : bool :=
  QuadNode.below_epsilon (_corr_func self) (epsilon self) b
  || QuadNode.has_children b.

(** List of leafs for current configuration. *)
Definition leafs : Py t (list QuadNode.t) :=
  self ← py_get;
  match cached_leafs self with
  | Some ls => mret ls
  | None =>
      bs ← _base_nodes;
      self ← py_get;
      lss ← py_lift (mapM (λ b, ls ← iterLeafs self b;
                                filter_nan_allowed self ls) bs);
      _ ← (if existsb (reads_lim self) bs
           then _ ← _tile_size_lim_px; mret tt else mret tt);
      _ ← py_modify (with_leafs (Some (concat lss)));
      mret (concat lss)
  end.

Definition nleafs : Py t Z :=
  ls ← leafs; mret (Z.of_nat (length ls)).

End Methods.
End Quadtree.

(** ** Attribute lookup on a Quadtree object *)

(** The values [Covariance.__init__] takes from the quadtree it is given. *)
Inductive pyobj : Type :=
  | PyScene (s : Scene.t)
  | PyLogger (ws : list warning)
  | PySubject (notifications : nat)
  | PyOther.

Module QuadtreeAttr.

(** Names bound in the body of [class Quadtree]. *)
Definition class_attributes : list string :=
  [ "evChanged"; "evConfigChanged"; "_corrections"; "_norm_methods";
    "__init__"; "setConfig"; "setCorrection"; "_initTree"; "epsilon";
    "_epsilon_init"; "epsilon_min"; "nan_allowed"; "tile_size_min";
    "tile_size_max"; "_tileSizeChanged"; "_tile_size_lim_px"; "nodes";
    "nnodes"; "leafs"; "nleafs"; "leaf_means"; "leaf_medians";
    "_leaf_focal_points"; "leaf_focal_points"; "leaf_matrix_means";
    "leaf_matrix_medians"; "leaf_matrix_weights"; "_getLeafsNormMatrix";
    "reduction_efficiency"; "reduction_rms"; "_base_nodes"; "plot";
    "getStaticTarget"; "export" ].

(** Names assigned on [self] by [__init__], [setConfig] and
    [setCorrection]. *)
Definition instance_attributes : list string :=
  [ "_leafs"; "scene"; "displacement"; "frame"; "_leaf_matrix_means";
    "_leaf_matrix_medians"; "_leaf_matrix_weights"; "_log"; "config";
    "_corr_func" ].

(** [getattr(quadtree, name)] *)
Definition getattr (quadtree : Quadtree.t) (name : string) : result pyobj :=
  if bool_decide (name = "scene") then Ok (PyScene (Quadtree.scene quadtree))
  else if bool_decide (name = "_log")
  then Ok (PyLogger (Quadtree._log quadtree))
  else if bool_decide (name = "evChanged")
  then Ok (PySubject (Quadtree.evChanged quadtree))
  else if bool_decide (name = "evConfigChanged")
  then Ok (PySubject (Quadtree.evConfigChanged quadtree))
  else if bool_decide (name ∈ class_attributes ++ instance_attributes)
  then Ok PyOther
  else Raise (AttributeError name).

End QuadtreeAttr.

(** ** Covariance *)

Module CovarianceConfig.
Record t : Type := mk {
  a : Q;
  b : Q;
  c : Q;
  variance : Q;
  distance_cutoff : Z;
  subsampling : Z
}.

Definition default : t := mk 1 1 1 9999 35000 23.

Definition with_subsampling (v : Z) (x : t) : t :=
  mk (a x) (b x) (c x) (variance x) (distance_cutoff x) v.
End CovarianceConfig.

(** Argument of the leaf queries: a [leaf.id] or a node. *)
Inductive leaf_ref : Type :=
  | LeafId (id : string)
  | LeafNode (n : QuadNode.t).

Inductive distance_method : Type :=
  | focal
  | matrix_c.

(** ** Matrices *)

Abbreviation matrix := (list (list Q)).

(** [num.zeros((n, m))] *)
Definition num_zeros (n m : nat) : matrix := replicate n (replicate m 0%Q).

(** [a[i, j]] *)
Definition mget (a : matrix) (i j : nat) : option Q := a !! i ≫= (.!! j).

(** [a[i, j] = v] *)
Definition mset (i j : nat) (v : Q) (a : matrix) : matrix :=
  match a !! i with
  | Some row => <[i := <[j := v]> row]> a
  | None => a
  end.

(** [num.triu_indices_from(a)] for an [n × n] array, as pairs *)
Definition triu_indices (n : nat) : list (nat * nat) :=
  i ← seq 0 n; j ← seq i (n - i); [(i, j)].

(** [num.fill_diagonal(a, v)] *)
Definition fill_diagonal (v : Q) (a : matrix) : matrix :=
  imap (λ i row, <[i := v]> row) a.

(** [num.max(l)] *)
Definition num_max (l : list Q) : result Q :=
  match l with
  | [] => Raise ValueError
  | x :: r => Ok (fold_left (λ m y, if Qle_bool m y then y else m) r x)
  end.

(** ** Matrix inverse *)

(** [num.dot(u, v)] of two vectors *)
Fixpoint dot (u v : list Q) : Q :=
  match u, v with
  | x :: u', y :: v' => (x * y + dot u' v')%Q
  | _, _ => 0%Q
  end.

(** [a[:, j]] *)
Definition column (j : nat) (a : matrix) : list Q := map (λ r, nth j r 0%Q) a.

(** [a @ b] *)
Definition matmul (a b : matrix) : matrix :=
  map (λ r, map (λ j, dot r (column j b)) (seq 0 (length (hd [] b)))) a.

Definition kronecker (i j : nat) : Q := if decide (i = j) then 1%Q else 0%Q.

(** [num.eye(n)] *)
Definition eye (n : nat) : matrix :=
  map (λ i, map (kronecker i) (seq 0 n)) (seq 0 n).

(** Equality of arrays of rationals, entry by entry. *)
Definition meq (a b : matrix) : Prop := Forall2 (Forall2 Qeq) a b.

(** A row of the augmented array [[a | b]] of the elimination. *)
Definition aug_row : Type := list Q * list Q.

(** [y - c * x] *)
Definition axpy (c : Q) (x y : list Q) : list Q :=
  zip_with (λ xi yi, yi - c * xi)%Q x y.

Definition scale (c : Q) (x : list Q) : list Q := map (Qmult c) x.

(** The row [r] less the multiple of the pivot row [p] that clears its
    entry in column [j]. *)
Definition eliminate (j : nat) (p r : aug_row) : aug_row :=
  (axpy (nth j r.1 0%Q) p.1 r.1, axpy (nth j r.1 0%Q) p.2 r.2).

(** The row [p] divided by its entry in column [j]. *)
Definition normalise (j : nat) (p : aug_row) : aug_row :=
  (scale (/ nth j p.1 0%Q) p.1, scale (/ nth j p.1 0%Q) p.2).

(** The first row with an entry in column [j] that is not zero, and the
    other rows. *)
Fixpoint find_pivot (j : nat) (rows : list aug_row)
  : option (aug_row * list aug_row) :=
  match rows with
  | [] => None
  | r :: rows' =>
      if Qeq_bool (nth j r.1 0%Q) 0 then
        match find_pivot j rows' with
        | Some (p, rest) => Some (p, r :: rest)
        | None => None
        end
      else Some (r, rows')
  end.

(** Gauss-Jordan elimination over the columns [cols]: [done] holds the
    rows that have had their pivot, in the order of their columns. *)
Fixpoint gauss_jordan (cols : list nat) (done todo : list aug_row)
  : option (list aug_row) :=
  match cols with
  | [] => Some done
  | j :: cols' =>
      match find_pivot j todo with
      | None => None
      | Some (p, rest) =>
          let p' := normalise j p in
          gauss_jordan cols' (map (eliminate j p') done ++ [p'])
                       (map (eliminate j p') rest)
      end
  end.

Definition is_square (a : matrix) : bool :=
  forallb (λ r, length r =? length a)%nat a.

(** [num.linalg.inv(a)], from its documentation: the array [ainv] with
    [a @ ainv = ainv @ a = eye(n)], and [LinAlgError] when [a] is not
    square or the inversion fails.  On rationals the inverse is computed
    exactly; the inversion fails when no pivot is left, which is when [a]
    is singular. *)
Definition linalg_inv (a : matrix) : result matrix :=
  if is_square a then
    match gauss_jordan (seq 0 (length a)) [] (zip a (eye (length a))) with
    | Some rows => Ok (map snd rows)
    | None => Raise (LinAlgError "Singular matrix")
    end
  else Raise (LinAlgError "Last 2 dimensions of the array must be square").

(** ** Properties of the rows of an elimination *)

(** Both halves of an augmented row have [n] entries. *)
Definition row_ok (n : nat) (r : aug_row) : Prop :=
  length r.1 = n ∧ length r.2 = n.

(** [r.1 @ x = r.2] *)
Definition solves (x : matrix) (r : aug_row) : Prop :=
  ∀ k, (dot r.1 (column k x) == nth k r.2 0)%Q.

(** [r.1 = r.2 @ m] *)
Definition combines (m : matrix) (r : aug_row) : Prop :=
  ∀ k, (nth k r.1 0 == dot r.2 (column k m))%Q.

(** [r.1 . u = 0] *)
Definition kills (u : list Q) (r : aug_row) : Prop := (dot r.1 u == 0)%Q.

(** The state of the elimination of [m], of side [n], before column [j]. *)
Record elim_inv (n : nat) (m : matrix) (j : nat) (done todo : list aug_row)
  : Prop := {
  elim_done : length done = j;
  elim_count : (length done + length todo = n)%nat;
  elim_rows_ok : Forall (row_ok n) (done ++ todo);
  elim_combines : Forall (combines m) (done ++ todo);
  elim_solves : ∀ x, Forall (solves x) (done ++ todo) →
                    Forall (solves x) (zip m (eye n));
  elim_kills : ∀ u, Forall (kills u) (done ++ todo) →
                   Forall (kills u) (zip m (eye n));
  elim_pivots : ∀ i r, done !! i = Some r →
                      ∀ k, (k < j)%nat → (nth k r.1 0 == kronecker i k)%Q;
  elim_cleared : ∀ r, r ∈ todo → ∀ k, (k < j)%nat → (nth k r.1 0 == 0)%Q
}.

(** Only the zero vector is sent to zero. *)
Definition nonsingular (a : matrix) : Prop :=
  ∀ u, length u = length a → Forall (λ r, dot r u == 0)%Q a →
       Forall (λ x, x == 0)%Q u.

(** A square array with an inverse. *)
Definition invertible (a : matrix) : Prop :=
  is_square a = true ∧
  ∃ v, meq (matmul v a) (eye (length a)) ∧ meq (matmul a v) (eye (length a)).

(** [num.fft.fftfreq(n, d)] *)
Definition fftfreq (n : Z) (d : Q) : result (list Q) :=
  if Qeq_bool (inject_Z n * d) 0 then Raise ZeroDivisionError
  else Ok (map (λ i, inject_Z i / (inject_Z n * d))%Q
               (seqZ 0 ((n - 1) / 2 + 1) ++ seqZ (- (n / 2)) (n / 2))).

(** [x[mask]] for a boolean mask *)
Fixpoint mask_index {A} (x : list A) (mask : list bool) : result (list A) :=
  match x, mask with
  | [], [] => Ok []
  | v :: x', m :: mask' =>
      r ← mask_index x' mask'; Ok (if m : bool then v :: r else r)
  | _, _ => Raise IndexError
  end.

Module Covariance.

(** The object.  [_quadtree] is the quadtree the instance works on, as it
    stands; [_leaf_mapping] is [None] until [_calcDistanceMatrix] has
    assigned the attribute; the [cached_] fields are the stores of the
    [property_cached] attributes. *)
Record t : Type := mk {
  config : CovarianceConfig.t;
  _quadtree : Quadtree.t;
  _scene : Scene.t;
  _noise_data : option (list (list Q));
  _covariance_interp : option (list Q * list Q);
  _initialized : bool;
  _leaf_mapping : option (gmap string nat);
  cached_covariance_matrix : option matrix;
  cached_covariance_matrix_focal : option matrix;
  cached_weight_matrix : option matrix;
  cached_weight_matrix_focal : option matrix;
  cached_covariance_func : option (list Q * list Q)
}.

Definition with_config v (x : t) : t :=
  mk v (_quadtree x) (_scene x) (_noise_data x) (_covariance_interp x)
     (_initialized x) (_leaf_mapping x) (cached_covariance_matrix x)
     (cached_covariance_matrix_focal x) (cached_weight_matrix x)
     (cached_weight_matrix_focal x) (cached_covariance_func x).
Definition with__quadtree v (x : t) : t :=
  mk (config x) v (_scene x) (_noise_data x) (_covariance_interp x)
     (_initialized x) (_leaf_mapping x) (cached_covariance_matrix x)
     (cached_covariance_matrix_focal x) (cached_weight_matrix x)
     (cached_weight_matrix_focal x) (cached_covariance_func x).
Definition with__noise_data v (x : t) : t :=
  mk (config x) (_quadtree x) (_scene x) v (_covariance_interp x)
     (_initialized x) (_leaf_mapping x) (cached_covariance_matrix x)
     (cached_covariance_matrix_focal x) (cached_weight_matrix x)
     (cached_weight_matrix_focal x) (cached_covariance_func x).
Definition with__covariance_interp v (x : t) : t :=
  mk (config x) (_quadtree x) (_scene x) (_noise_data x) v
     (_initialized x) (_leaf_mapping x) (cached_covariance_matrix x)
     (cached_covariance_matrix_focal x) (cached_weight_matrix x)
     (cached_weight_matrix_focal x) (cached_covariance_func x).
Definition with__initialized v (x : t) : t :=
  mk (config x) (_quadtree x) (_scene x) (_noise_data x)
     (_covariance_interp x) v (_leaf_mapping x) (cached_covariance_matrix x)
     (cached_covariance_matrix_focal x) (cached_weight_matrix x)
     (cached_weight_matrix_focal x) (cached_covariance_func x).
Definition with__leaf_mapping v (x : t) : t :=
  mk (config x) (_quadtree x) (_scene x) (_noise_data x)
     (_covariance_interp x) (_initialized x) v (cached_covariance_matrix x)
     (cached_covariance_matrix_focal x) (cached_weight_matrix x)
     (cached_weight_matrix_focal x) (cached_covariance_func x).
Definition with_covariance_matrix v (x : t) : t :=
  mk (config x) (_quadtree x) (_scene x) (_noise_data x)
     (_covariance_interp x) (_initialized x) (_leaf_mapping x) v
     (cached_covariance_matrix_focal x) (cached_weight_matrix x)
     (cached_weight_matrix_focal x) (cached_covariance_func x).
Definition with_covariance_matrix_focal v (x : t) : t :=
  mk (config x) (_quadtree x) (_scene x) (_noise_data x)
     (_covariance_interp x) (_initialized x) (_leaf_mapping x)
     (cached_covariance_matrix x) v (cached_weight_matrix x)
     (cached_weight_matrix_focal x) (cached_covariance_func x).
Definition with_weight_matrix v (x : t) : t :=
  mk (config x) (_quadtree x) (_scene x) (_noise_data x)
     (_covariance_interp x) (_initialized x) (_leaf_mapping x)
     (cached_covariance_matrix x) (cached_covariance_matrix_focal x) v
     (cached_weight_matrix_focal x) (cached_covariance_func x).
Definition with_weight_matrix_focal v (x : t) : t :=
  mk (config x) (_quadtree x) (_scene x) (_noise_data x)
     (_covariance_interp x) (_initialized x) (_leaf_mapping x)
     (cached_covariance_matrix x) (cached_covariance_matrix_focal x)
     (cached_weight_matrix x) v (cached_covariance_func x).
Definition with_covariance_func v (x : t) : t :=
  mk (config x) (_quadtree x) (_scene x) (_noise_data x)
     (_covariance_interp x) (_initialized x) (_leaf_mapping x)
     (cached_covariance_matrix x) (cached_covariance_matrix_focal x)
     (cached_weight_matrix x) (cached_weight_matrix_focal x) v.

(** [for x in l: acc = body(x, acc)] *)
Fixpoint py_for {S A B} (l : list A) (body : A → B → Py S B) (acc : B)
  : Py S B :=
  match l with
  | [] => mret acc
  | x :: l' => acc' ← body x acc; py_for l' body acc'
  end.

(** [l[i]] *)
Definition getitem {S A} (l : list A) (i : nat) : Py S A :=
  match l !! i with Some x => mret x | None => py_raise IndexError end.

(** Storing into a [uint32] array *)
Definition uint32 (z : Z) : Z := z mod 2 ^ 32.

Section Methods.
Context `{Numpy}.

(** Modelled from the spec: [covariance_ext.leaf_distances], the native
    routine behind the [matrix_c] strategy, is not among the sources.
    The spec describes it as the computation of the [matrix] strategy
    done on the full coordinate grids and the leaf bounding boxes: for
    every unordered pair of leaves, the median of the Euclidean
    distances between the pixel coordinates of the one and of the
    other, written to the cell of the pair and mirrored.  [leaf_map]
    holds per leaf the row start, row stop, column start and column
    stop; the thread count does not change the result. *)
Definition leaf_distances (gridE gridN : list (list Q))
    (leaf_map : list (Z * Z * Z * Z)) (nthreads : Z) : matrix :=
  let points (box : Z * Z * Z * Z) : list (Q * Q) :=
    let '(r0, r1, c0, c1) := box in
    zip (concat (py_slice2 r0 r1 c0 c1 gridE))
        (concat (py_slice2 r0 r1 c0 c1 gridN)) in
  let dist (b1 b2 : Z * Z * Z * Z) : Q :=
    num_median (p1 ← points b1; p2 ← points b2;
                [num_sqrt ((p1.1 - p2.1) ^ 2 + (p1.2 - p2.2) ^ 2)%Q]) in
  let nl := length leaf_map in
  fold_left (λ dm '(nx, ny),
               match leaf_map !! nx, leaf_map !! ny with
               | Some b1, Some b2 =>
                   mset ny nx (dist b1 b2) (mset nx ny (dist b1 b2) dm)
               | _, _ => dm
               end)
            (triu_indices nl) (num_zeros nl nl).

(** [self._quadtree.leafs] *)
Definition quadtree_leafs : Py t (list QuadNode.t) :=
  λ self, match Quadtree.leafs (_quadtree self) with
          | Ok (ls, q) => Ok (ls, with__quadtree q self)
          | Raise e => Raise e
          end.

Definition _clear : Py t unit :=
  _ ← py_modify (with_covariance_matrix None);
  _ ← py_modify (with_covariance_matrix_focal None);
  _ ← py_modify (with_weight_matrix None);
  _ ← py_modify (with_weight_matrix_focal None);
  _ ← py_modify (with_covariance_func None);
  py_modify (with__initialized false).

(** Setter of [noise_data] *)
Definition set_noise_data (data : list (list fval)) : Py t unit :=
  let data := derampMatrix (trimMatrix data) in
  py_modify (with__noise_data
               (Some (map (map (λ x, match x with
                                     | NaN => 0%Q
                                     | Fin q => q
                                     end)) data))).

(** [n.length / (n.nan_fraction + 1)] *)
Definition noise_key (self : t) (n : QuadNode.t) : result Q :=
  f ← QuadNode.nan_fraction (Quadtree.scene (_quadtree self)) n;
  Ok (inject_Z (QuadNode.length n) / (f + 1))%Q.

(** [sorted(nodes, key=...)[-1]]: the last node of largest key *)
Fixpoint last_max (self : t) (best : option (QuadNode.t * Q))
    (nodes : list QuadNode.t) : result (option (QuadNode.t * Q)) :=
  match nodes with
  | [] => Ok best
  | n :: nodes' =>
      k ← noise_key self n;
      last_max self
        (match best with
         | Some (_, kb) => if Qle_bool kb k then Some (n, k) else best
         | None => Some (n, k)
         end) nodes'
  end.

(** Getter of [noise_data] *)
Definition noise_data : Py t (list (list Q)) :=
  self ← py_get;
  match _noise_data self with
  | Some d => mret d
  | None =>
      ls ← quadtree_leafs;
      self ← py_get;
      best ← py_lift (last_max self None ls);
      match best with
      | None => py_raise IndexError
      | Some (n, _) =>
          _ ← set_noise_data
                (QuadNode.displacement (Quadtree.scene (_quadtree self)) n);
          self ← py_get;
          match _noise_data self with
          | Some d => mret d
          | None => py_raise IndexError
          end
      end
  end.

Definition subsampling (self : t) : Z :=
  CovarianceConfig.subsampling (config self).

(** Setter of [subsampling] *)
Definition set_subsampling (value : Z) : Py t unit :=
  _ ← _clear;
  py_modify (λ x, with_config
                    (CovarianceConfig.with_subsampling value (config x)) x).

(** Returns [(power_spec, k[:-1], k_x, k_y)]; the spectrum [f_spec]
    itself, which no caller modelled here reads, is left out. *)
Definition noiseSpectrum
  : Py t (list fval * list Q * list Q * list Q) :=
  noise ← noise_data;
  self ← py_get;
  let fr := Quadtree.frame (_quadtree self) in
  k_x ← py_lift (fftfreq (shape2 noise).1 (Frame.dE fr));
  k_y ← py_lift (fftfreq (shape2 noise).2 (Frame.dN fr));
  let k_bin := if (length k_y <? length k_x)%nat then k_x else k_y in
  let bins := filter (λ k, Qlt_bool 0 k = true) k_bin in
  let power_spec := binned_power noise (Frame.dE fr) (Frame.dN fr) bins in
  mret (power_spec, removelast bins, k_x, k_y).

Definition covarianceCosine (p_spec : list fval) (k : list Q)
  : result (list Q * list Q) :=
  let mask := map (λ x, Qlt_bool 0 x) k in
  p_spec ← mask_index p_spec mask;
  k ← mask_index k mask;
  let p_spec := map (λ x, match x with NaN => 0%Q | Fin q => q end)
                    p_spec in
  let cos := dct2 p_spec in
  if (length cos =? 0)%nat then Raise ZeroDivisionError
  else Ok (map (λ x, x * (2 / inject_Z (Z.of_nat (length cos))))%Q cos, k).

(** Covariance function derived from displacement noise patch *)
Definition covariance_func : Py t (list Q * list Q) :=
  self ← py_get;
  match cached_covariance_func self with
  | Some v => mret v
  | None =>
      '(power_spec, k, k_x, k_y) ← noiseSpectrum;
      '(cov, _) ← py_lift (covarianceCosine power_spec k);
      self ← py_get;
      let fr := Quadtree.frame (_quadtree self) in
      let dk := if (length k_y <? length k_x)%nat
                then Frame.dE fr else Frame.dE fr in
      let d := map (λ i, inject_Z i * dk)%Q
                   (seqZ 1 (Z.of_nat (length cov))) in
      _ ← py_modify (with_covariance_func (Some (cov, d)));
      mret (cov, d)
  end.

Definition covariance (distance : matrix) : Py t matrix :=
  self ← py_get;
  '(d, cov) ← match _covariance_interp self with
              | Some f => mret f
              | None =>
                  '(cov, d) ← covariance_func;
                  _ ← py_modify (with__covariance_interp (Some (d, cov)));
                  mret (d, cov)
              end;
  mret (map (map (interp1d_nearest d cov)) distance).

Definition variance : Py t Q :=
  '(cov, _) ← covariance_func;
  py_lift (num_max cov).

Definition _mapLeafs (nx ny : nat) : Py t (QuadNode.t * QuadNode.t) :=
  ls ← quadtree_leafs;
  leaf1 ← getitem ls nx;
  ls ← quadtree_leafs;
  leaf2 ← getitem ls ny;
  self ← py_get;
  match _leaf_mapping self with
  | None => py_raise (AttributeError "_leaf_mapping")
  | Some m =>
      _ ← py_modify (with__leaf_mapping
                       (Some (<[QuadNode.id leaf2 := ny]>
                                (<[QuadNode.id leaf1 := nx]> m))));
      mret (leaf1, leaf2)
  end.

Definition _leafFocalDistance (scene : Scene.t) (leaf1 leaf2 : QuadNode.t)
  : Q :=
  let p1 := QuadNode.focal_point scene leaf1 in
  let p2 := QuadNode.focal_point scene leaf2 in
  num_sqrt ((p1.1 - p2.1) ^ 2 + (p1.2 - p2.2) ^ 2)%Q.

(** Calculates the covariance matrix *)
Definition _calcDistanceMatrix (method : distance_method) (nthreads : Z)
  : Py t matrix :=
  _ ← py_modify (with__initialized true);
  ls ← quadtree_leafs;
  let nl := length ls in
  _ ← py_modify (with__leaf_mapping (Some ∅));
  dist_matrix ←
    match method with
    | focal =>
        py_for (triu_indices nl)
          (λ '(nx, ny) dist_matrix,
             '(leaf1, leaf2) ← _mapLeafs nx ny;
             self ← py_get;
             let dist := _leafFocalDistance
                           (Quadtree.scene (_quadtree self)) leaf1 leaf2 in
             mret (mset ny nx dist (mset nx ny dist dist_matrix)))
          (num_zeros nl nl)
    | matrix_c =>
        ls ← quadtree_leafs;
        leaf_map ←
          py_for (seq 0 (length ls))
            (λ nl leaf_map,
               '(leaf, _) ← _mapLeafs nl nl;
               let r0 := QuadNode.llr leaf in
               let c0 := QuadNode.llc leaf in
               let n := QuadNode.length leaf in
               mret (leaf_map ++ [(uint32 r0, uint32 (r0 + n),
                                   uint32 c0, uint32 (c0 + n))]))
            [];
        self ← py_get;
        let fr := Scene.frame (_scene self) in
        mret (leaf_distances (filled (Frame.gridE fr))
                             (filled (Frame.gridN fr)) leaf_map nthreads)
    end;
  cov_matrix ← covariance dist_matrix;
  v ← variance;
  mret (fill_diagonal v cov_matrix).

Definition covariance_matrix : Py t matrix :=
  self ← py_get;
  match cached_covariance_matrix self with
  | Some m => mret m
  | None =>
      m ← _calcDistanceMatrix matrix_c 0;
      _ ← py_modify (with_covariance_matrix (Some m));
      mret m
  end.

Definition covariance_matrix_focal : Py t matrix :=
  self ← py_get;
  match cached_covariance_matrix_focal self with
  | Some m => mret m
  | None =>
      m ← _calcDistanceMatrix focal 0;
      _ ← py_modify (with_covariance_matrix_focal (Some m));
      mret m
  end.

Definition weight_matrix : Py t matrix :=
  self ← py_get;
  match cached_weight_matrix self with
  | Some m => mret m
  | None =>
      c ← covariance_matrix;
      m ← py_lift (linalg_inv c);
      _ ← py_modify (with_weight_matrix (Some m));
      mret m
  end.

Definition leaf_id (leaf : leaf_ref) : string :=
  match leaf with
  | LeafId s => s
  | LeafNode n => QuadNode.id n
  end.

(** The message of [KeyError('Unknown quadtree leaf with id %s' % e)],
    where [e] is the [KeyError] of the failed lookup of [id]. *)
Definition unknown_leaf (id : string) : exn :=
  KeyError ("Unknown quadtree leaf with id '" +:+ id +:+ "'").

(** [if not self._initialized: self.covariance_matrix_focal] *)
Definition ensure_initialized : Py t unit :=
  self ← py_get;
  if _initialized self then mret tt
  else _ ← covariance_matrix_focal; mret tt.

Definition _getMapping (leaf1 leaf2 : leaf_ref) : Py t (nat * nat) :=
  let leaf1 := leaf_id leaf1 in
  let leaf2 := leaf_id leaf2 in
  _ ← ensure_initialized;
  self ← py_get;
  match _leaf_mapping self with
  | None => py_raise (AttributeError "_leaf_mapping")
  | Some m =>
      match m !! leaf1 with
      | None => py_raise (unknown_leaf leaf1)
      | Some i =>
          match m !! leaf2 with
          | None => py_raise (unknown_leaf leaf2)
          | Some j => mret (i, j)
          end
      end
  end.

Definition getCovariance (leaf1 leaf2 : leaf_ref) : Py t Q :=
  m ← covariance_matrix;
  '(i, j) ← _getMapping leaf1 leaf2;
  match mget m i j with
  | Some v => mret v
  | None => py_raise IndexError
  end.

(** [Covariance(quadtree, config)] *)
Definition __init__ (quadtree : Quadtree.t) (config : CovarianceConfig.t)
  : result t :=
  _scene ← QuadtreeAttr.getattr quadtree "_scene";
  _log ← QuadtreeAttr.getattr quadtree "_log";
  treeUpdate ← QuadtreeAttr.getattr quadtree "treeUpdate";
  match _scene with
  | PyScene s =>
      Ok (mk config quadtree s None None false None None None None None
             None)
  | _ => Raise (AttributeError "frame")
  end.

End Methods.
End Covariance.

(** ** Vocabulary of the properties *)

Definition is_pow2 (n : Z) : Prop := ∃ k, 0 ≤ k ∧ n = 2 ^ k.

(** The node without its subtree. *)
Definition strip (n : QuadNode.t) : QuadNode.t :=
  QuadNode.new (QuadNode.llr n) (QuadNode.llc n) (QuadNode.length n).

(** The square of pixel positions a node stands for. *)
Definition footprint (n : QuadNode.t) (r c : Z) : Prop :=
  QuadNode.llr n ≤ r < QuadNode.llr n + QuadNode.length n ∧
  QuadNode.llc n ≤ c < QuadNode.llc n + QuadNode.length n.

(** Corner at a non-negative position, side a power of two. *)
Definition root_ok (n : QuadNode.t) : Prop :=
  is_pow2 (QuadNode.length n) ∧ 0 ≤ QuadNode.llr n ∧ 0 ≤ QuadNode.llc n.

Definition quadrant_indices : list (Z * Z) := [(0, 0); (0, 1); (1, 0); (1, 1)].

(** A metric that reads the node's window only. *)
Definition reads_geometry_only (f : QuadNode.t → fval) : Prop :=
  ∀ n, f n = f (strip n).

(** Smallest side length in a list of nodes *)
Definition min_length (ls : list QuadNode.t) : option Z :=
  match ls with
  | [] => None
  | l :: r => Some (fold_left Z.min (map QuadNode.length r) (QuadNode.length l))
  end.

Module Run.
Section Run.
Context `{Numpy}.

(** The operations of a Quadtree object that change it. *)
Inductive call : Type :=
  | SetEpsilon (value : fval)
  | SetNanAllowed (value : Q)
  | SetTileSizeMin (value : Q)
  | SetTileSizeMax (value : Q)
  | SetCorrection (correction : string)
  | SetConfig (config : QuadtreeConfig.t)
  | GetLeafs
  | GetNodes.

Definition exec (c : call) : Py Quadtree.t unit :=
  match c with
  | SetEpsilon v => Quadtree.set_epsilon v
  | SetNanAllowed v => Quadtree.set_nan_allowed v
  | SetTileSizeMin v => Quadtree.set_tile_size_min v
  | SetTileSizeMax v => Quadtree.set_tile_size_max v
  | SetCorrection s => Quadtree.setCorrection s
  | SetConfig cfg => Quadtree.setConfig cfg
  | GetLeafs => _ ← Quadtree.leafs; mret tt
  | GetNodes => _ ← Quadtree.nodes; mret tt
  end.

(** The Quadtree objects a program can hold: constructed, then used. *)
Inductive reachable : Quadtree.t → Prop :=
  | reachable_init scene config self :
      Quadtree.__init__ scene config = Ok self → reachable self
  | reachable_call self c self' :
      reachable self → exec c self = Ok (tt, self') → reachable self'.

(** A tree as [createTree] leaves it, grown from a node that lies in the
    raster's index range and whose side is a power of two. *)
Definition Built (self : Quadtree.t) (n : QuadNode.t) : Prop :=
  ∃ fuel n0,
    root_ok n0 ∧
    QuadNode.createTree (Quadtree.scene self) (Quadtree._corr_func self)
                        (Quadtree.epsilon_min self) fuel n0 = Ok n.

(** The leaf list [leafs] computes when nothing is cached. *)
Definition compute_leafs (self : Quadtree.t) (bs : list QuadNode.t)
  : result (list QuadNode.t) :=
  lss ← mapM (λ b, ls ← Quadtree.iterLeafs self b;
                   Quadtree.filter_nan_allowed self ls) bs;
  Ok (concat lss).

(** [self.epsilon = value; return self.leafs] *)
Definition leafs_at (value : fval) : Py Quadtree.t (list QuadNode.t) :=
  _ ← Quadtree.set_epsilon value; Quadtree.leafs.

End Run.
End Run.

(** ** Further vocabulary *)

(** Samples and NaN samples in the window of a node *)
Definition samples (scene : Scene.t) (n : QuadNode.t) : Z :=
  size2 (QuadNode.displacement scene n).

Definition nans (scene : Scene.t) (n : QuadNode.t) : Z :=
  QuadNode.num_sum (QuadNode.displacement_mask scene n).

Definition count_nan (l : list fval) : Z :=
  Z.of_nat (length (filter (λ b, b = true) (map f_isnan l))).

(** [f2] is a coarsening of [f1]: no more leaves, and none smaller than
    every leaf of [f1]. *)
Definition coarser (f2 f1 : list QuadNode.t) : Prop :=
  (length f2 ≤ length f1)%nat ∧
  ∀ y, y ∈ f2 → ∃ x, x ∈ f1 ∧ QuadNode.length x ≤ QuadNode.length y.

Definition square (n : nat) (a : matrix) : Prop :=
  length a = n ∧ Forall (λ row, length row = n) a.

Definition symmetric (a : matrix) : Prop := ∀ i j, mget a i j = mget a j i.

Module Inv.
Section Inv.
Context `{Numpy}.

(** Invariants of the reachable Quadtree objects. *)
Definition corr_ok (q : Quadtree.t) : Prop :=
  ∃ name lbl f, Quadtree._corrections !! name = Some (lbl, f) ∧
                Quadtree._corr_func q = f (Quadtree.scene q).

Definition trees_ok (q : Quadtree.t) : Prop :=
  ∃ bs, Quadtree.cached__base_nodes q = Some bs ∧ Forall (Run.Built q) bs.

Definition leafs_ok (q : Quadtree.t) : Prop :=
  ∀ ls, Quadtree.cached_leafs q = Some ls →
        ∃ bs, Quadtree.cached__base_nodes q = Some bs ∧
              Run.compute_leafs q bs = Ok ls.

Definition inv (q : Quadtree.t) : Prop := corr_ok q ∧ trees_ok q ∧ leafs_ok q.

Definition base_ok (q : Quadtree.t) : Prop :=
  ∀ bs, Quadtree.cached__base_nodes q = Some bs → Forall root_ok bs.

End Inv.
End Inv.

Module Walk.
Section Walk.
Context `{Numpy}.
Variable corr : QuadNode.t → fval.
Variable lim : result (Z * Z).

(** The [elif]/[else] part of [iterLeafs] *)
Definition descend (eps : option fval) (self : QuadNode.t)
    (cs : list QuadNode.t) : result (list QuadNode.t) :=
  match cs with
  | [] => Raise IndexError
  | c0 :: _ =>
      lm ← lim;
      if QuadNode.length c0 <? lm.1 then Ok [self]
      else ls ← mapM (QuadNode.iterLeafs corr eps lim) cs; Ok (concat ls)
  end.

(** The walk reports the node itself. *)
Definition stops (eps : option fval) (n : QuadNode.t) : Prop :=
  QuadNode.children n = None ∨
  (QuadNode.below_epsilon corr eps n = true ∧
   ∃ lm, lim = Ok lm ∧ QuadNode.length n ≤ lm.2) ∨
  (∃ c0 cs lm, QuadNode.children n = Some (c0 :: cs) ∧ lim = Ok lm ∧
               QuadNode.length c0 < lm.1).

End Walk.
End Walk.

(** ** Example inputs *)

Module Examples.

Definition finite_values (l : list fval) : list Q :=
  omap (λ x, match x with Fin q => Some q | NaN => None end) l.

Definition Qmaxl (l : list Q) : option Q :=
  match l with
  | [] => None
  | x :: r => Some (fold_left (λ a b, if Qle_bool a b then b else a) r x)
  end.

Definition Qminl (l : list Q) : option Q :=
  match l with
  | [] => None
  | x :: r => Some (fold_left (λ a b, if Qle_bool a b then a else b) r x)
  end.

(** Largest minus smallest finite value; NaN when there is none. *)
Definition spread (l : list fval) : fval :=
  match Qmaxl (finite_values l), Qminl (finite_values l) with
  | Some a, Some b => Fin (Qred (a - b))
  | _, _ => NaN
  end.

Definition smallest (l : list fval) : fval :=
  match Qminl (finite_values l) with Some a => Fin a | None => NaN end.

Definition Qdist (a b : Q) : Q := if Qle_bool a b then b - a else a - b.

(** Value of the sample nearest to [x]; 0 beyond the last sample. *)
Definition nearest (d cov : list Q) (x : Q) : Q :=
  match zip d cov, last d with
  | p :: ps, Some dmax =>
      if Qlt_bool dmax x then 0%Q
      else (fold_left (λ best p', if Qlt_bool (Qdist p'.1 x) (Qdist best.1 x)
                                  then p' else best) ps p).2
  | _, _ => 0%Q
  end.

(** A stand-in for the numerical library, exact on rationals: the spread
    takes the place of the standard deviation, the smallest value the place
    of mean and median, and the binned spectrum is 1, 2, 3, ... *)
Definition numpy : Numpy := {|
  nanstd := spread;
  nanmean := smallest;
  nanmedian := smallest;
  derampMatrix m := m;
  num_sqrt x := x;
  num_median l := default 0%Q (Qminl l);
  trimMatrix m := m;
  binned_power noise dE dN bins :=
    map (λ i, Fin (inject_Z (Z.of_nat i) + 1)) (seq 0 (length bins - 1));
  dct2 l := l;
  interp1d_nearest := nearest
|}.

Definition raster {A} (rows cols : nat) (f : Z → Z → A) : list (list A) :=
  map (λ r, map (λ c, f (Z.of_nat r) (Z.of_nat c)) (seq 0 cols)) (seq 0 rows).

Definition plain_frame : Frame.t := Frame.mk 1 1 [] [].

(** 40 x 40 samples, all zero *)
Definition flat_scene : Scene.t :=
  Scene.mk (raster 40 40 (λ _ _, Fin 0)) plain_frame.

(** 40 x 40 samples: a single 1 in the corner, zero elsewhere, and the
    samples of rows 30.. in columns 32.. missing *)
Definition step_scene : Scene.t :=
  Scene.mk (raster 40 40 (λ r c, if (r =? 0) && (c =? 0) then Fin 1
                                 else if (30 <=? r) && (32 <=? c) then NaN
                                 else Fin 0))
           plain_frame.

(** Tiles from 1 m to 1000 m, at most 90 % NaN *)
Definition fine_config : QuadtreeConfig.t :=
  QuadtreeConfig.mk "median" None (9 # 10) 1 1000.

(** Tiles from 1 m to 1000 m, at most 1/32 NaN *)
Definition strict_config : QuadtreeConfig.t :=
  QuadtreeConfig.mk "median" None (1 # 32) 1 1000.

(** 2 x 4 samples with their coordinates; east spacing 1, north spacing 2 *)
Definition grid_frame : Frame.t :=
  Frame.mk 1 2 (raster 2 4 (λ r c, Some (inject_Z c)))
               (raster 2 4 (λ r c, Some (2 * inject_Z r)%Q)).

Definition grid_scene : Scene.t :=
  Scene.mk (raster 2 4 (λ _ _, Fin 0)) grid_frame.

(** The object a constructor returned; the fallback is not reached for the
    inputs below. *)
Definition constructed (q : result Quadtree.t) (scene : Scene.t) : Quadtree.t :=
  match q with
  | Ok q => q
  | Raise _ =>
      Quadtree.mk scene QuadtreeConfig.default (λ _, NaN) None None None [] O O
  end.

Definition flat_quadtree : Quadtree.t :=
  constructed (@Quadtree.__init__ numpy flat_scene QuadtreeConfig.default)
              flat_scene.

Definition step_quadtree : Quadtree.t :=
  constructed (@Quadtree.__init__ numpy step_scene fine_config) step_scene.

Definition strict_quadtree : Quadtree.t :=
  constructed (@Quadtree.__init__ numpy step_scene strict_config) step_scene.

(** Nodes of these trees *)
Definition leaf_node (llr llc length : Z) : QuadNode.t :=
  QuadNode.mk llr llc length None.

Definition flat_root : QuadNode.t :=
  QuadNode.mk 0 0 64 (Some [leaf_node 0 0 32; leaf_node 0 32 32;
                            leaf_node 32 0 32; leaf_node 32 32 32]).

Definition step_node16 : QuadNode.t :=
  QuadNode.mk 0 0 16 (Some [leaf_node 0 0 8; leaf_node 0 8 8;
                            leaf_node 8 0 8; leaf_node 8 8 8]).

Definition step_node32 : QuadNode.t :=
  QuadNode.mk 0 0 32 (Some [step_node16; leaf_node 0 16 16;
                            leaf_node 16 0 16; leaf_node 16 16 16]).

Definition step_root : QuadNode.t :=
  QuadNode.mk 0 0 64 (Some [step_node32; leaf_node 0 32 32;
                            leaf_node 32 0 32]).

Definition grid_quadtree : Quadtree.t :=
  constructed (@Quadtree.__init__ numpy grid_scene QuadtreeConfig.default)
              grid_scene.

(** A Covariance object on [grid_quadtree] with a noise patch of 4 rows and
    8 columns supplied through [setNoiseData]. *)
Definition grid_covariance : Covariance.t :=
  Covariance.mk CovarianceConfig.default grid_quadtree grid_scene
                (Some (raster 4 8 (λ _ _, 0%Q)))
                None false None None None None None None.

End Examples.

(** ** Vocabulary of the further properties *)

(** Every pixel position of [m] is one of [n]. *)
Definition within (m n : QuadNode.t) : Prop :=
  ∀ r c, footprint m r c → footprint n r c.

(** No pixel position belongs to both nodes. *)
Definition apart (m n : QuadNode.t) : Prop :=
  ∀ r c, ¬ (footprint m r c ∧ footprint n r c).

(** No two entries of the list share a pixel position. *)
Fixpoint pairwise_apart (l : list QuadNode.t) : Prop :=
  match l with
  | [] => True
  | x :: r => Forall (apart x) r ∧ pairwise_apart r
  end.

Module Valid.
Section Valid.
Context `{Numpy}.


(** The pixel size [_tile_size_lim_px] divides by: the larger of the two
    spacings of the frame. *)
Definition pixel_size (q : Quadtree.t) : Q :=
  if Qlt_bool (Frame.dN (Quadtree.frame q)) (Frame.dE (Quadtree.frame q))
  then Frame.dE (Quadtree.frame q) else Frame.dN (Quadtree.frame q).

(** The pixel limits [_tile_size_lim_px] computes from the tile sizes the
    object has now, whatever is cached. *)
Definition fresh__tile_size_lim_px (q : Quadtree.t) : result (Z * Z) :=
  Quadtree.eval__tile_size_lim_px (Quadtree.with__tile_size_lim_px None q).

(** The cached pixel limits, if any, are those of the tile sizes the
    object has now. *)
Definition limits_current (q : Quadtree.t) : Prop :=
  ∀ lm, Quadtree.cached__tile_size_lim_px q = Some lm →
        fresh__tile_size_lim_px q = Ok lm.

End Valid.
End Valid.

(** Side of the base tiles of a raster with the given shape, and the
    base tiles themselves, as [_base_nodes] computes them. *)
Definition base_length (rows cols : Z) : Z := 2 ^ Z.log2_up (Z.min rows cols).

Definition base_grid (rows cols : Z) : list QuadNode.t :=
  let init_length := base_length rows cols in
  let nx := (rows + init_length - 1) / init_length in
  let ny := (cols + init_length - 1) / init_length in
  ir ← seqZ 0 nx; ic ← seqZ 0 ny;
  [QuadNode.new (ir * init_length) (ic * init_length) init_length].

(** The names [setCorrection] accepts. *)
Definition correction_names : list string :=
  ["mean"; "median"; "bilinear"; "std"].

Module Grid.
Section Grid.
Context `{Numpy}.

(** The base tiles a Quadtree object holds are those of its raster. *)
Definition grid_ok (q : Quadtree.t) : Prop :=
  ∀ bs, Quadtree.cached__base_nodes q = Some bs →
        0 < Z.min (shape2 (Quadtree.displacement q)).1
                  (shape2 (Quadtree.displacement q)).2 ∧
        map strip bs = base_grid (shape2 (Quadtree.displacement q)).1
                                 (shape2 (Quadtree.displacement q)).2.

End Grid.
End Grid.

Module More.
Section More.
Context `{Numpy}.

(** [self.nan_allowed = value; return self.leafs] *)
Definition leafs_allowing (value : Q) : Py Quadtree.t (list QuadNode.t) :=
  _ ← Quadtree.set_nan_allowed value; Quadtree.leafs.

End More.
End More.

(** ** Further example inputs *)

Module MoreExamples.
Import Examples.

(** 64 x 128 samples: zero in the left half, none in the right half *)
Definition gap_scene : Scene.t :=
  Scene.mk (raster 64 128 (λ r c, if 64 <=? c then NaN else Fin 0))
           plain_frame.

Definition gap_quadtree : Quadtree.t :=
  constructed (@Quadtree.__init__ numpy gap_scene fine_config) gap_scene.

End MoreExamples.

(** ** Leaf values cast to the raster *)

(** [a[i, j]] *)
Definition get2 {A} (a : list (list A)) (i j : nat) : option A :=
  a !! i ≫= (.!! j).

(** Whether position [i] lies in the slice [start:stop] of a sequence of
    [n] items. *)
Definition in_slice (start stop n : Z) (i : nat) : bool :=
  (slice_index start n <=? Z.of_nat i) && (Z.of_nat i <? slice_index stop n).

(** [a[r0:r1, c0:c1] = v] *)
Definition assign_window {A} (r0 r1 c0 c1 : Z) (v : A) (a : list (list A))
  : list (list A) :=
  imap (λ i row,
          if in_slice r0 r1 (Z.of_nat (length a)) i
          then imap (λ j x, if in_slice c0 c1 (Z.of_nat (length row)) j
                            then v else x) row
          else row) a.

(** [a[mask] = v] for a boolean mask of the shape of [a] *)
Definition assign_masked {A} (mask : list (list bool)) (v : A)
    (a : list (list A)) : list (list A) :=
  zip_with (zip_with (λ (m : bool) x, if m then v else x)) mask a.

(** Whether the pixel position lies in the node's square. *)
Definition covers (n : QuadNode.t) (i j : nat) : bool :=
  (QuadNode.llr n <=? Z.of_nat i)
  && (Z.of_nat i <? QuadNode.llr n + QuadNode.length n)
  && (QuadNode.llc n <=? Z.of_nat j)
  && (Z.of_nat j <? QuadNode.llc n + QuadNode.length n).

Module LeafMatrix.
Section LeafMatrix.
Context `{Numpy}.

(** [n.weight], which asks the covariance of the scene for the node's
    weight and may raise. *)
Variable weight : QuadNode.t → result fval.

(** Modelled from the spec: the scene's boolean NaN mask, true where the
    displacement array holds NaN. *)
Definition scene_displacement_mask (scene : Scene.t) : list (list bool) :=
  map (map f_isnan) (Scene.displacement scene).

Definition _norm_methods (scene : Scene.t)
  : gmap string (QuadNode.t → result fval) :=
  list_to_map [ ("mean", λ n, Ok (QuadNode.mean scene n));
                ("median", λ n, Ok (QuadNode.median scene n));
                ("weight", weight) ].

(** [for l in leafs: array[l._slice_rows, l._slice_cols] = norm(l)] *)
Fixpoint fill_leafs (norm : QuadNode.t → result fval)
    (leafs : list QuadNode.t) (array : list (list fval))
  : result (list (list fval)) :=
  match leafs with
  | [] => Ok array
  | l :: leafs' =>
      v ← norm l;
      fill_leafs norm leafs'
        (assign_window (QuadNode.llr l) (QuadNode.llr l + QuadNode.length l)
                       (QuadNode.llc l) (QuadNode.llc l + QuadNode.length l)
                       v array)
  end.

(** The buffer is overwritten in full, so what it held does not matter;
    it has the shape of the displacement array. *)
Definition _getLeafsNormMatrix (method : string)
  : Py Quadtree.t (list (list fval)) :=
  self ← py_get;
  match _norm_methods (Quadtree.scene self) !! method with
  | None => py_raise (AttributeError ("Method " +:+ method))
  | Some norm =>
      let array := map (map (λ _, NaN)) (Quadtree.displacement self) in
      ls ← Quadtree.leafs;
      array ← py_lift (fill_leafs norm ls array);
      mret (assign_masked (scene_displacement_mask (Quadtree.scene self))
                          NaN array)
  end.

Definition leaf_matrix_means : Py Quadtree.t (list (list fval)) :=
  _getLeafsNormMatrix "mean".

Definition leaf_matrix_medians : Py Quadtree.t (list (list fval)) :=
  _getLeafsNormMatrix "median".

Definition leaf_matrix_weights : Py Quadtree.t (list (list fval)) :=
  _getLeafsNormMatrix "weight".

End LeafMatrix.
End LeafMatrix.

(** ** Identifiers *)

(** The character does not occur in the string. *)
Fixpoint free_of (c : Ascii.ascii) (s : string) : Prop :=
  match s with
  | EmptyString => True
  | String a s' => a ≠ c ∧ free_of c s'
  end.


(** * Properties *)

Import Inv.

Ltac py_simpl :=
  unfold mbind, mret, Py_bind, Py_ret, py_get, py_modify, py_lift, py_raise
    in *; simpl in *.

(** ** Trees built by createTree *)

Lemma QuadNode_ind' (P : QuadNode.t → Prop) :
  (∀ r c l, P (QuadNode.mk r c l None)) →
  (∀ r c l cs, Forall P cs → P (QuadNode.mk r c l (Some cs))) →
  ∀ n, P n.
Proof.
  intros Hleaf Hsplit. fix IH 1. intros [r c l [cs|]]; [|apply Hleaf].
  apply Hsplit. induction cs as [|c' cs IHcs]; constructor; auto.
Qed.

Lemma mapM_result_Ok {A B} (f : A → result B) (l : list A) (k : list B) :
  mapM f l = Ok k ↔ Forall2 (λ x y, f x = Ok y) l k.
Proof.
  revert k. induction l as [|x l IH]; intros k; simpl.
  - split; [intros [= <-]; constructor | intros Hk; inversion Hk; done].
  - unfold mbind, mret, result_bind, result_ret.
    destruct (f x) as [y|e] eqn:Hx.
    + destruct (mapM f l) as [k'|e] eqn:Hl.
      * split.
        -- intros [= <-]. constructor; [done|]. by apply IH.
        -- intros Hk. inversion Hk as [|? y' ? k'' Hy Hk']; subst.
           apply IH in Hk'. congruence.
      * split; [done|]. intros Hk. inversion Hk as [|? y' ? k'' Hy Hk']; subst.
        apply IH in Hk'. done.
    + split; [done|]. intros Hk. inversion Hk; subst. congruence.
Qed.


Lemma elem_of_concat {A} (x : A) (ls : list (list A)) :
  x ∈ concat ls ↔ ∃ l, x ∈ l ∧ l ∈ ls.
Proof.
  induction ls as [|l ls IH]; simpl.
  - split; [by intros ?%not_elem_of_nil | by intros (? & _ & ?%not_elem_of_nil)].
  - rewrite elem_of_app, IH. split.
    + intros [Hx|(l' & Hx & Hl')]; [exists l | exists l'];
        (split; [done|]); [left | by right].
    + intros (l' & Hx & Hl'). apply elem_of_cons in Hl' as [->|Hl']; eauto.
Qed.

Lemma mapM_result_total {A B} (f : A → result B) (l : list A) :
  Forall (λ x, ∃ y, f x = Ok y) l → ∃ k, mapM f l = Ok k.
Proof.
  induction 1 as [|x l [y Hy] _ [k Hk]]; [by exists []|].
  exists (y :: k). apply mapM_result_Ok. constructor; [done|].
  by apply mapM_result_Ok.
Qed.

Lemma mapM_result_Some {A B} (f : A → result B) (g : option A → result B)
    (l : list A) :
  (∀ x, g (Some x) = f x) → mapM g (map Some l) = mapM f l.
Proof.
  intros Hg. induction l as [|x l IH]; [done|].
  simpl. by rewrite Hg, IH.
Qed.

Section Node.
Context `{Numpy}.
Variable scene : Scene.t.
Variable _corr_func : QuadNode.t → fval.
Variable epsilon_min : fval.

Abbreviation createTree := (QuadNode.createTree scene _corr_func epsilon_min).
Abbreviation split_test := (QuadNode.split_test _corr_func epsilon_min).
Abbreviation kept_quadrants n0 :=
  (filter (λ q, QuadNode.omitted scene q = false)
          (map (QuadNode.quadrant n0) quadrant_indices)).

Lemma split_test_length self : split_test self = true → 16 ≤ QuadNode.length self.
Proof. unfold QuadNode.split_test. intros Hs. apply andb_prop in Hs as [_ Hs]. lia. Qed.

Lemma _iterSplitNode_split self :
  QuadNode.length self ≠ 1 →
  QuadNode._iterSplitNode scene self = map Some (kept_quadrants self).
Proof.
  intros Hl. unfold QuadNode._iterSplitNode.
  destruct (QuadNode.length self =? 1) eqn:E; [lia|done].
Qed.

Lemma createTree_inv fuel n0 n :
  createTree fuel n0 = Ok n →
  ∃ fuel', fuel = S fuel' ∧ strip n = strip n0 ∧
    if split_test n0
    then ∃ cs, QuadNode.children n = Some cs ∧
               Forall2 (λ q c, createTree fuel' q = Ok c) (kept_quadrants n0) cs
    else QuadNode.children n = None.
Proof.
  destruct fuel as [|fuel']; [done|]. intros Hc. exists fuel'.
  split; [done|]. simpl in Hc.
  destruct (split_test n0) eqn:Hs.
  - rewrite _iterSplitNode_split in Hc
      by (apply split_test_length in Hs; lia).
    rewrite (mapM_result_Some (createTree fuel')) in Hc by done.
    destruct (mapM (createTree fuel') (kept_quadrants n0)) as [cs|e] eqn:Hm;
      [|done].
    injection Hc as <-. split; [done|].
    exists cs. split; [done|]. by apply mapM_result_Ok.
  - injection Hc as <-. done.
Qed.

Lemma elem_of_iterChildren m n :
  m ∈ QuadNode.iterChildren n ↔
  m = n ∨ ∃ cs c, QuadNode.children n = Some cs ∧ c ∈ cs ∧
                  m ∈ QuadNode.iterChildren c.
Proof.
  destruct n as [r c l [cs|]]; simpl.
  - rewrite elem_of_cons. apply or_iff_compat_l. split.
    + intros Hm. apply elem_of_concat in Hm as (l' & Hm & Hl').
      apply list_elem_of_fmap in Hl' as (c' & -> & Hc'). eauto.
    + intros (cs' & c' & [= <-] & Hc' & Hm).
      apply elem_of_concat. exists (QuadNode.iterChildren c').
      split; [done|]. apply list_elem_of_fmap. eauto.
  - rewrite elem_of_cons. apply or_iff_compat_l. split.
    + intros Hm. by apply not_elem_of_nil in Hm.
    + by intros (cs' & c' & [=] & _).
Qed.

Lemma strip_length n m : strip n = strip m → QuadNode.length n = QuadNode.length m.
Proof. unfold strip, QuadNode.new. by intros [= _ _ ->]. Qed.

Lemma quadrant_strip n m i :
  strip n = strip m → QuadNode.quadrant n i = QuadNode.quadrant m i.
Proof.
  unfold strip, QuadNode.new, QuadNode.quadrant.
  intros [= -> -> ->]. done.
Qed.

Lemma quadrant_length n i :
  QuadNode.length (QuadNode.quadrant n i) = QuadNode.length n / 2.
Proof. by destruct i. Qed.

Lemma is_pow2_half n : is_pow2 n → 2 ≤ n → is_pow2 (n / 2) ∧ n = 2 * (n / 2).
Proof.
  intros (k & Hk & ->) Hn.
  assert (k ≠ 0) by (intros ->; simpl in Hn; lia).
  replace k with (Z.succ (k - 1)) by lia.
  rewrite Z.pow_succ_r by lia.
  replace (2 * 2 ^ (k - 1) / 2) with (2 ^ (k - 1))
    by (symmetry; rewrite Z.mul_comm; apply Z.div_mul; lia).
  split; [exists (k - 1); split; [lia|done] | done].
Qed.

Lemma root_ok_quadrant n i :
  root_ok n → 16 ≤ QuadNode.length n → i ∈ quadrant_indices →
  root_ok (QuadNode.quadrant n i).
Proof.
  intros (Hp & Hr & Hc) Hl Hi.
  destruct (is_pow2_half _ Hp ltac:(lia)) as [Hh Heq].
  split; [by rewrite quadrant_length|].
  unfold quadrant_indices in Hi.
  repeat (apply elem_of_cons in Hi as [->|Hi]; [simpl; lia|]).
  by apply not_elem_of_nil in Hi.
Qed.

(** Every node of a tree that [createTree] returns was itself returned by
    [createTree], run on a node of the same geometry. *)
Lemma createTree_nodes fuel n0 n m :
  createTree fuel n0 = Ok n →
  m ∈ QuadNode.iterChildren n →
  ∃ fuel' m0, createTree fuel' m0 = Ok m ∧ (root_ok n0 → root_ok m0).
Proof.
  revert n0 n. induction fuel as [|fuel IH]; intros n0 n Hc Hm; [done|].
  apply elem_of_iterChildren in Hm as [->|(cs & c & Hcs & Hc' & Hm)];
    [by eauto|].
  apply createTree_inv in Hc as (fuel' & [= <-] & Hg & Hsplit).
  destruct (split_test n0) eqn:Hs; [|congruence].
  destruct Hsplit as (cs' & Hcs' & HF). assert (cs' = cs) as -> by congruence.
  apply list_elem_of_lookup in Hc' as [i Hi].
  destruct (Forall2_lookup_r _ _ _ _ _ HF Hi) as (q & Hq & Hqc).
  destruct (IH _ _ Hqc Hm) as (fuel' & m0 & Hm0 & Hp).
  exists fuel', m0. split; [done|]. intros Hp0. apply Hp.
  apply list_elem_of_lookup_2, list_elem_of_filter in Hq as [_ Hq].
  apply list_elem_of_fmap in Hq as (j & -> & Hj).
  apply split_test_length in Hs. by apply root_ok_quadrant.
Qed.

Lemma createTree_total fuel n0 :
  (Z.to_nat (QuadNode.length n0) < fuel)%nat → ∃ n, createTree fuel n0 = Ok n.
Proof.
  revert n0. induction fuel as [|fuel IH]; intros n0 Hf; [lia|].
  simpl. destruct (split_test n0) eqn:Hs; [|by eauto].
  pose proof (split_test_length _ Hs) as Hl.
  rewrite _iterSplitNode_split by lia.
  rewrite (mapM_result_Some (createTree fuel)) by done.
  destruct (mapM_result_total (createTree fuel) (kept_quadrants n0)) as [cs ->];
    [|by eauto].
  apply Forall_forall. intros q Hq.
  apply list_elem_of_filter in Hq as [_ Hq].
  apply list_elem_of_fmap in Hq as (j & -> & _).
  apply IH. rewrite quadrant_length.
  assert (QuadNode.length n0 / 2 < QuadNode.length n0)
    by (apply Z.div_lt; lia).
  assert (0 ≤ QuadNode.length n0 / 2) by (apply Z.div_pos; lia).
  lia.
Qed.

(** A node has children exactly when the split test holds for it. *)
Lemma createTree_has_children fuel n0 n :
  reads_geometry_only _corr_func →
  createTree fuel n0 = Ok n →
  QuadNode.has_children n = split_test n.
Proof.
  intros Hg Hc. apply createTree_inv in Hc as (fuel' & _ & Hs & Hsplit).
  assert (split_test n = split_test n0) as ->.
  { unfold QuadNode.split_test. rewrite (Hg n), (Hg n0), Hs.
    by rewrite (strip_length _ _ Hs). }
  unfold QuadNode.has_children.
  destruct (split_test n0).
  - by destruct Hsplit as (cs & -> & _).
  - by rewrite Hsplit.
Qed.

End Node.

(** ** Invariants of reachable quadtrees *)

Section Inv.
Context `{Numpy}.

Lemma corrections_lookup name lbl f :
  Quadtree._corrections !! name = Some (lbl, f) →
  f = QuadNode.corr_mean ∨ f = QuadNode.corr_median ∨
  f = QuadNode.corr_bilinear ∨ f = QuadNode.std.
Proof.
  unfold Quadtree._corrections. intros Hl.
  apply elem_of_list_to_map_2 in Hl.
  repeat (apply elem_of_cons in Hl as [Heq|Hl];
          [injection Heq as _ _ ->; by eauto|]).
  by apply not_elem_of_nil in Hl.
Qed.

Lemma corr_ok_geometry q : corr_ok q → reads_geometry_only (Quadtree._corr_func q).
Proof.
  intros (name & lbl & f & Hf & ->) [r c l cs].
  apply corrections_lookup in Hf as [-> | [-> | [-> | ->]]]; reflexivity.
Qed.

Lemma Built_frame q q' n :
  Quadtree.scene q' = Quadtree.scene q →
  Quadtree._corr_func q' = Quadtree._corr_func q →
  Run.Built q n → Run.Built q' n.
Proof.
  unfold Run.Built, Quadtree.epsilon_min, Quadtree._epsilon_init,
    Quadtree.displacement.
  by intros -> ->.
Qed.

Lemma filter_nan_allowed_frame q q' ls :
  Quadtree.scene q' = Quadtree.scene q →
  Quadtree.config q' = Quadtree.config q →
  Quadtree.filter_nan_allowed q' ls = Quadtree.filter_nan_allowed q ls.
Proof.
  intros Hs Hc. induction ls as [|l ls IH]; [done|].
  simpl. unfold Quadtree.nan_allowed. by rewrite Hs, Hc, IH.
Qed.

Lemma compute_leafs_frame q q' bs :
  Quadtree.scene q' = Quadtree.scene q →
  Quadtree._corr_func q' = Quadtree._corr_func q →
  Quadtree.config q' = Quadtree.config q →
  Quadtree.eval__tile_size_lim_px q' = Quadtree.eval__tile_size_lim_px q →
  Run.compute_leafs q' bs = Run.compute_leafs q bs.
Proof.
  intros Hs Hf Hc Hl. unfold Run.compute_leafs. f_equal.
  induction bs as [|b bs IH]; [done|].
  simpl. rewrite IH. f_equal.
  unfold Quadtree.iterLeafs, Quadtree.epsilon. rewrite Hf, Hc, Hl.
  destruct (QuadNode.iterLeafs _ _ _ b); [|done].
  simpl. by rewrite (filter_nan_allowed_frame q q').
Qed.

Lemma inv_frame q q' :
  Quadtree.scene q' = Quadtree.scene q →
  Quadtree._corr_func q' = Quadtree._corr_func q →
  Quadtree.cached__base_nodes q' = Quadtree.cached__base_nodes q →
  (Quadtree.cached_leafs q' = None ∨
   (Quadtree.cached_leafs q' = Quadtree.cached_leafs q ∧
    Quadtree.config q' = Quadtree.config q ∧
    Quadtree.eval__tile_size_lim_px q' = Quadtree.eval__tile_size_lim_px q)) →
  inv q → inv q'.
Proof.
  intros Hs Hf Hb Hl (Hc & (bs & Hbs & Ht) & Hlf). split; [|split].
  - destruct Hc as (name & lbl & f & Hn & Hq).
    exists name, lbl, f. by rewrite Hs, Hf.
  - exists bs. split; [congruence|].
    eapply Forall_impl; [done|]. intros n. by apply Built_frame.
  - intros ls Hls. destruct Hl as [Hl|(Hl & Hcfg & Hlim)]; [congruence|].
    rewrite Hl in Hls. destruct (Hlf ls Hls) as (bs' & Hbs' & Hcl).
    exists bs'. split; [congruence|].
    by rewrite (compute_leafs_frame q q').
Qed.

Lemma inv_set_epsilon v q q' :
  inv q → Quadtree.set_epsilon v q = Ok (tt, q') → inv q'.
Proof.
  intros Hi. unfold Quadtree.set_epsilon. py_simpl.
  destruct (match Quadtree.epsilon q with Some e => f_eq e v | None => false end);
    [by intros [= <-]|].
  destruct (f_lt v (Quadtree.epsilon_min q));
    intros [= <-]; (eapply inv_frame; [..|done]); try done; auto.
Qed.

Lemma inv_set_nan_allowed v q q' :
  inv q → Quadtree.set_nan_allowed v q = Ok (tt, q') → inv q'.
Proof.
  intros Hi. unfold Quadtree.set_nan_allowed. py_simpl.
  destruct (Qlt_bool 1 v || Qle_bool v 0);
    intros [= <-]; (eapply inv_frame; [..|done]); try done; auto.
Qed.

Lemma inv_set_tile_size_min v q q' :
  inv q → Quadtree.set_tile_size_min v q = Ok (tt, q') → inv q'.
Proof.
  intros Hi. unfold Quadtree.set_tile_size_min, Quadtree._tileSizeChanged.
  py_simpl.
  destruct (Qlt_bool (Quadtree.tile_size_max q) v);
    intros [= <-]; (eapply inv_frame; [..|done]); try done; auto.
Qed.

Lemma inv_set_tile_size_max v q q' :
  inv q → Quadtree.set_tile_size_max v q = Ok (tt, q') → inv q'.
Proof.
  intros Hi. unfold Quadtree.set_tile_size_max, Quadtree._tileSizeChanged.
  py_simpl.
  destruct (Qlt_bool v (Quadtree.tile_size_min q));
    intros [= <-]; (eapply inv_frame; [..|done]); try done; auto.
Qed.

Lemma root_ok_strip n m : strip n = strip m → root_ok m → root_ok n.
Proof.
  unfold strip, QuadNode.new, root_ok. by intros [= -> -> ->].
Qed.

Lemma Built_pow2 q n : Run.Built q n → root_ok n.
Proof.
  intros (fuel & n0 & Hp & Hc).
  apply createTree_inv in Hc as (_ & _ & Hs & _).
  by apply (root_ok_strip _ _ Hs).
Qed.

Lemma inv_base_ok q : inv q → base_ok q.
Proof.
  intros (_ & (bs & Hbs & Ht) & _) bs' Hbs'.
  assert (bs' = bs) as -> by congruence.
  eapply Forall_impl; [done|]. apply Built_pow2.
Qed.

Lemma _base_nodes_spec q bs q' :
  Quadtree._base_nodes q = Ok (bs, q') →
  q' = Quadtree.with__base_nodes (Some bs) q ∧
  (base_ok q → Forall root_ok bs) ∧
  (∀ bs0, Quadtree.cached__base_nodes q = Some bs0 → bs = bs0).
Proof.
  unfold Quadtree._base_nodes. py_simpl.
  destruct (Quadtree.cached__base_nodes q) as [bs0|] eqn:Hc.
  - intros [= <- <-]. split; [|split].
    + destruct q; simpl in *; by subst.
    + intros Hp. by apply Hp.
    + by intros ? [= <-].
  - match goal with |- context [if ?c then _ else _] => destruct c end;
      [done|].
    match goal with |- context [if ?c then _ else _] => destruct c end;
      [done|].
    intros [= <- <-]. split; [done|]. split; [|done].
    intros _. apply Forall_forall. intros b Hb.
    apply list_elem_of_bind in Hb as (ir & Hb & Hir).
    apply list_elem_of_bind in Hb as (ic & Hb & Hic).
    apply list_elem_of_singleton in Hb as ->.
    apply elem_of_seqZ in Hir, Hic.
    split; [|simpl; split; apply Z.mul_nonneg_nonneg; try lia;
             apply Z.pow_nonneg; lia].
    eexists. split; [apply Z.log2_up_nonneg | reflexivity].
Qed.

Lemma _initTree_spec q q' :
  Quadtree._initTree q = Ok (tt, q') →
  ∃ bs bs',
    Quadtree._base_nodes q = Ok (bs, Quadtree.with__base_nodes (Some bs) q) ∧
    mapM (Quadtree.createTree q) bs = Ok bs' ∧
    q' = Quadtree.with__base_nodes (Some bs') q.
Proof.
  unfold Quadtree._initTree. unfold mbind at 1. unfold Py_bind.
  destruct (Quadtree._base_nodes q) as [[bs q1]|e] eqn:Hb; [|done].
  pose proof (_base_nodes_spec _ _ _ Hb) as (-> & _ & _).
  py_simpl.
  destruct (mapM (Quadtree.createTree (Quadtree.with__base_nodes (Some bs) q)) bs)
    as [bs'|e] eqn:Hm; [|done].
  intros [= <-]. exists bs, bs'. split; [done|]. split; [|done].
  rewrite <- Hm. destruct q; reflexivity.
Qed.

Lemma inv_initTree q q' :
  corr_ok q → base_ok q → Quadtree.cached_leafs q = None →
  Quadtree._initTree q = Ok (tt, q') → inv q'.
Proof.
  intros Hc Hp Hl Hi.
  apply _initTree_spec in Hi as (bs & bs' & Hb & Hm & ->).
  apply _base_nodes_spec in Hb as (_ & Hpb & _). specialize (Hpb Hp).
  split; [|split].
  - destruct Hc as (name & lbl & f & Hn & Hq). by exists name, lbl, f.
  - exists bs'. split; [done|].
    apply mapM_result_Ok in Hm.
    apply Forall_forall. intros b' Hb'.
    apply list_elem_of_lookup in Hb' as [i Hi].
    destruct (Forall2_lookup_r _ _ _ _ _ Hm Hi) as (b & Hbi & Hbc).
    exists (QuadNode.fuel_for b), b. split.
    + eapply Forall_forall in Hpb; [done|]. by eapply list_elem_of_lookup_2.
    + exact Hbc.
  - intros ls Hls. simpl in Hls. congruence.
Qed.

Lemma set_epsilon_fields v q q' :
  Quadtree.set_epsilon v q = Ok (tt, q') →
  Quadtree.scene q' = Quadtree.scene q ∧
  Quadtree._corr_func q' = Quadtree._corr_func q ∧
  Quadtree.cached__base_nodes q' = Quadtree.cached__base_nodes q ∧
  (Quadtree.cached_leafs q = None → Quadtree.cached_leafs q' = None).
Proof.
  unfold Quadtree.set_epsilon. py_simpl.
  destruct (match Quadtree.epsilon q with Some e => f_eq e v | None => false end);
    [by intros [= <-]|].
  destruct (f_lt v (Quadtree.epsilon_min q)); by intros [= <-].
Qed.

Lemma inv_setCorrection name q q' :
  base_ok q → Quadtree.setCorrection name q = Ok (tt, q') → inv q'.
Proof.
  intros Hp. unfold Quadtree.setCorrection.
  destruct (Quadtree._corrections !! name) as [[lbl f]|] eqn:Hn; [|done].
  py_simpl.
  match goal with |- context [Quadtree.set_epsilon ?v ?q0] =>
    destruct (Quadtree.set_epsilon v q0) as [[[] q1]|e] eqn:He; [|done] end.
  apply set_epsilon_fields in He as (Hs & Hf & Hb & Hl). simpl in *.
  destruct (Quadtree._initTree q1) as [[[] q2]|e] eqn:Hi; [|done].
  intros [= <-].
  apply inv_initTree in Hi.
  - eapply inv_frame; [..|exact Hi]; try done. right. done.
  - exists name, lbl, f. by rewrite Hs, Hf.
  - intros bs Hbs. apply Hp. congruence.
  - by apply Hl.
Qed.

Lemma inv_setConfig cfg q q' :
  base_ok q → Quadtree.setConfig cfg q = Ok (tt, q') → inv q'.
Proof.
  intros Hp. unfold Quadtree.setConfig.
  unfold mbind at 1. unfold Py_bind, py_modify.
  unfold mbind at 1. unfold Py_bind.
  destruct (Quadtree.setCorrection _ _) as [[[] q1]|e] eqn:Hc; [|done].
  intros [= <-]. apply inv_setCorrection in Hc; [|done].
  eapply inv_frame; [..|exact Hc]; try done. right. done.
Qed.

Lemma inv_init scene config q :
  Quadtree.__init__ scene config = Ok q → inv q.
Proof.
  unfold Quadtree.__init__.
  destruct (Quadtree.setConfig _ _) as [[[] q1]|e] eqn:Hc; [|done].
  intros [= <-]. eapply inv_setConfig; [|done]. by intros bs.
Qed.

Lemma _tile_size_lim_px_spec q v q' :
  Quadtree._tile_size_lim_px q = Ok (v, q') →
  Quadtree.eval__tile_size_lim_px q = Ok v ∧
  q' = Quadtree.with__tile_size_lim_px (Some v) q.
Proof.
  unfold Quadtree._tile_size_lim_px. py_simpl.
  destruct (Quadtree.eval__tile_size_lim_px q) as [v'|e]; [|done].
  by intros [= <- <-].
Qed.

Lemma leafs_unfold q bs :
  Quadtree.cached_leafs q = None →
  Quadtree.cached__base_nodes q = Some bs →
  Quadtree.leafs q =
    match Run.compute_leafs q bs with
    | Raise e => Raise e
    | Ok ls =>
        if existsb (Quadtree.reads_lim q) bs then
          match Quadtree.eval__tile_size_lim_px q with
          | Ok v => Ok (ls, Quadtree.with_leafs (Some ls)
                              (Quadtree.with__tile_size_lim_px (Some v) q))
          | Raise e => Raise e
          end
        else Ok (ls, Quadtree.with_leafs (Some ls) q)
    end.
Proof.
  intros Hcl Hbs.
  unfold Quadtree.leafs, Quadtree._base_nodes, Quadtree._tile_size_lim_px,
    Run.compute_leafs.
  py_simpl. rewrite Hcl, Hbs.
  unfold mbind, result_bind.
  destruct (mapM _ bs) as [lss|e]; [|done].
  destruct (existsb (Quadtree.reads_lim q) bs); [|done].
  by destruct (Quadtree.eval__tile_size_lim_px q).
Qed.

Lemma leafs_spec q ls q' :
  inv q → Quadtree.leafs q = Ok (ls, q') →
  inv q' ∧
  Quadtree.cached_leafs q' = Some ls ∧
  Quadtree.scene q' = Quadtree.scene q ∧
  Quadtree._corr_func q' = Quadtree._corr_func q ∧
  Quadtree.config q' = Quadtree.config q ∧
  Quadtree.cached__base_nodes q' = Quadtree.cached__base_nodes q ∧
  ∃ bs, Quadtree.cached__base_nodes q = Some bs ∧
        Run.compute_leafs q bs = Ok ls.
Proof.
  intros Hi. pose proof Hi as (Hc & (bs & Hbs & Ht) & Hl).
  destruct (Quadtree.cached_leafs q) as [ls0|] eqn:Hcl.
  - unfold Quadtree.leafs. py_simpl. rewrite Hcl.
    intros [= <- <-]. split; [exact Hi|]. repeat split; try done.
    by apply Hl.
  - rewrite (leafs_unfold q bs) by done.
    destruct (Run.compute_leafs q bs) as [ls'|e] eqn:Hm; [|done].
    assert (∀ q1, Quadtree.scene q1 = Quadtree.scene q →
                  Quadtree._corr_func q1 = Quadtree._corr_func q →
                  Quadtree.config q1 = Quadtree.config q →
                  Quadtree.cached__base_nodes q1 = Some bs →
                  Quadtree.eval__tile_size_lim_px q1
                  = Quadtree.eval__tile_size_lim_px q →
                  Quadtree.cached_leafs q1 = Some ls' → inv q1) as Hinv.
    { intros q1 Hs Hf Hcfg Hb He Hl1. split; [|split].
      - destruct Hc as (name & lbl & f & Hn & Hq).
        exists name, lbl, f. by rewrite Hs, Hf.
      - exists bs. split; [done|].
        eapply Forall_impl; [done|]. intros n. by apply Built_frame.
      - intros ls1 Hls1. exists bs. split; [done|].
        rewrite (compute_leafs_frame q) by done. congruence. }
    destruct (existsb (Quadtree.reads_lim q) bs).
    + destruct (Quadtree.eval__tile_size_lim_px q) as [v|e] eqn:Hv; [|done].
      intros [= <- <-]. split; [by apply Hinv|].
      repeat split; try done. by exists bs.
    + intros [= <- <-]. split; [by apply Hinv|].
      repeat split; try done. by exists bs.
Qed.

Lemma nodes_spec q ns q' :
  inv q → Quadtree.nodes q = Ok (ns, q') →
  q' = q ∧ ∃ bs, Quadtree.cached__base_nodes q = Some bs ∧
                 ns = (b ← bs; QuadNode.iterChildren b).
Proof.
  intros (_ & (bs & Hbs & _) & _). unfold Quadtree.nodes.
  unfold mbind at 1. unfold Py_bind.
  destruct (Quadtree._base_nodes q) as [[bs' q1]|e] eqn:Hb; [|done].
  apply _base_nodes_spec in Hb as (-> & _ & Hb).
  specialize (Hb _ Hbs) as ->. py_simpl. intros [= <- <-].
  split; [destruct q; simpl in *; by subst | by exists bs].
Qed.

Lemma reachable_inv q : Run.reachable q → inv q.
Proof.
  induction 1 as [scene config q Hq | q c q' _ IH Hc].
  - by eapply inv_init.
  - destruct c; simpl in Hc.
    + by eapply inv_set_epsilon.
    + by eapply inv_set_nan_allowed.
    + by eapply inv_set_tile_size_min.
    + by eapply inv_set_tile_size_max.
    + eapply inv_setCorrection; [|done]. by apply inv_base_ok.
    + eapply inv_setConfig; [|done]. by apply inv_base_ok.
    + unfold mbind, Py_bind in Hc.
      destruct (Quadtree.leafs q) as [[ls q1]|e] eqn:Hl; [|done].
      injection Hc as <-. by apply leafs_spec in Hl as [? _].
    + unfold mbind, Py_bind in Hc.
      destruct (Quadtree.nodes q) as [[ns q1]|e] eqn:Hl; [|done].
      injection Hc as <-. by apply nodes_spec in Hl as [-> _].
Qed.

(** Every node of a reachable quadtree was returned by [createTree], run on
    a node whose side is a power of two. *)
Lemma reachable_nodes_built q ns q' n :
  Run.reachable q → Quadtree.nodes q = Ok (ns, q') → n ∈ ns → Run.Built q n.
Proof.
  intros Hr Hn Hin. apply reachable_inv in Hr as Hi.
  pose proof Hi as (_ & (bs & Hbs & Ht) & _).
  apply nodes_spec in Hn as (_ & bs' & Hbs' & ->); [|done].
  assert (bs' = bs) as -> by congruence.
  apply list_elem_of_bind in Hin as (b & Hin & Hb).
  eapply Forall_forall in Ht as (fuel & n0 & Hp & Hc); [|done].
  destruct (createTree_nodes _ _ _ _ _ _ _ Hc Hin) as (fuel' & m0 & Hm & Hpm).
  exists fuel', m0. split; [by apply Hpm | done].
Qed.

End Inv.

(** ** The split rule and the children of a split node *)

Section Tree.
Context `{Numpy}.

Lemma split_test_spec f eps n :
  QuadNode.split_test f eps n = true ↔
  (f_gt (f n) eps = true ∨ 64 ≤ QuadNode.length n) ∧ ¬ QuadNode.length n < 16.
Proof.
  unfold QuadNode.split_test.
  rewrite andb_true_iff, orb_true_iff, negb_true_iff.
  rewrite Z.geb_le, Z.ltb_ge.
  split; (intros [Ha Hb]; split; [exact Ha | lia]).
Qed.

(** C1, as amended.  In the tree of a reachable quadtree, a node has
    children exactly when its correction metric exceeds [epsilon_min] OR its
    side is 64 pixels or more, AND its side is not below 16 pixels; a node
    with a side below 16 pixels is never split. *)
Theorem createTree_split_rule q ns q' n :
  Run.reachable q → Quadtree.nodes q = Ok (ns, q') → n ∈ ns →
  (QuadNode.has_children n = true ↔
     (f_gt (Quadtree._corr_func q n) (Quadtree.epsilon_min q) = true
      ∨ 64 ≤ QuadNode.length n) ∧ ¬ QuadNode.length n < 16) ∧
  (QuadNode.length n < 16 → QuadNode.has_children n = false).
Proof.
  intros Hr Hn Hin.
  destruct (reachable_nodes_built _ _ _ _ Hr Hn Hin) as (fuel & n0 & _ & Hc).
  apply createTree_has_children in Hc;
    [|by apply corr_ok_geometry, reachable_inv].
  rewrite Hc, <- split_test_spec. split; [done|].
  intros Hl. apply not_true_is_false. rewrite split_test_spec. lia.
Qed.

Lemma strip_new r c l : strip (QuadNode.new r c l) = QuadNode.new r c l.
Proof. done. Qed.

Lemma strip_quadrant n i : strip (QuadNode.quadrant n i) = QuadNode.quadrant n i.
Proof. by destruct i. Qed.

Lemma num_all_spec (d : list (list fval)) :
  QuadNode.num_all (map (map f_isnan) d) = true ↔
  Forall (λ x, x = NaN) (concat d).
Proof.
  unfold QuadNode.num_all. rewrite <- concat_map, forallb_forall, Forall_forall.
  split.
  - intros Ha x Hx. specialize (Ha (f_isnan x)).
    destruct x; [done|]. discriminate Ha.
    apply in_map_iff. exists (Fin q). by rewrite <- list_elem_of_In.
  - intros Ha b Hb. apply in_map_iff in Hb as (x & <- & Hx).
    rewrite <- list_elem_of_In in Hx. by rewrite (Ha x Hx).
Qed.

Lemma omitted_spec scene n :
  QuadNode.omitted scene n = true ↔
  size2 (QuadNode.displacement scene n) = 0 ∨
  Forall (λ x, x = NaN) (concat (QuadNode.displacement scene n)).
Proof.
  unfold QuadNode.omitted, QuadNode.displacement_mask.
  by rewrite orb_true_iff, Z.eqb_eq, num_all_spec.
Qed.

Lemma footprint_quadrants n r c :
  QuadNode.length n = 2 * (QuadNode.length n / 2) →
  0 < QuadNode.length n →
  (footprint n r c ↔
   ∃ i, i ∈ quadrant_indices ∧ footprint (QuadNode.quadrant n i) r c) ∧
  (∀ i j, i ∈ quadrant_indices → j ∈ quadrant_indices →
          footprint (QuadNode.quadrant n i) r c →
          footprint (QuadNode.quadrant n j) r c → i = j).
Proof.
  intros Hl Hp. set (h := QuadNode.length n / 2) in *.
  unfold footprint, quadrant_indices. split; [split|].
  - intros Hf.
    destruct (decide (r < QuadNode.llr n + h)),
             (decide (c < QuadNode.llc n + h)).
    + exists (0, 0). split; [by repeat constructor|]. simpl. fold h. lia.
    + exists (0, 1). split; [by repeat constructor|]. simpl. fold h. lia.
    + exists (1, 0). split; [by repeat constructor|]. simpl. fold h. lia.
    + exists (1, 1). split; [by repeat constructor|]. simpl. fold h. lia.
  - intros (i & Hi & Hf).
    repeat (apply elem_of_cons in Hi as [->|Hi];
            [simpl in Hf; fold h in Hf; lia|]).
    by apply not_elem_of_nil in Hi.
  - intros i j Hi Hj Hfi Hfj.
    repeat (apply elem_of_cons in Hi as [->|Hi]);
      try (by apply not_elem_of_nil in Hi);
      repeat (apply elem_of_cons in Hj as [->|Hj]);
      try (by apply not_elem_of_nil in Hj);
      simpl in Hfi, Hfj; fold h in Hfi, Hfj; try done; lia.
Qed.

Lemma createTree_children_strip scene f eps fuel l cs :
  Forall2 (λ q c, QuadNode.createTree scene f eps fuel q = Ok c) l cs →
  Forall (λ q, strip q = q) l →
  map strip cs = l.
Proof.
  induction 1 as [|x y l k Hxy _ IH]; [done|].
  intros [Hx Hl]%Forall_cons. simpl. rewrite IH by done. f_equal.
  apply createTree_inv in Hxy as (_ & _ & Hxy & _). congruence.
Qed.

(** C5.  For every split node of the tree of a reachable quadtree: each
    child has exactly half the side of the node; the footprints of the four
    candidate quadrants cover the footprint of the node and are pairwise
    disjoint; every child is one of the quadrants; and a quadrant has no
    child exactly when its window holds no raster sample or only NaN. *)
Theorem split_node_children q ns q' n cs :
  Run.reachable q → Quadtree.nodes q = Ok (ns, q') → n ∈ ns →
  QuadNode.children n = Some cs →
  (∀ c, c ∈ cs → 2 * QuadNode.length c = QuadNode.length n) ∧
  (∀ r c, footprint n r c ↔
          ∃ i, i ∈ quadrant_indices ∧ footprint (QuadNode.quadrant n i) r c) ∧
  (∀ r c i j, i ∈ quadrant_indices → j ∈ quadrant_indices →
              footprint (QuadNode.quadrant n i) r c →
              footprint (QuadNode.quadrant n j) r c → i = j) ∧
  (∀ c, c ∈ cs → ∃ i, i ∈ quadrant_indices ∧ strip c = QuadNode.quadrant n i) ∧
  (∀ i, i ∈ quadrant_indices →
        ((∀ c, c ∈ cs → strip c ≠ QuadNode.quadrant n i) ↔
         (size2 (QuadNode.displacement (Quadtree.scene q)
                                       (QuadNode.quadrant n i)) = 0 ∨
          Forall (λ x, x = NaN)
                 (concat (QuadNode.displacement (Quadtree.scene q)
                                                (QuadNode.quadrant n i)))))).
Proof.
  intros Hr Hn Hin Hcs.
  destruct (reachable_nodes_built _ _ _ _ Hr Hn Hin) as (fuel & n0 & Hp & Hc).
  apply createTree_inv in Hc as (fuel' & _ & Hs & Hsplit).
  destruct (QuadNode.split_test _ _ n0) eqn:Hst; [|congruence].
  destruct Hsplit as (cs' & Hcs' & HF). assert (cs' = cs) as -> by congruence.
  apply split_test_length in Hst.
  rewrite <- (strip_length _ _ Hs) in Hst.
  apply (root_ok_strip _ _ Hs) in Hp. destruct Hp as (Hp & _ & _).
  destruct (is_pow2_half _ Hp ltac:(lia)) as [_ Hhalf].
  assert (map strip cs
          = filter (λ q0, QuadNode.omitted (Quadtree.scene q) q0 = false)
                   (map (QuadNode.quadrant n) quadrant_indices)) as Hmap.
  { assert (map (QuadNode.quadrant n0) quadrant_indices
            = map (QuadNode.quadrant n) quadrant_indices) as <-.
    { apply map_ext. intros i. by apply quadrant_strip. }
    eapply createTree_children_strip; [exact HF|].
    apply Forall_forall. intros x [_ Hx]%list_elem_of_filter.
    apply list_elem_of_fmap in Hx as (i & -> & _). apply strip_quadrant. }
  assert (∀ c, c ∈ cs →
            ∃ i, i ∈ quadrant_indices ∧ strip c = QuadNode.quadrant n i ∧
                 QuadNode.omitted (Quadtree.scene q) (QuadNode.quadrant n i)
                 = false) as Hchild.
  { intros c Hc. apply (list_elem_of_fmap_2 strip) in Hc.
    change (strip <$> cs) with (map strip cs) in Hc. rewrite Hmap in Hc.
    apply list_elem_of_filter in Hc as [Ho Hc].
    apply list_elem_of_fmap in Hc as (i & Hi & Hiq).
    exists i. by rewrite <- Hi. }
  split; [|split; [|split; [|split]]].
  - intros c Hc. destruct (Hchild c Hc) as (i & _ & Hi & _).
    rewrite <- strip_quadrant in Hi.
    rewrite (strip_length _ _ Hi), quadrant_length. lia.
  - intros r c. apply footprint_quadrants; lia.
  - intros r c. apply footprint_quadrants; lia.
  - intros c Hc. destruct (Hchild c Hc) as (i & Hi & Hq & _). eauto.
  - intros i Hi. rewrite <- omitted_spec. split.
    + intros Hno. apply not_false_iff_true. intros Ho.
      assert (QuadNode.quadrant n i ∈ map strip cs) as Hq.
      { rewrite Hmap. apply list_elem_of_filter. split; [done|].
        by apply list_elem_of_fmap_2. }
      apply list_elem_of_fmap in Hq as (c & Hq & Hc).
      by apply (Hno c Hc).
    + intros Ho c Hc Hq. destruct (Hchild c Hc) as (j & _ & Hj & Hoj).
      congruence.
Qed.

End Tree.

(** ** Leaf filtering and rejected settings *)

Section Leafs.
Context `{Numpy}.

Lemma Qlt_bool_iff x y : Qlt_bool x y = true ↔ (x < y)%Q.
Proof.
  unfold Qlt_bool. rewrite negb_true_iff, <- not_true_iff_false, Qle_bool_iff.
  split; [apply Qnot_le_lt | apply Qlt_not_le].
Qed.

Lemma filter_nan_allowed_spec q ls0 ls l :
  Quadtree.filter_nan_allowed q ls0 = Ok ls → l ∈ ls →
  l ∈ ls0 ∧ ∃ f, QuadNode.nan_fraction (Quadtree.scene q) l = Ok f ∧
                 (f < Quadtree.nan_allowed q)%Q.
Proof.
  revert ls. induction ls0 as [|x ls0 IH]; intros ls; simpl.
  - intros [= <-] Hl. by apply not_elem_of_nil in Hl.
  - unfold mbind, result_bind.
    destruct (QuadNode.nan_fraction (Quadtree.scene q) x) as [f|e] eqn:Hf;
      [|done].
    destruct (Quadtree.filter_nan_allowed q ls0) as [rest|e] eqn:Hr; [|done].
    destruct (Qlt_bool f (Quadtree.nan_allowed q)) eqn:Hlt; intros [= <-] Hl.
    + apply elem_of_cons in Hl as [->|Hl].
      * split; [left|]. exists f. split; [done|]. by apply Qlt_bool_iff.
      * destruct (IH _ eq_refl Hl) as [? ?]. split; [by right | done].
    + destruct (IH _ eq_refl Hl) as [? ?]. split; [by right | done].
Qed.

Lemma compute_leafs_spec q bs ls l :
  Run.compute_leafs q bs = Ok ls → l ∈ ls →
  ∃ f, QuadNode.nan_fraction (Quadtree.scene q) l = Ok f ∧
       (f < Quadtree.nan_allowed q)%Q.
Proof.
  unfold Run.compute_leafs. unfold mbind at 1. unfold result_bind.
  destruct (mapM _ bs) as [lss|e] eqn:Hm; [|done].
  intros [= <-] Hl. apply elem_of_concat in Hl as (ls' & Hl & Hls').
  apply mapM_result_Ok in Hm.
  apply list_elem_of_lookup in Hls' as [i Hi].
  destruct (Forall2_lookup_r _ _ _ _ _ Hm Hi) as (b & _ & Hb).
  unfold mbind, result_bind in Hb.
  destruct (Quadtree.iterLeafs q b) as [ls0|e]; [|done].
  by destruct (filter_nan_allowed_spec _ _ _ _ Hb Hl).
Qed.

Lemma nodes_unfold q bs :
  Quadtree.cached__base_nodes q = Some bs →
  Quadtree.nodes q = Ok (bs ≫= QuadNode.iterChildren, q).
Proof.
  intros Hb. unfold Quadtree.nodes, Quadtree._base_nodes. py_simpl.
  by rewrite Hb.
Qed.

(** C6.  No leaf of the reported leaf set has a NaN fraction at or above
    [nan_allowed]; a node whose NaN fraction exceeds the allowance is not
    reported but is still a node of the tree, which the evaluation of
    [leafs] leaves as it was. *)
Theorem leafs_nan_filter q ls q' :
  Run.reachable q → Quadtree.leafs q = Ok (ls, q') →
  (∀ l, l ∈ ls →
        ∃ f, QuadNode.nan_fraction (Quadtree.scene q) l = Ok f ∧
             ¬ (Quadtree.nan_allowed q <= f)%Q) ∧
  (∀ ns q1 n f,
     Quadtree.nodes q = Ok (ns, q1) → n ∈ ns →
     QuadNode.nan_fraction (Quadtree.scene q) n = Ok f →
     (Quadtree.nan_allowed q < f)%Q →
     (n ∉ ls) ∧ ∃ q2, Quadtree.nodes q' = Ok (ns, q2)) ∧
  Quadtree.cached__base_nodes q' = Quadtree.cached__base_nodes q.
Proof.
  intros Hr Hl. pose proof (reachable_inv _ Hr) as Hi.
  destruct (leafs_spec _ _ _ Hi Hl)
    as (Hi' & _ & _ & _ & _ & Hb & bs & Hbs & Hcl).
  split; [|split].
  - intros l Hin. destruct (compute_leafs_spec _ _ _ _ Hcl Hin) as (f & Hf & Hlt).
    exists f. split; [done|]. by apply Qlt_not_le.
  - intros ns q1 n f Hn Hin Hf Hlt. split.
    + intros Hnl.
      destruct (compute_leafs_spec _ _ _ _ Hcl Hnl) as (f' & Hf' & Hlt').
      assert (f' = f) as -> by congruence.
      apply (Qlt_irrefl f). exact (Qlt_trans _ _ _ Hlt' Hlt).
    + apply nodes_spec in Hn as (_ & bs' & Hbs' & ->); [|done].
      assert (bs' = bs) as -> by congruence.
      exists q'. apply nodes_unfold. congruence.
  - done.
Qed.

End Leafs.

Section Setters.
Context `{Numpy}.

(** The setter of [epsilon] returns at once, with no warning, when it is
    given the value the object holds. *)
Lemma set_epsilon_same_value q e v :
  Quadtree.epsilon q = Some e → f_eq e v = true →
  Quadtree.set_epsilon v q = Ok (tt, q).
Proof.
  intros He Heq. unfold Quadtree.set_epsilon. py_simpl. by rewrite He, Heq.
Qed.



End Setters.

(** ** Raising epsilon coarsens the leaf set *)

Lemma py_slice_split {A} (a b c : Z) (l : list A) :
  0 ≤ a → a ≤ b → b ≤ c →
  py_slice a c l = py_slice a b l ++ py_slice b c l.
Proof.
  intros Ha Hab Hbc. unfold py_slice, slice_index.
  set (n := Z.of_nat (length l)).
  assert (0 ≤ n) by (subst n; lia).
  destruct (Z.ltb_spec a 0), (Z.ltb_spec b 0), (Z.ltb_spec c 0); try lia.
  replace (drop (Z.to_nat (b `min` n)) l)
    with (drop (Z.to_nat (b `min` n - a `min` n))
               (drop (Z.to_nat (a `min` n)) l))
    by (rewrite drop_drop; f_equal; lia).
  rewrite take_take_drop. f_equal. lia.
Qed.

Section Additive.
Context {A : Type} (g : list A → Z).
Hypothesis g_app : ∀ l1 l2, g (l1 ++ l2) = g l1 + g l2.

Lemma additive_cols (c0 c1 c2 : Z) (rows : list (list A)) :
  0 ≤ c0 → c0 ≤ c1 → c1 ≤ c2 →
  g (concat (map (py_slice c0 c2) rows))
  = g (concat (map (py_slice c0 c1) rows))
    + g (concat (map (py_slice c1 c2) rows)).
Proof.
  intros H0 H1 H2. induction rows as [|r rows IH]; simpl.
  - specialize (g_app [] []). simpl in g_app. lia.
  - rewrite !g_app, IH, (py_slice_split c0 c1 c2), g_app by done. lia.
Qed.

Lemma additive_quadrants (r0 r1 r2 c0 c1 c2 : Z) (d : list (list A)) :
  0 ≤ r0 → r0 ≤ r1 → r1 ≤ r2 → 0 ≤ c0 → c0 ≤ c1 → c1 ≤ c2 →
  g (concat (py_slice2 r0 r2 c0 c2 d))
  = g (concat (py_slice2 r0 r1 c0 c1 d))
    + g (concat (py_slice2 r0 r1 c1 c2 d))
    + g (concat (py_slice2 r1 r2 c0 c1 d))
    + g (concat (py_slice2 r1 r2 c1 c2 d)).
Proof.
  intros. unfold py_slice2.
  rewrite (py_slice_split r0 r1 r2) by done.
  rewrite map_app, concat_app, g_app.
  rewrite (additive_cols c0 c1 c2 (py_slice r0 r1 d)) by done.
  rewrite (additive_cols c0 c1 c2 (py_slice r1 r2 d)) by done.
  lia.
Qed.
End Additive.

Section Window.
Context `{Numpy}.
Variable scene : Scene.t.

Lemma nans_count n : nans scene n = count_nan (concat (QuadNode.displacement scene n)).
Proof.
  unfold nans, QuadNode.num_sum, QuadNode.displacement_mask, count_nan.
  by rewrite concat_map.
Qed.

Lemma count_nan_app l1 l2 : count_nan (l1 ++ l2) = count_nan l1 + count_nan l2.
Proof.
  unfold count_nan. rewrite map_app, filter_app, length_app. lia.
Qed.

Lemma count_nan_bounds l : 0 ≤ count_nan l ≤ Z.of_nat (length l).
Proof.
  unfold count_nan. pose proof (length_filter (λ b, b = true) (map f_isnan l)).
  rewrite length_map in *. lia.
Qed.

Lemma count_nan_all l :
  count_nan l = Z.of_nat (length l) ↔ Forall (λ x, x = NaN) l.
Proof.
  induction l as [|x l IH].
  - split; [constructor | done].
  - pose proof (count_nan_bounds l).
    change (x :: l) with ([x] ++ l). rewrite count_nan_app, length_app.
    destruct x as [|v].
    + change (count_nan [NaN]) with 1. simpl length. rewrite Forall_app.
      split.
      * intros Hc. split; [constructor; [reflexivity | constructor]|]. apply IH. lia.
      * intros [_ Hl]. apply IH in Hl. lia.
    + change (count_nan [Fin v]) with 0. simpl length. split; [lia|].
      intros [Hx _]%Forall_app. by inversion Hx.
Qed.

Lemma nans_bounds n : 0 ≤ nans scene n ≤ samples scene n.
Proof. rewrite nans_count. apply count_nan_bounds. Qed.

Lemma omitted_samples n :
  QuadNode.omitted scene n = true ↔ samples scene n = 0 ∨ nans scene n = samples scene n.
Proof.
  rewrite omitted_spec, nans_count. unfold samples, size2.
  by rewrite count_nan_all.
Qed.

Lemma samples_strip n : samples scene (strip n) = samples scene n.
Proof. done. Qed.
Lemma nans_strip n : nans scene (strip n) = nans scene n.
Proof. done. Qed.

(** The windows of the four quadrants partition the window of the node. *)
Lemma window_partition n :
  root_ok n → 2 ≤ QuadNode.length n →
  samples scene n = samples scene (QuadNode.quadrant n (0, 0))
              + samples scene (QuadNode.quadrant n (0, 1))
              + samples scene (QuadNode.quadrant n (1, 0))
              + samples scene (QuadNode.quadrant n (1, 1)) ∧
  nans scene n = nans scene (QuadNode.quadrant n (0, 0))
           + nans scene (QuadNode.quadrant n (0, 1))
           + nans scene (QuadNode.quadrant n (1, 0))
           + nans scene (QuadNode.quadrant n (1, 1)).
Proof.
  intros (Hp & Hr & Hc) Hl.
  destruct (is_pow2_half _ Hp Hl) as [_ Hh].
  set (h := QuadNode.length n / 2) in *.
  assert (0 ≤ h) by lia.
  rewrite !nans_count. unfold samples, size2, QuadNode.displacement. simpl.
  fold h.
  replace (QuadNode.llr n + h * 0) with (QuadNode.llr n) by lia.
  replace (QuadNode.llc n + h * 0) with (QuadNode.llc n) by lia.
  replace (QuadNode.llr n + h * 1 + h) with (QuadNode.llr n + QuadNode.length n)
    by lia.
  replace (QuadNode.llc n + h * 1 + h) with (QuadNode.llc n + QuadNode.length n)
    by lia.
  rewrite !Z.mul_1_r.
  split.
  - apply (additive_quadrants (λ l, Z.of_nat (length l))); try lia.
    intros. rewrite length_app. lia.
  - apply (additive_quadrants count_nan); try lia. apply count_nan_app.
Qed.

End Window.

Lemma frac_lt (N S : Z) (a : Q) :
  0 < S →
  (inject_Z N / inject_Z S < a)%Q ↔ N * QDen a < Qnum a * S.
Proof.
  intros HS. destruct S as [|S|S]; try lia.
  unfold Qlt, Qdiv, Qinv, Qmult, inject_Z. simpl.
  rewrite Z.mul_1_r. reflexivity.
Qed.

Section Walk.
Context `{Numpy}.

Lemma coarser_refl f : coarser f f.
Proof. split; [done|]. intros y Hy. exists y. split; [done|lia]. Qed.

Lemma coarser_concat fs2 fs1 :
  Forall2 coarser fs2 fs1 → coarser (concat fs2) (concat fs1).
Proof.
  induction 1 as [|f2 f1 fs2 fs1 [Hl Hm] _ [IHl IHm]]; [apply coarser_refl|].
  simpl. split; [rewrite !length_app; lia|].
  intros y [Hy|Hy]%elem_of_app.
  - destruct (Hm y Hy) as (x & Hx & Hxy). exists x. split; [|done].
    apply elem_of_app. by left.
  - destruct (IHm y Hy) as (x & Hx & Hxy). exists x. split; [|done].
    apply elem_of_app. by right.
Qed.

Lemma filter_nan_allowed_app q l1 l2 f :
  Quadtree.filter_nan_allowed q (l1 ++ l2) = Ok f ↔
  ∃ f1 f2, Quadtree.filter_nan_allowed q l1 = Ok f1 ∧
           Quadtree.filter_nan_allowed q l2 = Ok f2 ∧ f = f1 ++ f2.
Proof.
  revert f. induction l1 as [|x l1 IH]; intros f; simpl.
  - split; [intros Hf; by exists [], f | by intros (? & ? & [= <-] & ? & ->)].
  - unfold mbind, result_bind.
    destruct (QuadNode.nan_fraction (Quadtree.scene q) x) as [fr|e];
      [|split; [done|by intros (? & ? & ? & _)]].
    destruct (Quadtree.filter_nan_allowed q (l1 ++ l2)) as [r|e] eqn:Hr.
    + destruct (proj1 (IH r) eq_refl) as (f1 & f2 & -> & -> & ->).
      split.
      * intros [= <-]. eexists _, f2. split; [done|]. split; [done|].
        by destruct (Qlt_bool fr (Quadtree.nan_allowed q)).
      * intros (f1' & f2' & [= <-] & [= <-] & ->).
        by destruct (Qlt_bool fr (Quadtree.nan_allowed q)).
    + split; [done|]. intros (f1' & f2' & Hf1 & Hf2 & ->).
      destruct (Quadtree.filter_nan_allowed q l1) as [f1|e1]; [|done].
      assert (@Raise (list QuadNode.t) e = Ok (f1 ++ f2')) as Habs; [|done].
      apply (proj2 (IH (f1 ++ f2'))). by exists f1, f2'.
Qed.

Lemma filter_nan_allowed_concat q ass f :
  Quadtree.filter_nan_allowed q (concat ass) = Ok f →
  ∃ fs, Forall2 (λ a f, Quadtree.filter_nan_allowed q a = Ok f) ass fs ∧
        f = concat fs.
Proof.
  revert f. induction ass as [|a ass IH]; intros f; simpl.
  - intros [= <-]. by exists [].
  - intros (f1 & f2 & Hf1 & Hf2 & ->)%filter_nan_allowed_app.
    destruct (IH _ Hf2) as (fs & Hfs & ->).
    exists (f1 :: fs). split; [by constructor | done].
Qed.

Lemma nan_fraction_spec scene n f :
  QuadNode.nan_fraction scene n = Ok f ↔
  samples scene n ≠ 0 ∧
  f = (inject_Z (nans scene n) / inject_Z (samples scene n))%Q.
Proof.
  unfold QuadNode.nan_fraction. fold (samples scene n). fold (nans scene n).
  destruct (Z.eqb_spec (samples scene n) 0) as [->|Hne].
  - split; [done | by intros [? _]].
  - split; [by intros [= <-] | by intros [_ ->]].
Qed.

Lemma nan_fraction_strip scene n m :
  strip n = strip m →
  QuadNode.nan_fraction scene n = QuadNode.nan_fraction scene m.
Proof.
  unfold strip, QuadNode.new. destruct n, m. simpl. by intros [= -> -> ->].
Qed.

Lemma filter_nan_allowed_singleton q n fr :
  QuadNode.nan_fraction (Quadtree.scene q) n = Ok fr →
  Quadtree.filter_nan_allowed q [n]
  = Ok (if Qlt_bool fr (Quadtree.nan_allowed q) then [n] else []).
Proof. intros Hf. simpl. by rewrite Hf. Qed.

End Walk.

Section Walk2.
Context `{Numpy}.
Variable corr : QuadNode.t → fval.
Variable lim : result (Z * Z).

Abbreviation walk eps := (QuadNode.iterLeafs corr eps lim).
Abbreviation below eps := (QuadNode.below_epsilon corr eps).
Abbreviation descend := (Walk.descend corr lim).
Abbreviation stops := (Walk.stops corr lim).

Lemma walk_unfold eps self :
  walk eps self =
    match QuadNode.children self with
    | None =>
        if below eps self then lm ← lim; Ok [self] else Ok [self]
    | Some cs =>
        if below eps self then
          lm ← lim;
          if negb (QuadNode.length self >? lm.2) then Ok [self]
          else descend eps self cs
        else descend eps self cs
    end.
Proof. destruct self as [r c l [cs|]]; reflexivity. Qed.

Lemma descend_cases eps n cs a :
  QuadNode.children n = Some cs →
  descend eps n cs = Ok a →
  ∃ c0 cs' lm, cs = c0 :: cs' ∧ lim = Ok lm ∧
    ((QuadNode.length c0 < lm.1 ∧ a = [n]) ∨
     (lm.1 ≤ QuadNode.length c0 ∧
      ∃ ass, Forall2 (λ c x, walk eps c = Ok x) cs ass ∧ a = concat ass)).
Proof.
  intros Hcs. unfold Walk.descend. destruct cs as [|c0 cs']; [done|].
  unfold mbind at 1. unfold result_bind.
  destruct lim as [lm|e] eqn:Hlim; [|done]. rewrite <- Hlim.
  intros Hd. exists c0, cs', lm. split; [done|]. split; [done|].
  revert Hd. destruct (Z.ltb_spec (QuadNode.length c0) lm.1); intros Hd.
  - left. injection Hd as <-. done.
  - right. split; [done|]. unfold mbind, result_bind in Hd.
    destruct (mapM (walk eps) (c0 :: cs')) as [ass|e] eqn:Hm; [|done].
    injection Hd as <-. exists ass. split; [|done].
    by apply mapM_result_Ok.
Qed.

Lemma walk_cases eps n a :
  walk eps n = Ok a →
  (stops eps n ∧ a = [n]) ∨
  (¬ stops eps n ∧
   ∃ cs ass, QuadNode.children n = Some cs ∧ cs ≠ [] ∧
             Forall2 (λ c x, walk eps c = Ok x) cs ass ∧ a = concat ass).
Proof.
  rewrite walk_unfold. unfold Walk.stops.
  destruct (QuadNode.children n) as [cs|] eqn:Hcs.
  - assert (descend eps n cs = Ok a →
            (¬ (below eps n = true ∧
                ∃ lm, lim = Ok lm ∧ QuadNode.length n ≤ lm.2)) →
            (stops eps n ∧ a = [n]) ∨
            (¬ stops eps n ∧
             ∃ cs0 ass, Some cs = Some cs0 ∧ cs0 ≠ [] ∧
               Forall2 (λ c x, walk eps c = Ok x) cs0 ass ∧ a = concat ass))
      as Hdesc.
    { intros Hd Hnb.
      destruct (descend_cases _ _ _ _ Hcs Hd)
        as (c0 & cs' & lm & -> & Hlm & [[Hlt ->]|[Hge (ass & HF & ->)]]).
      - left. split; [|done]. right. right. by exists c0, cs', lm.
      - right. split.
        + unfold Walk.stops. rewrite Hcs.
          intros [?|[?|(c0' & cs'' & lm' & [= <- <-] & Hlm' & Hlt)]];
            [done|done|].
          assert (lm' = lm) as -> by congruence. lia.
        + exists (c0 :: cs'), ass. by repeat split. }
    unfold Walk.stops in Hdesc. rewrite Hcs in Hdesc.
    destruct (below eps n) eqn:Hb.
    + unfold mbind at 1. unfold result_bind.
      destruct lim as [lm|e] eqn:Hlm; [|done].
      destruct (Z.gtb_spec (QuadNode.length n) lm.2); simpl.
      * intros Hd. apply Hdesc; [done|].
        intros (_ & lm' & [= <-] & Hle). lia.
      * intros [= <-]. left. split; [|done]. right. left.
        split; [done|]. exists lm. split; [done|lia].
    + intros Hd. apply Hdesc; [done|]. by intros [? _].
  - intros Ha. left. split; [by left|].
    destruct (below eps n); [|congruence].
    unfold mbind, result_bind in Ha. destruct lim; congruence.
Qed.

Lemma stops_mono eps1 eps2 n :
  (∀ m, below eps1 m = true → below eps2 m = true) →
  stops eps1 n → stops eps2 n.
Proof.
  intros Hb [Hs|[[Hs1 Hs2]|Hs]]; [by left | | by right; right].
  right. left. split; [by apply Hb | done].
Qed.

End Walk2.

Section Coarsen.
Context `{Numpy}.
Variable q : Quadtree.t.

Abbreviation W eps :=
  (QuadNode.iterLeafs (Quadtree._corr_func q) eps
                      (Quadtree.eval__tile_size_lim_px q)).
Abbreviation F := (Quadtree.filter_nan_allowed q).
Abbreviation below' eps := (QuadNode.below_epsilon (Quadtree._corr_func q) eps).
Abbreviation stops' eps :=
  (Walk.stops (Quadtree._corr_func q) (Quadtree.eval__tile_size_lim_px q) eps).

Lemma Built_children n cs :
  Run.Built q n → QuadNode.children n = Some cs →
  16 ≤ QuadNode.length n ∧ root_ok n ∧ Forall (Run.Built q) cs ∧
  map strip cs
  = filter (λ q0, QuadNode.omitted (Quadtree.scene q) q0 = false)
           (map (QuadNode.quadrant n) quadrant_indices).
Proof.
  intros (fuel & n0 & Hp & Hc) Hcs.
  apply createTree_inv in Hc as (fuel' & _ & Hs & Hsplit).
  destruct (QuadNode.split_test _ _ n0) eqn:Hst; [|congruence].
  destruct Hsplit as (cs' & Hcs' & HF). assert (cs' = cs) as -> by congruence.
  apply split_test_length in Hst.
  split; [by rewrite (strip_length _ _ Hs)|].
  split; [by apply (root_ok_strip _ _ Hs)|].
  split.
  - apply Forall_forall. intros c Hc.
    apply list_elem_of_lookup in Hc as [i Hi].
    destruct (Forall2_lookup_r _ _ _ _ _ HF Hi) as (q0 & Hq0 & Hqc).
    exists fuel', q0. split; [|done].
    apply list_elem_of_lookup_2, list_elem_of_filter in Hq0 as [_ Hq0].
    apply list_elem_of_fmap in Hq0 as (j & -> & Hj).
    by apply root_ok_quadrant.
  - assert (map (QuadNode.quadrant n0) quadrant_indices
            = map (QuadNode.quadrant n) quadrant_indices) as <-.
    { apply map_ext. intros i. by apply quadrant_strip. }
    eapply createTree_children_strip; [exact HF|].
    apply Forall_forall. intros x [_ Hx]%list_elem_of_filter.
    apply list_elem_of_fmap in Hx as (i & -> & _). apply strip_quadrant.
Qed.

(** A split node whose NaN fraction is below the allowance has a child
    whose NaN fraction is below it too. *)
Lemma child_below_allowance n cs fr :
  Run.Built q n → QuadNode.children n = Some cs → cs ≠ [] →
  QuadNode.nan_fraction (Quadtree.scene q) n = Ok fr →
  (fr < Quadtree.nan_allowed q)%Q →
  ∃ c frc, c ∈ cs ∧ QuadNode.nan_fraction (Quadtree.scene q) c = Ok frc ∧
           (frc < Quadtree.nan_allowed q)%Q.
Proof.
  intros Hb Hcs Hne Hfr Hlt.
  destruct (Built_children _ _ Hb Hcs) as (Hl & Hr & _ & Hmap).
  set (sc := Quadtree.scene q) in *. set (a := Quadtree.nan_allowed q) in *.
  apply nan_fraction_spec in Hfr as [HS ->].
  pose proof (nans_bounds sc n) as HNb.
  assert (0 < samples sc n) as HSpos by lia.
  apply (proj1 (frac_lt _ _ _ HSpos)) in Hlt.
  destruct (window_partition sc n Hr ltac:(lia)) as [HSsum HNsum].
  assert (∀ c, c ∈ cs →
            samples sc c ≠ 0 ∧ nans sc c ≠ samples sc c) as Hkept.
  { intros c Hc. apply (list_elem_of_fmap_2 strip) in Hc.
    change (strip <$> cs) with (map strip cs) in Hc. rewrite Hmap in Hc.
    apply list_elem_of_filter in Hc as [Ho _].
    apply not_true_iff_false in Ho. rewrite omitted_samples in Ho.
    rewrite samples_strip, nans_strip in Ho. tauto. }
  assert (∀ c, c ∈ cs → nans sc c * QDen a < Qnum a * samples sc c →
            ∃ frc, QuadNode.nan_fraction sc c = Ok frc ∧ (frc < a)%Q) as Hfin.
  { intros c Hc Hlc. destruct (Hkept c Hc) as [HSc _].
    pose proof (nans_bounds sc c).
    assert (0 < samples sc c) as HScpos by lia.
    eexists. split; [by apply nan_fraction_spec|].
    by apply (proj2 (frac_lt _ _ _ HScpos)). }
  destruct (Z.le_gt_cases (Qnum a) (QDen a)) as [Hle|Hgt].
  - assert (∃ i, i ∈ quadrant_indices ∧
                 nans sc (QuadNode.quadrant n i) * QDen a
                 < Qnum a * samples sc (QuadNode.quadrant n i)) as (i & Hi & Hqi).
    { destruct (Z.lt_ge_cases (nans sc (QuadNode.quadrant n (0, 0)) * QDen a)
                  (Qnum a * samples sc (QuadNode.quadrant n (0, 0))));
        [exists (0, 0); split; [by repeat constructor|done]|].
      destruct (Z.lt_ge_cases (nans sc (QuadNode.quadrant n (0, 1)) * QDen a)
                  (Qnum a * samples sc (QuadNode.quadrant n (0, 1))));
        [exists (0, 1); split; [by repeat constructor|done]|].
      destruct (Z.lt_ge_cases (nans sc (QuadNode.quadrant n (1, 0)) * QDen a)
                  (Qnum a * samples sc (QuadNode.quadrant n (1, 0))));
        [exists (1, 0); split; [by repeat constructor|done]|].
      destruct (Z.lt_ge_cases (nans sc (QuadNode.quadrant n (1, 1)) * QDen a)
                  (Qnum a * samples sc (QuadNode.quadrant n (1, 1))));
        [exists (1, 1); split; [by repeat constructor|done]|].
      rewrite HSsum, HNsum in Hlt. lia. }
    pose proof (nans_bounds sc (QuadNode.quadrant n i)) as Hbi.
    assert (QuadNode.omitted sc (QuadNode.quadrant n i) = false) as Ho.
    { apply not_true_iff_false. rewrite omitted_samples.
      intros [H0|Heq]; [rewrite H0 in *; lia|].
      rewrite Heq in Hqi. nia. }
    assert (QuadNode.quadrant n i ∈ map strip cs) as Hin.
    { rewrite Hmap. apply list_elem_of_filter. split; [done|].
      by apply list_elem_of_fmap_2. }
    apply list_elem_of_fmap in Hin as (c & Hc & Hccs).
    destruct (Hfin c Hccs) as (frc & Hfrc & Hltc).
    { by rewrite <- (samples_strip sc c), <- (nans_strip sc c), <- Hc. }
    by exists c, frc.
  - destruct cs as [|c cs']; [done|].
    assert (c ∈ c :: cs') as Hc by left.
    destruct (Hkept c Hc) as [HSc _].
    pose proof (nans_bounds sc c).
    destruct (Hfin c Hc) as (frc & Hfrc & Hltc); [nia|].
    by exists c, frc.
Qed.

Lemma walk_keeps_some eps n :
  Run.Built q n →
  ∀ a f fr, W eps n = Ok a → F a = Ok f →
            QuadNode.nan_fraction (Quadtree.scene q) n = Ok fr →
            (fr < Quadtree.nan_allowed q)%Q →
            ∃ x, x ∈ f ∧ QuadNode.length x ≤ QuadNode.length n.
Proof.
  induction n as [r c l | r c l cs IH] using QuadNode_ind';
    intros Hb a f fr Hw Hf Hfr Hlt;
    apply walk_cases in Hw
      as [[_ ->]|(_ & cs0 & ass & Hcs & Hne & HW & ->)];
    try (rewrite (filter_nan_allowed_singleton _ _ _ Hfr) in Hf;
         apply Qlt_bool_iff in Hlt; rewrite Hlt in Hf; injection Hf as <-;
         eexists; split; [by left | lia]);
    [done|].
  simpl in Hcs. injection Hcs as <-.
  destruct (Built_children _ _ Hb eq_refl) as (Hl & _ & Hbc & _).
  destruct (child_below_allowance _ _ _ Hb eq_refl Hne Hfr Hlt)
    as (c0 & frc & Hc0 & Hfrc & Hltc).
  apply filter_nan_allowed_concat in Hf as (fs & HF & ->).
  apply list_elem_of_lookup in Hc0 as [i Hi].
  destruct (Forall2_lookup_l _ _ _ _ _ HW Hi) as (a0 & Ha0 & Hwa0).
  destruct (Forall2_lookup_l _ _ _ _ _ HF Ha0) as (f0 & Hf0 & Hfa0).
  eapply Forall_lookup_1 in IH; [|exact Hi].
  eapply Forall_lookup_1 in Hbc; [|exact Hi].
  destruct (IH Hbc _ _ _ Hwa0 Hfa0 Hfrc Hltc) as (x & Hx & Hxl).
  exists x. split.
  - apply elem_of_concat. exists f0. split; [done|].
    by eapply list_elem_of_lookup_2.
  - destruct (Built_children _ _ Hb eq_refl) as (_ & _ & _ & Hmap).
    assert (strip c0 ∈ map strip cs) as Hin
      by (apply list_elem_of_fmap_2; by eapply list_elem_of_lookup_2).
    rewrite Hmap in Hin. apply list_elem_of_filter in Hin as [_ Hin].
    apply list_elem_of_fmap in Hin as (j & Hj & _).
    rewrite <- strip_quadrant in Hj. apply strip_length in Hj.
    rewrite quadrant_length in Hj. simpl in Hj, Hl |- *.
    assert (l / 2 ≤ l) by (apply Z.div_le_upper_bound; lia). lia.
Qed.

Lemma walk_coarser eps1 eps2 n :
  (∀ m, below' eps1 m = true → below' eps2 m = true) →
  Run.Built q n →
  ∀ a1 a2 f1 f2, W eps1 n = Ok a1 → W eps2 n = Ok a2 →
                 F a1 = Ok f1 → F a2 = Ok f2 → coarser f2 f1.
Proof.
  intros Hmono.
  induction n as [r c l | r c l cs IH] using QuadNode_ind';
    intros Hb a1 a2 f1 f2 Hw1 Hw2 Hf1 Hf2;
    pose proof Hw1 as Hw1'; pose proof Hw2 as Hw2';
    apply walk_cases in Hw1
      as [[Hs1 ->]|(Hs1 & cs1 & ass1 & Hcs1 & Hne1 & HW1 & ->)];
    apply walk_cases in Hw2
      as [[Hs2 ->]|(Hs2 & cs2 & ass2 & Hcs2 & Hne2 & HW2 & ->)];
    try done;
    try (assert (f2 = f1) as -> by congruence; apply coarser_refl);
    try (by destruct Hs2; eapply stops_mono).
  - (* reported at eps2, walked into at eps1 *)
    simpl in Hf2. unfold mbind, result_bind in Hf2.
    destruct (QuadNode.nan_fraction _ _) as [fr|e] eqn:Hfr; [|done].
    destruct (Qlt_bool fr (Quadtree.nan_allowed q)) eqn:Hlt;
      injection Hf2 as <-.
    + apply Qlt_bool_iff in Hlt.
      destruct (walk_keeps_some _ _ Hb _ _ _ Hw1' Hf1 Hfr Hlt)
        as (x & Hx & Hxl).
      split.
      * destruct f1; [by apply not_elem_of_nil in Hx | simpl; lia].
      * intros y ->%list_elem_of_singleton. by exists x.
    + split; [simpl; lia|]. by intros y ?%not_elem_of_nil.
  - (* walked into at both *)
    simpl in Hcs1, Hcs2. injection Hcs1 as <-. injection Hcs2 as <-.
    destruct (Built_children _ _ Hb eq_refl) as (_ & _ & Hbc & _).
    apply filter_nan_allowed_concat in Hf1 as (fs1 & HF1 & ->).
    apply filter_nan_allowed_concat in Hf2 as (fs2 & HF2 & ->).
    apply coarser_concat.
    clear -IH Hbc HW1 HW2 HF1 HF2.
    revert ass1 ass2 fs1 fs2 HW1 HW2 HF1 HF2.
    induction cs as [|c cs IHcs]; intros ass1 ass2 fs1 fs2 HW1 HW2 HF1 HF2.
    + inversion HW1; subst. inversion HW2; subst.
      inversion HF1; subst. inversion HF2; subst. constructor.
    + inversion HW1 as [|? a1 ? ass1' Hwa1 HW1']; subst.
      inversion HW2 as [|? a2 ? ass2' Hwa2 HW2']; subst.
      inversion HF1 as [|? f1 ? fs1' Hfa1 HF1']; subst.
      inversion HF2 as [|? f2 ? fs2' Hfa2 HF2']; subst.
      apply Forall_cons in IH as [IHc IH].
      apply Forall_cons in Hbc as [Hbc0 Hbc].
      constructor; [by eapply IHc | by eapply IHcs].
Qed.

End Coarsen.

Lemma fold_left_min_spec (xs : list Z) (a : Z) :
  let m := fold_left Z.min xs a in
  (m = a ∨ m ∈ xs) ∧ m ≤ a ∧ ∀ x, x ∈ xs → m ≤ x.
Proof.
  revert a. induction xs as [|x xs IH]; intros a; simpl.
  - split; [by left|]. split; [lia|]. by intros ? ?%not_elem_of_nil.
  - destruct (IH (Z.min a x)) as ([Hm|Hm] & Hle & Hall).
    + split; [|split; [lia|]].
      * rewrite Hm.
        destruct (Z.min_spec a x) as [[_ ->]|[_ ->]]; [by left | right; left].
      * intros y [->|Hy]%elem_of_cons; [lia | by apply Hall].
    + split; [by right; right|]. split; [lia|].
      intros y [->|Hy]%elem_of_cons; [lia | by apply Hall].
Qed.

Lemma min_length_spec ls m :
  min_length ls = Some m →
  (∃ y, y ∈ ls ∧ QuadNode.length y = m) ∧
  ∀ x, x ∈ ls → m ≤ QuadNode.length x.
Proof.
  destruct ls as [|l r]; [done|]. simpl. intros [= <-].
  destruct (fold_left_min_spec (map QuadNode.length r) (QuadNode.length l))
    as ([Hm|Hm] & Hle & Hall).
  - split; [exists l; split; [left | done]|].
    intros x [->|Hx]%elem_of_cons; [done|].
    apply Hall. by apply list_elem_of_fmap_2.
  - split.
    + apply list_elem_of_fmap in Hm as (y & Hy & Hin).
      exists y. split; [by right | done].
    + intros x [->|Hx]%elem_of_cons; [done|].
      apply Hall. by apply list_elem_of_fmap_2.
Qed.

Lemma min_length_is_Some ls : ls ≠ [] → ∃ m, min_length ls = Some m.
Proof. destruct ls; [done|]. intros _. by eexists. Qed.

Lemma f_lt_trans_equiv c e1' e1 e2 e2' :
  (e1' = e1 ∨ f_eq e1' e1 = true) →
  (e2' = e2 ∨ f_eq e2' e2 = true) →
  f_lt e1 e2 = true → f_lt c e1' = true → f_lt c e2' = true.
Proof.
  intros H1 H2 H12 Hc.
  destruct c as [|x]; [done|].
  destruct e1' as [|x1']; [done|].
  destruct e1 as [|x1]; [by destruct H1|].
  destruct e2 as [|x2]; [done|].
  destruct e2' as [|x2']; [by destruct H2|].
  simpl in *. rewrite Qlt_bool_iff in *.
  assert (x1' == x1)%Q as E1
    by (destruct H1 as [[= ->]|H1]; [reflexivity | by apply Qeq_bool_iff]).
  assert (x2' == x2)%Q as E2
    by (destruct H2 as [[= ->]|H2]; [reflexivity | by apply Qeq_bool_iff]).
  rewrite E2. rewrite E1 in Hc. by eapply Qlt_trans.
Qed.

Section Monotone.
Context `{Numpy}.

Lemma set_epsilon_accepted v q q' :
  f_lt v (Quadtree.epsilon_min q) = false →
  Quadtree.set_epsilon v q = Ok (tt, q') →
  Quadtree.scene q' = Quadtree.scene q ∧
  Quadtree._corr_func q' = Quadtree._corr_func q ∧
  Quadtree.cached__base_nodes q' = Quadtree.cached__base_nodes q ∧
  Quadtree.nan_allowed q' = Quadtree.nan_allowed q ∧
  Quadtree.eval__tile_size_lim_px q' = Quadtree.eval__tile_size_lim_px q ∧
  ∃ e', Quadtree.epsilon q' = Some e' ∧ (e' = v ∨ f_eq e' v = true).
Proof.
  intros Hge. unfold Quadtree.set_epsilon. py_simpl.
  destruct (Quadtree.epsilon q) as [e|] eqn:He.
  - destruct (f_eq e v) eqn:Heq.
    + intros [= <-]. repeat split; try done. exists e. split; [done | by right].
    + rewrite Hge. intros [= <-]. repeat split; try done.
      exists v. split; [done | by left].
  - rewrite Hge. intros [= <-]. repeat split; try done.
    exists v. split; [done | by left].
Qed.

Lemma filter_nan_allowed_ext q q' ls :
  Quadtree.scene q' = Quadtree.scene q →
  Quadtree.nan_allowed q' = Quadtree.nan_allowed q →
  Quadtree.filter_nan_allowed q' ls = Quadtree.filter_nan_allowed q ls.
Proof.
  intros Hs Ha. induction ls as [|l ls IH]; [done|].
  simpl. by rewrite Hs, Ha, IH.
Qed.

Lemma compute_leafs_walks q qe bs ls :
  Quadtree.scene qe = Quadtree.scene q →
  Quadtree._corr_func qe = Quadtree._corr_func q →
  Quadtree.nan_allowed qe = Quadtree.nan_allowed q →
  Quadtree.eval__tile_size_lim_px qe = Quadtree.eval__tile_size_lim_px q →
  Run.compute_leafs qe bs = Ok ls →
  ∃ lss,
    Forall2 (λ b l, ∃ a,
               QuadNode.iterLeafs (Quadtree._corr_func q) (Quadtree.epsilon qe)
                 (Quadtree.eval__tile_size_lim_px q) b = Ok a ∧
               Quadtree.filter_nan_allowed q a = Ok l) bs lss ∧
    ls = concat lss.
Proof.
  intros Hs Hf Ha Hl. unfold Run.compute_leafs.
  unfold mbind at 1. unfold result_bind.
  destruct (mapM _ bs) as [lss|e] eqn:Hm; [|done].
  intros [= <-]. exists lss. split; [|done].
  apply mapM_result_Ok in Hm.
  eapply Forall2_impl; [exact Hm|]. intros b l Hb. simpl in Hb.
  unfold Quadtree.iterLeafs in Hb. rewrite Hf, Hl in Hb.
  unfold mbind, result_bind in Hb.
  destruct (QuadNode.iterLeafs _ _ _ b) as [a|e]; [|done].
  exists a. split; [done|]. by rewrite <- (filter_nan_allowed_ext q qe).
Qed.

Lemma leafs_at_spec v q ls q' :
  Run.reachable q →
  f_lt v (Quadtree.epsilon_min q) = false →
  Run.leafs_at v q = Ok (ls, q') →
  ∃ e' bs lss,
    (e' = v ∨ f_eq e' v = true) ∧
    Quadtree.cached__base_nodes q = Some bs ∧
    Forall (Run.Built q) bs ∧
    Forall2 (λ b l, ∃ a,
               QuadNode.iterLeafs (Quadtree._corr_func q) (Some e')
                 (Quadtree.eval__tile_size_lim_px q) b = Ok a ∧
               Quadtree.filter_nan_allowed q a = Ok l) bs lss ∧
    ls = concat lss.
Proof.
  intros Hr Hge. unfold Run.leafs_at. unfold mbind, Py_bind.
  destruct (Quadtree.set_epsilon v q) as [[[] qe]|e] eqn:Hse; [|done].
  intros Hl. pose proof (reachable_inv _ Hr) as Hi.
  pose proof (inv_set_epsilon _ _ _ Hi Hse) as Hie.
  destruct (set_epsilon_accepted _ _ _ Hge Hse)
    as (Hs & Hf & Hb & Ha & Hlim & e' & He' & Heq).
  destruct (leafs_spec _ _ _ Hie Hl) as (_ & _ & _ & _ & _ & _ & bs & Hbs & Hcl).
  destruct (compute_leafs_walks q qe bs ls Hs Hf Ha Hlim Hcl) as (lss & HF & ->).
  exists e', bs, lss. rewrite He' in HF. repeat split; try done.
  - congruence.
  - destruct Hi as (_ & (bs' & Hbs' & Ht) & _).
    assert (bs' = bs) as -> by congruence. done.
Qed.

(** C2.  On a reachable quadtree, for thresholds [e1 < e2] with [e1] not
    below [epsilon_min]: the leaf set reported at [e2] has no more leaves
    than the one reported at [e1], and its smallest side is at least the
    smallest side reported at [e1]. *)
Theorem leafs_monotone_in_epsilon q e1 e2 l1 q1 l2 q2 :
  Run.reachable q →
  f_lt e1 e2 = true →
  f_lt e1 (Quadtree.epsilon_min q) = false →
  Run.leafs_at e1 q = Ok (l1, q1) →
  Run.leafs_at e2 q = Ok (l2, q2) →
  (length l2 ≤ length l1)%nat ∧
  (∀ m2, min_length l2 = Some m2 →
         ∃ m1, min_length l1 = Some m1 ∧ m1 ≤ m2).
Proof.
  intros Hr H12 Hge1 Hl1 Hl2.
  assert (f_lt e2 (Quadtree.epsilon_min q) = false) as Hge2.
  { destruct e1 as [|x1], e2 as [|x2]; try done.
    destruct (Quadtree.epsilon_min q) as [|m]; [done|].
    simpl in *. apply not_true_iff_false. apply not_true_iff_false in Hge1.
    rewrite Qlt_bool_iff in *. intros Hlt. apply Hge1.
    by eapply Qlt_trans. }
  destruct (leafs_at_spec _ _ _ _ Hr Hge1 Hl1)
    as (e1' & bs & lss1 & He1 & Hbs & Hbuilt & HF1 & ->).
  destruct (leafs_at_spec _ _ _ _ Hr Hge2 Hl2)
    as (e2' & bs' & lss2 & He2 & Hbs' & _ & HF2 & ->).
  assert (bs' = bs) as -> by congruence.
  assert (coarser (concat lss2) (concat lss1)) as [Hlen Hmem].
  { apply coarser_concat. clear Hbs Hbs' Hl1 Hl2.
    revert lss1 lss2 HF1 HF2.
    induction bs as [|b bs IH]; intros lss1 lss2 HF1 HF2.
    - inversion HF1; subst. inversion HF2; subst. constructor.
    - inversion HF1 as [|? f1 ? lss1' (a1 & Hw1 & Hf1) HF1']; subst.
      inversion HF2 as [|? f2 ? lss2' (a2 & Hw2 & Hf2) HF2']; subst.
      apply Forall_cons in Hbuilt as [Hb Hbuilt].
      constructor; [|by apply IH].
      eapply (walk_coarser q (Some e1') (Some e2')); try done.
      intros m. simpl. by apply f_lt_trans_equiv with e1 e2. }
  split; [done|].
  intros m2 Hm2. apply min_length_spec in Hm2 as [(y & Hy & <-) _].
  destruct (Hmem y Hy) as (x & Hx & Hxy).
  destruct (min_length_is_Some (concat lss1)) as [m1 Hm1].
  { intros Hnil. rewrite Hnil in Hx. by apply not_elem_of_nil in Hx. }
  exists m1. split; [done|].
  apply min_length_spec in Hm1 as [_ Hall]. specialize (Hall x Hx). lia.
Qed.

End Monotone.

(** ** Covariance matrices *)

(** Matrices *)

Lemma square_zeros n : square n (num_zeros n n).
Proof.
  unfold num_zeros. split; [apply length_replicate|].
  apply Forall_replicate, length_replicate.
Qed.

Lemma mget_zeros n i j :
  mget (num_zeros n n) i j
  = if decide (i < n ∧ j < n)%nat then Some 0%Q else None.
Proof.
  unfold mget, num_zeros. destruct (decide (i < n)%nat) as [Hi|Hi].
  - rewrite lookup_replicate_2 by done. simpl.
    destruct (decide (j < n)%nat) as [Hj|Hj].
    + rewrite lookup_replicate_2 by done. by rewrite decide_True.
    + rewrite decide_False by lia. apply lookup_replicate_None. lia.
  - rewrite decide_False by lia.
    assert (replicate n (replicate n 0%Q) !! i = None) as ->; [|done].
    apply lookup_replicate_None. lia.
Qed.

Lemma symmetric_zeros n : symmetric (num_zeros n n).
Proof.
  intros i j. rewrite !mget_zeros.
  destruct (decide (i < n ∧ j < n)%nat), (decide (j < n ∧ i < n)%nat);
    try done; lia.
Qed.

Lemma square_mset n i j v a : square n a → square n (mset i j v a).
Proof.
  intros [Hl Hr]. unfold mset.
  destruct (a !! i) as [row|] eqn:Hi; [|done].
  split; [by rewrite length_insert|].
  apply Forall_insert; [done|]. rewrite length_insert.
  by eapply Forall_lookup_1 in Hr.
Qed.

Lemma mget_mset n i j v a i' j' :
  square n a → (i < n)%nat → (j < n)%nat →
  mget (mset i j v a) i' j'
  = if decide (i' = i ∧ j' = j) then Some v else mget a i' j'.
Proof.
  intros [Hl Hr] Hi Hj. unfold mset, mget.
  destruct (lookup_lt_is_Some_2 a i ltac:(lia)) as [row Hrow].
  rewrite Hrow.
  assert (length row = n) as Hlr by (by eapply Forall_lookup_1 in Hr).
  destruct (decide (i' = i)) as [->|Hne].
  - rewrite list_lookup_insert_eq by lia. simpl.
    destruct (decide (j' = j)) as [->|Hnej].
    + rewrite list_lookup_insert_eq by lia. by rewrite decide_True.
    + rewrite list_lookup_insert_ne by done.
      rewrite decide_False by tauto. by rewrite Hrow.
  - rewrite list_lookup_insert_ne by done. by rewrite decide_False by tauto.
Qed.

Lemma symmetric_mset_pair n i j v a :
  square n a → (i < n)%nat → (j < n)%nat → symmetric a →
  symmetric (mset j i v (mset i j v a)).
Proof.
  intros Hsq Hi Hj Hsym i' j'.
  rewrite !(mget_mset n) by (try apply square_mset; done).
  repeat case_decide; try done; try lia; apply Hsym.
Qed.

Lemma mget_map f (a : matrix) i j :
  mget (map (map f) a) i j = f <$> mget a i j.
Proof.
  unfold mget. change (map (map f) a) with (map f <$> a).
  rewrite list_lookup_fmap. destruct (a !! i) as [row|]; [|done].
  simpl. change (map f row) with (f <$> row). by rewrite list_lookup_fmap.
Qed.

Lemma square_map f n (a : matrix) : square n a → square n (map (map f) a).
Proof.
  intros [Hl Hr]. split; [by rewrite length_map|].
  apply Forall_forall. intros row Hrow.
  apply list_elem_of_fmap in Hrow as (row' & -> & Hrow').
  rewrite length_map. by eapply Forall_forall in Hr.
Qed.

Lemma symmetric_map f (a : matrix) : symmetric a → symmetric (map (map f) a).
Proof. intros Hs i j. by rewrite !mget_map, Hs. Qed.

Lemma mget_fill_diagonal n v (a : matrix) i j :
  square n a →
  mget (fill_diagonal v a) i j
  = if decide (i = j ∧ (i < n)%nat) then Some v else mget a i j.
Proof.
  intros [Hl Hr]. unfold mget, fill_diagonal. rewrite list_lookup_imap.
  destruct (a !! i) as [row|] eqn:Hi; simpl.
  - assert (length row = n) as Hlr by (by eapply Forall_lookup_1 in Hr).
    apply lookup_lt_Some in Hi.
    destruct (decide (i = j)) as [->|Hne].
    + rewrite list_lookup_insert_eq by lia. by rewrite decide_True by lia.
    + rewrite list_lookup_insert_ne by done. by rewrite decide_False by tauto.
  - apply lookup_ge_None in Hi. by rewrite decide_False by lia.
Qed.

Lemma symmetric_fill_diagonal n v (a : matrix) :
  square n a → symmetric a → symmetric (fill_diagonal v a).
Proof.
  intros Hsq Hs i j. rewrite !(mget_fill_diagonal n) by done.
  repeat case_decide; try done; try lia; apply Hs.
Qed.

Lemma length_fill_diagonal v (a : matrix) :
  length (fill_diagonal v a) = length a.
Proof. unfold fill_diagonal. apply length_imap. Qed.

Lemma elem_of_triu_indices n i j :
  (i, j) ∈ triu_indices n → (i < n)%nat ∧ (j < n)%nat.
Proof.
  unfold triu_indices. intros Hin.
  apply list_elem_of_bind in Hin as (i' & Hin & Hi').
  apply list_elem_of_bind in Hin as (j' & Hin & Hj').
  apply list_elem_of_singleton in Hin as [= -> ->].
  apply elem_of_seq in Hi', Hj'. lia.
Qed.

(** The state-and-exception monad *)

Lemma Py_bind_Ok {S A B} (m : Py S A) (k : A → Py S B) s r s' :
  (m ≫= k) s = Ok (r, s') ↔ ∃ a s1, m s = Ok (a, s1) ∧ k a s1 = Ok (r, s').
Proof.
  unfold mbind, Py_bind. destruct (m s) as [[a s1]|e].
  - split; [by exists a, s1 | by intros (? & ? & [= <- <-] & ?)].
  - split; [done | by intros (? & ? & ? & _)].
Qed.

Lemma py_for_inv {S A B} (I : list A → B → Prop) (l : list A)
    (body : A → B → Py S B) :
  ∀ pre acc s r s',
    I pre acc →
    (∀ pre' x b s1 b' s2, x ∈ l → I pre' b → body x b s1 = Ok (b', s2) →
                          I (pre' ++ [x]) b') →
    Covariance.py_for l body acc s = Ok (r, s') → I (pre ++ l) r.
Proof.
  induction l as [|x l IH]; intros pre acc s r s' Hacc Hstep; simpl.
  - intros [= <- <-]. by rewrite app_nil_r.
  - intros (b' & s1 & Hb & Hrest)%Py_bind_Ok.
    replace (pre ++ x :: l) with ((pre ++ [x]) ++ l)
      by (by rewrite <- app_assoc).
    eapply IH; [| |exact Hrest].
    + eapply Hstep; [left|done..].
    + intros pre' y b s2 b2 s3 Hy. apply Hstep. by right.
Qed.

Section Cov.
Context `{Numpy}.

Lemma leafs_cached q ls q' :
  Quadtree.leafs q = Ok (ls, q') → Quadtree.cached_leafs q' = Some ls.
Proof.
  unfold Quadtree.leafs.
  intros (s0 & s1 & [= <- <-] & Hc)%Py_bind_Ok.
  destruct (Quadtree.cached_leafs q) as [ls0|] eqn:Hcache.
  - by injection Hc as <- <-.
  - apply Py_bind_Ok in Hc as (bs & s2 & _ & Hc).
    apply Py_bind_Ok in Hc as (s3 & s4 & [= <- <-] & Hc).
    apply Py_bind_Ok in Hc as (lss & s5 & _ & Hc).
    apply Py_bind_Ok in Hc as ([] & s6 & _ & Hc).
    apply Py_bind_Ok in Hc as ([] & s7 & [= <-] & Hc).
    by injection Hc as <- <-.
Qed.

Lemma leafs_idem q ls :
  Quadtree.cached_leafs q = Some ls → Quadtree.leafs q = Ok (ls, q).
Proof.
  intros Hc. unfold Quadtree.leafs, mbind, Py_bind, py_get. by rewrite Hc.
Qed.

Lemma quadtree_leafs_cached s ls s' :
  Covariance.quadtree_leafs s = Ok (ls, s') →
  Quadtree.cached_leafs (Covariance._quadtree s') = Some ls.
Proof.
  unfold Covariance.quadtree_leafs.
  destruct (Quadtree.leafs (Covariance._quadtree s)) as [[ls' q']|e] eqn:Hl;
    [|done].
  intros [= <- <-]. simpl. by eapply leafs_cached.
Qed.

Lemma quadtree_leafs_idem s ls :
  Quadtree.cached_leafs (Covariance._quadtree s) = Some ls →
  Covariance.quadtree_leafs s = Ok (ls, s).
Proof.
  intros Hc. unfold Covariance.quadtree_leafs. rewrite (leafs_idem _ _ Hc).
  by destruct s.
Qed.

Lemma leaf_distances_square gridE gridN leaf_map nthreads :
  square (length leaf_map)
         (Covariance.leaf_distances gridE gridN leaf_map nthreads) ∧
  symmetric (Covariance.leaf_distances gridE gridN leaf_map nthreads).
Proof.
  unfold Covariance.leaf_distances.
  set (n := length leaf_map).
  assert (∀ l a, (∀ p, p ∈ l → (p.1 < n)%nat ∧ (p.2 < n)%nat) →
                 square n a ∧ symmetric a →
                 ∀ f : matrix → nat * nat → matrix,
                   (∀ dm p, f dm p = dm ∨
                            ∃ v, f dm p = mset p.2 p.1 v (mset p.1 p.2 v dm)) →
                   square n (fold_left f l a) ∧ symmetric (fold_left f l a))
    as Hfold.
  { induction l as [|p l IH]; intros a Hl Ha f Hf; [done|].
    simpl. apply IH; [| |exact Hf].
    - intros p' Hp'. apply Hl. by right.
    - destruct (Hl p ltac:(left)) as [Hp1 Hp2].
      destruct (Hf a p) as [->|[v ->]]; [done|].
      destruct Ha as [Hsq Hsym]. split.
      + by repeat apply square_mset.
      + by apply (symmetric_mset_pair n). }
  apply Hfold.
  - intros [i j] Hp. by apply elem_of_triu_indices.
  - split; [apply square_zeros | apply symmetric_zeros].
  - intros dm [nx ny]. simpl.
    destruct (leaf_map !! nx); [|by left].
    destruct (leaf_map !! ny); [|by left].
    right. by eexists.
Qed.

Lemma covariance_func_cached s cov d s' :
  Covariance.covariance_func s = Ok ((cov, d), s') →
  Covariance.cached_covariance_func s' = Some (cov, d).
Proof.
  unfold Covariance.covariance_func.
  intros (s0 & s1 & [= <- <-] & Hc)%Py_bind_Ok.
  destruct (Covariance.cached_covariance_func s) as [v|] eqn:Hcache.
  - by injection Hc as <- <-.
  - apply Py_bind_Ok in Hc as ([[[ps k] kx] ky] & s2 & _ & Hc).
    apply Py_bind_Ok in Hc as ([cov' d'] & s3 & _ & Hc).
    apply Py_bind_Ok in Hc as (s4 & s5 & [= <- <-] & Hc).
    apply Py_bind_Ok in Hc as ([] & s6 & [= <-] & Hc).
    by injection Hc as <- <- <-.
Qed.

Lemma covariance_func_idem s v :
  Covariance.cached_covariance_func s = Some v →
  Covariance.covariance_func s = Ok (v, s).
Proof.
  intros Hc. unfold Covariance.covariance_func, mbind, Py_bind, py_get.
  by rewrite Hc.
Qed.

Lemma variance_spec s v s' :
  Covariance.variance s = Ok (v, s') →
  ∃ cov d, Covariance.covariance_func s = Ok ((cov, d), s') ∧
           num_max cov = Ok v.
Proof.
  unfold Covariance.variance.
  intros ([cov d] & s1 & Hc & Hm)%Py_bind_Ok.
  unfold py_lift in Hm. destruct (num_max cov) as [v'|e] eqn:Hv; [|done].
  injection Hm as <- <-. by exists cov, d.
Qed.

Lemma covariance_spec dist s cm s' :
  Covariance.covariance dist s = Ok (cm, s') →
  ∃ d cov, cm = map (map (interp1d_nearest d cov)) dist.
Proof.
  unfold Covariance.covariance.
  intros (s0 & s1 & _ & Hc)%Py_bind_Ok.
  apply Py_bind_Ok in Hc as ([d cov] & s2 & _ & Hc).
  injection Hc as <- <-. by exists d, cov.
Qed.

Lemma focal_loop_spec nl s dm s' :
  Covariance.py_for (triu_indices nl)
    (λ '(nx, ny) dist_matrix,
       '(leaf1, leaf2) ← Covariance._mapLeafs nx ny;
       self ← py_get;
       let dist := Covariance._leafFocalDistance
                     (Quadtree.scene (Covariance._quadtree self))
                     leaf1 leaf2 in
       mret (mset ny nx dist (mset nx ny dist dist_matrix)))
    (num_zeros nl nl) s = Ok (dm, s') →
  square nl dm ∧ symmetric dm.
Proof.
  intros Hloop.
  eapply (py_for_inv (λ _ dm, square nl dm ∧ symmetric dm) _ _ [])
    in Hloop; [done| |].
  - split; [apply square_zeros | apply symmetric_zeros].
  - intros _ [nx ny] b s1 b' s2 Hin [Hsq Hsym] Hbody.
    apply elem_of_triu_indices in Hin as [Hx Hy].
    apply Py_bind_Ok in Hbody as ([leaf1 leaf2] & s3 & _ & Hbody).
    apply Py_bind_Ok in Hbody as (s4 & s5 & _ & Hbody).
    injection Hbody as <- <-. split.
    + by repeat apply square_mset.
    + by apply (symmetric_mset_pair nl).
Qed.

Lemma leaf_map_loop_spec (ls : list QuadNode.t) s lm s' :
  Covariance.py_for (seq 0 (length ls))
    (λ nl leaf_map,
       '(leaf, _) ← Covariance._mapLeafs nl nl;
       let r0 := QuadNode.llr leaf in
       let c0 := QuadNode.llc leaf in
       let n := QuadNode.length leaf in
       mret (leaf_map ++ [(Covariance.uint32 r0, Covariance.uint32 (r0 + n),
                           Covariance.uint32 c0, Covariance.uint32 (c0 + n))]))
    [] s = Ok (lm, s') →
  length lm = length ls.
Proof.
  intros Hloop.
  eapply (py_for_inv (λ pre (lm : list (Z * Z * Z * Z)),
                        length lm = length pre) _ _ []) in Hloop.
  - simpl in Hloop. by rewrite Hloop, length_seq.
  - done.
  - intros pre x b s1 b' s2 _ Hb Hbody.
    apply Py_bind_Ok in Hbody as ([leaf ?] & s3 & _ & Hbody).
    injection Hbody as <- <-. rewrite !length_app, Hb. done.
Qed.

(** C3.  The matrix [_calcDistanceMatrix] returns is symmetric, has one row
    per current leaf, and every diagonal entry is the variance, the largest
    value of the empirical covariance curve [covariance_func]. *)
Theorem covariance_matrix_symmetric method nthreads s M s' :
  Covariance._calcDistanceMatrix method nthreads s = Ok (M, s') →
  symmetric M ∧
  (∃ ls s1, Covariance.quadtree_leafs
              (Covariance.with__initialized true s) = Ok (ls, s1) ∧
            length M = length ls) ∧
  ∃ cov d v,
    Covariance.covariance_func s' = Ok ((cov, d), s') ∧
    num_max cov = Ok v ∧
    ∀ i, (i < length M)%nat → mget M i i = Some v.
Proof.
  unfold Covariance._calcDistanceMatrix.
  intros ([] & s1 & [= <-] & Hc)%Py_bind_Ok.
  apply Py_bind_Ok in Hc as (ls & s2 & Hls & Hc).
  apply Py_bind_Ok in Hc as ([] & s3 & [= <-] & Hc).
  apply Py_bind_Ok in Hc as (dm & s4 & Hdm & Hc).
  apply Py_bind_Ok in Hc as (cm & s5 & Hcm & Hc).
  apply Py_bind_Ok in Hc as (v & s6 & Hv & Hc).
  injection Hc as <- <-.
  assert (square (length ls) dm ∧ symmetric dm) as [Hsq Hsym].
  { destruct method.
    - by apply focal_loop_spec in Hdm.
    - apply Py_bind_Ok in Hdm as (ls' & s7 & Hls' & Hdm).
      apply Py_bind_Ok in Hdm as (lm & s8 & Hlm & Hdm).
      apply Py_bind_Ok in Hdm as (s9 & s10 & _ & Hdm).
      injection Hdm as <- <-.
      apply leaf_map_loop_spec in Hlm.
      assert (length ls' = length ls) as Hlen.
      { apply quadtree_leafs_cached in Hls.
        rewrite (quadtree_leafs_idem _ ls) in Hls' by done.
        by injection Hls' as <- _. }
      rewrite <- Hlen, <- Hlm. apply leaf_distances_square. }
  apply covariance_spec in Hcm as (d0 & cov0 & ->).
  apply variance_spec in Hv as (cov & d & Hcf & Hmax).
  pose proof (square_map (interp1d_nearest d0 cov0) _ _ Hsq) as Hsq'.
  split; [|split].
  - apply (symmetric_fill_diagonal (length ls)); [done|].
    by apply symmetric_map.
  - exists ls, s2. split; [done|].
    rewrite length_fill_diagonal. apply Hsq'.
  - exists cov, d, v. split; [|split; [done|]].
    + apply covariance_func_idem. by eapply covariance_func_cached.
    + intros i Hi. rewrite length_fill_diagonal in Hi.
      rewrite (mget_fill_diagonal (length ls)) by done.
      destruct Hsq' as [Hl _]. rewrite decide_True; [done|lia].
Qed.

End Cov.

(** ** Leaf queries, the covariance curve and construction *)

Section Queries.
Context `{Numpy}.

(** C8.  [getCovariance] raises the KeyError naming the first argument
    whose id is not in the leaf mapping, and for two ids in the mapping it
    returns the entry of the covariance matrix at the mapped indices. *)
Theorem getCovariance_lookup leaf1 leaf2 s m s1 s2 mp :
  Covariance.covariance_matrix s = Ok (m, s1) →
  Covariance.ensure_initialized s1 = Ok (tt, s2) →
  Covariance._leaf_mapping s2 = Some mp →
  (mp !! Covariance.leaf_id leaf1 = None →
   Covariance.getCovariance leaf1 leaf2 s
   = Raise (Covariance.unknown_leaf (Covariance.leaf_id leaf1))) ∧
  (is_Some (mp !! Covariance.leaf_id leaf1) →
   mp !! Covariance.leaf_id leaf2 = None →
   Covariance.getCovariance leaf1 leaf2 s
   = Raise (Covariance.unknown_leaf (Covariance.leaf_id leaf2))) ∧
  (∀ i j v, mp !! Covariance.leaf_id leaf1 = Some i →
            mp !! Covariance.leaf_id leaf2 = Some j →
            mget m i j = Some v →
            Covariance.getCovariance leaf1 leaf2 s = Ok (v, s2)).
Proof.
  intros Hm He Hmp.
  assert (∀ r, Covariance.getCovariance leaf1 leaf2 s = r ↔
    match mp !! Covariance.leaf_id leaf1 with
    | None => Raise (Covariance.unknown_leaf (Covariance.leaf_id leaf1))
    | Some i =>
        match mp !! Covariance.leaf_id leaf2 with
        | None => Raise (Covariance.unknown_leaf (Covariance.leaf_id leaf2))
        | Some j => match mget m i j with
                    | Some v => Ok (v, s2)
                    | None => Raise IndexError
                    end
        end
    end = r) as Hget.
  { intros r. unfold Covariance.getCovariance, Covariance._getMapping.
    unfold mbind at 1. unfold Py_bind. rewrite Hm.
    unfold mbind at 1. unfold Py_bind.
    unfold mbind at 1. unfold Py_bind. rewrite He.
    unfold mbind at 1. unfold Py_bind, py_get. rewrite Hmp.
    destruct (mp !! Covariance.leaf_id leaf1) as [i|]; [|done].
    destruct (mp !! Covariance.leaf_id leaf2) as [j|]; [|done].
    unfold mret, Py_ret. by destruct (mget m i j). }
  split; [|split].
  - intros H1. apply Hget. by rewrite H1.
  - intros [i H1] H2. apply Hget. by rewrite H1, H2.
  - intros i j v H1 H2 Hv. apply Hget. by rewrite H1, H2, Hv.
Qed.

(** The distances of the empirical covariance curve are the multiples of
    the east spacing, whichever frequency axis is the longer. *)
Lemma covariance_func_distances s cov d s' :
  Covariance.cached_covariance_func s = None →
  Covariance.covariance_func s = Ok ((cov, d), s') →
  d = map (λ i, inject_Z i
                * Frame.dE (Quadtree.frame (Covariance._quadtree s')))%Q
          (seqZ 1 (Z.of_nat (length cov))).
Proof.
  intros Hcache. unfold Covariance.covariance_func.
  intros (s0 & s1 & [= <- <-] & Hc)%Py_bind_Ok. rewrite Hcache in Hc.
  apply Py_bind_Ok in Hc as ([[[ps k] kx] ky] & s2 & _ & Hc).
  apply Py_bind_Ok in Hc as ([cov' d'] & s3 & Hl & Hc).
  unfold py_lift in Hl.
  destruct (Covariance.covarianceCosine ps k) as [[c0 k0]|e]; [|done].
  injection Hl as <- <- <-.
  apply Py_bind_Ok in Hc as (s4 & s5 & [= <- <-] & Hc).
  apply Py_bind_Ok in Hc as ([] & s6 & [= <-] & Hc).
  injection Hc as <- <- <-. simpl.
  by destruct (length ky <? length kx)%nat.
Qed.

(** C10.  [Covariance(quadtree)] raises AttributeError for every Quadtree
    object: it reads [quadtree._scene], and a Quadtree has neither [_scene]
    nor [treeUpdate], only [scene], [evChanged] and [evConfigChanged]. *)
Theorem Covariance_init_raises quadtree config :
  Covariance.__init__ quadtree config = Raise (AttributeError "_scene") ∧
  QuadtreeAttr.getattr quadtree "treeUpdate"
  = Raise (AttributeError "treeUpdate") ∧
  ("_scene" ∉ QuadtreeAttr.class_attributes
              ++ QuadtreeAttr.instance_attributes) ∧
  ("treeUpdate" ∉ QuadtreeAttr.class_attributes
                  ++ QuadtreeAttr.instance_attributes) ∧
  QuadtreeAttr.getattr quadtree "scene" = Ok (PyScene (Quadtree.scene quadtree)) ∧
  QuadtreeAttr.getattr quadtree "evChanged"
  = Ok (PySubject (Quadtree.evChanged quadtree)) ∧
  QuadtreeAttr.getattr quadtree "evConfigChanged"
  = Ok (PySubject (Quadtree.evConfigChanged quadtree)).
Proof.
  repeat split; try reflexivity.
  - apply (bool_decide_unpack _). by vm_compute.
  - apply (bool_decide_unpack _). by vm_compute.
Qed.

End Queries.

Section Evaluation.
Import Examples.
#[local] Existing Instance numpy.

(** C9.  Noise patch of 4 rows and 8 columns, east spacing 1, north
    spacing 2: the north frequency axis is the longer one, and the distances
    of the curve are 1, 2 (lag times the east spacing), not 2, 4 (lag times
    the north spacing). *)
Theorem covariance_func_north_axis_uses_dE :
  (∃ noise k_x k_y ps k s,
     Covariance.noise_data grid_covariance = Ok (noise, s) ∧
     shape2 noise = (4, 8) ∧
     Covariance.noiseSpectrum grid_covariance = Ok ((ps, k, k_x, k_y), s) ∧
     (length k_x < length k_y)%nat) ∧
  Frame.dE (Quadtree.frame (Covariance._quadtree grid_covariance)) = 1%Q ∧
  Frame.dN (Quadtree.frame (Covariance._quadtree grid_covariance)) = 2%Q ∧
  ∃ cov s, Covariance.covariance_func grid_covariance
           = Ok ((cov, [1; 2]%Q), s).
Proof.
  split; [|split; [|split]].
  - do 6 eexists. split; [vm_compute; reflexivity|].
    split; [vm_compute; reflexivity|].
    split; [vm_compute; reflexivity|]. vm_compute. lia.
  - vm_compute. reflexivity.
  - vm_compute. reflexivity.
  - do 2 eexists. vm_compute. reflexivity.
Qed.

End Evaluation.

(** * The inverse of a matrix *)

Section Inverse.

Lemma length_axpy c x y :
  length x = length y → length (axpy c x y) = length y.
Proof. intros Hl. unfold axpy. rewrite length_zip_with. lia. Qed.

Lemma length_scale c x : length (scale c x) = length x.
Proof. apply length_map. Qed.

Lemma nth_axpy c x y k :
  length x = length y →
  (nth k (axpy c x y) 0 == nth k y 0 - c * nth k x 0)%Q.
Proof.
  revert y k. induction x as [|a x IH]; intros [|b y] k Hl; try done.
  - destruct k; simpl; ring.
  - destruct k as [|k]; simpl; [ring|]. apply IH. by injection Hl.
Qed.

Lemma nth_scale c x k : (nth k (scale c x) 0 == c * nth k x 0)%Q.
Proof.
  revert k. induction x as [|a x IH]; intros [|k]; simpl; try ring.
  apply IH.
Qed.

Lemma dot_axpy c x y v :
  length x = length y →
  (dot (axpy c x y) v == dot y v - c * dot x v)%Q.
Proof.
  revert y v. induction x as [|a x IH]; intros [|b y] v Hl; try done.
  - simpl. ring.
  - destruct v as [|d v]; simpl; [ring|].
    rewrite (IH y v) by (by injection Hl). ring.
Qed.

Lemma dot_scale c x v : (dot (scale c x) v == c * dot x v)%Q.
Proof.
  revert v. induction x as [|a x IH]; intros [|d v]; simpl; try ring.
  rewrite IH. ring.
Qed.

Lemma dot_zero u v :
  (∀ t, (t < length u)%nat → (nth t u 0 == 0)%Q) → (dot u v == 0)%Q.
Proof.
  revert v. induction u as [|a u IH]; intros [|d v] Hz; simpl; try ring.
  rewrite (Hz 0%nat) by (simpl; lia).
  rewrite IH; [ring|]. intros t Ht. apply (Hz (S t)). simpl. lia.
Qed.

Lemma dot_kronecker i u v :
  (∀ t, (t < length u)%nat → (nth t u 0 == kronecker i t)%Q) →
  (i < length u)%nat → length u = length v →
  (dot u v == nth i v 0)%Q.
Proof.
  revert i v. induction u as [|a u IH]; intros i [|d v] Hk Hi Hl;
    simpl in *; try lia.
  destruct i as [|i].
  - rewrite (Hk 0%nat) by lia. unfold kronecker at 1. simpl.
    rewrite dot_zero; [ring|]. intros t Ht.
    rewrite (Hk (S t)) by lia. done.
  - rewrite (Hk 0%nat) by lia. unfold kronecker at 1. simpl.
    rewrite (IH i v); [ring| |lia|lia]. intros t Ht.
    rewrite (Hk (S t)) by lia. unfold kronecker.
    destruct (decide (S i = S t)), (decide (i = t)); done || lia.
Qed.

Lemma dot_app u1 u2 v1 v2 :
  length u1 = length v1 →
  (dot (u1 ++ u2) (v1 ++ v2) == dot u1 v1 + dot u2 v2)%Q.
Proof.
  revert v1. induction u1 as [|a u1 IH]; intros [|d v1] Hl; try done.
  - simpl. ring.
  - simpl. rewrite IH by (by injection Hl). ring.
Qed.

Lemma dot_zero_r u v : Forall (λ x, x == 0)%Q v → (dot u v == 0)%Q.
Proof.
  intros Hv. revert u. induction Hv as [|d v Hd Hv IH]; intros [|a u];
    simpl; try ring.
  rewrite Hd, IH. ring.
Qed.

Lemma dot_proper u u' v : Forall2 Qeq u u' → (dot u v == dot u' v)%Q.
Proof.
  intros Hu. revert v. induction Hu as [|a a' u u' Ha Hu IH]; intros [|d v];
    simpl; try ring.
  rewrite Ha, IH. ring.
Qed.

Lemma dot_map_add {A} (f g : A → Q) l v :
  (dot (map (λ j, f j + g j) l) v
   == dot (map f l) v + dot (map g l) v)%Q.
Proof.
  revert v. induction l as [|j l IH]; intros [|d v]; simpl; try ring.
  rewrite IH. ring.
Qed.

Lemma dot_map_mul {A} c (f : A → Q) l v :
  (dot (map (λ j, c * f j) l) v == c * dot (map f l) v)%Q.
Proof.
  revert v. induction l as [|j l IH]; intros [|d v]; simpl; try ring.
  rewrite IH. ring.
Qed.

Lemma map_nth_seq (r : list Q) :
  map (λ j, nth j r 0%Q) (seq 0 (length r)) = r.
Proof.
  apply list_eq. intros i. rewrite list_lookup_fmap.
  destruct (r !! i) as [x|] eqn:Hx.
  - rewrite lookup_seq_lt by (by eapply lookup_lt_Some). simpl.
    by rewrite (nth_lookup_Some _ _ _ _ Hx).
  - apply lookup_ge_None in Hx. rewrite lookup_seq_ge by done. done.
Qed.

(** [(b @ a) . v = b . (a @ v)] *)
Lemma dot_matmul (a : matrix) b v c :
  Forall (λ r, length r = c) a →
  (dot (map (λ j, dot b (column j a)) (seq 0 c)) v
   == dot b (map (λ r, dot r v) a))%Q.
Proof.
  intros Ha. revert b. induction Ha as [|r a Hr Ha IH]; intros b.
  - rewrite dot_zero; [by destruct b|]. intros t Ht.
    rewrite length_map, length_seq in Ht.
    erewrite (nth_lookup_Some _ _ 0%Q).
    2: { by rewrite list_lookup_fmap, lookup_seq_lt. }
    by destruct b.
  - destruct b as [|x b].
    { rewrite dot_zero; [done|]. intros t Ht.
      rewrite length_map, length_seq in Ht.
      erewrite (nth_lookup_Some _ _ 0%Q).
      2: { by rewrite list_lookup_fmap, lookup_seq_lt. }
      done. }
    simpl.
    rewrite (dot_map_add (λ j, x * nth j r 0)%Q (λ j, dot b (column j a))).
    rewrite dot_map_mul, IH. subst c. rewrite map_nth_seq. done.
Qed.

Lemma find_pivot_Some j rows p rest :
  find_pivot j rows = Some (p, rest) →
  ∃ t1 t2, rows = t1 ++ p :: t2 ∧ rest = t1 ++ t2 ∧
           ¬ (nth j p.1 0 == 0)%Q.
Proof.
  revert p rest. induction rows as [|r rows IH]; intros p rest; [done|].
  simpl. destruct (Qeq_bool (nth j r.1 0%Q) 0) eqn:Hz.
  - destruct (find_pivot j rows) as [[p' rest']|]; [|done].
    intros [= -> <-]. destruct (IH p rest' eq_refl) as (t1 & t2 & -> & -> & Hp).
    by exists (r :: t1), t2.
  - intros [= -> ->]. exists [], rest. split; [done|]. split; [done|].
    intros Hq. apply Qeq_bool_iff in Hq. congruence.
Qed.

Lemma find_pivot_None j rows :
  find_pivot j rows = None → Forall (λ r, nth j r.1 0 == 0)%Q rows.
Proof.
  induction rows as [|r rows IH]; [done|]. simpl.
  destruct (Qeq_bool (nth j r.1 0%Q) 0) eqn:Hz; [|done].
  destruct (find_pivot j rows) as [[p' rest']|]; [done|]. intros _.
  constructor; [by apply Qeq_bool_iff|by apply IH].
Qed.

(** ** Rows of the elimination *)

Variable n : nat.

Lemma row_ok_eliminate j p r :
  row_ok n p → row_ok n r → row_ok n (eliminate j p r).
Proof.
  intros [Hp1 Hp2] [Hr1 Hr2]. split; simpl; rewrite length_axpy; congruence.
Qed.

Lemma row_ok_normalise j p : row_ok n p → row_ok n (normalise j p).
Proof. intros [Hp1 Hp2]. split; simpl; by rewrite length_scale. Qed.

Lemma combines_eliminate m j p r :
  row_ok n p → row_ok n r → combines m p → combines m r →
  combines m (eliminate j p r).
Proof.
  intros [Hp1 Hp2] [Hr1 Hr2] Hp Hr k. simpl.
  rewrite nth_axpy, dot_axpy by congruence. by rewrite (Hp k), (Hr k).
Qed.

Lemma combines_normalise m j p : combines m p → combines m (normalise j p).
Proof. intros Hp k. simpl. by rewrite nth_scale, dot_scale, (Hp k). Qed.

Lemma solves_eliminate x j p r :
  row_ok n p → row_ok n r → solves x p → solves x (eliminate j p r) →
  solves x r.
Proof.
  intros [Hp1 Hp2] [Hr1 Hr2] Hp He k. specialize (He k). simpl in He.
  rewrite nth_axpy, dot_axpy in He by congruence.
  rewrite (Hp k) in He.
  apply (Qplus_inj_r _ _ (- (nth j r.1 0 * nth k p.2 0))%Q).
  unfold Qminus in He. exact He.
Qed.

Lemma solves_normalise x j p :
  ¬ (nth j p.1 0 == 0)%Q → solves x (normalise j p) → solves x p.
Proof.
  intros Hc Hn k. specialize (Hn k). simpl in Hn.
  rewrite nth_scale, dot_scale in Hn.
  apply (Qmult_inj_l _ _ (/ nth j p.1 0)%Q); [|exact Hn].
  intros Hi. apply Hc.
  rewrite <- (Qinv_involutive (nth j p.1 0%Q)), Hi. done.
Qed.

Lemma solves_eliminate_all x j p rows :
  row_ok n p → Forall (row_ok n) rows → solves x p →
  Forall (solves x) (map (eliminate j p) rows) → Forall (solves x) rows.
Proof.
  intros Hp Hok Hs. induction Hok as [|r rows Hr Hok IH]; [done|].
  simpl. intros [He Hall]%Forall_cons. constructor; [|by apply IH].
  by apply (solves_eliminate x j p).
Qed.

Lemma kills_eliminate u j p r :
  row_ok n p → row_ok n r → kills u p → kills u (eliminate j p r) → kills u r.
Proof.
  unfold kills. intros [Hp1 Hp2] [Hr1 Hr2] Hp He. simpl in He.
  rewrite dot_axpy, Hp in He by congruence. rewrite <- He. ring.
Qed.

Lemma kills_normalise u j p :
  ¬ (nth j p.1 0 == 0)%Q → kills u (normalise j p) → kills u p.
Proof.
  unfold kills. intros Hc Hn. simpl in Hn. rewrite dot_scale in Hn.
  apply (Qmult_inj_l _ _ (/ nth j p.1 0)%Q).
  - intros Hi. apply Hc.
    rewrite <- (Qinv_involutive (nth j p.1 0%Q)), Hi. done.
  - rewrite Hn. ring.
Qed.

Lemma kills_eliminate_all u j p rows :
  row_ok n p → Forall (row_ok n) rows → kills u p →
  Forall (kills u) (map (eliminate j p) rows) → Forall (kills u) rows.
Proof.
  intros Hp Hok Hs. induction Hok as [|r rows Hr Hok IH]; [done|].
  simpl. intros [He Hall]%Forall_cons. constructor; [|by apply IH].
  by apply (kills_eliminate u j p).
Qed.

(** ** The invariant of the elimination *)

Variable m : matrix.

Lemma elim_inv_step j done todo p rest :
  elim_inv n m j done todo → find_pivot j todo = Some (p, rest) →
  elim_inv n m (S j) (map (eliminate j (normalise j p)) done ++ [normalise j p])
           (map (eliminate j (normalise j p)) rest).
Proof.
  intros [Hd Hc Hok Hcomb Hsol Hkil Hpiv Hclr] Hf.
  apply find_pivot_Some in Hf as (t1 & t2 & -> & -> & Hnz).
  apply Forall_app in Hok as [Hokd Hokt].
  apply Forall_app in Hokt as [Hok1 [Hokp Hok2]%Forall_cons].
  apply Forall_app in Hcomb as [Hcd Hct].
  apply Forall_app in Hct as [Hc1 [Hcp Hc2]%Forall_cons].
  set (p' := normalise j p).
  assert (row_ok n p') as Hokp' by by apply row_ok_normalise.
  assert (combines m p') as Hcp' by by apply combines_normalise.
  assert (nth j p'.1 0 == 1)%Q as Hp1.
  { unfold p'. simpl. rewrite nth_scale. rewrite Qmult_comm.
    by apply Qmult_inv_r. }
  assert (∀ k, (k < j)%nat → nth k p'.1 0 == 0)%Q as Hp0.
  { intros k Hk. unfold p'. simpl. rewrite nth_scale.
    assert (nth k p.1 0 == 0)%Q as -> by (apply Hclr; [set_solver|done]).
    ring. }
  assert (∀ r, row_ok n r → (nth j (eliminate j p' r).1 0 == 0)%Q) as He1.
  { intros r [Hr1 Hr2]. unfold eliminate. cbn [fst].
    destruct Hokp' as [Hq1 Hq2].
    rewrite nth_axpy by congruence. rewrite Hp1. ring. }
  assert (∀ r k, row_ok n r → (k < j)%nat →
                 (nth k (eliminate j p' r).1 0 == nth k r.1 0)%Q) as He0.
  { intros r k [Hr1 Hr2] Hk. unfold eliminate. cbn [fst].
    destruct Hokp' as [Hq1 Hq2].
    rewrite nth_axpy by congruence. rewrite (Hp0 k Hk). ring. }
  split.
  - rewrite length_app, length_map. simpl. lia.
  - rewrite length_app, length_cons in Hc.
    rewrite !length_app, !length_map, length_app. simpl. lia.
  - rewrite <- app_assoc. apply Forall_app. split; [|constructor; [done|]].
    + apply Forall_fmap. eapply Forall_impl; [exact Hokd|].
      intros r Hr. by apply row_ok_eliminate.
    + apply Forall_fmap. eapply Forall_impl.
      { apply Forall_app. split; [exact Hok1|exact Hok2]. }
      intros r Hr. by apply row_ok_eliminate.
  - rewrite <- app_assoc. apply Forall_app. split; [|constructor; [done|]].
    + apply Forall_fmap. apply Forall_forall. intros r Hr.
      rewrite Forall_forall in Hokd, Hcd.
      apply combines_eliminate; auto.
    + apply Forall_fmap. apply Forall_forall. intros r Hr.
      assert (r ∈ t1 ∨ r ∈ t2) as Hr' by by apply elem_of_app.
      rewrite Forall_forall in Hok1, Hok2, Hc1, Hc2.
      apply combines_eliminate; destruct Hr'; auto.
  - intros x Hx. apply Hsol.
    rewrite <- app_assoc in Hx. apply Forall_app in Hx as [Hxd Hx].
    apply Forall_cons in Hx as [Hxp Hxr].
    rewrite fmap_app in Hxr. apply Forall_app in Hxr as [Hx1 Hx2].
    apply Forall_app. split; [|apply Forall_app; split; [|constructor]].
    + by apply (solves_eliminate_all x j p').
    + by apply (solves_eliminate_all x j p').
    + by apply (solves_normalise x j).
    + by apply (solves_eliminate_all x j p').
  - intros u Hu. apply Hkil.
    rewrite <- app_assoc in Hu. apply Forall_app in Hu as [Hud Hu].
    apply Forall_cons in Hu as [Hup Hur].
    rewrite fmap_app in Hur. apply Forall_app in Hur as [Hu1 Hu2].
    apply Forall_app. split; [|apply Forall_app; split; [|constructor]].
    + by apply (kills_eliminate_all u j p').
    + by apply (kills_eliminate_all u j p').
    + by apply (kills_normalise u j).
    + by apply (kills_eliminate_all u j p').
  - intros i r Hi k Hk. apply lookup_app_Some in Hi as [Hi|[Hge Hi]].
    + apply list_lookup_fmap_Some in Hi as (r0 & -> & Hr0).
      assert (row_ok n r0) as Hr0ok.
      { rewrite Forall_forall in Hokd. apply Hokd.
        by eapply list_elem_of_lookup_2. }
      assert (i < j)%nat as Hij.
      { apply lookup_lt_Some in Hr0. lia. }
      destruct (decide (k = j)) as [->|Hkj].
      * rewrite He1 by done. unfold kronecker.
        destruct (decide (i = j)); [lia|done].
      * rewrite He0 by (done || lia). apply (Hpiv i r0 Hr0). lia.
    + rewrite length_map in Hge, Hi.
      destruct (i - length done)%nat as [|i'] eqn:Hi'; [|done].
      simpl in Hi. injection Hi as <-.
      assert (i = j) as -> by lia.
      destruct (decide (k = j)) as [->|Hkj].
      * rewrite Hp1. unfold kronecker. by destruct (decide (j = j)).
      * rewrite Hp0 by lia. unfold kronecker.
        destruct (decide (j = k)); [lia|done].
  - intros r Hr k Hk. apply list_elem_of_fmap in Hr as (r0 & -> & Hr0).
    apply elem_of_app in Hr0.
    assert (row_ok n r0) as Hr0ok.
    { rewrite Forall_forall in Hok1, Hok2. destruct Hr0; auto. }
    destruct (decide (k = j)) as [->|Hkj].
    + by apply He1.
    + rewrite He0 by (done || lia). apply Hclr; [|lia].
      rewrite elem_of_app, elem_of_cons. tauto.
Qed.

Lemma gauss_jordan_inv k j done todo res :
  (j + k = n)%nat → elim_inv n m j done todo →
  gauss_jordan (seq j k) done todo = Some res →
  elim_inv n m n res [].
Proof.
  revert j done todo. induction k as [|k IH]; intros j done todo Hn Hinv.
  - simpl. intros [= <-]. assert (j = n) as -> by lia.
    destruct Hinv as [Hd Hc ? ? ? ? ? ?].
    assert (todo = []) as -> by (apply length_zero_iff_nil; lia).
    by split.
  - simpl. destruct (find_pivot j todo) as [[p rest]|] eqn:Hf; [|done].
    apply IH; [lia|]. by apply (elim_inv_step j done todo).
Qed.


Lemma length_eye : length (eye n) = n.
Proof. unfold eye. by rewrite length_map, length_seq. Qed.

Lemma lookup_eye i :
  (i < n)%nat → eye n !! i = Some (map (kronecker i) (seq 0 n)).
Proof.
  intros Hi. unfold eye. rewrite list_lookup_fmap, lookup_seq_lt by done.
  done.
Qed.

Lemma nth_kronecker i k :
  (k < n)%nat → nth k (map (kronecker i) (seq 0 n)) 0%Q = kronecker i k.
Proof.
  intros Hk. apply nth_lookup_Some with (d := 0%Q).
  by rewrite list_lookup_fmap, lookup_seq_lt.
Qed.

Lemma nth_column k (a : matrix) i r :
  a !! i = Some r → nth i (column k a) 0%Q = nth k r 0%Q.
Proof.
  intros Hi. apply nth_lookup_Some with (d := 0%Q).
  unfold column. by rewrite list_lookup_fmap, Hi.
Qed.

Lemma is_square_rows a r :
  is_square a = true → r ∈ a → length r = length a.
Proof.
  unfold is_square. rewrite forallb_forall. intros Hsq Hr.
  apply Nat.eqb_eq, Hsq. by apply list_elem_of_In.
Qed.

Hypothesis m_square : is_square m = true.
Hypothesis m_length : length m = n.

Lemma elim_inv_init : elim_inv n m 0 [] (zip m (eye n)).
Proof.
  assert (length (zip m (eye n)) = n) as Hlen.
  { rewrite length_zip_with, length_eye. lia. }
  assert (∀ i r, zip m (eye n) !! i = Some r →
                 m !! i = Some r.1 ∧ (i < n)%nat ∧
                 r.2 = map (kronecker i) (seq 0 n)) as Hrow.
  { intros i [a e] Hi. apply lookup_zip_with_Some in Hi
      as (a' & e' & [= <- <-] & Ha & He).
    assert (i < n)%nat as Hin.
    { apply lookup_lt_Some in Ha. lia. }
    rewrite lookup_eye in He by done. by injection He as <-. }
  split; simpl; try done.
  - apply Forall_lookup. intros i r Hi.
    destruct (Hrow i r Hi) as (Hm & Hin & He). split.
    + rewrite <- m_length. apply is_square_rows; [done|].
      by eapply list_elem_of_lookup_2.
    + by rewrite He, length_map, length_seq.
  - apply Forall_lookup. intros i r Hi k.
    destruct (Hrow i r Hi) as (Hm & Hin & He).
    rewrite He, (dot_kronecker i).
    + by rewrite (nth_column k m i r.1).
    + intros t Ht. rewrite length_map, length_seq in Ht.
      rewrite (nth_kronecker i t Ht). reflexivity.
    + by rewrite length_map, length_seq.
    + unfold column. rewrite !length_map, length_seq. by rewrite m_length.
  - intros r Hr k Hk. lia.
Qed.

(** An array whose rows are those of the identity. *)
Lemma meq_eye (a : matrix) :
  length a = n →
  (∀ i r, a !! i = Some r →
          length r = n ∧ ∀ k, (k < n)%nat → (nth k r 0 == kronecker i k)%Q) →
  meq a (eye n).
Proof.
  intros Hlen Hrows. apply Forall2_same_length_lookup_2.
  { by rewrite length_eye. }
  intros i r e Hr He.
  assert (i < n)%nat as Hi by (apply lookup_lt_Some in Hr; lia).
  rewrite lookup_eye in He by done. injection He as <-.
  destruct (Hrows i r Hr) as [Hl Hk].
  apply Forall2_same_length_lookup_2.
  { by rewrite length_map, length_seq. }
  intros k x y Hx Hy.
  assert (k < n)%nat as Hkn by (apply lookup_lt_Some in Hx; lia).
  rewrite list_lookup_fmap, lookup_seq_lt in Hy by done.
  injection Hy as <-. rewrite <- (Hk k Hkn).
  by rewrite (nth_lookup_Some _ _ 0%Q _ Hx).
Qed.

Lemma lookup_matmul (a b : matrix) i row :
  matmul a b !! i = Some row →
  ∃ r, a !! i = Some r ∧
       row = map (λ j, dot r (column j b)) (seq 0 (length (hd [] b))).
Proof.
  unfold matmul. rewrite list_lookup_fmap.
  destruct (a !! i) as [r|]; [|done]. intros [= <-]. by exists r.
Qed.

Lemma hd_length (a : matrix) :
  (0 < n)%nat → length a = n → Forall (λ r, length r = n) a →
  length (hd [] a) = n.
Proof.
  intros Hn Hl Hr. destruct a as [|r a]; simpl in *; [lia|].
  by apply Forall_cons in Hr as [? _].
Qed.

Lemma matmul_eye (a b : matrix) :
  length a = n → length b = n → Forall (λ r, length r = n) b →
  (∀ i r k, a !! i = Some r → (k < n)%nat →
            (dot r (column k b) == kronecker i k)%Q) →
  meq (matmul a b) (eye n).
Proof.
  intros Ha Hb Hbr Hdot. apply meq_eye.
  { unfold matmul. by rewrite length_map. }
  intros i row Hi. apply lookup_matmul in Hi as (r & Hr & ->).
  assert (0 < n)%nat as Hn by (apply lookup_lt_Some in Hr; lia).
  rewrite (hd_length b) by done. split.
  - by rewrite length_map, length_seq.
  - intros k Hk. rewrite <- (Hdot i r k Hr Hk).
    erewrite (nth_lookup_Some _ _ 0%Q); [done|].
    by rewrite list_lookup_fmap, lookup_seq_lt.
Qed.

(** The rows the elimination ends with hold the inverse. *)
Lemma gauss_jordan_inverse rows :
  gauss_jordan (seq 0 n) [] (zip m (eye n)) = Some rows →
  length (map snd rows) = n ∧
  Forall (λ r, length r = n) (map snd rows) ∧
  meq (matmul m (map snd rows)) (eye n) ∧
  meq (matmul (map snd rows) m) (eye n).
Proof.
  intros Hg.
  apply (gauss_jordan_inv n 0 [] (zip m (eye n))) in Hg;
    [|lia|exact elim_inv_init].
  destruct Hg as [Hd _ Hok Hcomb Hsol _ Hpiv _]. rewrite app_nil_r in *.
  set (w := map snd rows).
  assert (length w = n) as Hw by (unfold w; by rewrite length_map).
  assert (Forall (λ r, length r = n) w) as Hwr.
  { unfold w. apply Forall_fmap. eapply Forall_impl; [exact Hok|].
    by intros r [_ ?]. }
  assert (Forall (λ r, length r = n) m) as Hmr.
  { apply Forall_forall. intros r Hr. rewrite <- m_length.
    by apply is_square_rows. }
  split; [done|]. split; [done|]. split.
  - apply matmul_eye; try done. intros i r k Hr Hk.
    assert (Forall (solves w) rows) as Hsw.
    { apply Forall_lookup. intros t [a b] Ht c. simpl.
      rewrite Forall_lookup in Hok. destruct (Hok t _ Ht) as [Ha Hb].
      simpl in Ha, Hb.
      assert (t < n)%nat as Htn by (apply lookup_lt_Some in Ht; lia).
      rewrite (dot_kronecker t).
      - erewrite (nth_column c w t b); [done|].
        unfold w. apply list_lookup_fmap_Some. by exists (a, b).
      - intros k' Hk'. apply (Hpiv t (a, b) Ht). lia.
      - lia.
      - unfold column. rewrite length_map. lia. }
    apply Hsol in Hsw. rewrite Forall_lookup in Hsw.
    assert (i < n)%nat as Hin by (apply lookup_lt_Some in Hr; lia).
    assert (zip m (eye n) !! i = Some (r, map (kronecker i) (seq 0 n)))
      as Hz.
    { apply lookup_zip_with_Some. exists r, (map (kronecker i) (seq 0 n)).
      split; [done|]. split; [done|]. by apply lookup_eye. }
    rewrite (Hsw i _ Hz k). simpl. by rewrite nth_kronecker.
  - apply matmul_eye; try done. intros i b k Hb Hk.
    unfold w in Hb. apply list_lookup_fmap_Some in Hb as ([a b'] & -> & Hr).
    rewrite Forall_lookup in Hcomb.
    rewrite <- (Hcomb i _ Hr k). simpl. by apply (Hpiv i (a, b') Hr).
Qed.

Lemma init_rows u :
  Forall (kills u) (zip m (eye n)) → Forall (λ r, dot r u == 0)%Q m.
Proof.
  intros Hk. apply Forall_lookup. intros i r Hr.
  assert (i < n)%nat as Hi by (apply lookup_lt_Some in Hr; lia).
  rewrite Forall_lookup in Hk.
  apply (Hk i (r, map (kronecker i) (seq 0 n))).
  apply lookup_zip_with_Some. exists r, (map (kronecker i) (seq 0 n)).
  split; [done|]. split; [done|]. by apply lookup_eye.
Qed.

(** With no pivot left in column [j], a vector that is not zero is sent
    to zero by every row. *)
Lemma elim_stuck j done todo :
  elim_inv n m j done todo → (j < n)%nat → find_pivot j todo = None →
  ∃ u, length u = n ∧ (nth j u 0 == 1)%Q ∧
       Forall (λ r, dot r u == 0)%Q m.
Proof.
  intros [Hd Hc Hok _ _ Hkil Hpiv Hclr] Hj Hf.
  apply find_pivot_None in Hf.
  set (u := map (λ r : aug_row, - nth j r.1 0)%Q done
            ++ 1%Q :: replicate (n - S j) 0%Q).
  assert (length (map (λ r : aug_row, - nth j r.1 0)%Q done) = j) as Hlu.
  { by rewrite length_map. }
  exists u. split; [|split].
  - unfold u. rewrite length_app, Hlu. simpl. rewrite length_replicate. lia.
  - unfold u. rewrite app_nth2 by lia. rewrite Hlu, Nat.sub_diag. done.
  - apply init_rows, Hkil. apply Forall_app in Hok as [Hokd Hokt].
    assert (∀ a : list Q, length a = n →
              (dot a u == dot (take j a) (map (λ r : aug_row, - nth j r.1 0)%Q
                                              done)
                          + nth j a 0)%Q) as Hsplit.
    { intros a Ha.
      assert (is_Some (a !! j)) as [x Hx] by (apply lookup_lt_is_Some; lia).
      rewrite <- (take_drop_middle a j x Hx) at 1. unfold u.
      rewrite dot_app by (rewrite length_take, Hlu; lia).
      simpl. rewrite (dot_zero_r (drop (S j) a) (replicate (n - S j) 0%Q)).
      - rewrite (nth_lookup_Some _ _ 0%Q _ Hx). ring.
      - apply Forall_replicate. done. }
    assert (∀ (a : list Q) t, (t < j)%nat →
              nth t (take j a) 0%Q = nth t a 0%Q) as Htake.
    { intros a t Ht. rewrite !nth_lookup, lookup_take_lt by done. done. }
    apply Forall_app. split.
    + apply Forall_lookup. intros i r Hi. unfold kills.
      rewrite Forall_lookup in Hokd. destruct (Hokd i r Hi) as [Hr1 _].
      assert (i < j)%nat as Hij by (apply lookup_lt_Some in Hi; lia).
      rewrite (Hsplit r.1 Hr1), (dot_kronecker i).
      * erewrite (nth_lookup_Some _ _ 0%Q).
        2: { by rewrite list_lookup_fmap, Hi. }
        simpl. ring.
      * intros t Ht. rewrite length_take in Ht.
        rewrite Htake by lia. apply (Hpiv i r Hi). lia.
      * rewrite length_take. lia.
      * rewrite length_take, Hlu. lia.
    + apply Forall_forall. intros r Hr. unfold kills.
      rewrite Forall_forall in Hokt, Hf. destruct (Hokt r Hr) as [Hr1 _].
      rewrite (Hsplit r.1 Hr1), (Hf r Hr), dot_zero; [ring|].
      intros t Ht. rewrite length_take in Ht.
      rewrite Htake by lia. apply (Hclr r Hr). lia.
Qed.

Lemma gauss_jordan_total k j done todo :
  nonsingular m → (j + k = n)%nat → elim_inv n m j done todo →
  ∃ rows, gauss_jordan (seq j k) done todo = Some rows.
Proof.
  intros Hns. revert j done todo.
  induction k as [|k IH]; intros j done todo Hn Hinv; simpl.
  - by exists done.
  - destruct (find_pivot j todo) as [[p rest]|] eqn:Hf.
    + apply IH; [lia|]. by apply (elim_inv_step j done todo).
    + destruct (elim_stuck j done todo Hinv) as (u & Hlu & Huj & Hu);
        [lia|done|].
      apply Hns in Hu; [|by rewrite m_length].
      assert (is_Some (u !! j)) as [x Hx] by (apply lookup_lt_is_Some; lia).
      rewrite (nth_lookup_Some _ _ 0%Q _ Hx) in Huj.
      rewrite Forall_lookup in Hu. rewrite (Hu j x Hx) in Huj. done.
Qed.

End Inverse.

(** [num.linalg.inv] gives what its documentation says: an array of the
    shape of [a] with [a @ ainv = ainv @ a = eye(n)]. *)
Lemma linalg_inv_spec (a w : matrix) :
  linalg_inv a = Ok w →
  is_square a = true ∧
  length w = length a ∧ Forall (λ r, length r = length a) w ∧
  meq (matmul a w) (eye (length a)) ∧ meq (matmul w a) (eye (length a)).
Proof.
  unfold linalg_inv. destruct (is_square a) eqn:Hsq; [|done].
  destruct (gauss_jordan _ _ _) as [rows|] eqn:Hg; [|done].
  intros [= <-]. split; [done|].
  by apply (gauss_jordan_inverse (length a) a).
Qed.

(** A matrix with an inverse on its left sends only the zero vector to
    zero. *)
Lemma invertible_nonsingular (a v : matrix) :
  is_square a = true → meq (matmul v a) (eye (length a)) → nonsingular a.
Proof.
  intros Hsq Hinv u Hlen Hu. apply Forall_lookup. intros k x Hx.
  assert (k < length a)%nat as Hk by (apply lookup_lt_Some in Hx; lia).
  assert (Forall (λ r, length r = length a) a) as Hrows.
  { apply Forall_forall. intros r Hr. by apply is_square_rows. }
  pose proof (Forall2_length _ _ _ Hinv) as Hlv.
  rewrite length_eye in Hlv.
  assert (is_Some (matmul v a !! k)) as [row Hrow].
  { apply lookup_lt_is_Some. lia. }
  pose proof (Forall2_lookup_lr _ _ _ _ _ _ Hinv Hrow
                (lookup_eye (length a) k Hk)) as Heq.
  apply lookup_matmul in Hrow as (r & Hr & ->).
  rewrite (hd_length (length a) a) in Heq by (done || lia).
  rewrite <- (nth_lookup_Some _ _ 0%Q _ Hx).
  rewrite <- (dot_kronecker k (map (kronecker k) (seq 0 (length a))) u).
  - rewrite <- (dot_proper _ _ u Heq), dot_matmul by done.
    apply dot_zero_r. apply Forall_fmap. exact Hu.
  - intros t Ht. rewrite length_map, length_seq in Ht.
    rewrite (nth_kronecker (length a) k t Ht). reflexivity.
  - by rewrite length_map, length_seq.
  - by rewrite length_map, length_seq.
Qed.

(** [num.linalg.inv] returns an inverse for every square array that has
    one. *)
Lemma linalg_inv_total (a v : matrix) :
  is_square a = true → meq (matmul v a) (eye (length a)) →
  ∃ w, linalg_inv a = Ok w.
Proof.
  intros Hsq Hinv. unfold linalg_inv. rewrite Hsq.
  assert (∃ rows, gauss_jordan (seq 0 (length a)) []
                               (zip a (eye (length a))) = Some rows)
    as [rows ->].
  { apply (gauss_jordan_total (length a) a); try done.
    - by apply (invertible_nonsingular a v).
    - by apply elim_inv_init. }
  by eexists.
Qed.

(** * The weight matrix *)

Section Weights.
Context `{Numpy}.

(** C4.  When the weight matrix has to be computed and the covariance
    matrix of the current leaves is invertible, [weight_matrix] returns
    and caches the inverse [num.linalg.inv] gives: the covariance matrix
    multiplied by the weight matrix is the identity matrix, and so is
    the weight matrix multiplied by the covariance matrix. *)
Theorem weight_matrix_inverse s M s1 :
  Covariance.cached_weight_matrix s = None →
  Covariance.covariance_matrix s = Ok (M, s1) →
  invertible M →
  ∃ W, Covariance.weight_matrix s
       = Ok (W, Covariance.with_weight_matrix (Some W) s1) ∧
       linalg_inv M = Ok W ∧
       meq (matmul M W) (eye (length M)) ∧
       meq (matmul W M) (eye (length M)).
Proof.
  intros Hc HM (Hsq & V & HV & _).
  destruct (linalg_inv_total M V Hsq HV) as [W HW].
  exists W. split; [|split; [exact HW|]].
  - unfold Covariance.weight_matrix.
    unfold mbind at 1. unfold Py_bind at 1. unfold py_get at 1.
    cbv beta iota. rewrite Hc.
    unfold mbind at 1. unfold Py_bind at 1. rewrite HM. cbv beta iota.
    unfold mbind at 1. unfold Py_bind at 1. unfold py_lift at 1.
    rewrite HW. done.
  - apply linalg_inv_spec in HW as (_ & _ & _ & H1 & H2). by split.
Qed.

End Weights.

(** * Further properties of the tree *)

Section MoreTree.
Context `{Numpy}.

(** X1 ([createTree] returns): building the subtree of any node, on any
    Quadtree object, ends without an exception: the recursion depth the
    node's side allows is never exceeded and the [None] that
    [_iterSplitNode] yields for a side of 1 is never reached.  The
    result keeps the node's corner and side, and has children exactly
    when the split test holds on the node. *)
Theorem createTree_returns (self : Quadtree.t) (b : QuadNode.t) :
  ∃ n, Quadtree.createTree self b = Ok n ∧
       strip n = strip b ∧
       QuadNode.has_children n
       = QuadNode.split_test (Quadtree._corr_func self)
                             (Quadtree.epsilon_min self) b.
Proof.
  unfold Quadtree.createTree.
  destruct (createTree_total (Quadtree.scene self) (Quadtree._corr_func self)
              (Quadtree.epsilon_min self) (QuadNode.fuel_for b) b)
    as [n Hn].
  { unfold QuadNode.fuel_for. lia. }
  exists n. split; [exact Hn|].
  apply createTree_inv in Hn as (fuel' & _ & Hs & Hsplit).
  split; [exact Hs|]. unfold QuadNode.has_children.
  destruct (QuadNode.split_test _ _ b).
  - destruct Hsplit as (cs & -> & _). done.
  - by rewrite Hsplit.
Qed.

Lemma within_refl n : within n n.
Proof. by intros r c. Qed.

Lemma within_trans a b c : within a b → within b c → within a c.
Proof. intros H1 H2 r k Hf. by apply H2, H1. Qed.

Lemma footprint_strip n r c : footprint (strip n) r c ↔ footprint n r c.
Proof. done. Qed.

(** A child of a built node is one of its quadrants. *)
Lemma Built_child q n cs c :
  Run.Built q n → QuadNode.children n = Some cs → c ∈ cs →
  Run.Built q c ∧
  QuadNode.omitted (Quadtree.scene q) (strip c) = false ∧
  ∃ i, i ∈ quadrant_indices ∧ strip c = QuadNode.quadrant n i.
Proof.
  intros Hb Hcs Hc.
  destruct (Built_children q n cs Hb Hcs) as (_ & _ & HB & Hm).
  split; [by eapply Forall_forall in HB|].
  assert (strip c ∈ map strip cs) as Hin.
  { apply list_elem_of_fmap. by exists c. }
  rewrite Hm in Hin. apply list_elem_of_filter in Hin as [Ho Hin].
  split; [exact Ho|].
  apply list_elem_of_fmap in Hin as (i & Hi & Hidx). by exists i.
Qed.

Lemma Built_child_geometry q n cs c :
  Run.Built q n → QuadNode.children n = Some cs → c ∈ cs →
  within c n ∧ QuadNode.length n = 2 * QuadNode.length c ∧
  0 < QuadNode.length c.
Proof.
  intros Hb Hcs Hc.
  destruct (Built_children q n cs Hb Hcs) as (H16 & Hroot & _ & _).
  destruct (Built_child q n cs c Hb Hcs Hc) as (_ & _ & i & Hi & Hs).
  destruct Hroot as (Hp & _ & _).
  destruct (is_pow2_half _ Hp) as [_ Hhalf]; [lia|].
  assert (QuadNode.length c = QuadNode.length n / 2) as Hl.
  { rewrite <- (quadrant_length n i), <- Hs. done. }
  split; [|lia].
  intros r k Hf. apply footprint_strip in Hf. rewrite Hs in Hf.
  apply (footprint_quadrants n r k); [done|lia|]. by exists i.
Qed.

(** Every node below a built node lies inside it, and its side is the
    node's side divided by a power of two. *)
Lemma descendants_within q n :
  Run.Built q n →
  ∀ m, m ∈ QuadNode.iterChildren n →
       Run.Built q m ∧ within m n ∧
       ∃ k, 0 ≤ k ∧ QuadNode.length n = 2 ^ k * QuadNode.length m.
Proof.
  induction n as [r c l|r c l cs IH] using QuadNode_ind'; intros Hb m Hm.
  - apply elem_of_iterChildren in Hm as [->|(cs & c' & Hcs & _)]; [|done].
    split; [done|]. split; [apply within_refl|]. exists 0. simpl. lia.
  - apply elem_of_iterChildren in Hm as [->|(cs' & c' & Hcs & Hc & Hm)].
    { split; [done|]. split; [apply within_refl|]. exists 0. simpl. lia. }
    simpl in Hcs. injection Hcs as <-.
    destruct (Built_child q _ cs c' Hb eq_refl Hc) as (Hbc & _).
    destruct (Built_child_geometry q _ cs c' Hb eq_refl Hc)
      as (Hw & Hl & Hpos).
    rewrite Forall_forall in IH.
    destruct (IH c' Hc Hbc m Hm) as (Hbm & Hwm & k & Hk & Hlk).
    split; [done|]. split; [by eapply within_trans|].
    exists (k + 1). split; [lia|]. simpl in Hl. simpl.
    rewrite Hl, Hlk, Z.pow_add_r by lia. lia.
Qed.

(** X2 (nodes lie in their base tile): every node of the tree of a
    Quadtree object in use belongs to the subtree of a base tile, covers
    pixel positions of that tile only, and the tile's side is the node's
    side times a power of two; the node's side is a power of two and its
    corner has non-negative indices. *)
Theorem nodes_within_base q ns q' n :
  Run.reachable q → Quadtree.nodes q = Ok (ns, q') → n ∈ ns →
  ∃ bs b k,
    Quadtree.cached__base_nodes q = Some bs ∧ b ∈ bs ∧
    n ∈ QuadNode.iterChildren b ∧ within n b ∧
    0 ≤ k ∧ QuadNode.length b = 2 ^ k * QuadNode.length n ∧
    root_ok n.
Proof.
  intros Hr Hn Hin. pose proof (reachable_inv q Hr) as Hinv.
  destruct (nodes_spec q ns q' Hinv Hn) as (-> & bs & Hbs & ->).
  apply list_elem_of_bind in Hin as (b & Hin & Hb).
  destruct Hinv as (_ & (bs' & Hbs' & HB) & _).
  assert (bs' = bs) as -> by congruence.
  rewrite Forall_forall in HB.
  destruct (descendants_within q b (HB b Hb) n Hin) as (Hbn & Hw & k & Hk & Hl).
  exists bs, b, k. repeat (split; [done|]). by apply (Built_pow2 q).
Qed.

(** X3 (children hold data): in the tree of a Quadtree object in use, a
    child tile is never empty and never entirely NaN: its NaN fraction
    is defined and below 1. *)
Theorem children_hold_data q ns q' n cs c :
  Run.reachable q → Quadtree.nodes q = Ok (ns, q') → n ∈ ns →
  QuadNode.children n = Some cs → c ∈ cs →
  0 < samples (Quadtree.scene q) c ∧
  nans (Quadtree.scene q) c < samples (Quadtree.scene q) c ∧
  ∃ f, QuadNode.nan_fraction (Quadtree.scene q) c = Ok f ∧ (f < 1)%Q.
Proof.
  intros Hr Hn Hin Hcs Hc.
  pose proof (reachable_nodes_built q ns q' n Hr Hn Hin) as Hb.
  destruct (Built_child q n cs c Hb Hcs Hc) as (_ & Ho & _).
  assert (¬ (samples (Quadtree.scene q) c = 0 ∨
             nans (Quadtree.scene q) c = samples (Quadtree.scene q) c)) as Hno.
  { rewrite <- (samples_strip _ c), <- (nans_strip _ c).
    rewrite <- omitted_samples. by rewrite Ho. }
  pose proof (nans_bounds (Quadtree.scene q) c) as Hbd.
  assert (0 ≤ samples (Quadtree.scene q) c) as Hs0.
  { unfold samples, size2. lia. }
  assert (0 < samples (Quadtree.scene q) c) as Hpos by lia.
  split; [exact Hpos|]. split; [lia|].
  eexists. split.
  - apply nan_fraction_spec. split; [lia|reflexivity].
  - apply (proj2 (frac_lt _ _ 1%Q Hpos)). simpl. lia.
Qed.

End MoreTree.

(** * Further properties of the leaves *)

Section MoreLeafs.
Context `{Numpy}.

(** A walk that goes on below a node has read the pixel limits. *)
Lemma walk_lim corr lim eps n a :
  QuadNode.iterLeafs corr eps lim n = Ok a →
  ¬ Walk.stops corr lim eps n → ∃ lm, lim = Ok lm.
Proof.
  intros Hw Hns. rewrite walk_unfold in Hw.
  destruct (QuadNode.children n) as [cs|] eqn:Hcs.
  2:{ exfalso. apply Hns. left. done. }
  destruct lim as [lm|e]; [by exists lm|]. exfalso.
  destruct (QuadNode.below_epsilon corr eps n); [done|].
  destruct cs; done.
Qed.

(** What the walk below a built node reports: nodes of the subtree at
    which the walk stops, and below the node itself none whose side is
    under the lower pixel limit. *)
Lemma walk_reports q corr lim eps n :
  Run.Built q n →
  ∀ a x, QuadNode.iterLeafs corr eps lim n = Ok a → x ∈ a →
    x ∈ QuadNode.iterChildren n ∧
    Walk.stops corr lim eps x ∧
    (x = n ∨ ∃ lm, lim = Ok lm ∧ lm.1 ≤ QuadNode.length x).
Proof.
  induction n as [r c l|r c l cs IH] using QuadNode_ind'; intros Hb a x Hw Hx.
  - destruct (walk_cases corr lim eps _ a Hw)
      as [[Hs ->] | (_ & cs' & ass & Hcs & _)]; [|done].
    apply list_elem_of_singleton in Hx as ->.
    split; [apply elem_of_iterChildren; by left|]. split; [done|by left].
  - destruct (walk_cases corr lim eps _ a Hw)
      as [[Hs ->] | (Hns & cs' & ass & Hcs & Hne & HF & ->)].
    { apply list_elem_of_singleton in Hx as ->.
      split; [apply elem_of_iterChildren; by left|]. split; [done|by left]. }
    simpl in Hcs. injection Hcs as <-.
    apply elem_of_concat in Hx as (l' & Hxl & Hl').
    apply list_elem_of_lookup in Hl' as [i Hi].
    destruct (Forall2_lookup_r _ _ _ _ _ HF Hi) as (c' & Hc' & Hwc).
    apply list_elem_of_lookup_2 in Hc'.
    destruct (Built_child q _ cs c' Hb eq_refl Hc') as (Hbc & _).
    rewrite Forall_forall in IH.
    destruct (IH c' Hc' Hbc l' x Hwc Hxl) as (Hin & Hst & Hmin).
    split.
    { apply elem_of_iterChildren. right. by exists cs, c'. }
    split; [done|]. right.
    destruct Hmin as [->|Hmin]; [|done].
    destruct (walk_lim _ _ _ _ _ Hw Hns) as [lm Hlm].
    exists lm. split; [done|].
    destruct cs as [|c0 cs0]; [done|].
    assert (c0 ∈ c0 :: cs0) as Hc0 by apply list_elem_of_here.
    destruct (Built_child_geometry q _ _ c0 Hb eq_refl Hc0) as (_ & Hl0 & _).
    destruct (Built_child_geometry q _ _ c' Hb eq_refl Hc') as (_ & Hl1 & _).
    destruct (Z.lt_ge_cases (QuadNode.length c0) lm.1) as [Hlt|Hge]; [|lia].
    exfalso. apply Hns. right. right. by exists c0, cs0, lm.
Qed.

(** Where a reported leaf comes from. *)
Lemma leafs_walks q ls q' l :
  Run.reachable q → Quadtree.leafs q = Ok (ls, q') → l ∈ ls →
  ∃ bs b a,
    Quadtree.cached__base_nodes q = Some bs ∧ b ∈ bs ∧ Run.Built q b ∧
    QuadNode.iterLeafs (Quadtree._corr_func q) (Quadtree.epsilon q)
                       (Quadtree.eval__tile_size_lim_px q) b = Ok a ∧
    l ∈ a.
Proof.
  intros Hr Hl Hin. pose proof (reachable_inv q Hr) as Hinv.
  destruct (leafs_spec q ls q' Hinv Hl)
    as (_ & _ & _ & _ & _ & _ & bs & Hbs & Hc).
  destruct (compute_leafs_walks q q bs ls eq_refl eq_refl eq_refl eq_refl Hc)
    as (lss & HF & ->).
  apply elem_of_concat in Hin as (l' & Hin & Hl').
  apply list_elem_of_lookup in Hl' as [i Hi].
  destruct (Forall2_lookup_r _ _ _ _ _ HF Hi) as (b & Hb & a & Hw & Hf).
  apply list_elem_of_lookup_2 in Hb.
  destruct (filter_nan_allowed_spec q a l' l Hf Hin) as [Hla _].
  destruct Hinv as (_ & (bs' & Hbs' & HB) & _).
  assert (bs' = bs) as -> by congruence.
  rewrite Forall_forall in HB.
  exists bs, b, a. repeat (split; [by auto|]). done.
Qed.

(** X4 (leaves are nodes where the walk stops): every leaf a Quadtree
    object in use reports is a node of its tree, and one at which
    [iterLeafs] stops: it has no children, or its metric is below
    epsilon and its side is not above the upper pixel limit, or its
    first child's side is below the lower pixel limit. *)
Theorem leafs_are_stopping_nodes q ls q' l :
  Run.reachable q → Quadtree.leafs q = Ok (ls, q') → l ∈ ls →
  (∃ ns, Quadtree.nodes q = Ok (ns, q) ∧ l ∈ ns) ∧
  Walk.stops (Quadtree._corr_func q) (Quadtree.eval__tile_size_lim_px q)
             (Quadtree.epsilon q) l.
Proof.
  intros Hr Hl Hin.
  destruct (leafs_walks q ls q' l Hr Hl Hin)
    as (bs & b & a & Hbs & Hb & HB & Hw & Hla).
  destruct (walk_reports q _ _ _ b HB a l Hw Hla) as (Hn & Hs & _).
  split; [|done].
  exists (bs ≫= QuadNode.iterChildren). split; [by apply nodes_unfold|].
  apply list_elem_of_bind. by exists b.
Qed.

(** The limits an object evaluates are those of its tile sizes when the
    cached limits are current. *)
Lemma limits_current_eval q lm :
  Valid.limits_current q → Quadtree.eval__tile_size_lim_px q = Ok lm →
  Valid.fresh__tile_size_lim_px q = Ok lm ∧
  ¬ (Valid.pixel_size q == 0)%Q ∧
  lm.1 = Qtrunc (Quadtree.tile_size_min q / Valid.pixel_size q).
Proof.
  intros Hcur Hlm.
  assert (Valid.fresh__tile_size_lim_px q = Ok lm) as Hf.
  { unfold Quadtree.eval__tile_size_lim_px in Hlm.
    destruct (Quadtree.cached__tile_size_lim_px q) as [v|] eqn:Hc.
    - injection Hlm as <-. by apply Hcur.
    - exact Hlm. }
  split; [exact Hf|].
  unfold Valid.fresh__tile_size_lim_px, Quadtree.eval__tile_size_lim_px in Hf.
  change (Quadtree.cached__tile_size_lim_px
            (Quadtree.with__tile_size_lim_px None q)) with (@None (Z * Z)) in Hf.
  change (Quadtree.frame (Quadtree.with__tile_size_lim_px None q))
    with (Quadtree.frame q) in Hf.
  change (Quadtree.tile_size_min (Quadtree.with__tile_size_lim_px None q))
    with (Quadtree.tile_size_min q) in Hf.
  change (Quadtree.tile_size_max (Quadtree.with__tile_size_lim_px None q))
    with (Quadtree.tile_size_max q) in Hf.
  cbv zeta in Hf. fold (Valid.pixel_size q) in Hf.
  destruct (Qeq_bool (Valid.pixel_size q) 0) eqn:Hz; [done|].
  injection Hf as <-. split; [|done].
  intros Hq. apply Qeq_bool_iff in Hq. congruence.
Qed.

(** X5 (lower size limit): a leaf a Quadtree object in use reports is a
    base tile, or its side is at least the lower pixel limit the object
    holds.  When the cached pixel limits, if any, are those of the
    current tile sizes, that limit is [int(tile_size_min / dpx)], with
    [dpx] the larger of the two pixel spacings.  ([setConfig] does not
    drop the cached limits, so limits cached under an earlier
    configuration stay in force.) *)
Theorem leafs_min_size q ls q' l :
  Run.reachable q → Quadtree.leafs q = Ok (ls, q') → l ∈ ls →
  (∃ bs, Quadtree.cached__base_nodes q = Some bs ∧ l ∈ bs) ∨
  (∃ lm, Quadtree.eval__tile_size_lim_px q = Ok lm ∧
         lm.1 ≤ QuadNode.length l ∧
         (Valid.limits_current q →
          ¬ (Valid.pixel_size q == 0)%Q ∧
          Qtrunc (Quadtree.tile_size_min q / Valid.pixel_size q)
          ≤ QuadNode.length l)).
Proof.
  intros Hr Hl Hin.
  destruct (leafs_walks q ls q' l Hr Hl Hin)
    as (bs & b & a & Hbs & Hb & HB & Hw & Hla).
  destruct (walk_reports q _ _ _ b HB a l Hw Hla) as (_ & _ & [->|Hmin]).
  - left. by exists bs.
  - right. destruct Hmin as (lm & Hlm & Hle). exists lm.
    split; [exact Hlm|]. split; [exact Hle|]. intros Hcur.
    destruct (limits_current_eval q lm Hcur Hlm) as (_ & Hnz & <-).
    by split.
Qed.

(** A walk that succeeded on a node read the pixel limits if the node
    makes it read them. *)
Lemma walk_reads_lim corr lim eps n a :
  QuadNode.iterLeafs corr eps lim n = Ok a →
  QuadNode.below_epsilon corr eps n || QuadNode.has_children n = true →
  ∃ lm, lim = Ok lm.
Proof.
  intros Hw Hr. rewrite walk_unfold in Hw.
  destruct lim as [lm|e]; [by exists lm|]. exfalso.
  unfold QuadNode.has_children in Hr.
  destruct (QuadNode.children n) as [cs|].
  - destruct (QuadNode.below_epsilon corr eps n); [done|].
    destruct cs; done.
  - destruct (QuadNode.below_epsilon corr eps n); done.
Qed.

(** X6 (the leaf cache is never stale): the list [leafs] returns on a
    Quadtree object in use, with epsilon set, is the list a walk of the
    current tree under the current configuration gives, whether it was
    cached or not; a second reading returns the same list and leaves the
    object as it is. *)
Theorem leafs_cache_fresh q ls q' :
  Run.reachable q → is_Some (Quadtree.epsilon q) →
  Quadtree.leafs q = Ok (ls, q') →
  (∃ q2, Quadtree.leafs (Quadtree.with_leafs None q) = Ok (ls, q2)) ∧
  Quadtree.leafs q' = Ok (ls, q').
Proof.
  intros Hr _ Hl. pose proof (reachable_inv q Hr) as Hinv.
  split; [|by apply leafs_idem, (leafs_cached q)].
  destruct (leafs_spec q ls q' Hinv Hl)
    as (_ & _ & _ & _ & _ & _ & bs & Hbs & Hc).
  rewrite (leafs_unfold _ bs); [|done|done].
  rewrite (compute_leafs_frame q (Quadtree.with_leafs None q) bs)
    by done.
  rewrite Hc.
  destruct (existsb (Quadtree.reads_lim (Quadtree.with_leafs None q)) bs)
    eqn:He; [|by eexists].
  apply existsb_exists in He as (b & Hb & Hrl).
  apply list_elem_of_In, list_elem_of_lookup in Hb as [i Hi].
  destruct (compute_leafs_walks q q bs ls eq_refl eq_refl eq_refl eq_refl Hc)
    as (lss & HF & _).
  destruct (Forall2_lookup_l _ _ _ _ _ HF Hi) as (l' & _ & a & Hw & _).
  destruct (walk_reads_lim _ _ _ _ _ Hw Hrl) as [lm Hlm].
  change (Quadtree.eval__tile_size_lim_px (Quadtree.with_leafs None q))
    with (Quadtree.eval__tile_size_lim_px q).
  rewrite Hlm. by eexists.
Qed.

End MoreLeafs.

(** * Further properties of the setters *)

Section MoreSetters.
Context `{Numpy}.

(** What an operation other than [setCorrection] and [setConfig]
    leaves as it is. *)
Lemma exec_fields q c q' :
  inv q →
  (∀ s, c ≠ Run.SetCorrection s) → (∀ cfg, c ≠ Run.SetConfig cfg) →
  Run.exec c q = Ok (tt, q') →
  Quadtree.scene q' = Quadtree.scene q ∧
  Quadtree._corr_func q' = Quadtree._corr_func q ∧
  Quadtree.cached__base_nodes q' = Quadtree.cached__base_nodes q ∧
  QuadtreeConfig.correction (Quadtree.config q')
  = QuadtreeConfig.correction (Quadtree.config q).
Proof.
  intros Hi Hn1 Hn2.
  destruct c as [v|v|v|v|s|cfg| |]; simpl;
    [| | | |by destruct (Hn1 s)|by destruct (Hn2 cfg)| |].
  - unfold Quadtree.set_epsilon. py_simpl.
    destruct (match Quadtree.epsilon q with
              | Some e => f_eq e v | None => false end);
      [by intros [= <-]|].
    destruct (f_lt v (Quadtree.epsilon_min q)); by intros [= <-].
  - unfold Quadtree.set_nan_allowed. py_simpl.
    destruct (Qlt_bool 1 v || Qle_bool v 0); by intros [= <-].
  - unfold Quadtree.set_tile_size_min, Quadtree._tileSizeChanged. py_simpl.
    destruct (Qlt_bool (Quadtree.tile_size_max q) v); by intros [= <-].
  - unfold Quadtree.set_tile_size_max, Quadtree._tileSizeChanged. py_simpl.
    destruct (Qlt_bool v (Quadtree.tile_size_min q)); by intros [= <-].
  - unfold mbind, Py_bind.
    destruct (Quadtree.leafs q) as [[ls q1]|e] eqn:Hl; [|done].
    intros [= <-].
    destruct (leafs_spec q ls q1 Hi Hl) as (_ & _ & Hs & Hf & Hc & Hb & _).
    by rewrite Hc.
  - unfold mbind, Py_bind.
    destruct (Quadtree.nodes q) as [[ns q1]|e] eqn:Hl; [|done].
    intros [= <-]. by apply nodes_spec in Hl as [-> _].
Qed.

(** X7 (only [setCorrection] and [setConfig] rebuild the tree): setting
    epsilon, the NaN allowance or a tile size limit, accepted or not,
    and reading the leaves or the nodes leave the tree of a Quadtree
    object in use as it is: the nodes are the same before and after. *)
Theorem setters_keep_tree q c q' ns :
  Run.reachable q →
  (∀ s, c ≠ Run.SetCorrection s) → (∀ cfg, c ≠ Run.SetConfig cfg) →
  Run.exec c q = Ok (tt, q') →
  Quadtree.nodes q = Ok (ns, q) →
  Quadtree.nodes q' = Ok (ns, q').
Proof.
  intros Hr Hn1 Hn2 He Hn. pose proof (reachable_inv q Hr) as Hi.
  destruct (exec_fields q c q' Hi Hn1 Hn2 He) as (_ & _ & Hb & _).
  destruct (nodes_spec q ns q Hi Hn) as (_ & bs & Hbs & ->).
  apply nodes_unfold. congruence.
Qed.

Lemma nan_allowed_test v :
  Qlt_bool 1 v || Qle_bool v 0 = false ↔ (0 < v)%Q ∧ (v <= 1)%Q.
Proof.
  rewrite orb_false_iff. unfold Qlt_bool. rewrite negb_false_iff.
  rewrite Qle_bool_iff. rewrite <- not_true_iff_false, Qle_bool_iff.
  split; intros [H1 H2]; split; try done.
  - by apply Qnot_le_lt.
  - by apply Qlt_not_le.
Qed.

Lemma Qlt_bool_false x y : Qlt_bool x y = false ↔ (y <= x)%Q.
Proof.
  unfold Qlt_bool. rewrite negb_false_iff. apply Qle_bool_iff.
Qed.

(** X8 (accepted settings): a setter whose value passes its check stores
    the value, drops the cached leaves (a tile size setter also the
    cached pixel limits), notifies [evChanged] once and logs nothing;
    the value read back is the value set. *)
Theorem setters_accept q :
  (∀ v, f_lt v (Quadtree.epsilon_min q) = false →
        match Quadtree.epsilon q with Some e => f_eq e v | None => false end
        = false →
        ∃ q', Quadtree.set_epsilon v q = Ok (tt, q') ∧
              Quadtree.epsilon q' = Some v ∧
              Quadtree.cached_leafs q' = None ∧
              Quadtree.evChanged q' = S (Quadtree.evChanged q) ∧
              Quadtree._log q' = Quadtree._log q) ∧
  (∀ v, (0 < v)%Q → (v <= 1)%Q →
        ∃ q', Quadtree.set_nan_allowed v q = Ok (tt, q') ∧
              Quadtree.nan_allowed q' = v ∧
              Quadtree.cached_leafs q' = None ∧
              Quadtree.evChanged q' = S (Quadtree.evChanged q) ∧
              Quadtree._log q' = Quadtree._log q) ∧
  (∀ v, (v <= Quadtree.tile_size_max q)%Q →
        ∃ q', Quadtree.set_tile_size_min v q = Ok (tt, q') ∧
              Quadtree.tile_size_min q' = v ∧
              Quadtree.tile_size_max q' = Quadtree.tile_size_max q ∧
              Quadtree.cached_leafs q' = None ∧
              Quadtree.cached__tile_size_lim_px q' = None ∧
              Quadtree.evChanged q' = S (Quadtree.evChanged q) ∧
              Quadtree._log q' = Quadtree._log q) ∧
  (∀ v, (Quadtree.tile_size_min q <= v)%Q →
        ∃ q', Quadtree.set_tile_size_max v q = Ok (tt, q') ∧
              Quadtree.tile_size_max q' = v ∧
              Quadtree.tile_size_min q' = Quadtree.tile_size_min q ∧
              Quadtree.cached_leafs q' = None ∧
              Quadtree.cached__tile_size_lim_px q' = None ∧
              Quadtree.evChanged q' = S (Quadtree.evChanged q) ∧
              Quadtree._log q' = Quadtree._log q).
Proof.
  split; [|split; [|split]].
  - intros v Hlt Heq. unfold Quadtree.set_epsilon. py_simpl.
    rewrite Heq, Hlt. eexists. split; [reflexivity|]. done.
  - intros v H0 H1. unfold Quadtree.set_nan_allowed. py_simpl.
    rewrite (proj2 (nan_allowed_test v)) by done.
    eexists. split; [reflexivity|]. done.
  - intros v Hv. unfold Quadtree.set_tile_size_min, Quadtree._tileSizeChanged.
    py_simpl. rewrite (proj2 (Qlt_bool_false _ _)) by done.
    eexists. split; [reflexivity|]. done.
  - intros v Hv. unfold Quadtree.set_tile_size_max, Quadtree._tileSizeChanged.
    py_simpl. rewrite (proj2 (Qlt_bool_false _ _)) by done.
    eexists. split; [reflexivity|]. done.
Qed.

Import Valid.




End MoreSetters.

(** * The base tiles *)

Lemma base_length_bounds rows cols :
  0 < Z.min rows cols →
  is_pow2 (base_length rows cols) ∧
  Z.min rows cols ≤ base_length rows cols < 2 * Z.min rows cols.
Proof.
  intros Hm. unfold base_length. split.
  { eexists. split; [apply Z.log2_up_nonneg|reflexivity]. }
  destruct (decide (Z.min rows cols = 1)) as [->|Hne].
  { change (Z.log2_up 1) with 0. lia. }
  destruct (Z.log2_up_spec (Z.min rows cols)) as [Hlo Hhi]; [lia|].
  split; [done|].
  assert (0 < Z.log2_up (Z.min rows cols)) as Hpos.
  { apply Z.log2_up_pos. lia. }
  replace (Z.log2_up (Z.min rows cols))
    with (Z.succ (Z.pred (Z.log2_up (Z.min rows cols)))) at 1 by lia.
  rewrite Z.pow_succ_r by lia. lia.
Qed.

Lemma base_grid_elem rows cols b :
  b ∈ base_grid rows cols ↔
  ∃ ir ic,
    0 ≤ ir < (rows + base_length rows cols - 1) / base_length rows cols ∧
    0 ≤ ic < (cols + base_length rows cols - 1) / base_length rows cols ∧
    b = QuadNode.new (ir * base_length rows cols) (ic * base_length rows cols)
                     (base_length rows cols).
Proof.
  unfold base_grid. cbv zeta. split.
  - intros Hb. apply list_elem_of_bind in Hb as (ir & Hb & Hir).
    apply list_elem_of_bind in Hb as (ic & Hb & Hic).
    apply list_elem_of_singleton in Hb as ->.
    apply elem_of_seqZ in Hir, Hic. exists ir, ic. repeat split; lia.
  - intros (ir & ic & Hir & Hic & ->).
    apply list_elem_of_bind. exists ir. split; [|apply elem_of_seqZ; lia].
    apply list_elem_of_bind. exists ic. split; [|apply elem_of_seqZ; lia].
    by apply list_elem_of_singleton.
Qed.

Lemma tile_count n L : 0 < L → 0 < n → 0 < (n + L - 1) / L.
Proof. intros HL Hn. apply Z.div_str_pos. lia. Qed.

Lemma tile_index r n L :
  0 < L → 0 ≤ r < n → 0 ≤ r / L < (n + L - 1) / L.
Proof.
  intros HL Hr. split; [apply Z.div_pos; lia|].
  apply Z.div_lt_upper_bound; [lia|].
  pose proof (Z.mul_div_le (n + L - 1) L HL).
  pose proof (Z.mod_pos_bound (n + L - 1) L HL).
  pose proof (Z.div_mod (n + L - 1) L). lia.
Qed.

Lemma tile_unique L a b r :
  0 < L → a * L ≤ r < a * L + L → b * L ≤ r < b * L + L → a = b.
Proof. intros HL Ha Hb. nia. Qed.

Lemma strip_base_grid rows cols :
  map strip (base_grid rows cols) = base_grid rows cols.
Proof.
  assert (Forall (λ b, strip b = b) (base_grid rows cols)) as HF.
  { apply Forall_forall. intros b Hb.
    apply base_grid_elem in Hb as (ir & ic & _ & _ & ->). done. }
  induction HF as [|b l Hb _ IH]; [done|]. simpl. by rewrite Hb, IH.
Qed.

Lemma pairwise_apart_app l1 l2 :
  pairwise_apart (l1 ++ l2) ↔
  pairwise_apart l1 ∧ pairwise_apart l2 ∧
  ∀ a b, a ∈ l1 → b ∈ l2 → apart a b.
Proof.
  induction l1 as [|x l1 IH]; simpl.
  - split; [|tauto]. intros Hp. split; [done|]. split; [done|].
    intros a b Ha. by apply not_elem_of_nil in Ha.
  - rewrite Forall_app, IH. split.
    + intros ([Hx1 Hx2] & Hp1 & Hp2 & Hc). split; [done|]. split; [done|].
      intros a b Ha Hb. apply elem_of_cons in Ha as [->|Ha].
      * by eapply Forall_forall in Hx2.
      * by apply Hc.
    + intros ([Hx1 Hp1] & Hp2 & Hc). split; [|split; [done|split; [done|]]].
      * split; [done|]. apply Forall_forall. intros b Hb.
        apply Hc; [apply list_elem_of_here|done].
      * intros a b Ha Hb. apply Hc; [by apply list_elem_of_further|done].
Qed.

Lemma pairwise_apart_bind_seqZ (f : Z → list QuadNode.t) m n :
  (∀ i, pairwise_apart (f i)) →
  (∀ i j a b, i ≠ j → a ∈ f i → b ∈ f j → apart a b) →
  pairwise_apart (seqZ m n ≫= f).
Proof.
  intros Hf Hd. unfold seqZ.
  generalize (Z.to_nat n) 0%nat. intros k. induction k as [|k IH]; intros s.
  { done. }
  cbn [seq]. rewrite fmap_cons, bind_cons. apply pairwise_apart_app.
  split; [apply Hf|]. split; [apply IH|].
  intros a b Ha Hb. apply list_elem_of_bind in Hb as (j & Hb & Hj).
  apply list_elem_of_fmap in Hj as (j' & -> & Hj').
  apply elem_of_seq in Hj'. eapply Hd; [|done|done]. lia.
Qed.

Lemma pairwise_apart_base_grid rows cols :
  0 < Z.min rows cols → pairwise_apart (base_grid rows cols).
Proof.
  intros Hm. destruct (base_length_bounds rows cols Hm) as [_ HL].
  unfold base_grid. cbv zeta. apply pairwise_apart_bind_seqZ.
  - intros ir. apply pairwise_apart_bind_seqZ.
    + intros ic. simpl. split; [constructor|done].
    + intros i j a b Hij Ha Hb.
      apply list_elem_of_singleton in Ha as ->.
      apply list_elem_of_singleton in Hb as ->.
      intros r c [[_ Hc1] [_ Hc2]]. simpl in *.
      apply Hij. eapply (tile_unique (base_length rows cols)); [lia|done..].
  - intros i j a b Hij Ha Hb.
    apply list_elem_of_bind in Ha as (ic & Ha & _).
    apply list_elem_of_bind in Hb as (ic' & Hb & _).
    apply list_elem_of_singleton in Ha as ->.
    apply list_elem_of_singleton in Hb as ->.
    intros r c [[Hr1 _] [Hr2 _]]. simpl in *.
    apply Hij. eapply (tile_unique (base_length rows cols)); [lia|done..].
Qed.

Lemma apart_strip a b : apart (strip a) (strip b) ↔ apart a b.
Proof. done. Qed.

Lemma pairwise_apart_strip l : pairwise_apart (map strip l) ↔ pairwise_apart l.
Proof.
  induction l as [|x l IH]; [done|]. simpl.
  rewrite IH, Forall_fmap. done.
Qed.

Lemma pairwise_apart_filter (P : QuadNode.t → Prop) `{!∀ x, Decision (P x)} l :
  pairwise_apart l → pairwise_apart (filter P l).
Proof.
  induction l as [|x l IH]; [done|]. intros [Hx Hl].
  rewrite filter_cons. destruct (decide (P x)); [|by apply IH].
  split; [|by apply IH]. apply Forall_forall. intros y Hy.
  apply list_elem_of_filter in Hy as [_ Hy].
  by eapply Forall_forall in Hx.
Qed.

Lemma pairwise_apart_lookup l i j a b r c :
  pairwise_apart l → l !! i = Some a → l !! j = Some b →
  footprint a r c → footprint b r c → i = j.
Proof.
  revert i j. induction l as [|x l IH]; intros i j Hp Hi Hj Ha Hb; [done|].
  destruct Hp as [Hx Hl]. rewrite Forall_forall in Hx.
  destruct i as [|i], j as [|j]; simpl in *.
  - done.
  - injection Hi as ->. apply list_elem_of_lookup_2 in Hj.
    destruct (Hx b Hj r c). done.
  - injection Hj as ->. apply list_elem_of_lookup_2 in Hi.
    destruct (Hx a Hi r c). done.
  - f_equal. by apply IH.
Qed.

Section MoreBase.
Context `{Numpy}.
Import Grid.

Lemma base_grid_nonempty rows cols :
  0 < Z.min rows cols → base_grid rows cols ≠ [].
Proof.
  intros Hgt Hnil. destruct (base_length_bounds rows cols Hgt) as [_ HL].
  assert (QuadNode.new (0 * base_length rows cols) (0 * base_length rows cols)
                       (base_length rows cols) ∈ base_grid rows cols) as Hin.
  { apply base_grid_elem. exists 0, 0.
    split; [split; [done|apply tile_count; lia]|].
    split; [split; [done|apply tile_count; lia]|done]. }
  rewrite Hnil in Hin. by apply not_elem_of_nil in Hin.
Qed.

Lemma _base_nodes_fresh q :
  Quadtree.cached__base_nodes q = None →
  Quadtree._base_nodes q =
    let rows := (shape2 (Quadtree.displacement q)).1 in
    let cols := (shape2 (Quadtree.displacement q)).2 in
    if Z.min rows cols <=? 0 then Raise ValueError
    else Ok (base_grid rows cols,
             Quadtree.with__base_nodes (Some (base_grid rows cols)) q).
Proof.
  intros Hc.
  pose proof (base_grid_nonempty (shape2 (Quadtree.displacement q)).1
                                 (shape2 (Quadtree.displacement q)).2) as Hne.
  unfold Quadtree._base_nodes, base_grid, base_length in *.
  py_simpl. rewrite Hc.
  match goal with |- context [if ?c <=? 0 then _ else _] =>
    destruct (Z.leb_spec c 0) as [Hle|Hgt]; [done|] end.
  specialize (Hne Hgt).
  match goal with |- context [length ?l] => destruct l; [done|] end.
  done.
Qed.

Lemma createTree_strip_all q bs bs' :
  mapM (Quadtree.createTree q) bs = Ok bs' → map strip bs' = map strip bs.
Proof.
  intros Hm. apply mapM_result_Ok in Hm.
  induction Hm as [|b b' bs bs' Hb _ IH]; [done|].
  simpl. rewrite IH. f_equal.
  apply createTree_inv in Hb as (_ & _ & Hs & _). done.
Qed.

Lemma _initTree_total q :
  (is_Some (Quadtree.cached__base_nodes q) ∨
   0 < Z.min (shape2 (Quadtree.displacement q)).1
             (shape2 (Quadtree.displacement q)).2) →
  ∃ q', Quadtree._initTree q = Ok (tt, q').
Proof.
  intros Hq.
  assert (∃ bs q1, Quadtree._base_nodes q = Ok (bs, q1)) as (bs & q1 & Hb).
  { destruct (Quadtree.cached__base_nodes q) as [bs|] eqn:Hc.
    - exists bs, q. unfold Quadtree._base_nodes. py_simpl. by rewrite Hc.
    - destruct Hq as [[? ?]|Hq]; [done|].
      rewrite (_base_nodes_fresh q Hc). cbv zeta.
      destruct (Z.leb_spec (Z.min (shape2 (Quadtree.displacement q)).1
                                  (shape2 (Quadtree.displacement q)).2) 0);
        [lia|]. by eexists _, _. }
  unfold Quadtree._initTree. unfold mbind at 1. unfold Py_bind. rewrite Hb.
  py_simpl.
  destruct (mapM_result_total (Quadtree.createTree q1) bs) as [bs' Hm].
  { apply Forall_forall. intros b _.
    unfold Quadtree.createTree. apply createTree_total.
    unfold QuadNode.fuel_for. lia. }
  rewrite Hm. by eexists.
Qed.

Lemma grid_initTree q q' :
  grid_ok q → Quadtree._initTree q = Ok (tt, q') → grid_ok q'.
Proof.
  intros Hg Hi.
  apply _initTree_spec in Hi as (bs & bs' & Hb & Hm & ->).
  apply createTree_strip_all in Hm.
  intros bs0 [= <-]. rewrite Hm.
  change (Quadtree.displacement (Quadtree.with__base_nodes (Some bs') q))
    with (Quadtree.displacement q).
  destruct (Quadtree.cached__base_nodes q) as [bs0|] eqn:Hc.
  - apply _base_nodes_spec in Hb as (_ & _ & Hb).
    rewrite (Hb bs0 Hc). by apply Hg.
  - rewrite (_base_nodes_fresh q Hc) in Hb. cbv zeta in Hb.
    destruct (Z.leb_spec (Z.min (shape2 (Quadtree.displacement q)).1
                                (shape2 (Quadtree.displacement q)).2) 0);
      [done|].
    injection Hb as <- _. split; [done|apply strip_base_grid].
Qed.

Lemma grid_frame q q' :
  Quadtree.scene q' = Quadtree.scene q →
  Quadtree.cached__base_nodes q' = Quadtree.cached__base_nodes q →
  grid_ok q → grid_ok q'.
Proof.
  unfold grid_ok, Quadtree.displacement. by intros -> ->.
Qed.

Lemma grid_setCorrection name q q' :
  grid_ok q → Quadtree.setCorrection name q = Ok (tt, q') → grid_ok q'.
Proof.
  intros Hg. unfold Quadtree.setCorrection.
  destruct (Quadtree._corrections !! name) as [[lbl f]|] eqn:Hn; [|done].
  py_simpl.
  match goal with |- context [Quadtree.set_epsilon ?v ?q0] =>
    destruct (Quadtree.set_epsilon v q0) as [[[] q1]|e] eqn:He; [|done] end.
  apply set_epsilon_fields in He as (Hs & Hf & Hb & Hl). simpl in *.
  destruct (Quadtree._initTree q1) as [[[] q2]|e] eqn:Hi; [|done].
  intros [= <-]. apply grid_initTree in Hi.
  - by apply (grid_frame q2).
  - by apply (grid_frame q).
Qed.

Lemma grid_setConfig cfg q q' :
  grid_ok q → Quadtree.setConfig cfg q = Ok (tt, q') → grid_ok q'.
Proof.
  intros Hg. unfold Quadtree.setConfig.
  unfold mbind at 1. unfold Py_bind, py_modify.
  unfold mbind at 1. unfold Py_bind.
  destruct (Quadtree.setCorrection _ _) as [[[] q1]|e] eqn:Hc; [|done].
  intros [= <-]. apply grid_setCorrection in Hc; [|by apply (grid_frame q)].
  by apply (grid_frame q1).
Qed.

Lemma reachable_grid q : Run.reachable q → grid_ok q.
Proof.
  induction 1 as [scene config q Hq | q c q' Hr IH Hc].
  - revert Hq. unfold Quadtree.__init__.
    destruct (Quadtree.setConfig _ _) as [[[] q1]|e] eqn:Hc; [|done].
    intros [= <-]. eapply grid_setConfig; [|done]. by intros bs.
  - pose proof (reachable_inv q Hr) as Hi.
    assert ((∀ s, c ≠ Run.SetCorrection s) → (∀ cfg, c ≠ Run.SetConfig cfg) →
            grid_ok q') as Hother.
    { intros Hn1 Hn2.
      destruct (exec_fields q c q' Hi Hn1 Hn2 Hc) as (Hs & _ & Hb & _).
      by apply (grid_frame q). }
    destruct c as [v|v|v|v|s|cfg| |]; try (by apply Hother).
    + by eapply grid_setCorrection.
    + by eapply grid_setConfig.
Qed.

End MoreBase.

Lemma pairwise_apart_quadrants n :
  0 ≤ QuadNode.length n / 2 →
  pairwise_apart (map (QuadNode.quadrant n) quadrant_indices).
Proof.
  intros Hh. simpl. unfold QuadNode.quadrant.
  repeat split; repeat constructor;
    intros r c [[? ?] [? ?]]; simpl in *; lia.
Qed.

Lemma Forall2_impl_elem {A B} (P Q : A → B → Prop) l k :
  Forall2 P l k →
  (∀ x y, P x y → x ∈ l → y ∈ k → Q x y) →
  Forall2 Q l k.
Proof.
  induction 1 as [|x y l k Hxy _ IH]; intros HPQ; [constructor|].
  constructor.
  - apply HPQ; [done|apply list_elem_of_here..].
  - apply IH. intros x' y' Hp Hx Hy.
    apply HPQ; [done|by apply list_elem_of_further..].
Qed.

Lemma pairwise_apart_concat cs ass :
  pairwise_apart cs →
  Forall2 (λ c a, Forall (λ x, within x c) a ∧ pairwise_apart a) cs ass →
  pairwise_apart (concat ass).
Proof.
  intros Hp HF. induction HF as [|c a cs ass [Hw Ha] HF IH]; [done|].
  destruct Hp as [Hc Hp]. simpl. apply pairwise_apart_app.
  split; [done|]. split; [by apply IH|].
  intros x y Hx Hy. apply elem_of_concat in Hy as (a' & Hy & Ha').
  apply list_elem_of_lookup in Ha' as [i Hi].
  destruct (Forall2_lookup_r _ _ _ _ _ HF Hi) as (c' & Hc' & Hw' & _).
  apply list_elem_of_lookup_2 in Hc'.
  rewrite Forall_forall in Hc, Hw, Hw'.
  intros r k [Hfx Hfy]. apply (Hc c' Hc' r k). split.
  - by apply (Hw x Hx).
  - by apply (Hw' y Hy).
Qed.

Section MoreBase2.
Context `{Numpy}.
Import Grid.

Lemma base_nodes_cover q bs :
  Run.reachable q → Quadtree.cached__base_nodes q = Some bs →
  ∀ r c, 0 ≤ r < (shape2 (Quadtree.displacement q)).1 →
         0 ≤ c < (shape2 (Quadtree.displacement q)).2 →
         ∃ b, b ∈ bs ∧ footprint b r c.
Proof.
  intros Hr Hbs r c Hrr Hcc.
  destruct (reachable_grid q Hr bs Hbs) as [Hmin Hg].
  set (rows := (shape2 (Quadtree.displacement q)).1) in *.
  set (cols := (shape2 (Quadtree.displacement q)).2) in *.
  destruct (base_length_bounds rows cols Hmin) as [Hp HL].
  set (L := base_length rows cols) in *.
  assert (0 < L) as HLpos by lia.
  assert (QuadNode.new (r / L * L) (c / L * L) L ∈ map strip bs) as Hin.
  { rewrite Hg. apply base_grid_elem. exists (r / L), (c / L). fold L.
    split; [apply tile_index; lia|]. split; [apply tile_index; lia|done]. }
  apply list_elem_of_fmap in Hin as (b & Hs & Hin).
  exists b. split; [done|]. change (footprint (strip b) r c).
  rewrite <- Hs.
  pose proof (Z.mul_div_le r L HLpos). pose proof (Z.mul_div_le c L HLpos).
  pose proof (Z.mod_pos_bound r L HLpos).
  pose proof (Z.mod_pos_bound c L HLpos).
  pose proof (Z.div_mod r L). pose proof (Z.div_mod c L).
  split; simpl; lia.
Qed.

(** X10 (the base tiles tile the raster): on a Quadtree object in use
    the base tiles all have the same side, the smallest power of two
    that is at least the shorter raster dimension; each has its corner
    inside the raster; every pixel position of the raster lies in one
    base tile, and no position lies in two.  The side is computed with
    the logarithm taken exactly, which is what the floating-point
    quotient of logarithms gives for dimensions below 2^29. *)
Theorem base_nodes_tile_raster q bs q' :
  Run.reachable q → Quadtree._base_nodes q = Ok (bs, q') →
  let rows := (shape2 (Quadtree.displacement q)).1 in
  let cols := (shape2 (Quadtree.displacement q)).2 in
  Z.min rows cols < 2 ^ 29 →
  (∃ L, is_pow2 L ∧ Z.min rows cols ≤ L < 2 * Z.min rows cols ∧
        ∀ b, b ∈ bs → QuadNode.length b = L ∧
                      0 ≤ QuadNode.llr b < rows ∧
                      0 ≤ QuadNode.llc b < cols) ∧
  (∀ r c, 0 ≤ r < rows → 0 ≤ c < cols → ∃ b, b ∈ bs ∧ footprint b r c) ∧
  (∀ i j a b r c, bs !! i = Some a → bs !! j = Some b →
                  footprint a r c → footprint b r c → i = j).
Proof.
  intros Hr Hb rows cols _.
  pose proof (reachable_inv q Hr) as (_ & (bs0 & Hbs0 & _) & _).
  apply _base_nodes_spec in Hb as (_ & _ & Hb).
  rewrite (Hb bs0 Hbs0) in *. clear Hb bs.
  destruct (reachable_grid q Hr bs0 Hbs0) as [Hmin Hg].
  fold rows cols in Hmin, Hg.
  destruct (base_length_bounds rows cols Hmin) as [Hp HL].
  set (L := base_length rows cols) in *.
  assert (0 < L) as HLpos by lia.
  split; [|split].
  - exists L. split; [done|]. split; [done|]. intros b Hin.
    assert (strip b ∈ base_grid rows cols) as Hsb.
    { rewrite <- Hg. apply list_elem_of_fmap. by exists b. }
    apply base_grid_elem in Hsb as (ir & ic & Hir & Hic & Hs).
    fold L in Hir, Hic, Hs. injection Hs as Hr0 Hc0 Hl0.
    pose proof (Z.mul_div_le (rows + L - 1) L HLpos).
    pose proof (Z.mul_div_le (cols + L - 1) L HLpos).
    split; [done|]. split; nia.
  - by apply base_nodes_cover.
  - intros i j a b r c. apply pairwise_apart_lookup.
    apply pairwise_apart_strip. rewrite Hg.
    by apply pairwise_apart_base_grid.
Qed.

Lemma Built_children_apart q n cs :
  Run.Built q n → QuadNode.children n = Some cs → pairwise_apart cs.
Proof.
  intros Hb Hcs.
  destruct (Built_children q n cs Hb Hcs) as (H16 & _ & _ & Hm).
  apply pairwise_apart_strip. rewrite Hm.
  apply pairwise_apart_filter, pairwise_apart_quadrants.
  apply Z.div_pos; lia.
Qed.

Lemma walk_within q corr lim eps n a :
  Run.Built q n → QuadNode.iterLeafs corr eps lim n = Ok a →
  Forall (λ x, within x n) a.
Proof.
  intros Hb Hw. apply Forall_forall. intros x Hx.
  destruct (walk_reports q corr lim eps n Hb a x Hw Hx) as (Hin & _).
  by destruct (descendants_within q n Hb x Hin) as (_ & Hwi & _).
Qed.

Lemma walk_apart q corr lim eps n :
  Run.Built q n →
  ∀ a, QuadNode.iterLeafs corr eps lim n = Ok a → pairwise_apart a.
Proof.
  induction n as [r c l|r c l cs IH] using QuadNode_ind'; intros Hb a Hw.
  - destruct (walk_cases corr lim eps _ a Hw)
      as [[Hs ->] | (_ & cs' & ass & Hcs & _)]; [|done].
    simpl. split; [constructor|done].
  - destruct (walk_cases corr lim eps _ a Hw)
      as [[Hs ->] | (Hns & cs' & ass & Hcs & Hne & HF & ->)].
    { simpl. split; [constructor|done]. }
    simpl in Hcs. injection Hcs as <-.
    apply (pairwise_apart_concat cs); [by eapply Built_children_apart|].
    rewrite Forall_forall in IH.
    eapply Forall2_impl_elem; [exact HF|]. intros c' a' Hwc Hc' _.
    destruct (Built_child q _ cs c' Hb eq_refl Hc') as (Hbc & _).
    split; [exact (walk_within q _ _ _ c' a' Hbc Hwc)|].
    exact (IH c' Hc' Hbc a' Hwc).
Qed.

Lemma filter_nan_allowed_apart q a f :
  Quadtree.filter_nan_allowed q a = Ok f →
  pairwise_apart a → pairwise_apart f.
Proof.
  revert f. induction a as [|x a IH]; intros f Hf Hp.
  - by injection Hf as <-.
  - destruct Hp as [Hx Hp]. simpl in Hf.
    unfold mbind, result_bind in Hf.
    destruct (QuadNode.nan_fraction _ x) as [fr|e]; [|done].
    destruct (Quadtree.filter_nan_allowed q a) as [rest|e] eqn:Hr; [|done].
    injection Hf as <-. specialize (IH rest eq_refl Hp).
    destruct (Qlt_bool fr (Quadtree.nan_allowed q)); [|done].
    split; [|done]. apply Forall_forall. intros y Hy.
    destruct (filter_nan_allowed_spec q a rest y Hr Hy) as [Hya _].
    by eapply Forall_forall in Hx.
Qed.

Lemma leafs_pairwise_apart q ls q' :
  Run.reachable q → Quadtree.leafs q = Ok (ls, q') → pairwise_apart ls.
Proof.
  intros Hr Hl.
  pose proof (reachable_inv q Hr) as Hinv.
  destruct (leafs_spec q ls q' Hinv Hl)
    as (_ & _ & _ & _ & _ & _ & bs & Hbs & Hc).
  destruct (compute_leafs_walks q q bs ls eq_refl eq_refl eq_refl eq_refl Hc)
    as (lss & HF & ->).
  destruct Hinv as (_ & (bs' & Hbs' & HB) & _).
  assert (bs' = bs) as -> by congruence.
  destruct (reachable_grid q Hr bs Hbs) as [Hmin Hg].
  apply (pairwise_apart_concat bs).
  { apply pairwise_apart_strip. rewrite Hg.
    by apply pairwise_apart_base_grid. }
  rewrite Forall_forall in HB.
  eapply Forall2_impl_elem; [exact HF|].
  intros b0 l0 (a0 & Hw & Hf) Hb0 _. specialize (HB b0 Hb0).
  split.
  - apply Forall_forall. intros x Hx.
    destruct (filter_nan_allowed_spec q a0 l0 x Hf Hx) as [Hxa _].
    pose proof (walk_within q _ _ _ b0 a0 HB Hw) as Hwi.
    by eapply Forall_forall in Hwi.
  - eapply filter_nan_allowed_apart; [exact Hf|].
    by eapply walk_apart.
Qed.

(** X11 (leaves never overlap): no pixel position lies in two entries
    of the leaf list of a Quadtree object in use; in particular no leaf
    is listed twice and none is listed together with a node below it. *)
Theorem leafs_never_overlap q ls q' i j a b r c :
  Run.reachable q → Quadtree.leafs q = Ok (ls, q') →
  ls !! i = Some a → ls !! j = Some b →
  footprint a r c → footprint b r c → i = j.
Proof.
  intros Hr Hl. apply pairwise_apart_lookup.
  by apply (leafs_pairwise_apart q ls q').
Qed.

End MoreBase2.

(** * Coverage *)

Lemma py_slice_lookup {A} (a b i : Z) (l : list A) x :
  0 ≤ a → a ≤ i < b → l !! Z.to_nat i = Some x →
  py_slice a b l !! Z.to_nat (i - a) = Some x.
Proof.
  intros Ha Hi Hx. pose proof (lookup_lt_Some _ _ _ Hx) as Hlt.
  unfold py_slice, slice_index.
  destruct (Z.ltb_spec a 0); [lia|]. destruct (Z.ltb_spec b 0); [lia|].
  rewrite lookup_take_lt by lia. rewrite lookup_drop.
  replace (Z.to_nat (a `min` Z.of_nat (length l)) + Z.to_nat (i - a))%nat
    with (Z.to_nat i) by lia.
  done.
Qed.

Lemma py_slice2_elem {A} (r0 r1 c0 c1 r c : Z) (d : list (list A)) row v :
  0 ≤ r0 → r0 ≤ r < r1 → 0 ≤ c0 → c0 ≤ c < c1 →
  d !! Z.to_nat r = Some row → row !! Z.to_nat c = Some v →
  v ∈ concat (py_slice2 r0 r1 c0 c1 d).
Proof.
  intros Hr0 Hr Hc0 Hc Hrow Hv. apply elem_of_concat.
  exists (py_slice c0 c1 row). split.
  - apply (list_elem_of_lookup_2 _ (Z.to_nat (c - c0))).
    by apply py_slice_lookup.
  - unfold py_slice2. apply list_elem_of_fmap. exists row. split; [done|].
    apply (list_elem_of_lookup_2 _ (Z.to_nat (r - r0))).
    by apply py_slice_lookup.
Qed.

(** A node on a window that holds a number is not left out by
    [_iterSplitNode]. *)
Lemma valid_not_omitted scene n r c row v :
  0 ≤ QuadNode.llr n → 0 ≤ QuadNode.llc n → footprint n r c →
  Scene.displacement scene !! Z.to_nat r = Some row →
  row !! Z.to_nat c = Some v → v ≠ NaN →
  QuadNode.omitted scene n = false.
Proof.
  intros Hr0 Hc0 [Hr Hc] Hrow Hv Hnan.
  assert (v ∈ concat (QuadNode.displacement scene n)) as Hin.
  { unfold QuadNode.displacement. by eapply py_slice2_elem. }
  apply not_true_iff_false. rewrite omitted_spec. intros [Hs|Hall].
  - unfold size2 in Hs.
    destruct (concat (QuadNode.displacement scene n)); [|simpl in Hs; lia].
    by apply not_elem_of_nil in Hin.
  - rewrite Forall_forall in Hall. by apply Hnan, Hall.
Qed.

Section MoreCover.
Context `{Numpy}.
Import Grid.

(** The walk below a built node reports a node on every position of the
    node that holds a number. *)
Lemma walk_covers q corr lim eps n r c row v :
  Quadtree.displacement q !! Z.to_nat r = Some row →
  row !! Z.to_nat c = Some v → v ≠ NaN →
  Run.Built q n →
  ∀ a, QuadNode.iterLeafs corr eps lim n = Ok a → footprint n r c →
       ∃ x, x ∈ a ∧ footprint x r c.
Proof.
  intros Hrow Hv Hnan.
  induction n as [r0 c0 l|r0 c0 l cs IH] using QuadNode_ind';
    intros Hb a Hw Hf.
  - destruct (walk_cases corr lim eps _ a Hw)
      as [[Hs ->] | (_ & cs' & ass & Hcs & _)]; [|done].
    eexists. split; [apply list_elem_of_here|done].
  - destruct (walk_cases corr lim eps _ a Hw)
      as [[Hs ->] | (Hns & cs' & ass & Hcs & Hne & HF & ->)].
    { eexists. split; [apply list_elem_of_here|done]. }
    simpl in Hcs. injection Hcs as <-.
    set (n := QuadNode.mk r0 c0 l (Some cs)) in *.
    destruct (Built_children q n cs Hb eq_refl) as (H16 & Hroot & _ & Hm).
    pose proof Hroot as (Hp & Hr0 & Hc0).
    destruct (is_pow2_half _ Hp) as [_ Hhalf]; [lia|].
    destruct (footprint_quadrants n r c Hhalf) as [Hq _]; [lia|].
    apply Hq in Hf as (i & Hi & Hfi).
    assert (QuadNode.quadrant n i ∈ map strip cs) as Hin.
    { rewrite Hm. apply list_elem_of_filter. split.
      - destruct (root_ok_quadrant n i Hroot H16 Hi) as (_ & Hqr & Hqc).
        by eapply valid_not_omitted.
      - apply list_elem_of_fmap. by exists i. }
    apply list_elem_of_fmap in Hin as (c' & Hs & Hc').
    destruct (Built_child q n cs c' Hb eq_refl Hc') as (Hbc & _).
    apply list_elem_of_lookup in Hc' as [k Hk].
    destruct (Forall2_lookup_l _ _ _ _ _ HF Hk) as (a' & Ha' & Hwc).
    rewrite Forall_forall in IH.
    destruct (IH c' (list_elem_of_lookup_2 _ _ _ Hk) Hbc a' Hwc) as (x & Hx & Hfx).
    { change (footprint (strip c') r c). by rewrite <- Hs. }
    exists x. split; [|done]. apply elem_of_concat. exists a'.
    split; [done|]. by eapply list_elem_of_lookup_2.
Qed.

Lemma filter_nan_allowed_complete q a f x :
  Quadtree.filter_nan_allowed q a = Ok f → x ∈ a →
  x ∈ f ∨ ∃ fr, QuadNode.nan_fraction (Quadtree.scene q) x = Ok fr ∧
                (Quadtree.nan_allowed q <= fr)%Q.
Proof.
  revert f. induction a as [|y a IH]; intros f Hf Hx.
  { by apply not_elem_of_nil in Hx. }
  simpl in Hf. unfold mbind, result_bind in Hf.
  destruct (QuadNode.nan_fraction _ y) as [fr|e] eqn:Hfr; [|done].
  destruct (Quadtree.filter_nan_allowed q a) as [rest|e] eqn:Hr; [|done].
  injection Hf as <-.
  apply elem_of_cons in Hx as [->|Hx].
  - destruct (Qlt_bool fr (Quadtree.nan_allowed q)) eqn:Hlt.
    + left. apply list_elem_of_here.
    + right. exists fr. split; [done|]. by apply Qlt_bool_false.
  - destruct (IH rest eq_refl Hx) as [Hin|Hout]; [|by right].
    left. destruct (Qlt_bool fr (Quadtree.nan_allowed q)); [|done].
    by apply list_elem_of_further.
Qed.

(** X12 (the leaves cover the data): on a Quadtree object in use, every
    pixel position of the raster that holds a number lies in a reported
    leaf, or in a node of the tree that the NaN filter removed, whose
    NaN fraction is at least [nan_allowed].  Nothing else is lost. *)
Theorem leafs_cover_data q ls q' r c row v :
  Run.reachable q → Quadtree.leafs q = Ok (ls, q') →
  0 ≤ r → 0 ≤ c < (shape2 (Quadtree.displacement q)).2 →
  Quadtree.displacement q !! Z.to_nat r = Some row →
  row !! Z.to_nat c = Some v → v ≠ NaN →
  (∃ l, l ∈ ls ∧ footprint l r c) ∨
  (∃ n fr, (∃ ns, Quadtree.nodes q = Ok (ns, q) ∧ n ∈ ns) ∧
           footprint n r c ∧
           QuadNode.nan_fraction (Quadtree.scene q) n = Ok fr ∧
           (Quadtree.nan_allowed q <= fr)%Q).
Proof.
  intros Hr Hl Hr0 Hc0 Hrow Hv Hnan.
  pose proof (reachable_inv q Hr) as Hinv.
  destruct (leafs_spec q ls q' Hinv Hl)
    as (_ & _ & _ & _ & _ & _ & bs & Hbs & Hc).
  destruct (compute_leafs_walks q q bs ls eq_refl eq_refl eq_refl eq_refl Hc)
    as (lss & HF & ->).
  destruct Hinv as (_ & (bs' & Hbs' & HB) & _).
  assert (bs' = bs) as -> by congruence.
  assert (Quadtree._base_nodes q = Ok (bs, q)) as Hbn.
  { unfold Quadtree._base_nodes. py_simpl. by rewrite Hbs. }
  destruct (base_nodes_cover q bs Hr Hbs r c) as (b & Hb & Hfb).
  { split; [done|]. apply lookup_lt_Some in Hrow. simpl. lia. }
  { done. }
  rewrite Forall_forall in HB.
  apply list_elem_of_lookup in Hb as [k Hk].
  destruct (Forall2_lookup_l _ _ _ _ _ HF Hk) as (l0 & Hl0 & a & Hw & Hf).
  pose proof (HB b (list_elem_of_lookup_2 _ _ _ Hk)) as Hbb.
  destruct (walk_covers q _ _ _ b r c row v Hrow Hv Hnan Hbb a Hw Hfb)
    as (x & Hx & Hfx).
  destruct (filter_nan_allowed_complete q a l0 x Hf Hx)
    as [Hin|(fr & Hfr & Hle)].
  - left. exists x. split; [|done]. apply elem_of_concat. exists l0.
    split; [done|]. by eapply list_elem_of_lookup_2.
  - right. exists x, fr. split; [|done].
    exists (bs ≫= QuadNode.iterChildren). split; [by apply nodes_unfold|].
    apply list_elem_of_bind. exists b.
    split; [|by eapply list_elem_of_lookup_2].
    by destruct (walk_reports q _ _ _ b Hbb a x Hw Hx) as (Hin & _).
Qed.

End MoreCover.

(** * Construction and [setCorrection] *)

Section MoreInit.
Context `{Numpy}.
Import Grid.

Lemma corrections_names name :
  is_Some (Quadtree._corrections !! name) ↔ name ∈ correction_names.
Proof.
  unfold Quadtree._corrections, correction_names. split.
  - intros [[lbl f] Hl]. apply elem_of_list_to_map_2 in Hl.
    repeat (apply elem_of_cons in Hl as [Heq|Hl];
            [injection Heq as -> _ _; by repeat constructor|]).
    by apply not_elem_of_nil in Hl.
  - intros Hn.
    repeat (apply elem_of_cons in Hn as [->|Hn]; [by eexists|]).
    by apply not_elem_of_nil in Hn.
Qed.

Lemma set_epsilon_total v q :
  ∃ q', Quadtree.set_epsilon v q = Ok (tt, q') ∧
        Quadtree.scene q' = Quadtree.scene q ∧
        Quadtree._corr_func q' = Quadtree._corr_func q ∧
        Quadtree.cached__base_nodes q' = Quadtree.cached__base_nodes q ∧
        QuadtreeConfig.correction (Quadtree.config q')
        = QuadtreeConfig.correction (Quadtree.config q) ∧
        Quadtree.evConfigChanged q' = Quadtree.evConfigChanged q ∧
        (Quadtree.cached_leafs q = None → Quadtree.cached_leafs q' = None).
Proof.
  unfold Quadtree.set_epsilon. py_simpl.
  destruct (match Quadtree.epsilon q with
            | Some e => f_eq e v | None => false end); [by eexists|].
  destruct (f_lt v (Quadtree.epsilon_min q)); by eexists.
Qed.

Lemma _initTree_fresh_raises q :
  Quadtree.cached__base_nodes q = None →
  Z.min (shape2 (Quadtree.displacement q)).1
        (shape2 (Quadtree.displacement q)).2 ≤ 0 →
  Quadtree._initTree q = Raise ValueError.
Proof.
  intros Hc Hm. unfold Quadtree._initTree. unfold mbind at 1. unfold Py_bind.
  rewrite (_base_nodes_fresh q Hc). cbv zeta.
  by destruct (Z.leb_spec (Z.min (shape2 (Quadtree.displacement q)).1
                                 (shape2 (Quadtree.displacement q)).2) 0);
    [|lia].
Qed.

(** What [setCorrection] does with a name it knows. *)
Lemma setCorrection_known name lbl f q :
  Quadtree._corrections !! name = Some (lbl, f) →
  ∃ q1,
    Quadtree.scene q1 = Quadtree.scene q ∧
    Quadtree._corr_func q1 = f (Quadtree.scene q) ∧
    Quadtree.cached__base_nodes q1 = Quadtree.cached__base_nodes q ∧
    QuadtreeConfig.correction (Quadtree.config q1) = name ∧
    Quadtree.evConfigChanged q1 = Quadtree.evConfigChanged q ∧
    Quadtree.cached_leafs q1 = None ∧
    Quadtree.setCorrection name q =
      match Quadtree._initTree q1 with
      | Ok (_, q2) => Ok (tt, Quadtree.notify_evChanged q2)
      | Raise e => Raise e
      end.
Proof.
  intros Hn. unfold Quadtree.setCorrection. rewrite Hn. py_simpl.
  match goal with |- context [Quadtree.set_epsilon ?v ?q0] =>
    destruct (set_epsilon_total v q0)
      as (q1 & -> & Hs & Hf & Hb & Hc & He & Hl) end.
  exists q1. simpl in *. repeat (split; [by auto|]).
  destruct (Quadtree._initTree q1) as [[[] q2]|e]; done.
Qed.

Lemma setConfig_unfold cfg q :
  Quadtree.setConfig cfg q =
    match Quadtree.setCorrection (QuadtreeConfig.correction cfg)
                                 (Quadtree.with_config cfg q) with
    | Ok (_, q1) => Ok (tt, Quadtree.notify_evConfigChanged q1)
    | Raise e => Raise e
    end.
Proof.
  unfold Quadtree.setConfig.
  unfold mbind at 1. unfold Py_bind, py_modify.
  unfold mbind at 1. unfold Py_bind.
  by destruct (Quadtree.setCorrection _ _) as [[[] q1]|e].
Qed.

(** X13 (outcome of the constructor): [Quadtree(scene, config)] raises
    AttributeError when the configured correction is not one of the four
    names, otherwise ValueError when the raster has no row or its first
    row is empty, and otherwise returns an object on the scene whose tree
    stands on the base tiles of the raster, with no leaves cached and
    [evConfigChanged] notified once.  No other exception is raised. *)
Theorem init_outcome scene config :
  let name := QuadtreeConfig.correction config in
  let rows := (shape2 (Scene.displacement scene)).1 in
  let cols := (shape2 (Scene.displacement scene)).2 in
  (name ∉ correction_names →
   Quadtree.__init__ scene config
   = Raise (AttributeError ("Method " +:+ name))) ∧
  (name ∈ correction_names → Z.min rows cols ≤ 0 →
   Quadtree.__init__ scene config = Raise ValueError) ∧
  (name ∈ correction_names → 0 < Z.min rows cols →
   ∃ q bs, Quadtree.__init__ scene config = Ok q ∧
           Quadtree.scene q = scene ∧
           QuadtreeConfig.correction (Quadtree.config q) = name ∧
           Quadtree.cached__base_nodes q = Some bs ∧
           map strip bs = base_grid rows cols ∧
           Quadtree.cached_leafs q = None ∧
           Quadtree.evConfigChanged q = 1%nat).
Proof.
  intros name rows cols.
  unfold Quadtree.__init__. rewrite setConfig_unfold. fold name.
  set (q0 := Quadtree.with_config config _).
  split; [|split].
  - intros Hn. unfold Quadtree.setCorrection.
    destruct (Quadtree._corrections !! _) as [x|] eqn:Hl; [|done].
    destruct Hn. apply corrections_names. by eexists.
  - intros Hn Hm. apply corrections_names in Hn as [[lbl f] Hl].
    destruct (setCorrection_known _ lbl f q0 Hl)
      as (q1 & Hs & _ & Hb & _ & _ & _ & ->).
    rewrite _initTree_fresh_raises; [done|by rewrite Hb|].
    unfold Quadtree.displacement. by rewrite Hs.
  - intros Hn Hm. apply corrections_names in Hn as [[lbl f] Hl].
    destruct (setCorrection_known _ lbl f q0 Hl)
      as (q1 & Hs & _ & Hb & Hc & He & Hlf & ->).
    destruct (_initTree_total q1) as [q2 Hi].
    { right. unfold Quadtree.displacement. by rewrite Hs. }
    rewrite Hi.
    assert (grid_ok q2) as Hg.
    { eapply grid_initTree; [|exact Hi]. intros bs. rewrite Hb. done. }
    apply _initTree_spec in Hi as (bs & bs' & _ & _ & ->).
    eexists _, bs'. split; [reflexivity|]. simpl.
    split; [done|]. split; [done|]. split; [done|].
    split; [|split; [done|by rewrite He]].
    destruct (Hg bs' eq_refl) as [_ Hgb]. simpl in Hgb.
    unfold Quadtree.displacement in Hgb. simpl in Hgb.
    by rewrite Hs in Hgb.
Qed.

(** X14 (outcome of [setCorrection]): an unknown name raises
    AttributeError, on any object; a known name never raises on a
    Quadtree object in use: the metric of the name is installed, the
    name is stored, the cached leaves are dropped and the tree is built
    anew on the same base tiles. *)
Theorem setCorrection_outcome q name :
  (name ∉ correction_names →
   Quadtree.setCorrection name q
   = Raise (AttributeError ("Method " +:+ name))) ∧
  (Run.reachable q → name ∈ correction_names →
   ∃ q' lbl f bs bs',
     Quadtree.setCorrection name q = Ok (tt, q') ∧
     Quadtree._corrections !! name = Some (lbl, f) ∧
     Quadtree._corr_func q' = f (Quadtree.scene q) ∧
     QuadtreeConfig.correction (Quadtree.config q') = name ∧
     Quadtree.cached_leafs q' = None ∧
     Quadtree.cached__base_nodes q = Some bs ∧
     Quadtree.cached__base_nodes q' = Some bs' ∧
     map strip bs' = map strip bs ∧
     Forall (Run.Built q') bs').
Proof.
  split.
  - intros Hn. unfold Quadtree.setCorrection.
    destruct (Quadtree._corrections !! _) as [x|] eqn:Hl; [|done].
    destruct Hn. apply corrections_names. by eexists.
  - intros Hr Hn. apply corrections_names in Hn as [[lbl f] Hl].
    pose proof (reachable_inv q Hr) as Hinv.
    pose proof Hinv as (_ & (bs & Hbs & _) & _).
    destruct (setCorrection_known _ lbl f q Hl)
      as (q1 & Hs & Hf & Hb & Hc & He & Hlf & Heq).
    destruct (_initTree_total q1) as [q2 Hi].
    { left. rewrite Hb, Hbs. by eexists. }
    rewrite Hi in Heq.
    assert (inv (Quadtree.notify_evChanged q2)) as Hinv2.
    { eapply (inv_setCorrection name q); [by apply inv_base_ok|done]. }
    apply _initTree_spec in Hi as (bs0 & bs' & Hb0 & Hm & ->).
    apply _base_nodes_spec in Hb0 as (_ & _ & Hb0).
    rewrite Hb, Hbs in Hb0. specialize (Hb0 bs eq_refl) as ->.
    apply createTree_strip_all in Hm.
    exists (Quadtree.notify_evChanged
              (Quadtree.with__base_nodes (Some bs') q1)), lbl, f, bs, bs'.
    simpl. repeat (split; [done|]).
    destruct Hinv2 as (_ & (bs2 & Hbs2 & HB) & _).
    simpl in Hbs2. by injection Hbs2 as <-.
Qed.

End MoreInit.

(** * Further properties of the covariance *)

Section MoreCov.
Context `{Numpy}.

Lemma last_max_spec self ls :
  ∀ best r,
    Covariance.last_max self best ls = Ok r →
    match r with
    | None => best = None ∧ ls = []
    | Some (n, k) =>
        (best = Some (n, k) ∨ (n ∈ ls ∧ Covariance.noise_key self n = Ok k)) ∧
        (∀ nb kb, best = Some (nb, kb) → (kb <= k)%Q) ∧
        (∀ m km, m ∈ ls → Covariance.noise_key self m = Ok km → (km <= k)%Q)
    end.
Proof.
  induction ls as [|n ls IH]; intros best r Hr.
  - injection Hr as <-. destruct best as [[nb kb]|]; [|done].
    split; [by left|]. split.
    + intros ? ? [= <- <-]. apply Qle_refl.
    + intros m km Hm. by apply not_elem_of_nil in Hm.
  - simpl in Hr. unfold mbind, result_bind in Hr.
    destruct (Covariance.noise_key self n) as [k0|e] eqn:Hk; [|done].
    apply IH in Hr. destruct r as [[n1 k1]|].
    2:{ destruct Hr as [Hr _]. destruct best as [[nb kb]|]; [|done].
        by destruct (Qle_bool kb k0). }
    destruct Hr as (Hsrc & Hbest & Hall).
    destruct best as [[nb kb]|].
    + destruct (Qle_bool kb k0) eqn:Hle.
      * apply Qle_bool_iff in Hle.
        pose proof (Hbest n k0 eq_refl) as Hk01.
        split; [|split].
        -- right. destruct Hsrc as [[= <- <-]|[Hin Hkey]].
           ++ split; [apply list_elem_of_here|done].
           ++ split; [by apply list_elem_of_further|done].
        -- intros ? ? [= <- <-]. by apply (Qle_trans _ k0).
        -- intros m km Hm Hkm. apply elem_of_cons in Hm as [->|Hm].
           ++ rewrite Hk in Hkm. by injection Hkm as <-.
           ++ by apply (Hall m).
      * assert (k0 <= kb)%Q as Hk0.
        { apply Qlt_le_weak, Qnot_le_lt. intros Hc.
          apply Qle_bool_iff in Hc. congruence. }
        pose proof (Hbest nb kb eq_refl) as Hkb.
        split; [|split].
        -- destruct Hsrc as [Heq|[Hin Hkey]]; [by left|].
           right. split; [by apply list_elem_of_further|done].
        -- intros ? ? [= <- <-]. done.
        -- intros m km Hm Hkm. apply elem_of_cons in Hm as [->|Hm].
           ++ rewrite Hk in Hkm. injection Hkm as <-.
              by apply (Qle_trans _ kb).
           ++ by apply (Hall m).
    + pose proof (Hbest n k0 eq_refl) as Hk01.
      split; [|split].
      * right. destruct Hsrc as [[= <- <-]|[Hin Hkey]].
        -- split; [apply list_elem_of_here|done].
        -- split; [by apply list_elem_of_further|done].
      * done.
      * intros m km Hm Hkm. apply elem_of_cons in Hm as [->|Hm].
        -- rewrite Hk in Hkm. by injection Hkm as <-.
        -- by apply (Hall m).
Qed.

Lemma last_max_total self ls :
  (∀ l, l ∈ ls → ∃ k, Covariance.noise_key self l = Ok k) →
  ∀ best, ∃ r, Covariance.last_max self best ls = Ok r ∧
               (ls ≠ [] → is_Some r).
Proof.
  induction ls as [|n ls IH]; intros Hk best.
  - by exists best.
  - destruct (Hk n) as [k Hkn]; [apply list_elem_of_here|].
    simpl. rewrite Hkn. simpl.
    destruct (IH (λ l Hl, Hk l (list_elem_of_further _ _ _ Hl))
                 (match best with
                  | Some (_, kb) =>
                      if Qle_bool kb k then Some (n, k) else best
                  | None => Some (n, k)
                  end)) as (r & Hr & _).
    exists r. split; [done|]. intros _.
    apply last_max_spec in Hr. destruct r as [[? ?]|]; [done|].
    destruct Hr as [Hr _]. destruct best as [[nb kb]|]; [|done].
    by destruct (Qle_bool kb k).
Qed.

(** X15 (choice of the noise patch): with no noise data set, the getter
    of [noise_data] raises IndexError when the quadtree reports no leaf;
    otherwise the patch it stores and returns is cut from a leaf whose
    key [length / (nan_fraction + 1)] is the largest among the leaves,
    trimmed, deramped and with NaN put to zero; it returns one whenever
    every leaf has a NaN fraction.  Noise data that was set is returned
    as it is. *)
Theorem noise_data_selection s ls s1 :
  Covariance.quadtree_leafs s = Ok (ls, s1) →
  (∀ d, Covariance._noise_data s = Some d →
        Covariance.noise_data s = Ok (d, s)) ∧
  (Covariance._noise_data s = None → ls = [] →
   Covariance.noise_data s = Raise IndexError) ∧
  (Covariance._noise_data s = None → ls ≠ [] →
   (∀ l, l ∈ ls → ∃ k, Covariance.noise_key s1 l = Ok k) →
   ∃ d s', Covariance.noise_data s = Ok (d, s')) ∧
  (∀ d s', Covariance._noise_data s = None →
     Covariance.noise_data s = Ok (d, s') →
     ∃ n k,
       n ∈ ls ∧ Covariance.noise_key s1 n = Ok k ∧
       (∀ m km, m ∈ ls → Covariance.noise_key s1 m = Ok km → (km <= k)%Q) ∧
       s' = Covariance.with__noise_data (Some d) s1 ∧
       d = map (map (λ x, match x with NaN => 0%Q | Fin q => q end))
               (derampMatrix
                  (trimMatrix
                     (QuadNode.displacement
                        (Quadtree.scene (Covariance._quadtree s1)) n)))).
Proof.
  intros Hls.
  assert (Covariance._noise_data s = None →
          Covariance.noise_data s =
            match Covariance.last_max s1 None ls with
            | Ok (Some (n, _)) =>
                let d := map (map (λ x, match x with
                                        | NaN => 0%Q | Fin q => q end))
                             (derampMatrix
                                (trimMatrix
                                   (QuadNode.displacement
                                      (Quadtree.scene
                                         (Covariance._quadtree s1)) n))) in
                Ok (d, Covariance.with__noise_data (Some d) s1)
            | Ok None => Raise IndexError
            | Raise e => Raise e
            end) as Hunfold.
  { intros Hnone. unfold Covariance.noise_data.
    unfold mbind at 1. unfold Py_bind, py_get. rewrite Hnone.
    unfold mbind at 1. unfold Py_bind. rewrite Hls.
    unfold mbind at 1. unfold Py_bind.
    unfold mbind at 1. unfold Py_bind, py_lift.
    destruct (Covariance.last_max s1 None ls) as [[[n k]|]|e]; done. }
  split; [|split; [|split]].
  - intros d Hd. unfold Covariance.noise_data.
    unfold mbind, Py_bind, py_get. by rewrite Hd.
  - intros Hnone ->. by rewrite Hunfold.
  - intros Hnone Hne Hkeys. rewrite Hunfold by done.
    destruct (last_max_total s1 ls Hkeys None) as (r & -> & Hsome).
    destruct (Hsome Hne) as [[n k] ->]. by eexists _, _.
  - intros d s' Hnone. rewrite Hunfold by done.
    destruct (Covariance.last_max s1 None ls) as [[[n k]|]|e] eqn:Hlm;
      [|done..].
    intros [= <- <-]. apply last_max_spec in Hlm as ([?|[Hin Hk]] & _ & Hall);
      [done|].
    by exists n, k.
Qed.

End MoreCov.

Lemma mget_square n (a : matrix) i j :
  square n a → (i < n)%nat → (j < n)%nat → is_Some (mget a i j).
Proof.
  intros [Hl Hrows] Hi Hj. unfold mget.
  destruct (lookup_lt_is_Some_2 a i) as [row Hrow]; [lia|].
  rewrite Hrow. simpl. apply lookup_lt_is_Some_2.
  rewrite Forall_forall in Hrows.
  rewrite (Hrows row); [done|]. by eapply list_elem_of_lookup_2.
Qed.

Lemma py_for_state_inv {S A B} (J : list A → B → S → Prop) (l : list A)
    (body : A → B → Py S B) :
  ∀ pre acc s r s',
    J pre acc s →
    (∀ pre' x b s1 b' s2, x ∈ l → J pre' b s1 → body x b s1 = Ok (b', s2) →
                          J (pre' ++ [x]) b' s2) →
    Covariance.py_for l body acc s = Ok (r, s') → J (pre ++ l) r s'.
Proof.
  induction l as [|x l IH]; intros pre acc s r s' Hacc Hstep; simpl.
  - intros [= <- <-]. by rewrite app_nil_r.
  - intros (b' & s1 & Hb & Hrest)%Py_bind_Ok.
    replace (pre ++ x :: l) with ((pre ++ [x]) ++ l)
      by (by rewrite <- app_assoc).
    eapply IH; [| |exact Hrest].
    + eapply Hstep; [left|done..].
    + intros pre' y b s2 b2 s3 Hy. apply Hstep. by right.
Qed.

Section MoreCov2.
Context `{Numpy}.

(** The part of a Covariance object that only [_calcDistanceMatrix],
    [_mapLeafs] and [_clear] write. *)
Abbreviation kept s s' :=
  (Covariance._initialized s' = Covariance._initialized s ∧
   Covariance._leaf_mapping s' = Covariance._leaf_mapping s ∧
   Covariance._quadtree s' = Covariance._quadtree s).

Lemma noise_data_kept s ls d s' :
  Quadtree.cached_leafs (Covariance._quadtree s) = Some ls →
  Covariance.noise_data s = Ok (d, s') → kept s s'.
Proof.
  intros Hls. unfold Covariance.noise_data.
  intros (s0 & s1 & [= <- <-] & Hc)%Py_bind_Ok.
  destruct (Covariance._noise_data s); [by injection Hc as <- <-|].
  apply Py_bind_Ok in Hc as (ls' & s2 & Hl & Hc).
  rewrite (quadtree_leafs_idem _ ls Hls) in Hl. injection Hl as <- <-.
  apply Py_bind_Ok in Hc as (s3 & s4 & [= <- <-] & Hc).
  apply Py_bind_Ok in Hc as (best & s5 & Hb & Hc).
  unfold py_lift in Hb.
  destruct (Covariance.last_max s None ls) as [b|e]; [|done].
  injection Hb as <- <-. destruct b as [[n k]|]; [|done].
  apply Py_bind_Ok in Hc as ([] & s6 & [= <-] & Hc).
  apply Py_bind_Ok in Hc as (s7 & s8 & [= <- <-] & Hc).
  simpl in Hc. by injection Hc as <- <-.
Qed.

Lemma noiseSpectrum_kept s ls r s' :
  Quadtree.cached_leafs (Covariance._quadtree s) = Some ls →
  Covariance.noiseSpectrum s = Ok (r, s') → kept s s'.
Proof.
  intros Hls. unfold Covariance.noiseSpectrum.
  intros (d & s1 & Hn & Hc)%Py_bind_Ok.
  apply (noise_data_kept _ ls) in Hn; [|done].
  apply Py_bind_Ok in Hc as (s2 & s3 & [= <- <-] & Hc).
  apply Py_bind_Ok in Hc as (kx & s4 & Hkx & Hc).
  unfold py_lift in Hkx. destruct (fftfreq _ _); [|done].
  injection Hkx as <- <-.
  apply Py_bind_Ok in Hc as (ky & s5 & Hky & Hc).
  unfold py_lift in Hky. destruct (fftfreq _ _); [|done].
  injection Hky as <- <-. by injection Hc as <- <-.
Qed.

Lemma covariance_func_kept s ls r s' :
  Quadtree.cached_leafs (Covariance._quadtree s) = Some ls →
  Covariance.covariance_func s = Ok (r, s') → kept s s'.
Proof.
  intros Hls. unfold Covariance.covariance_func.
  intros (s0 & s1 & [= <- <-] & Hc)%Py_bind_Ok.
  destruct (Covariance.cached_covariance_func s);
    [by injection Hc as <- <-|].
  apply Py_bind_Ok in Hc as ([[[ps k] kx] ky] & s2 & Hn & Hc).
  apply (noiseSpectrum_kept _ ls) in Hn; [|done].
  apply Py_bind_Ok in Hc as ([cov' d'] & s3 & Hl & Hc).
  unfold py_lift in Hl.
  destruct (Covariance.covarianceCosine ps k) as [[c0 k0]|e]; [|done].
  injection Hl as <- <- <-.
  apply Py_bind_Ok in Hc as (s4 & s5 & [= <- <-] & Hc).
  apply Py_bind_Ok in Hc as ([] & s6 & [= <-] & Hc).
  by injection Hc as <- <-.
Qed.

Lemma covariance_kept dist s ls r s' :
  Quadtree.cached_leafs (Covariance._quadtree s) = Some ls →
  Covariance.covariance dist s = Ok (r, s') → kept s s'.
Proof.
  intros Hls. unfold Covariance.covariance.
  intros (s0 & s1 & [= <- <-] & Hc)%Py_bind_Ok.
  apply Py_bind_Ok in Hc as ([d cov] & s2 & Hi & Hc).
  injection Hc as _ <-.
  destruct (Covariance._covariance_interp s); [by injection Hi as _ <-|].
  apply Py_bind_Ok in Hi as ([cov' d'] & s3 & Hf & Hi).
  apply (covariance_func_kept _ ls) in Hf; [|done].
  apply Py_bind_Ok in Hi as ([] & s4 & [= <-] & Hi).
  by injection Hi as _ _ <-.
Qed.

Lemma variance_kept s ls r s' :
  Quadtree.cached_leafs (Covariance._quadtree s) = Some ls →
  Covariance.variance s = Ok (r, s') → kept s s'.
Proof.
  intros Hls. unfold Covariance.variance.
  intros ([cov d] & s1 & Hf & Hm)%Py_bind_Ok.
  apply (covariance_func_kept _ ls) in Hf; [|done].
  unfold py_lift in Hm. destruct (num_max cov); [|done].
  by injection Hm as _ <-.
Qed.

(** A mapping that sends identifiers of leaves to positions of leaves
    with that identifier. *)
Abbreviation sound ls mp :=
  (∀ (k : string) (j : nat), (mp : gmap string nat) !! k = Some j →
     ∃ l, (ls : list QuadNode.t) !! j = Some l ∧ QuadNode.id l = k).

Lemma _mapLeafs_spec nx ny s ls mp l1 l2 s' :
  Quadtree.cached_leafs (Covariance._quadtree s) = Some ls →
  Covariance._leaf_mapping s = Some mp →
  Covariance._mapLeafs nx ny s = Ok ((l1, l2), s') →
  ls !! nx = Some l1 ∧ ls !! ny = Some l2 ∧
  s' = Covariance.with__leaf_mapping
         (Some (<[QuadNode.id l2 := ny]> (<[QuadNode.id l1 := nx]> mp))) s.
Proof.
  intros Hls Hmp. unfold Covariance._mapLeafs.
  intros (ls1 & s1 & Hl1 & Hc)%Py_bind_Ok.
  rewrite (quadtree_leafs_idem _ ls Hls) in Hl1. injection Hl1 as <- <-.
  apply Py_bind_Ok in Hc as (leaf1 & s2 & Hg1 & Hc).
  unfold Covariance.getitem in Hg1.
  destruct (ls !! nx) as [x|] eqn:Hx; [|done]. injection Hg1 as <- <-.
  apply Py_bind_Ok in Hc as (ls2 & s3 & Hl2 & Hc).
  rewrite (quadtree_leafs_idem _ ls Hls) in Hl2. injection Hl2 as <- <-.
  apply Py_bind_Ok in Hc as (leaf2 & s4 & Hg2 & Hc).
  unfold Covariance.getitem in Hg2.
  destruct (ls !! ny) as [y|] eqn:Hy; [|done]. injection Hg2 as <- <-.
  apply Py_bind_Ok in Hc as (s5 & s6 & [= <- <-] & Hc).
  rewrite Hmp in Hc.
  apply Py_bind_Ok in Hc as ([] & s7 & [= <-] & Hc).
  by injection Hc as <- <- <-.
Qed.

Lemma sound_insert ls mp l i :
  sound ls mp → ls !! i = Some l → sound ls (<[QuadNode.id l := i]> mp).
Proof.
  intros Hs Hl k j Hk. apply lookup_insert_Some in Hk as [[<- <-]|[_ Hk]].
  - by exists l.
  - by apply Hs.
Qed.

(** The state in which the loops of [_calcDistanceMatrix] leave the
    object: the position of every leaf visited is recorded under the
    leaf's identifier. *)
Abbreviation mapped s0 ls visited s :=
  (∃ mp : gmap string nat,
     s = Covariance.with__leaf_mapping (Some mp) s0 ∧ sound ls mp ∧
     ∀ (i : nat) l, i ∈ (visited : list nat) →
                    (ls : list QuadNode.t) !! i = Some l →
                    is_Some (mp !! QuadNode.id l)).

Lemma mapped_step s0 ls visited s nx ny l1 l2 s' :
  Quadtree.cached_leafs (Covariance._quadtree s0) = Some ls →
  mapped s0 ls visited s →
  Covariance._mapLeafs nx ny s = Ok ((l1, l2), s') →
  mapped s0 ls (visited ++ [nx; ny]) s'.
Proof.
  intros Hls (mp & -> & Hs & Hv) Hm.
  apply (_mapLeafs_spec _ _ _ ls mp) in Hm as (H1 & H2 & ->); [|done..].
  exists (<[QuadNode.id l2 := ny]> (<[QuadNode.id l1 := nx]> mp)).
  split; [by destruct s0|]. split.
  { by repeat apply sound_insert. }
  intros i l Hi Hl.
  destruct (decide (QuadNode.id l = QuadNode.id l2)) as [->|Hn2].
  { rewrite lookup_insert_eq. by eexists. }
  rewrite lookup_insert_ne by done.
  destruct (decide (QuadNode.id l = QuadNode.id l1)) as [->|Hn1].
  { rewrite lookup_insert_eq. by eexists. }
  rewrite lookup_insert_ne by done.
  apply elem_of_app in Hi as [Hi|Hi]; [by eapply Hv|].
  apply elem_of_cons in Hi as [->|Hi]; [congruence|].
  apply list_elem_of_singleton in Hi as ->. congruence.
Qed.

End MoreCov2.

Section MoreCov3.
Context `{Numpy}.

Lemma quadtree_leafs_state s ls s' :
  Covariance.quadtree_leafs s = Ok (ls, s') →
  ∃ q, s' = Covariance.with__quadtree q s.
Proof.
  unfold Covariance.quadtree_leafs.
  destruct (Quadtree.leafs _) as [[ls' q]|e]; [|done].
  intros [= <- <-]. by exists q.
Qed.

Lemma leaf_map_loop_mapped (ls : list QuadNode.t) s0 lm s' :
  Quadtree.cached_leafs (Covariance._quadtree s0) = Some ls →
  Covariance.py_for (seq 0 (length ls))
    (λ nl leaf_map,
       '(leaf, _) ← Covariance._mapLeafs nl nl;
       let r0 := QuadNode.llr leaf in
       let c0 := QuadNode.llc leaf in
       let n := QuadNode.length leaf in
       mret (leaf_map ++ [(Covariance.uint32 r0, Covariance.uint32 (r0 + n),
                           Covariance.uint32 c0, Covariance.uint32 (c0 + n))]))
    [] (Covariance.with__leaf_mapping (Some ∅) s0) = Ok (lm, s') →
  ∃ mp : gmap string nat,
    s' = Covariance.with__leaf_mapping (Some mp) s0 ∧
    (∀ (k : string) (j : nat), mp !! k = Some j →
       ∃ l, ls !! j = Some l ∧ QuadNode.id l = k) ∧
    (∀ (i : nat) l, ls !! i = Some l → is_Some (mp !! QuadNode.id l)) ∧
    length lm = length ls.
Proof.
  intros Hls Hloop.
  pose proof (leaf_map_loop_spec ls _ lm s' Hloop) as Hlen.
  eapply (py_for_state_inv
            (λ pre (_ : list (Z * Z * Z * Z)) st,
               ∃ mp : gmap string nat,
                 st = Covariance.with__leaf_mapping (Some mp) s0 ∧
                 (∀ (k : string) (j : nat), mp !! k = Some j →
                    ∃ l, ls !! j = Some l ∧ QuadNode.id l = k) ∧
                 ∀ (i : nat) l, i ∈ pre → ls !! i = Some l →
                                is_Some (mp !! QuadNode.id l)) _ _ [])
    in Hloop.
  - destruct Hloop as (mp & -> & Hs & Hv). exists mp.
    split; [done|]. split; [done|]. split; [|done].
    intros i l Hl. apply (Hv i); [|done]. simpl.
    apply elem_of_seq. apply lookup_lt_Some in Hl. lia.
  - exists ∅. split; [done|]. split.
    + intros k j Hk. by rewrite lookup_empty in Hk.
    + intros i l Hi. by apply not_elem_of_nil in Hi.
  - intros pre x b st b' st' _ Hj Hbody.
    apply Py_bind_Ok in Hbody as ([leaf leaf'] & st2 & Hm & Hbody).
    injection Hbody as _ <-.
    destruct (mapped_step s0 ls pre st x x leaf leaf' st2 Hls Hj Hm)
      as (mp & -> & Hs & Hv).
    exists mp. split; [done|]. split; [done|].
    intros i l Hi. apply Hv. apply elem_of_app in Hi as [Hi|Hi].
    + apply elem_of_app. by left.
    + apply elem_of_app. right. apply list_elem_of_singleton in Hi as ->.
      apply list_elem_of_here.
Qed.

(** What [covariance_matrix] leaves behind when it computes the
    matrix. *)
Lemma covariance_matrix_fresh s M s1 :
  Covariance.cached_covariance_matrix s = None →
  Covariance.covariance_matrix s = Ok (M, s1) →
  ∃ ls (mp : gmap string nat),
    Quadtree.cached_leafs (Covariance._quadtree s1) = Some ls ∧
    Covariance._initialized s1 = true ∧
    Covariance._leaf_mapping s1 = Some mp ∧
    (∀ (k : string) (j : nat), mp !! k = Some j →
       ∃ l, ls !! j = Some l ∧ QuadNode.id l = k) ∧
    (∀ (i : nat) l, ls !! i = Some l → is_Some (mp !! QuadNode.id l)) ∧
    square (length ls) M ∧ symmetric M.
Proof.
  intros Hnone. unfold Covariance.covariance_matrix.
  intros (s0 & s0' & [= <- <-] & Hc)%Py_bind_Ok. rewrite Hnone in Hc.
  apply Py_bind_Ok in Hc as (M' & s' & Hcalc & Hc).
  apply Py_bind_Ok in Hc as ([] & s1' & [= <-] & Hc).
  injection Hc as <- <-.
  unfold Covariance._calcDistanceMatrix in Hcalc.
  apply Py_bind_Ok in Hcalc as ([] & sa & [= <-] & Hc).
  apply Py_bind_Ok in Hc as (ls & s2 & Hls & Hc).
  apply Py_bind_Ok in Hc as ([] & s3 & [= <-] & Hc).
  apply Py_bind_Ok in Hc as (dm & s4 & Hdm & Hc).
  apply Py_bind_Ok in Hc as (cm & s5 & Hcm & Hc).
  apply Py_bind_Ok in Hc as (v & s6 & Hv & Hc).
  injection Hc as <- <-.
  pose proof (quadtree_leafs_cached _ _ _ Hls) as Hcached.
  destruct (quadtree_leafs_state _ _ _ Hls) as [q Hs2].
  apply Py_bind_Ok in Hdm as (ls' & s7 & Hls' & Hdm).
  rewrite (quadtree_leafs_idem _ ls) in Hls' by done.
  injection Hls' as <- <-.
  apply Py_bind_Ok in Hdm as (lm & s8 & Hlm & Hdm).
  apply Py_bind_Ok in Hdm as (s9 & s10 & [= <- <-] & Hdm).
  injection Hdm as <- <-.
  apply (leaf_map_loop_mapped ls s2) in Hlm as (mp & -> & Hsound & Hall & Hlen);
    [|done].
  pose proof (covariance_spec _ _ _ _ Hcm) as (d0 & cov0 & ->).
  apply (covariance_kept _ _ ls) in Hcm as (Hi5 & Hm5 & Hq5); [|done].
  apply (variance_kept _ ls) in Hv as (Hi6 & Hm6 & Hq6);
    [|by rewrite Hq5].
  exists ls, mp. simpl.
  split; [by rewrite Hq6, Hq5|].
  split; [by rewrite Hi6, Hi5, Hs2|].
  split; [by rewrite Hm6, Hm5|].
  split; [done|]. split; [done|].
  destruct (leaf_distances_square
              (filled (Frame.gridE (Scene.frame (Covariance._scene s2))))
              (filled (Frame.gridN (Scene.frame (Covariance._scene s2))))
              lm 0) as [Hsq Hsym].
  rewrite Hlen in Hsq.
  pose proof (square_map (interp1d_nearest d0 cov0) _ _ Hsq) as Hsq'.
  split.
  - split; [rewrite length_fill_diagonal; apply Hsq'|].
    apply Forall_forall. intros row Hrow.
    apply list_elem_of_lookup in Hrow as [i Hi].
    unfold fill_diagonal in Hi. rewrite list_lookup_imap in Hi.
    destruct (_ !! i) as [row0|] eqn:Hrow0; [|done].
    injection Hi as <-. rewrite length_insert.
    destruct Hsq' as [_ Hrows]. rewrite Forall_forall in Hrows.
    apply Hrows. by eapply list_elem_of_lookup_2.
  - apply (symmetric_fill_diagonal (length ls)); [done|].
    by apply symmetric_map.
Qed.

Lemma getCovariance_unfold leaf1 leaf2 s M s1 (mp : gmap string nat) :
  Covariance.covariance_matrix s = Ok (M, s1) →
  Covariance._initialized s1 = true →
  Covariance._leaf_mapping s1 = Some mp →
  Covariance.getCovariance leaf1 leaf2 s =
    match mp !! Covariance.leaf_id leaf1 with
    | None => Raise (Covariance.unknown_leaf (Covariance.leaf_id leaf1))
    | Some i =>
        match mp !! Covariance.leaf_id leaf2 with
        | None => Raise (Covariance.unknown_leaf (Covariance.leaf_id leaf2))
        | Some j => match mget M i j with
                    | Some v => Ok (v, s1)
                    | None => Raise IndexError
                    end
        end
    end.
Proof.
  intros Hm Hi Hmp.
  unfold Covariance.getCovariance, Covariance._getMapping,
    Covariance.ensure_initialized.
  unfold mbind at 1. unfold Py_bind. rewrite Hm.
  unfold mbind at 1. unfold Py_bind.
  unfold mbind at 1. unfold Py_bind.
  unfold mbind at 1. unfold Py_bind, py_get. rewrite Hi.
  unfold mret at 1. unfold Py_ret.
  unfold mbind at 1. unfold Py_bind. rewrite Hmp.
  destruct (mp !! Covariance.leaf_id leaf1) as [i|]; [|done].
  destruct (mp !! Covariance.leaf_id leaf2) as [j|]; [|done].
  unfold mret, Py_ret. by destruct (mget M i j).
Qed.

(** X16 (covariance of two leaves): when [getCovariance] has to compute
    the covariance matrix, it returns a value for every two leaves of
    the quadtree's current leaf list, never KeyError or IndexError: the
    matrix has one row and one column per leaf, the value is the entry at
    the positions of leaves with the identifiers of the two, and the two
    leaves in the other order give the same value. *)
Theorem getCovariance_on_leaves s M s1 :
  Covariance.cached_covariance_matrix s = None →
  Covariance.covariance_matrix s = Ok (M, s1) →
  ∃ ls,
    Covariance.quadtree_leafs s1 = Ok (ls, s1) ∧
    length M = length ls ∧
    ∀ l1 l2, l1 ∈ ls → l2 ∈ ls →
      ∃ i j v l1' l2',
        ls !! i = Some l1' ∧ QuadNode.id l1' = QuadNode.id l1 ∧
        ls !! j = Some l2' ∧ QuadNode.id l2' = QuadNode.id l2 ∧
        mget M i j = Some v ∧
        Covariance.getCovariance (LeafNode l1) (LeafNode l2) s = Ok (v, s1) ∧
        Covariance.getCovariance (LeafNode l2) (LeafNode l1) s = Ok (v, s1).
Proof.
  intros Hnone Hm.
  destruct (covariance_matrix_fresh s M s1 Hnone Hm)
    as (ls & mp & Hls & Hi & Hmp & Hsound & Hall & Hsq & Hsym).
  exists ls. split; [by apply quadtree_leafs_idem|].
  split; [apply Hsq|].
  intros l1 l2 Hl1 Hl2.
  apply list_elem_of_lookup in Hl1 as [i1 Hi1].
  apply list_elem_of_lookup in Hl2 as [i2 Hi2].
  destruct (Hall i1 l1 Hi1) as [i Hmi].
  destruct (Hall i2 l2 Hi2) as [j Hmj].
  destruct (Hsound _ _ Hmi) as (l1' & Hl1' & Hid1).
  destruct (Hsound _ _ Hmj) as (l2' & Hl2' & Hid2).
  destruct (mget_square (length ls) M i j Hsq) as [v Hv].
  { by eapply lookup_lt_Some. }
  { by eapply lookup_lt_Some. }
  exists i, j, v, l1', l2'. repeat (split; [done|]).
  rewrite !(getCovariance_unfold _ _ s M s1 mp) by done.
  simpl. rewrite Hmi, Hmj, <- (Hsym i j), Hv. done.
Qed.

End MoreCov3.

(** * The NaN allowance and the interpolant *)

Lemma sublist_concat {A} (l1 l2 : list (list A)) :
  Forall2 sublist l1 l2 → sublist (concat l1) (concat l2).
Proof.
  induction 1 as [|x y l1 l2 Hxy _ IH]; [constructor|].
  simpl. by apply sublist_app.
Qed.

Section MoreAllow.
Context `{Numpy}.

Lemma filter_nan_allowed_mono q1 q2 a f1 f2 :
  Quadtree.scene q2 = Quadtree.scene q1 →
  (Quadtree.nan_allowed q1 <= Quadtree.nan_allowed q2)%Q →
  Quadtree.filter_nan_allowed q1 a = Ok f1 →
  Quadtree.filter_nan_allowed q2 a = Ok f2 →
  sublist f1 f2.
Proof.
  intros Hs Hle. revert f1 f2.
  induction a as [|x a IH]; intros f1 f2 H1 H2.
  - injection H1 as <-. injection H2 as <-. constructor.
  - simpl in H1, H2. rewrite Hs in H2. unfold mbind, result_bind in H1, H2.
    destruct (QuadNode.nan_fraction _ x) as [fr|e]; [|done].
    destruct (Quadtree.filter_nan_allowed q1 a) as [r1|e]; [|done].
    destruct (Quadtree.filter_nan_allowed q2 a) as [r2|e]; [|done].
    injection H1 as <-. injection H2 as <-.
    specialize (IH r1 r2 eq_refl eq_refl).
    destruct (Qlt_bool fr (Quadtree.nan_allowed q1)) eqn:Hlt1.
    + apply Qlt_bool_iff in Hlt1.
      rewrite (proj2 (Qlt_bool_iff fr (Quadtree.nan_allowed q2)))
        by (by eapply Qlt_le_trans).
      by apply sublist_skip.
    + destruct (Qlt_bool fr (Quadtree.nan_allowed q2)); [|done].
      by apply sublist_cons.
Qed.

Lemma compute_leafs_mono q1 q2 bs l1 l2 :
  Quadtree.scene q2 = Quadtree.scene q1 →
  Quadtree._corr_func q2 = Quadtree._corr_func q1 →
  Quadtree.epsilon q2 = Quadtree.epsilon q1 →
  Quadtree.eval__tile_size_lim_px q2 = Quadtree.eval__tile_size_lim_px q1 →
  (Quadtree.nan_allowed q1 <= Quadtree.nan_allowed q2)%Q →
  Run.compute_leafs q1 bs = Ok l1 →
  Run.compute_leafs q2 bs = Ok l2 →
  sublist l1 l2.
Proof.
  intros Hs Hf He Hl Hle. unfold Run.compute_leafs. intros Hc1 Hc2.
  unfold mbind at 1 in Hc1. unfold result_bind at 1 in Hc1.
  unfold mbind at 1 in Hc2. unfold result_bind at 1 in Hc2.
  destruct (mapM _ bs) as [lss1|e] eqn:H1 in Hc1; [|done].
  destruct (mapM _ bs) as [lss2|e] eqn:H2 in Hc2; [|done].
  injection Hc1 as <-. injection Hc2 as <-.
  apply sublist_concat.
  apply mapM_result_Ok in H1, H2. revert lss2 H2.
  induction H1 as [|b x bs lss1 Hb _ IH]; intros lss2 H2.
  { inversion H2. constructor. }
  inversion H2 as [|b' y bs' lss2' Hb2 H2' ]; subst. constructor.
  - unfold Quadtree.iterLeafs in Hb, Hb2. rewrite Hf, He, Hl in Hb2.
    unfold mbind, result_bind in Hb, Hb2.
    destruct (QuadNode.iterLeafs _ _ _ b) as [a|e]; [|done].
    by eapply filter_nan_allowed_mono.
  - by apply IH.
Qed.

Lemma leafs_allowing_spec v q ls q' :
  Run.reachable q → (0 < v)%Q → (v <= 1)%Q →
  More.leafs_allowing v q = Ok (ls, q') →
  ∃ qv bs,
    Quadtree.scene qv = Quadtree.scene q ∧
    Quadtree._corr_func qv = Quadtree._corr_func q ∧
    Quadtree.epsilon qv = Quadtree.epsilon q ∧
    Quadtree.eval__tile_size_lim_px qv = Quadtree.eval__tile_size_lim_px q ∧
    Quadtree.nan_allowed qv = v ∧
    Quadtree.cached__base_nodes q = Some bs ∧
    Run.compute_leafs qv bs = Ok ls.
Proof.
  intros Hr H0 H1. unfold More.leafs_allowing.
  intros ([] & qv & Hset & Hl)%Py_bind_Ok.
  pose proof (inv_set_nan_allowed v q qv (reachable_inv q Hr) Hset) as Hinv.
  destruct (leafs_spec qv ls q' Hinv Hl)
    as (_ & _ & _ & _ & _ & _ & bs & Hbs & Hc).
  exists qv, bs. revert Hset Hbs. unfold Quadtree.set_nan_allowed. py_simpl.
  rewrite (proj2 (nan_allowed_test v)) by done.
  intros [= <-] Hbs. by repeat split.
Qed.

(** X17 (raising the NaN allowance only adds leaves): with two
    allowances in (0, 1], the leaves reported under the smaller one are
    reported under the larger one too, in the same order; the walk does
    not depend on the allowance. *)
Theorem leafs_monotone_in_nan_allowed q a1 a2 l1 q1 l2 q2 :
  Run.reachable q →
  (0 < a1)%Q → (a1 <= a2)%Q → (a2 <= 1)%Q →
  More.leafs_allowing a1 q = Ok (l1, q1) →
  More.leafs_allowing a2 q = Ok (l2, q2) →
  sublist l1 l2.
Proof.
  intros Hr H0 Hle H1 Hl1 Hl2.
  apply leafs_allowing_spec in Hl1
    as (qa & bs & Hs1 & Hf1 & He1 & Hlim1 & Hn1 & Hbs & Hc1);
    [|done|done|by eapply Qle_trans].
  apply leafs_allowing_spec in Hl2
    as (qb & bs' & Hs2 & Hf2 & He2 & Hlim2 & Hn2 & Hbs' & Hc2);
    [|done|by eapply Qlt_le_trans|done].
  assert (bs' = bs) as -> by congruence.
  apply (compute_leafs_mono qa qb bs); congruence.
Qed.

End MoreAllow.

Section MoreInterp.
Context `{Numpy}.

Lemma covariance_interp dist s cm s1 :
  Covariance.covariance dist s = Ok (cm, s1) →
  ∃ d cov, Covariance._covariance_interp s1 = Some (d, cov) ∧
           cm = map (map (interp1d_nearest d cov)) dist.
Proof.
  unfold Covariance.covariance.
  intros (s0 & s0' & [= <- <-] & Hc)%Py_bind_Ok.
  apply Py_bind_Ok in Hc as ([d cov] & s2 & Hi & Hc).
  injection Hc as <- <-. exists d, cov. split; [|done].
  destruct (Covariance._covariance_interp s) as [f|] eqn:Hf.
  - injection Hi as -> <-. done.
  - apply Py_bind_Ok in Hi as ([cov' d'] & s3 & _ & Hi).
    apply Py_bind_Ok in Hi as ([] & s4 & [= <-] & Hi).
    by injection Hi as <- <- <-.
Qed.

Lemma covariance_with_interp dist s d cov :
  Covariance._covariance_interp s = Some (d, cov) →
  Covariance.covariance dist s
  = Ok (map (map (interp1d_nearest d cov)) dist, s).
Proof.
  intros Hi. unfold Covariance.covariance.
  unfold mbind, Py_bind, py_get. rewrite Hi. done.
Qed.

(** X18 (the interpolant is never refreshed): once [covariance] has
    built its interpolant from the covariance function, neither new
    noise data nor [_clear] makes it build another: the caches are
    dropped, yet [covariance] goes on answering from the first curve and
    does not read [covariance_func] again. *)
Theorem covariance_interp_is_kept dist s cm s1 data s2 s3 dist' :
  Covariance.covariance dist s = Ok (cm, s1) →
  Covariance.set_noise_data data s1 = Ok (tt, s2) →
  Covariance._clear s2 = Ok (tt, s3) →
  Covariance.cached_covariance_func s3 = None ∧
  ∃ d cov,
    cm = map (map (interp1d_nearest d cov)) dist ∧
    Covariance.covariance dist' s3
    = Ok (map (map (interp1d_nearest d cov)) dist', s3).
Proof.
  intros Hc Hn Hcl.
  apply covariance_interp in Hc as (d & cov & Hi & ->).
  injection Hn as <-. injection Hcl as <-.
  split; [done|]. exists d, cov. split; [done|].
  by apply covariance_with_interp.
Qed.

End MoreInterp.

(** * Tiles without data *)

Lemma mapM_result_raise {A B} (f : A → result B) (l : list A) x e :
  x ∈ l → f x = Raise e → ∃ e', mapM f l = Raise e'.
Proof.
  intros Hx Hf. destruct (mapM f l) as [k|e'] eqn:Hm; [|by eexists].
  exfalso. apply mapM_result_Ok in Hm.
  apply list_elem_of_lookup in Hx as [i Hi].
  destruct (Forall2_lookup_l _ _ _ _ _ Hm Hi) as (y & _ & Hy). congruence.
Qed.

Section MoreEmpty.
Context `{Numpy}.

(** A built node of side 64 or more whose window holds no number has an
    empty list of children. *)
Lemma Built_no_data q b :
  corr_ok q → Run.Built q b → 64 ≤ QuadNode.length b →
  nans (Quadtree.scene q) b = samples (Quadtree.scene q) b →
  QuadNode.children b = Some [].
Proof.
  intros Hcorr Hb H64 Hnan.
  pose proof Hb as (fuel & n0 & Hroot0 & Hct).
  pose proof (createTree_has_children _ _ _ _ _ _
                (corr_ok_geometry q Hcorr) Hct) as Hhc.
  assert (QuadNode.split_test (Quadtree._corr_func q)
                              (Quadtree.epsilon_min q) b = true) as Hst.
  { apply split_test_spec. split; [by right|lia]. }
  rewrite Hst in Hhc. unfold QuadNode.has_children in Hhc.
  destruct (QuadNode.children b) as [cs|] eqn:Hcs; [|done].
  destruct (Built_children q b cs Hb Hcs) as (_ & Hroot & _ & Hm).
  destruct (window_partition (Quadtree.scene q) b Hroot) as [Hsum Hnsum];
    [lia|].
  pose proof (nans_bounds (Quadtree.scene q) (QuadNode.quadrant b (0, 0))).
  pose proof (nans_bounds (Quadtree.scene q) (QuadNode.quadrant b (0, 1))).
  pose proof (nans_bounds (Quadtree.scene q) (QuadNode.quadrant b (1, 0))).
  pose proof (nans_bounds (Quadtree.scene q) (QuadNode.quadrant b (1, 1))).
  assert (∀ i, i ∈ quadrant_indices →
               QuadNode.omitted (Quadtree.scene q) (QuadNode.quadrant b i)
               = true) as Hom.
  { intros i Hi. apply omitted_samples. right.
    repeat (apply elem_of_cons in Hi as [->|Hi]; [lia|]).
    by apply not_elem_of_nil in Hi. }
  destruct cs as [|c cs]; [done|]. exfalso.
  assert (strip c ∈ map strip (c :: cs)) as Hin by (simpl; left).
  rewrite Hm in Hin. apply list_elem_of_filter in Hin as [Hf Hin].
  apply list_elem_of_fmap in Hin as (i & Hi & Hidx).
  rewrite Hi, (Hom i Hidx) in Hf. done.
Qed.

(** X19 (a base tile without data breaks the leaf list): if a base tile
    of a Quadtree object in use has a side of 64 or more and not one
    number in its window, it was split into no children; unless its
    metric compares below epsilon, [iterLeafs] raises IndexError on it,
    and reading [leafs] raises instead of returning a list. *)
Theorem leafs_raise_on_tile_without_data q bs b :
  Run.reachable q → Quadtree.cached_leafs q = None →
  Quadtree.cached__base_nodes q = Some bs → b ∈ bs →
  64 ≤ QuadNode.length b →
  nans (Quadtree.scene q) b = samples (Quadtree.scene q) b →
  QuadNode.below_epsilon (Quadtree._corr_func q) (Quadtree.epsilon q) b
  = false →
  QuadNode.children b = Some [] ∧
  Quadtree.iterLeafs q b = Raise IndexError ∧
  ∃ e, Quadtree.leafs q = Raise e.
Proof.
  intros Hr Hcl Hbs Hb H64 Hnan Hbelow.
  pose proof (reachable_inv q Hr) as (Hcorr & (bs' & Hbs' & HB) & _).
  assert (bs' = bs) as -> by congruence.
  rewrite Forall_forall in HB.
  pose proof (Built_no_data q b Hcorr (HB b Hb) H64 Hnan) as Hcs.
  assert (Quadtree.iterLeafs q b = Raise IndexError) as Hwalk.
  { unfold Quadtree.iterLeafs. rewrite walk_unfold, Hcs, Hbelow. done. }
  split; [done|]. split; [done|].
  rewrite (leafs_unfold q bs Hcl Hbs). unfold Run.compute_leafs.
  destruct (mapM_result_raise
              (λ b0, ls ← Quadtree.iterLeafs q b0;
                     Quadtree.filter_nan_allowed q ls) bs b IndexError Hb)
    as [e He].
  { by rewrite Hwalk. }
  rewrite He. by exists e.
Qed.

End MoreEmpty.

(** * Leaf values cast to the raster *)

Lemma covers_footprint n i j :
  covers n i j = true ↔ footprint n (Z.of_nat i) (Z.of_nat j).
Proof.
  unfold covers, footprint. rewrite !andb_true_iff.
  rewrite !Z.leb_le, !Z.ltb_lt. tauto.
Qed.

Lemma in_slice_spec (start stop : Z) (n i : nat) :
  0 ≤ start → 0 ≤ stop → (i < n)%nat →
  in_slice start stop (Z.of_nat n) i
  = (start <=? Z.of_nat i) && (Z.of_nat i <? stop).
Proof.
  intros H0 H1 Hi. unfold in_slice, slice_index.
  destruct (Z.ltb_spec start 0); [lia|]. destruct (Z.ltb_spec stop 0); [lia|].
  destruct (Z.leb_spec start (Z.of_nat i)), (Z.ltb_spec (Z.of_nat i) stop);
    simpl.
  - rewrite (proj2 (Z.leb_le _ _)), (proj2 (Z.ltb_lt _ _)) by lia. done.
  - rewrite andb_false_iff. right. apply Z.ltb_ge. lia.
  - rewrite andb_false_iff. left. apply Z.leb_gt. lia.
  - rewrite andb_false_iff. left. apply Z.leb_gt. lia.
Qed.

Lemma get2_assign_window {A} (n : QuadNode.t) (v : A) (a : list (list A))
    (i j : nat) :
  0 ≤ QuadNode.llr n → 0 ≤ QuadNode.llc n → 0 ≤ QuadNode.length n →
  get2 (assign_window (QuadNode.llr n) (QuadNode.llr n + QuadNode.length n)
                      (QuadNode.llc n) (QuadNode.llc n + QuadNode.length n)
                      v a) i j
  = (λ x, if covers n i j then v else x) <$> get2 a i j.
Proof.
  intros Hr Hc Hl. unfold get2, assign_window.
  rewrite list_lookup_imap.
  destruct (a !! i) as [row|] eqn:Hrow; [|done]. simpl.
  pose proof (lookup_lt_Some _ _ _ Hrow) as Hi.
  rewrite (in_slice_spec _ _ (length a) i) by lia.
  destruct ((QuadNode.llr n <=? Z.of_nat i)
            && (Z.of_nat i <? QuadNode.llr n + QuadNode.length n)) eqn:Hin.
  - rewrite list_lookup_imap.
    destruct (row !! j) as [x|] eqn:Hx; [|done]. simpl.
    pose proof (lookup_lt_Some _ _ _ Hx) as Hj.
    rewrite (in_slice_spec _ _ (length row) j) by lia.
    unfold covers. rewrite Hin. done.
  - destruct (row !! j) as [x|]; [|done]. simpl.
    unfold covers. by rewrite Hin.
Qed.

Lemma get2_assign_masked {A} (mask : list (list bool)) (v : A)
    (a : list (list A)) (i j : nat) :
  get2 (assign_masked mask v a) i j
  = match get2 mask i j, get2 a i j with
    | Some m, Some x => Some (if m then v else x)
    | _, _ => None
    end.
Proof.
  unfold get2, assign_masked. rewrite lookup_zip_with.
  destruct (mask !! i) as [mrow|]; [|done]. simpl.
  destruct (a !! i) as [row|]; [|by destruct (mrow !! j)]. simpl.
  rewrite lookup_zip_with.
  destruct (mrow !! j) as [m|]; [|done]. simpl.
  by destruct (row !! j).
Qed.

Lemma get2_map {A B} (f : A → B) (a : list (list A)) i j :
  get2 (map (map f) a) i j = f <$> get2 a i j.
Proof.
  unfold get2. rewrite list_lookup_fmap.
  destruct (a !! i) as [row|]; [|done]. simpl. apply list_lookup_fmap.
Qed.

(** The value the loop over the leaves leaves at a position: that of the
    last leaf on the position, if there is one. *)
Lemma get2_fold_leaves {A} (norm : QuadNode.t → A) (ls : list QuadNode.t)
    (a : list (list A)) (i j : nat) :
  Forall root_ok ls →
  get2 (fold_left (λ a l,
                     assign_window (QuadNode.llr l)
                                   (QuadNode.llr l + QuadNode.length l)
                                   (QuadNode.llc l)
                                   (QuadNode.llc l + QuadNode.length l)
                                   (norm l) a) ls a) i j
  = (λ x, match last (filter (λ l, covers l i j = true) ls) with
          | Some l => norm l
          | None => x
          end) <$> get2 a i j.
Proof.
  intros Hok. revert a. induction Hok as [|l ls Hl _ IH]; intros a.
  - simpl. by destruct (get2 a i j).
  - simpl. rewrite IH.
    destruct Hl as ((k & Hk & Hlen) & Hr & Hc).
    rewrite get2_assign_window;
      [|done|done|rewrite Hlen; apply Z.pow_nonneg; lia].
    rewrite filter_cons.
    destruct (get2 a i j) as [x|]; [|done]. simpl. f_equal.
    destruct (decide (covers l i j = true)) as [Hcov|Hcov].
    + rewrite Hcov.
      destruct (filter (λ l0, covers l0 i j = true) ls) as [|y ys]; [done|].
      rewrite last_cons_cons.
      destruct (last (y :: ys)) as [l'|] eqn:Hlast; [done|].
      by apply last_None in Hlast.
    + apply not_true_is_false in Hcov. by rewrite Hcov.
Qed.

Lemma last_filter_apart (ls : list QuadNode.t) l (i j : nat) :
  pairwise_apart ls → l ∈ ls → covers l i j = true →
  last (filter (λ l0, covers l0 i j = true) ls) = Some l.
Proof.
  intros Hp Hl Hcov.
  destruct (last (filter (λ l0, covers l0 i j = true) ls)) as [l'|] eqn:Hlast.
  - apply last_Some in Hlast as [pre Hpre].
    assert (l' ∈ filter (λ l0, covers l0 i j = true) ls) as Hl'.
    { rewrite Hpre. apply elem_of_app. right. apply list_elem_of_here. }
    apply list_elem_of_filter in Hl' as [Hcov' Hl'].
    apply list_elem_of_lookup in Hl as [a Ha].
    apply list_elem_of_lookup in Hl' as [b Hb].
    apply covers_footprint in Hcov, Hcov'.
    pose proof (pairwise_apart_lookup ls a b l l' _ _ Hp Ha Hb Hcov Hcov').
    subst b. congruence.
  - apply last_None in Hlast.
    assert (l ∈ filter (λ l0, covers l0 i j = true) ls) as Hin.
    { by apply list_elem_of_filter. }
    rewrite Hlast in Hin. by apply not_elem_of_nil in Hin.
Qed.

Lemma last_filter_none (ls : list QuadNode.t) (i j : nat) :
  (∀ l, l ∈ ls → covers l i j = false) →
  last (filter (λ l0, covers l0 i j = true) ls) = None.
Proof.
  intros Hno. apply last_None.
  destruct (filter (λ l0, covers l0 i j = true) ls) as [|y ys] eqn:Hf; [done|].
  assert (y ∈ filter (λ l0, covers l0 i j = true) ls) as Hy.
  { rewrite Hf. apply list_elem_of_here. }
  apply list_elem_of_filter in Hy as [Hc Hy]. rewrite (Hno y Hy) in Hc. done.
Qed.

Section MoreMatrix.
Context `{Numpy}.
Variable weight : QuadNode.t → result fval.

Lemma leafs_root_ok q ls q' :
  Run.reachable q → Quadtree.leafs q = Ok (ls, q') → Forall root_ok ls.
Proof.
  intros Hr Hl. apply Forall_forall. intros l Hin.
  destruct (leafs_walks q ls q' l Hr Hl Hin)
    as (bs & b & a & Hbs & Hb & HB & Hw & Hla).
  destruct (walk_reports q _ _ _ b HB a l Hw Hla) as (Hn & _).
  destruct (descendants_within q b HB l Hn) as (Hbl & _).
  by apply (Built_pow2 q).
Qed.

Lemma fill_leafs_total (norm : QuadNode.t → result fval)
    (f : QuadNode.t → fval) ls a :
  (∀ l, l ∈ ls → norm l = Ok (f l)) →
  LeafMatrix.fill_leafs norm ls a
  = Ok (fold_left (λ a l,
                     assign_window (QuadNode.llr l)
                                   (QuadNode.llr l + QuadNode.length l)
                                   (QuadNode.llc l)
                                   (QuadNode.llc l + QuadNode.length l)
                                   (f l) a) ls a).
Proof.
  revert a. induction ls as [|l ls IH]; intros a Hn; [done|].
  simpl. rewrite (Hn l) by apply list_elem_of_here. simpl.
  apply IH. intros l' Hl'. apply Hn. by apply list_elem_of_further.
Qed.

Lemma fill_leafs_raise (norm : QuadNode.t → result fval) ls a l e :
  l ∈ ls → norm l = Raise e → ∃ e', LeafMatrix.fill_leafs norm ls a = Raise e'.
Proof.
  revert a. induction ls as [|l0 ls IH]; intros a Hl He.
  { by apply not_elem_of_nil in Hl. }
  simpl. unfold mbind, result_bind.
  destruct (norm l0) as [v|e0] eqn:H0; [|by eexists].
  apply elem_of_cons in Hl as [->|Hl]; [congruence|]. by apply IH.
Qed.

Lemma _getLeafsNormMatrix_unfold method q :
  LeafMatrix._getLeafsNormMatrix weight method q =
    match LeafMatrix._norm_methods weight (Quadtree.scene q) !! method with
    | None => Raise (AttributeError ("Method " +:+ method))
    | Some norm =>
        match Quadtree.leafs q with
        | Ok (ls, q') =>
            match LeafMatrix.fill_leafs norm ls
                    (map (map (λ _, NaN)) (Quadtree.displacement q)) with
            | Ok array =>
                Ok (assign_masked
                      (LeafMatrix.scene_displacement_mask (Quadtree.scene q))
                      NaN array, q')
            | Raise e => Raise e
            end
        | Raise e => Raise e
        end
    end.
Proof.
  unfold LeafMatrix._getLeafsNormMatrix.
  unfold mbind at 1. unfold Py_bind, py_get. cbv beta iota.
  destruct (LeafMatrix._norm_methods weight (Quadtree.scene q) !! method)
    as [norm|]; [|done].
  unfold mbind at 1. unfold Py_bind.
  destruct (Quadtree.leafs q) as [[ls q']|e]; [|done].
  unfold mbind, Py_bind, py_lift.
  by destruct (LeafMatrix.fill_leafs _ _ _).
Qed.

(** X20 (leaf values cast to the raster): [_getLeafsNormMatrix] raises
    AttributeError for a method that is not mean, median or weight, and
    fails when [leafs] fails or the method fails on a leaf.  Otherwise,
    on a Quadtree object in use, it returns an array of the shape of the
    displacement array that holds, at every position with a number under
    a reported leaf, the value of the method on that leaf, and NaN at
    every position where the displacement is NaN or that no reported
    leaf covers.  Mean and median never fail on a leaf. *)
Theorem leaf_matrix_values method q :
  (LeafMatrix._norm_methods weight (Quadtree.scene q) !! method = None ↔
   method ∉ ["mean"; "median"; "weight"]) ∧
  (LeafMatrix._norm_methods weight (Quadtree.scene q) !! method = None →
   LeafMatrix._getLeafsNormMatrix weight method q
   = Raise (AttributeError ("Method " +:+ method))) ∧
  (∀ norm e,
     LeafMatrix._norm_methods weight (Quadtree.scene q) !! method
     = Some norm →
     Quadtree.leafs q = Raise e →
     LeafMatrix._getLeafsNormMatrix weight method q = Raise e) ∧
  (∀ norm ls q' l e,
     LeafMatrix._norm_methods weight (Quadtree.scene q) !! method
     = Some norm →
     Quadtree.leafs q = Ok (ls, q') → l ∈ ls → norm l = Raise e →
     ∃ e', LeafMatrix._getLeafsNormMatrix weight method q = Raise e') ∧
  (∀ norm, method = "mean" ∨ method = "median" →
     LeafMatrix._norm_methods weight (Quadtree.scene q) !! method
     = Some norm →
     ∀ l, ∃ v, norm l = Ok v) ∧
  (∀ norm f ls q',
     LeafMatrix._norm_methods weight (Quadtree.scene q) !! method
     = Some norm →
     Run.reachable q → Quadtree.leafs q = Ok (ls, q') →
     (∀ l, l ∈ ls → norm l = Ok (f l)) →
     ∃ A,
       LeafMatrix._getLeafsNormMatrix weight method q = Ok (A, q') ∧
       ∀ i j,
         (get2 (Quadtree.displacement q) i j = None → get2 A i j = None) ∧
         (∀ v, get2 (Quadtree.displacement q) i j = Some v →
            (v = NaN → get2 A i j = Some NaN) ∧
            (∀ l, l ∈ ls → footprint l (Z.of_nat i) (Z.of_nat j) →
                  v ≠ NaN → get2 A i j = Some (f l)) ∧
            ((∀ l, l ∈ ls → ¬ footprint l (Z.of_nat i) (Z.of_nat j)) →
             get2 A i j = Some NaN))).
Proof.
  rewrite _getLeafsNormMatrix_unfold.
  split; [|split; [|split; [|split; [|split]]]].
  - unfold LeafMatrix._norm_methods. symmetry.
    apply (not_elem_of_list_to_map
             [("mean", λ n, Ok (QuadNode.mean (Quadtree.scene q) n));
              ("median", λ n, Ok (QuadNode.median (Quadtree.scene q) n));
              ("weight", weight)]).
  - intros Hm. by rewrite Hm.
  - intros norm e Hm He. by rewrite Hm, He.
  - intros norm ls q' l e Hm Hl Hin He. rewrite Hm, Hl.
    destruct (fill_leafs_raise norm ls
                (map (map (λ _, NaN)) (Quadtree.displacement q)) l e Hin He)
      as [e' ->].
    by exists e'.
  - intros norm Hmeth Hm l. unfold LeafMatrix._norm_methods in Hm.
    apply elem_of_list_to_map_2 in Hm.
    destruct Hmeth as [-> | ->];
      repeat (apply elem_of_cons in Hm as [Heq|Hm];
              [simplify_eq; by eexists|]);
      by apply not_elem_of_nil in Hm.
  - intros norm f ls q' Hm Hr Hl Hn. rewrite Hm, Hl.
    rewrite (fill_leafs_total norm f ls _ Hn).
    eexists. split; [reflexivity|].
    pose proof (leafs_root_ok q ls q' Hr Hl) as Hok.
    pose proof (leafs_pairwise_apart q ls q' Hr Hl) as Hap.
    intros i j. rewrite get2_assign_masked.
    rewrite (get2_fold_leaves f ls _ i j Hok).
    unfold LeafMatrix.scene_displacement_mask. rewrite !get2_map.
    change (Scene.displacement (Quadtree.scene q))
      with (Quadtree.displacement q).
    destruct (get2 (Quadtree.displacement q) i j) as [v0|]; simpl.
    2:{ split; [done|]. by intros v. }
    split; [done|]. intros v [= ->]. split; [|split].
    + by intros ->.
    + intros l Hin Hf Hnan. apply covers_footprint in Hf.
      rewrite (last_filter_apart ls l i j Hap Hin Hf).
      by destruct v.
    + intros Hno. rewrite last_filter_none; [by destruct v|].
      intros l Hin. apply not_true_is_false.
      rewrite covers_footprint. by apply Hno.
Qed.

End MoreMatrix.

(** * When the leaf list is returned *)

Section MoreTotal.
Context `{Numpy}.

(** A built node with children that holds a number has a child. *)
Lemma Built_children_nonempty q n cs :
  Run.Built q n → QuadNode.children n = Some cs →
  QuadNode.omitted (Quadtree.scene q) n = false → cs ≠ [].
Proof.
  intros Hb Hcs Hom ->.
  destruct (Built_children q n [] Hb Hcs) as (H16 & Hroot & _ & Hm).
  destruct (window_partition (Quadtree.scene q) n Hroot) as [Hsum Hnsum];
    [lia|].
  assert (∀ i, i ∈ quadrant_indices →
               samples (Quadtree.scene q) (QuadNode.quadrant n i) = 0 ∨
               nans (Quadtree.scene q) (QuadNode.quadrant n i)
               = samples (Quadtree.scene q) (QuadNode.quadrant n i)) as Hq.
  { intros i Hi. apply omitted_samples.
    destruct (QuadNode.omitted (Quadtree.scene q) (QuadNode.quadrant n i))
      eqn:Ho; [done|]. exfalso.
    assert (QuadNode.quadrant n i
            ∈ filter (λ q0, QuadNode.omitted (Quadtree.scene q) q0 = false)
                     (map (QuadNode.quadrant n) quadrant_indices)) as Hin.
    { apply list_elem_of_filter. split; [done|].
      apply list_elem_of_fmap. by exists i. }
    rewrite <- Hm in Hin. by apply not_elem_of_nil in Hin. }
  pose proof (nans_bounds (Quadtree.scene q) (QuadNode.quadrant n (0, 0))).
  pose proof (nans_bounds (Quadtree.scene q) (QuadNode.quadrant n (0, 1))).
  pose proof (nans_bounds (Quadtree.scene q) (QuadNode.quadrant n (1, 0))).
  pose proof (nans_bounds (Quadtree.scene q) (QuadNode.quadrant n (1, 1))).
  assert (nans (Quadtree.scene q) n = samples (Quadtree.scene q) n) as Hall.
  { pose proof (Hq (0, 0)) as H00. pose proof (Hq (0, 1)) as H01.
    pose proof (Hq (1, 0)) as H10. pose proof (Hq (1, 1)) as H11.
    unfold quadrant_indices in *.
    specialize (H00 ltac:(by repeat constructor)).
    specialize (H01 ltac:(by repeat constructor)).
    specialize (H10 ltac:(by repeat constructor)).
    specialize (H11 ltac:(by repeat constructor)).
    lia. }
  assert (QuadNode.omitted (Quadtree.scene q) n = true) as Ht.
  { apply omitted_samples. by right. }
  congruence.
Qed.

Lemma omitted_strip scene n :
  QuadNode.omitted scene (strip n) = QuadNode.omitted scene n.
Proof. by destruct n. Qed.

(** The walk below a built node that holds a number returns, and every
    node it reports holds a number. *)
Lemma walk_total q corr eps lm n :
  Run.Built q n → QuadNode.omitted (Quadtree.scene q) n = false →
  ∃ a, QuadNode.iterLeafs corr eps (Ok lm) n = Ok a ∧
       Forall (λ x, QuadNode.omitted (Quadtree.scene q) x = false) a.
Proof.
  induction n as [r c l|r c l cs IH] using QuadNode_ind'; intros Hb Hom.
  - exists [QuadNode.mk r c l None]. split; [|by repeat constructor].
    rewrite walk_unfold. simpl.
    by destruct (QuadNode.below_epsilon corr eps _).
  - set (n := QuadNode.mk r c l (Some cs)) in *.
    assert (∃ ass, mapM (QuadNode.iterLeafs corr eps (Ok lm)) cs = Ok ass ∧
                   Forall (λ x, QuadNode.omitted (Quadtree.scene q) x = false)
                          (concat ass)) as (ass & Hass & Hall).
    { assert (Forall (λ c0, ∃ a, QuadNode.iterLeafs corr eps (Ok lm) c0 = Ok a ∧
                Forall (λ x, QuadNode.omitted (Quadtree.scene q) x = false) a)
                cs) as Hcs.
      { rewrite Forall_forall in IH. apply Forall_forall. intros c0 Hc0.
        destruct (Built_child q n cs c0 Hb eq_refl Hc0) as (Hbc & Ho & _).
        apply IH; [done|done|]. by rewrite <- omitted_strip. }
      clear IH Hb Hom. induction Hcs as [|c0 cs0 (a & Ha & Hfa) _ IHcs].
      - exists []. split; [done|constructor].
      - destruct IHcs as (ass & Hass & Hall).
        exists (a :: ass). split.
        + apply mapM_result_Ok. constructor; [done|].
          by apply mapM_result_Ok.
        + simpl. by apply Forall_app. }
    pose proof (Built_children_nonempty q n cs Hb eq_refl Hom) as Hne.
    destruct cs as [|c0 cs0]; [done|].
    assert (∃ a, Walk.descend corr (Ok lm) eps n (c0 :: cs0) = Ok a ∧
                 Forall (λ x, QuadNode.omitted (Quadtree.scene q) x = false) a)
      as (a & Hd & Hda).
    { unfold Walk.descend. unfold mbind at 1. unfold result_bind at 1.
      destruct (QuadNode.length c0 <? lm.1).
      - exists [n]. split; [done|by repeat constructor].
      - exists (concat ass). split; [|done]. by rewrite Hass. }
    rewrite walk_unfold. change (QuadNode.children n) with (Some (c0 :: cs0)).
    destruct (QuadNode.below_epsilon corr eps n).
    + unfold mbind at 1. unfold result_bind.
      destruct (negb (QuadNode.length n >? lm.2)).
      * exists [n]. split; [done|by repeat constructor].
      * by exists a.
    + by exists a.
Qed.

Lemma filter_nan_allowed_total q a :
  Forall (λ x, QuadNode.omitted (Quadtree.scene q) x = false) a →
  ∃ f, Quadtree.filter_nan_allowed q a = Ok f.
Proof.
  induction 1 as [|x a Hx _ [f Hf]]; [by exists []|].
  simpl. rewrite Hf.
  assert (samples (Quadtree.scene q) x ≠ 0) as Hs.
  { intros Hs. apply not_true_iff_false in Hx. apply Hx.
    apply omitted_samples. by left. }
  destruct (QuadNode.nan_fraction (Quadtree.scene q) x) as [fr|e] eqn:Hfr.
  - simpl. by eexists.
  - exfalso.
    assert (QuadNode.nan_fraction (Quadtree.scene q) x
            = Ok (inject_Z (nans (Quadtree.scene q) x)
                  / inject_Z (samples (Quadtree.scene q) x))%Q) as Hok.
    { by apply nan_fraction_spec. }
    congruence.
Qed.

(** X21 (when [leafs] returns): on a Quadtree object in use, with
    epsilon set, reading [leafs] returns a list whenever the pixel
    limits can be computed (the larger of the two pixel spacings is not
    zero, or the limits are cached) and every base tile holds at least
    one number; no exception is raised below the base tiles. *)
Theorem leafs_returns q bs lm :
  Run.reachable q → is_Some (Quadtree.epsilon q) →
  Quadtree.cached__base_nodes q = Some bs →
  Quadtree.eval__tile_size_lim_px q = Ok lm →
  (∀ b, b ∈ bs → QuadNode.omitted (Quadtree.scene q) b = false) →
  ∃ ls q', Quadtree.leafs q = Ok (ls, q').
Proof.
  intros Hr _ Hbs Hlm Hdata.
  destruct (Quadtree.cached_leafs q) as [ls|] eqn:Hcl.
  { exists ls, q. by apply leafs_idem. }
  pose proof (reachable_inv q Hr) as (_ & (bs' & Hbs' & HB) & _).
  assert (bs' = bs) as -> by congruence.
  rewrite (leafs_unfold q bs Hcl Hbs), Hlm.
  assert (∃ ls, Run.compute_leafs q bs = Ok ls) as [ls ->].
  { unfold Run.compute_leafs.
    destruct (mapM_result_total
                (λ b, ls ← Quadtree.iterLeafs q b;
                      Quadtree.filter_nan_allowed q ls) bs) as [lss Hlss].
    - rewrite Forall_forall in HB. apply Forall_forall. intros b Hb.
      unfold Quadtree.iterLeafs. rewrite Hlm.
      destruct (walk_total q (Quadtree._corr_func q) (Quadtree.epsilon q) lm b
                  (HB b Hb) (Hdata b Hb)) as (a & -> & Ha).
      simpl. by apply filter_nan_allowed_total.
    - rewrite Hlss. by eexists. }
  destruct (existsb (Quadtree.reads_lim q) bs); by eexists _, _.
Qed.

End MoreTotal.

Section MoreFraction.
Context `{Numpy}.

(** X22 (range of the NaN fraction): [nan_fraction] raises
    ZeroDivisionError exactly on a node whose window holds no sample;
    otherwise it lies between 0 and 1, and equals 1 exactly when every
    sample of the window is NaN. *)
Theorem nan_fraction_range scene n :
  (QuadNode.nan_fraction scene n = Raise ZeroDivisionError ↔
   size2 (QuadNode.displacement scene n) = 0) ∧
  (∀ f, QuadNode.nan_fraction scene n = Ok f →
        (0 <= f)%Q ∧ (f <= 1)%Q ∧
        ((f == 1)%Q ↔
         Forall (λ x, x = NaN) (concat (QuadNode.displacement scene n)))).
Proof.
  split.
  - unfold QuadNode.nan_fraction.
    destruct (Z.eqb_spec (size2 (QuadNode.displacement scene n)) 0);
      [done|]. split; [done|]. intros Hs. done.
  - intros f Hf. apply nan_fraction_spec in Hf as [Hs ->].
    pose proof (nans_bounds scene n) as Hb.
    assert (0 < samples scene n) as Hpos by lia.
    assert (0 < inject_Z (samples scene n))%Q as HposQ.
    { rewrite <- (Zlt_Qlt 0). done. }
    split; [|split].
    + apply Qle_shift_div_l; [done|]. rewrite Qmult_0_l.
      rewrite <- (Zle_Qle 0). lia.
    + apply Qle_shift_div_r; [done|]. rewrite Qmult_1_l.
      rewrite <- Zle_Qle. lia.
    + rewrite <- count_nan_all, <- nans_count.
      change (Z.of_nat (length (concat (QuadNode.displacement scene n))))
        with (samples scene n).
      split.
      * intros Heq.
        assert (inject_Z (nans scene n) == inject_Z (samples scene n))%Q
          as Hq.
        { rewrite <- (Qmult_div_r (inject_Z (nans scene n))
                        (inject_Z (samples scene n))).
          - rewrite Heq. ring.
          - intros H0. rewrite H0 in HposQ. by apply Qlt_irrefl in HposQ. }
        unfold Qeq in Hq. simpl in Hq. lia.
      * intros ->. apply Qmult_inv_r.
        intros H0. rewrite H0 in HposQ. by apply Qlt_irrefl in HposQ.
Qed.

End MoreFraction.

(** * Identifiers of nodes *)

Section Ids.
Import Stdlib.Strings.Ascii.

Lemma pretty_N_go_free c x s :
  (∀ d, pretty_N_char d ≠ c) → free_of c s → free_of c (pretty_N_go x s).
Proof.
  intros Hc. revert s. induction (N.lt_wf_0 x) as [x _ IH]; intros s Hs.
  assert (x = 0 ∨ 0 < x)%N as [->|?] by lia.
  - by rewrite pretty_N_go_0.
  - rewrite pretty_N_go_step by done. apply IH.
    { by apply N.div_lt. }
    split; [apply Hc|done].
Qed.

Lemma pretty_N_char_ne_dash d : pretty_N_char d ≠ "-"%char.
Proof. unfold pretty_N_char. by repeat case_match. Qed.

Lemma pretty_N_char_ne_underscore d : pretty_N_char d ≠ "_"%char.
Proof. unfold pretty_N_char. by repeat case_match. Qed.

Lemma pretty_Z_free c (z : Z) :
  (∀ d, pretty_N_char d ≠ c) → 0 ≤ z → free_of c (pretty z).
Proof.
  intros Hc Hz. destruct z as [|p|p]; [|by apply pretty_N_go_free|lia].
  split; [apply (Hc 0%N)|done].
Qed.

Lemma append_sep_inj c s1 s2 t1 t2 :
  free_of c s1 → free_of c s2 →
  s1 +:+ String c t1 = s2 +:+ String c t2 → s1 = s2 ∧ t1 = t2.
Proof.
  revert s2. induction s1 as [|a s1 IH]; intros [|b s2] H1 H2 Heq;
    simpl in *.
  - by injection Heq as ->.
  - injection Heq as <- _. by destruct H2.
  - injection Heq as -> _. by destruct H1.
  - injection Heq as -> Heq. destruct H1 as [_ H1], H2 as [_ H2].
    destruct (IH s2 H1 H2 Heq) as [-> ->]. done.
Qed.

(** An identifier names one square: nodes with corners and sides that
    are not negative and with the same identifier have the same corner
    and the same side. *)
Lemma id_inj n m :
  0 ≤ QuadNode.llr n → 0 ≤ QuadNode.llc n → 0 ≤ QuadNode.length n →
  0 ≤ QuadNode.llr m → 0 ≤ QuadNode.llc m → 0 ≤ QuadNode.length m →
  QuadNode.id n = QuadNode.id m → strip n = strip m.
Proof.
  intros Hr Hc Hl Hr' Hc' Hl'. unfold QuadNode.id. intros Heq.
  simpl in Heq. injection Heq as Heq.
  apply (append_sep_inj "-") in Heq as [H1 Heq];
    [|by apply pretty_Z_free; [apply pretty_N_char_ne_dash|]..].
  apply (append_sep_inj "_") in Heq as [H2 H3];
    [|by apply pretty_Z_free; [apply pretty_N_char_ne_underscore|]..].
  apply (inj pretty) in H1, H2, H3.
  unfold strip. by rewrite H1, H2, H3.
Qed.

End Ids.

Section MoreIds.
Context `{Numpy}.

(** X23 (identifiers of the nodes of a tree): two nodes of the tree of a
    Quadtree object in use that have the same identifier have the same
    corner and the same side. *)
Theorem node_ids_unique q ns q' n m :
  Run.reachable q → Quadtree.nodes q = Ok (ns, q') → n ∈ ns → m ∈ ns →
  QuadNode.id n = QuadNode.id m →
  QuadNode.llr n = QuadNode.llr m ∧ QuadNode.llc n = QuadNode.llc m ∧
  QuadNode.length n = QuadNode.length m.
Proof.
  intros Hr Hn Hin Him Hid.
  pose proof (Built_pow2 q n (reachable_nodes_built q ns q' n Hr Hn Hin))
    as ((k & Hk & Hlen) & Hr0 & Hc0).
  pose proof (Built_pow2 q m (reachable_nodes_built q ns q' m Hr Hn Him))
    as ((k' & Hk' & Hlen') & Hr0' & Hc0').
  assert (strip n = strip m) as Hs.
  { apply id_inj; try done.
    - rewrite Hlen. apply Z.pow_nonneg. lia.
    - rewrite Hlen'. apply Z.pow_nonneg. lia. }
  unfold strip, QuadNode.new in Hs. by injection Hs as -> -> ->.
Qed.

(** X24 (no two leaves share an identifier): in the leaf list of a
    Quadtree object in use, leaves at different positions have different
    identifiers, so a mapping keyed by identifier loses no leaf. *)
Theorem leaf_ids_distinct q ls q' i j a b :
  Run.reachable q → Quadtree.leafs q = Ok (ls, q') →
  ls !! i = Some a → ls !! j = Some b →
  QuadNode.id a = QuadNode.id b → i = j.
Proof.
  intros Hr Hl Ha Hb Hid.
  pose proof (leafs_root_ok q ls q' Hr Hl) as Hok.
  rewrite Forall_forall in Hok.
  destruct (Hok a (list_elem_of_lookup_2 _ _ _ Ha))
    as ((k & Hk & Hlen) & Hr0 & Hc0).
  destruct (Hok b (list_elem_of_lookup_2 _ _ _ Hb))
    as ((k' & Hk' & Hlen') & Hr0' & Hc0').
  assert (0 < QuadNode.length a) as Hpos.
  { rewrite Hlen. apply Z.pow_pos_nonneg; lia. }
  assert (strip a = strip b) as Hs.
  { apply id_inj; try done; [lia|].
    rewrite Hlen'. apply Z.pow_nonneg. lia. }
  assert (footprint a (QuadNode.llr a) (QuadNode.llc a)) as Hfa.
  { unfold footprint. lia. }
  assert (footprint b (QuadNode.llr a) (QuadNode.llc a)) as Hfb.
  { change (footprint (strip b) (QuadNode.llr a) (QuadNode.llc a)).
    rewrite <- Hs. exact Hfa. }
  exact (pairwise_apart_lookup ls i j a b _ _
           (leafs_pairwise_apart q ls q' Hr Hl) Ha Hb Hfa Hfb).
Qed.

End MoreIds.


(** ** The properties on the example inputs *)

Section Witnesses.
Import Examples.
#[local] Existing Instance numpy.

(** Names the value and the final object of a run on a concrete input. *)
Ltac evaluated run v s :=
  let r := eval vm_compute in run in
  match r with
  | Ok (?a, ?b) => pose (v := a); pose (s := b)
  end.

Ltac evaluated_some term v :=
  let r := eval vm_compute in term in
  match r with
  | Some ?a => pose (v := a)
  end.

Lemma flat_quadtree_reachable : Run.reachable flat_quadtree.
Proof.
  apply (Run.reachable_init flat_scene QuadtreeConfig.default).
  vm_compute. reflexivity.
Qed.

Lemma step_quadtree_reachable : Run.reachable step_quadtree.
Proof.
  apply (Run.reachable_init step_scene fine_config). vm_compute. reflexivity.
Qed.

Lemma strict_quadtree_reachable : Run.reachable strict_quadtree.
Proof.
  apply (Run.reachable_init step_scene strict_config). vm_compute. reflexivity.
Qed.

(** The split rule on the 16-pixel node of the step scene. *)
Lemma createTree_split_rule_witness :
  ∃ ns q',
    Quadtree.nodes step_quadtree = Ok (ns, q') ∧ step_node16 ∈ ns ∧
    (QuadNode.has_children step_node16 = true ↔
       (f_gt (Quadtree._corr_func step_quadtree step_node16)
             (Quadtree.epsilon_min step_quadtree) = true
        ∨ 64 ≤ QuadNode.length step_node16)
       ∧ ¬ QuadNode.length step_node16 < 16) ∧
    (QuadNode.length step_node16 < 16 →
     QuadNode.has_children step_node16 = false).
Proof.
  evaluated (Quadtree.nodes step_quadtree) ns q'.
  assert (Quadtree.nodes step_quadtree = Ok (ns, q')) as Hn
    by (vm_compute; reflexivity).
  assert (step_node16 ∈ ns) as Hin
    by (apply (list_elem_of_lookup_2 _ 2%nat); vm_compute; reflexivity).
  exists ns, q'. split; [exact Hn|]. split; [exact Hin|].
  exact (createTree_split_rule step_quadtree ns q' step_node16
           step_quadtree_reachable Hn Hin).
Defined.

(** A node of side 64 whose metric does not exceed [epsilon_min] is split:
    the root over the flat scene. *)
Lemma createTree_splits_flat_root :
  Run.reachable flat_quadtree ∧
  ∃ ns q',
    Quadtree.nodes flat_quadtree = Ok (ns, q') ∧ flat_root ∈ ns ∧
    QuadNode.has_children flat_root = true ∧
    f_gt (Quadtree._corr_func flat_quadtree flat_root)
         (Quadtree.epsilon_min flat_quadtree) = false ∧
    64 ≤ QuadNode.length flat_root ∧
    ¬ (QuadNode.has_children flat_root = true ↔
       f_gt (Quadtree._corr_func flat_quadtree flat_root)
            (Quadtree.epsilon_min flat_quadtree) = true
       ∧ 64 ≤ QuadNode.length flat_root).
Proof.
  split; [exact flat_quadtree_reachable|].
  evaluated (Quadtree.nodes flat_quadtree) ns q'.
  exists ns, q'.
  assert (f_gt (Quadtree._corr_func flat_quadtree flat_root)
               (Quadtree.epsilon_min flat_quadtree) = false) as Hm
    by (vm_compute; reflexivity).
  split; [vm_compute; reflexivity|].
  split; [apply (list_elem_of_lookup_2 _ 0%nat); vm_compute; reflexivity|].
  split; [reflexivity|]. split; [exact Hm|]. split; [simpl; lia|].
  intros [Hc _]. rewrite Hm in Hc. by destruct (Hc eq_refl).
Qed.

(** Nine leaves at epsilon 1/2, one at epsilon 2, on the step scene. *)
Lemma leafs_monotone_in_epsilon_witness :
  ∃ l1 q1 l2 q2,
    Run.leafs_at (Fin (1 # 2)) step_quadtree = Ok (l1, q1) ∧
    Run.leafs_at (Fin 2) step_quadtree = Ok (l2, q2) ∧
    length l1 = 9%nat ∧ length l2 = 1%nat ∧
    (length l2 ≤ length l1)%nat ∧
    (∀ m2, min_length l2 = Some m2 →
           ∃ m1, min_length l1 = Some m1 ∧ m1 ≤ m2).
Proof.
  evaluated (Run.leafs_at (Fin (1 # 2)) step_quadtree) l1 q1.
  evaluated (Run.leafs_at (Fin 2) step_quadtree) l2 q2.
  assert (Run.leafs_at (Fin (1 # 2)) step_quadtree = Ok (l1, q1)) as H1
    by (vm_compute; reflexivity).
  assert (Run.leafs_at (Fin 2) step_quadtree = Ok (l2, q2)) as H2
    by (vm_compute; reflexivity).
  exists l1, q1, l2, q2.
  split; [exact H1|]. split; [exact H2|].
  split; [reflexivity|]. split; [reflexivity|].
  apply (leafs_monotone_in_epsilon step_quadtree (Fin (1 # 2)) (Fin 2)
           l1 q1 l2 q2 step_quadtree_reachable);
    [vm_compute; reflexivity | vm_compute; reflexivity | exact H1 | exact H2].
Defined.

(** The covariance matrix of the two leaves of the grid scene. *)
Lemma covariance_matrix_symmetric_witness :
  ∃ M s',
    Covariance._calcDistanceMatrix matrix_c 0 grid_covariance = Ok (M, s') ∧
    length M = 2%nat ∧
    symmetric M ∧
    ∃ cov d v,
      Covariance.covariance_func s' = Ok ((cov, d), s') ∧
      num_max cov = Ok v ∧
      ∀ i, (i < length M)%nat → mget M i i = Some v.
Proof.
  evaluated (Covariance._calcDistanceMatrix matrix_c 0 grid_covariance) M s'.
  assert (Covariance._calcDistanceMatrix matrix_c 0 grid_covariance
          = Ok (M, s')) as HM by (vm_compute; reflexivity).
  exists M, s'. split; [exact HM|]. split; [reflexivity|].
  destruct (covariance_matrix_symmetric matrix_c 0 grid_covariance M s' HM)
    as (Hsym & _ & Hdiag).
  split; [exact Hsym | exact Hdiag].
Defined.

(** The root over the step scene: three children, the quadrant without
    valid samples left out. *)
Lemma split_node_children_witness :
  ∃ ns q' cs,
    Quadtree.nodes step_quadtree = Ok (ns, q') ∧ step_root ∈ ns ∧
    QuadNode.children step_root = Some cs ∧ length cs = 3%nat ∧
    (∀ c, c ∈ cs → 2 * QuadNode.length c = QuadNode.length step_root) ∧
    (∀ r c, footprint step_root r c ↔
            ∃ i, i ∈ quadrant_indices ∧
                 footprint (QuadNode.quadrant step_root i) r c) ∧
    (∀ r c i j, i ∈ quadrant_indices → j ∈ quadrant_indices →
                footprint (QuadNode.quadrant step_root i) r c →
                footprint (QuadNode.quadrant step_root j) r c → i = j) ∧
    (∀ c, c ∈ cs →
          ∃ i, i ∈ quadrant_indices ∧
               strip c = QuadNode.quadrant step_root i) ∧
    (∀ i, i ∈ quadrant_indices →
          ((∀ c, c ∈ cs → strip c ≠ QuadNode.quadrant step_root i) ↔
           (size2 (QuadNode.displacement (Quadtree.scene step_quadtree)
                                         (QuadNode.quadrant step_root i)) = 0 ∨
            Forall (λ x, x = NaN)
                   (concat (QuadNode.displacement
                              (Quadtree.scene step_quadtree)
                              (QuadNode.quadrant step_root i)))))).
Proof.
  evaluated (Quadtree.nodes step_quadtree) ns q'.
  assert (Quadtree.nodes step_quadtree = Ok (ns, q')) as Hn
    by (vm_compute; reflexivity).
  assert (step_root ∈ ns) as Hin
    by (apply (list_elem_of_lookup_2 _ 0%nat); vm_compute; reflexivity).
  exists ns, q', [step_node32; leaf_node 0 32 32; leaf_node 32 0 32].
  split; [exact Hn|]. split; [exact Hin|].
  split; [reflexivity|]. split; [reflexivity|].
  exact (split_node_children step_quadtree ns q' step_root _
           step_quadtree_reachable Hn Hin eq_refl).
Defined.

(** With 1/32 allowed, the tile with 1/16 NaN is not reported and stays in
    the tree. *)
Lemma leafs_nan_filter_witness :
  ∃ ls q' ns f,
    Quadtree.leafs strict_quadtree = Ok (ls, q') ∧ length ls = 8%nat ∧
    Quadtree.nodes strict_quadtree = Ok (ns, strict_quadtree) ∧
    leaf_node 0 32 32 ∈ ns ∧
    QuadNode.nan_fraction (Quadtree.scene strict_quadtree) (leaf_node 0 32 32)
    = Ok f ∧
    (Quadtree.nan_allowed strict_quadtree < f)%Q ∧
    (∀ l, l ∈ ls →
          ∃ f, QuadNode.nan_fraction (Quadtree.scene strict_quadtree) l = Ok f ∧
               ¬ (Quadtree.nan_allowed strict_quadtree <= f)%Q) ∧
    (leaf_node 0 32 32 ∉ ls) ∧
    (∃ q2, Quadtree.nodes q' = Ok (ns, q2)) ∧
    Quadtree.cached__base_nodes q'
    = Quadtree.cached__base_nodes strict_quadtree.
Proof.
  evaluated (Quadtree.leafs strict_quadtree) ls q'.
  evaluated (Quadtree.nodes strict_quadtree) ns q0.
  assert (Quadtree.leafs strict_quadtree = Ok (ls, q')) as Hl
    by (vm_compute; reflexivity).
  assert (Quadtree.nodes strict_quadtree = Ok (ns, strict_quadtree)) as Hn
    by (vm_compute; reflexivity).
  assert (leaf_node 0 32 32 ∈ ns) as Hin
    by (apply (list_elem_of_lookup_2 _ 10%nat); vm_compute; reflexivity).
  assert (QuadNode.nan_fraction (Quadtree.scene strict_quadtree)
                                (leaf_node 0 32 32) = Ok (16 # 256)) as Hf
    by (vm_compute; reflexivity).
  assert (Quadtree.nan_allowed strict_quadtree < 16 # 256)%Q as Hlt
    by (vm_compute; reflexivity).
  destruct (leafs_nan_filter strict_quadtree ls q' strict_quadtree_reachable Hl)
    as (Hall & Hex & Hb).
  destruct (Hex ns strict_quadtree (leaf_node 0 32 32) (16 # 256) Hn Hin Hf Hlt)
    as [Hnot Hnodes].
  exists ls, q', ns, (16 # 256). repeat split; try done.
Defined.


(** Known and unknown leaves on the grid scene. *)
Lemma getCovariance_lookup_witness :
  ∃ m s1 s2 mp v,
    Covariance.covariance_matrix grid_covariance = Ok (m, s1) ∧
    Covariance.ensure_initialized s1 = Ok (tt, s2) ∧
    Covariance._leaf_mapping s2 = Some mp ∧
    mp !! "node_0-0_2" = Some 0%nat ∧ mp !! "node_0-2_2" = Some 1%nat ∧
    mp !! "node_9-9_2" = None ∧
    Covariance.getCovariance (LeafId "node_9-9_2") (LeafId "node_0-0_2")
                             grid_covariance
    = Raise (KeyError "Unknown quadtree leaf with id 'node_9-9_2'") ∧
    Covariance.getCovariance (LeafNode (leaf_node 0 0 2)) (LeafId "node_9-9_2")
                             grid_covariance
    = Raise (KeyError "Unknown quadtree leaf with id 'node_9-9_2'") ∧
    mget m 0 1 = Some v ∧
    Covariance.getCovariance (LeafNode (leaf_node 0 0 2)) (LeafId "node_0-2_2")
                             grid_covariance
    = Ok (v, s2).
Proof.
  evaluated (Covariance.covariance_matrix grid_covariance) m s1.
  assert (Covariance.covariance_matrix grid_covariance = Ok (m, s1)) as Hm
    by (vm_compute; reflexivity).
  assert (Covariance.ensure_initialized s1 = Ok (tt, s1)) as He
    by (vm_compute; reflexivity).
  evaluated_some (Covariance._leaf_mapping s1) mp.
  assert (Covariance._leaf_mapping s1 = Some mp) as Hmp
    by (vm_compute; reflexivity).
  assert (mp !! "node_0-0_2" = Some 0%nat) as H0 by (vm_compute; reflexivity).
  assert (mp !! "node_0-2_2" = Some 1%nat) as H1 by (vm_compute; reflexivity).
  assert (mp !! "node_9-9_2" = None) as H9 by (vm_compute; reflexivity).
  assert (mget m 0 1 = Some (2 # 2)) as Hv by (vm_compute; reflexivity).
  exists m, s1, s1, mp, (2 # 2).
  destruct (getCovariance_lookup (LeafId "node_9-9_2") (LeafId "node_0-0_2")
              grid_covariance m s1 s1 mp Hm He Hmp) as (Ha & _ & _).
  destruct (getCovariance_lookup (LeafNode (leaf_node 0 0 2))
              (LeafId "node_9-9_2") grid_covariance m s1 s1 mp Hm He Hmp)
    as (_ & Hb & _).
  destruct (getCovariance_lookup (LeafNode (leaf_node 0 0 2))
              (LeafId "node_0-2_2") grid_covariance m s1 s1 mp Hm He Hmp)
    as (_ & _ & Hc).
  split; [exact Hm|]. split; [exact He|]. split; [exact Hmp|].
  split; [exact H0|]. split; [exact H1|]. split; [exact H9|].
  split; [exact (Ha H9)|].
  split; [apply Hb; [exists 0%nat; exact H0 | exact H9]|].
  split; [exact Hv|].
  exact (Hc 0%nat 1%nat (2 # 2) H0 H1 Hv).
Defined.

Import MoreExamples.

(** The covariance matrix of the two leaves of the grid scene, 2 on the
    diagonal and 1 off it, and its inverse. *)
Lemma weight_matrix_inverse_witness :
  ∃ M s1 W,
    Covariance.covariance_matrix grid_covariance = Ok (M, s1) ∧
    meq M [[2; 1]; [1; 2]]%Q ∧
    invertible M ∧
    Covariance.weight_matrix grid_covariance
    = Ok (W, Covariance.with_weight_matrix (Some W) s1) ∧
    meq W [[2 # 3; - (1 # 3)]; [- (1 # 3); 2 # 3]]%Q ∧
    meq (matmul M W) (eye 2) ∧ meq (matmul W M) (eye 2).
Proof.
  evaluated (Covariance.covariance_matrix grid_covariance) M s1.
  assert (Covariance.covariance_matrix grid_covariance = Ok (M, s1)) as HM
    by (vm_compute; reflexivity).
  assert (invertible M) as Hinv.
  { split; [reflexivity|].
    exists [[2 # 3; - (1 # 3)]; [- (1 # 3); 2 # 3]]%Q.
    split; repeat (constructor; try (vm_compute; reflexivity)). }
  destruct (weight_matrix_inverse grid_covariance M s1 eq_refl HM Hinv)
    as (W & HW & Hinvw & H1 & H2).
  exists M, s1, W. split; [exact HM|].
  split; [repeat (constructor; try (vm_compute; reflexivity))|].
  split; [exact Hinv|]. split; [exact HW|].
  split; [|split; [exact H1|exact H2]].
  vm_compute in Hinvw. injection Hinvw as <-.
  repeat (constructor; try (vm_compute; reflexivity)).
Defined.

(** The 16-pixel node of the step scene in its base tile of side 64. *)
Lemma nodes_within_base_witness :
  ∃ ns q' bs b k,
    Quadtree.nodes step_quadtree = Ok (ns, q') ∧ step_node16 ∈ ns ∧
    Quadtree.cached__base_nodes step_quadtree = Some bs ∧ b ∈ bs ∧
    step_node16 ∈ QuadNode.iterChildren b ∧ within step_node16 b ∧
    0 ≤ k ∧ QuadNode.length b = 2 ^ k * QuadNode.length step_node16 ∧
    root_ok step_node16.
Proof.
  evaluated (Quadtree.nodes step_quadtree) ns q'.
  assert (Quadtree.nodes step_quadtree = Ok (ns, q')) as Hn
    by (vm_compute; reflexivity).
  assert (step_node16 ∈ ns) as Hin
    by (apply (list_elem_of_lookup_2 _ 2%nat); vm_compute; reflexivity).
  destruct (nodes_within_base step_quadtree ns q' step_node16
              step_quadtree_reachable Hn Hin) as (bs & b & k & Hw).
  exists ns, q', bs, b, k. split; [exact Hn|]. split; [exact Hin|]. exact Hw.
Defined.

(** The first child of the 16-pixel node of the step scene. *)
Lemma children_hold_data_witness :
  ∃ ns q',
    Quadtree.nodes step_quadtree = Ok (ns, q') ∧ step_node16 ∈ ns ∧
    0 < samples (Quadtree.scene step_quadtree) (leaf_node 0 0 8) ∧
    nans (Quadtree.scene step_quadtree) (leaf_node 0 0 8)
    < samples (Quadtree.scene step_quadtree) (leaf_node 0 0 8) ∧
    ∃ f, QuadNode.nan_fraction (Quadtree.scene step_quadtree)
                               (leaf_node 0 0 8) = Ok f ∧ (f < 1)%Q.
Proof.
  evaluated (Quadtree.nodes step_quadtree) ns q'.
  assert (Quadtree.nodes step_quadtree = Ok (ns, q')) as Hn
    by (vm_compute; reflexivity).
  assert (step_node16 ∈ ns) as Hin
    by (apply (list_elem_of_lookup_2 _ 2%nat); vm_compute; reflexivity).
  exists ns, q'. split; [exact Hn|]. split; [exact Hin|].
  apply (children_hold_data step_quadtree ns q' step_node16 _ (leaf_node 0 0 8)
           step_quadtree_reachable Hn Hin eq_refl).
  apply list_elem_of_here.
Defined.

(** The first leaf of the step scene. *)
Lemma leafs_are_stopping_nodes_witness :
  ∃ ls q' l,
    Quadtree.leafs step_quadtree = Ok (ls, q') ∧ ls !! 0%nat = Some l ∧
    (∃ ns, Quadtree.nodes step_quadtree = Ok (ns, step_quadtree) ∧ l ∈ ns) ∧
    Walk.stops (Quadtree._corr_func step_quadtree)
               (Quadtree.eval__tile_size_lim_px step_quadtree)
               (Quadtree.epsilon step_quadtree) l.
Proof.
  evaluated (Quadtree.leafs step_quadtree) ls q'.
  assert (Quadtree.leafs step_quadtree = Ok (ls, q')) as Hl
    by (vm_compute; reflexivity).
  evaluated_some (ls !! 0%nat) l.
  assert (ls !! 0%nat = Some l) as H0 by reflexivity.
  exists ls, q', l. split; [exact Hl|]. split; [exact H0|].
  exact (leafs_are_stopping_nodes step_quadtree ls q' l
           step_quadtree_reachable Hl (list_elem_of_lookup_2 _ _ _ H0)).
Defined.

(** The first leaf of the step scene, of side 8, and the lower limit of
    one pixel, which is that of the tile sizes. *)
Lemma leafs_min_size_witness :
  ∃ ls q' l,
    Quadtree.leafs step_quadtree = Ok (ls, q') ∧ ls !! 0%nat = Some l ∧
    QuadNode.length l = 8 ∧
    Valid.limits_current step_quadtree ∧
    Qtrunc (Quadtree.tile_size_min step_quadtree
            / Valid.pixel_size step_quadtree) = 1 ∧
    ((∃ bs, Quadtree.cached__base_nodes step_quadtree = Some bs ∧ l ∈ bs) ∨
     (∃ lm, Quadtree.eval__tile_size_lim_px step_quadtree = Ok lm ∧
            lm.1 ≤ QuadNode.length l ∧
            (Valid.limits_current step_quadtree →
             ¬ (Valid.pixel_size step_quadtree == 0)%Q ∧
             Qtrunc (Quadtree.tile_size_min step_quadtree
                     / Valid.pixel_size step_quadtree)
             ≤ QuadNode.length l))).
Proof.
  evaluated (Quadtree.leafs step_quadtree) ls q'.
  assert (Quadtree.leafs step_quadtree = Ok (ls, q')) as Hl
    by (vm_compute; reflexivity).
  evaluated_some (ls !! 0%nat) l.
  assert (ls !! 0%nat = Some l) as H0 by reflexivity.
  exists ls, q', l. split; [exact Hl|]. split; [exact H0|].
  split; [reflexivity|].
  split; [intros lm Hlm; vm_compute in Hlm; discriminate|].
  split; [vm_compute; reflexivity|].
  exact (leafs_min_size step_quadtree ls q' l
           step_quadtree_reachable Hl (list_elem_of_lookup_2 _ _ _ H0)).
Defined.

(** The leaves of the step scene, read, read again and computed anew. *)
Lemma leafs_cache_fresh_witness :
  ∃ ls q',
    Quadtree.leafs step_quadtree = Ok (ls, q') ∧ length ls = 9%nat ∧
    (∃ q2, Quadtree.leafs (Quadtree.with_leafs None step_quadtree)
           = Ok (ls, q2)) ∧
    Quadtree.leafs q' = Ok (ls, q').
Proof.
  evaluated (Quadtree.leafs step_quadtree) ls q'.
  assert (Quadtree.leafs step_quadtree = Ok (ls, q')) as Hl
    by (vm_compute; reflexivity).
  exists ls, q'. split; [exact Hl|]. split; [reflexivity|].
  apply (leafs_cache_fresh step_quadtree ls q' step_quadtree_reachable);
    [vm_compute; by eexists | exact Hl].
Defined.

(** The tree of the step scene after the NaN allowance was set. *)
Lemma setters_keep_tree_witness :
  ∃ q' ns,
    Run.exec (Run.SetNanAllowed (1 # 2)) step_quadtree = Ok (tt, q') ∧
    Quadtree.nodes step_quadtree = Ok (ns, step_quadtree) ∧
    Quadtree.nodes q' = Ok (ns, q').
Proof.
  evaluated (Run.exec (Run.SetNanAllowed (1 # 2)) step_quadtree) u q'.
  evaluated (Quadtree.nodes step_quadtree) ns q0.
  assert (Run.exec (Run.SetNanAllowed (1 # 2)) step_quadtree = Ok (tt, q'))
    as He by (vm_compute; reflexivity).
  assert (Quadtree.nodes step_quadtree = Ok (ns, step_quadtree)) as Hn
    by (vm_compute; reflexivity).
  exists q', ns. split; [exact He|]. split; [exact Hn|].
  apply (setters_keep_tree step_quadtree (Run.SetNanAllowed (1 # 2)) q' ns
           step_quadtree_reachable); [done|done|exact He|exact Hn].
Defined.

(** Accepted settings on the step scene. *)
Lemma setters_accept_witness :
  (∃ q', Quadtree.set_epsilon (Fin 2) step_quadtree = Ok (tt, q') ∧
         Quadtree.epsilon q' = Some (Fin 2) ∧
         Quadtree.cached_leafs q' = None ∧
         Quadtree.evChanged q' = S (Quadtree.evChanged step_quadtree) ∧
         Quadtree._log q' = Quadtree._log step_quadtree) ∧
  (∃ q', Quadtree.set_nan_allowed (1 # 2) step_quadtree = Ok (tt, q') ∧
         Quadtree.nan_allowed q' = (1 # 2)%Q ∧
         Quadtree.cached_leafs q' = None ∧
         Quadtree.evChanged q' = S (Quadtree.evChanged step_quadtree) ∧
         Quadtree._log q' = Quadtree._log step_quadtree) ∧
  (∃ q', Quadtree.set_tile_size_min 2 step_quadtree = Ok (tt, q') ∧
         Quadtree.tile_size_min q' = 2%Q ∧
         Quadtree.tile_size_max q' = Quadtree.tile_size_max step_quadtree ∧
         Quadtree.cached_leafs q' = None ∧
         Quadtree.cached__tile_size_lim_px q' = None ∧
         Quadtree.evChanged q' = S (Quadtree.evChanged step_quadtree) ∧
         Quadtree._log q' = Quadtree._log step_quadtree) ∧
  (∃ q', Quadtree.set_tile_size_max 500 step_quadtree = Ok (tt, q') ∧
         Quadtree.tile_size_max q' = 500%Q ∧
         Quadtree.tile_size_min q' = Quadtree.tile_size_min step_quadtree ∧
         Quadtree.cached_leafs q' = None ∧
         Quadtree.cached__tile_size_lim_px q' = None ∧
         Quadtree.evChanged q' = S (Quadtree.evChanged step_quadtree) ∧
         Quadtree._log q' = Quadtree._log step_quadtree).
Proof.
  destruct (setters_accept step_quadtree) as (He & Hn & Hmin & Hmax).
  split; [apply He; vm_compute; reflexivity|].
  split; [apply Hn; [vm_compute; reflexivity|vm_compute; discriminate]|].
  split; [apply Hmin; vm_compute; discriminate|].
  apply Hmax; vm_compute; discriminate.
Defined.



(** The single base tile of side 64 over the 40 x 40 step scene. *)
Lemma base_nodes_tile_raster_witness :
  ∃ bs q',
    Quadtree._base_nodes step_quadtree = Ok (bs, q') ∧ length bs = 1%nat ∧
    (shape2 (Quadtree.displacement step_quadtree)) = (40, 40) ∧
    (∃ L, is_pow2 L ∧ 40 ≤ L < 2 * 40 ∧
          ∀ b, b ∈ bs → QuadNode.length b = L ∧
                        0 ≤ QuadNode.llr b < 40 ∧
                        0 ≤ QuadNode.llc b < 40) ∧
    (∀ r c, 0 ≤ r < 40 → 0 ≤ c < 40 → ∃ b, b ∈ bs ∧ footprint b r c) ∧
    (∀ i j a b r c, bs !! i = Some a → bs !! j = Some b →
                    footprint a r c → footprint b r c → i = j).
Proof.
  evaluated (Quadtree._base_nodes step_quadtree) bs q'.
  assert (Quadtree._base_nodes step_quadtree = Ok (bs, q')) as Hb
    by (vm_compute; reflexivity).
  exists bs, q'. split; [exact Hb|]. split; [reflexivity|].
  split; [vm_compute; reflexivity|].
  apply (base_nodes_tile_raster step_quadtree bs q'
           step_quadtree_reachable Hb).
  vm_compute. reflexivity.
Defined.

(** The first leaf of the step scene holds the corner position, and no
    other leaf does. *)
Lemma leafs_never_overlap_witness :
  ∃ ls q' a,
    Quadtree.leafs step_quadtree = Ok (ls, q') ∧
    ls !! 0%nat = Some a ∧ footprint a 0 0 ∧
    ∀ j b, ls !! j = Some b → footprint b 0 0 → 0%nat = j.
Proof.
  evaluated (Quadtree.leafs step_quadtree) ls q'.
  assert (Quadtree.leafs step_quadtree = Ok (ls, q')) as Hl
    by (vm_compute; reflexivity).
  evaluated_some (ls !! 0%nat) a.
  assert (ls !! 0%nat = Some a) as H0 by reflexivity.
  assert (footprint a 0 0) as Hf by (vm_compute; intuition discriminate).
  exists ls, q', a. split; [exact Hl|]. split; [exact H0|].
  split; [exact Hf|]. intros j b Hj Hfb.
  exact (leafs_never_overlap step_quadtree ls q' 0%nat j a b 0 0
           step_quadtree_reachable Hl H0 Hj Hf Hfb).
Defined.

(** The corner sample of the step scene, the only 1. *)
Lemma leafs_cover_data_witness :
  ∃ ls q' row,
    Quadtree.leafs step_quadtree = Ok (ls, q') ∧
    Quadtree.displacement step_quadtree !! Z.to_nat 0 = Some row ∧
    row !! Z.to_nat 0 = Some (Fin 1) ∧
    ((∃ l, l ∈ ls ∧ footprint l 0 0) ∨
     (∃ n fr,
        (∃ ns, Quadtree.nodes step_quadtree = Ok (ns, step_quadtree) ∧
               n ∈ ns) ∧
        footprint n 0 0 ∧
        QuadNode.nan_fraction (Quadtree.scene step_quadtree) n = Ok fr ∧
        (Quadtree.nan_allowed step_quadtree <= fr)%Q)).
Proof.
  evaluated (Quadtree.leafs step_quadtree) ls q'.
  assert (Quadtree.leafs step_quadtree = Ok (ls, q')) as Hl
    by (vm_compute; reflexivity).
  evaluated_some (Quadtree.displacement step_quadtree !! Z.to_nat 0) row.
  assert (Quadtree.displacement step_quadtree !! Z.to_nat 0 = Some row)
    as Hrow by (vm_compute; reflexivity).
  assert (row !! Z.to_nat 0 = Some (Fin 1)) as Hv by reflexivity.
  exists ls, q', row. split; [exact Hl|]. split; [exact Hrow|].
  split; [exact Hv|].
  apply (leafs_cover_data step_quadtree ls q' 0 0 row (Fin 1)
           step_quadtree_reachable Hl); [lia| |exact Hrow|exact Hv|done].
  vm_compute. split; [discriminate|reflexivity].
Defined.

(** Construction on the step scene, on a scene without samples and with
    an unknown correction. *)
Lemma init_outcome_witness :
  (∃ q bs, Quadtree.__init__ step_scene fine_config = Ok q ∧
           Quadtree.scene q = step_scene ∧
           QuadtreeConfig.correction (Quadtree.config q) = "median" ∧
           Quadtree.cached__base_nodes q = Some bs ∧
           map strip bs = base_grid 40 40 ∧
           Quadtree.cached_leafs q = None ∧
           Quadtree.evConfigChanged q = 1%nat) ∧
  Quadtree.__init__ (Scene.mk [] plain_frame) fine_config = Raise ValueError ∧
  Quadtree.__init__ step_scene
    (QuadtreeConfig.with_correction "linear" fine_config)
  = Raise (AttributeError "Method linear").
Proof.
  destruct (init_outcome step_scene fine_config) as (_ & _ & Hok).
  destruct (init_outcome (Scene.mk [] plain_frame) fine_config)
    as (_ & Hval & _).
  destruct (init_outcome step_scene
              (QuadtreeConfig.with_correction "linear" fine_config))
    as (Hattr & _ & _).
  split; [|split].
  - apply Hok; [|vm_compute; reflexivity].
    apply list_elem_of_further, list_elem_of_here.
  - apply Hval; [|vm_compute; discriminate].
    apply list_elem_of_further, list_elem_of_here.
  - apply Hattr. intros Hin.
    repeat (apply elem_of_cons in Hin as [Hin|Hin]; [discriminate|]).
    by apply not_elem_of_nil in Hin.
Defined.

(** The correction of the step scene changed to the mean, and to a name
    that is not known. *)
Lemma setCorrection_outcome_witness :
  Quadtree.setCorrection "linear" step_quadtree
  = Raise (AttributeError "Method linear") ∧
  ∃ q' lbl f bs bs',
    Quadtree.setCorrection "mean" step_quadtree = Ok (tt, q') ∧
    Quadtree._corrections !! "mean" = Some (lbl, f) ∧
    Quadtree._corr_func q' = f (Quadtree.scene step_quadtree) ∧
    QuadtreeConfig.correction (Quadtree.config q') = "mean" ∧
    Quadtree.cached_leafs q' = None ∧
    Quadtree.cached__base_nodes step_quadtree = Some bs ∧
    Quadtree.cached__base_nodes q' = Some bs' ∧
    map strip bs' = map strip bs ∧
    Forall (Run.Built q') bs'.
Proof.
  destruct (setCorrection_outcome step_quadtree "linear") as [Hattr _].
  destruct (setCorrection_outcome step_quadtree "mean") as [_ Hok].
  split.
  - apply Hattr. intros Hin.
    repeat (apply elem_of_cons in Hin as [Hin|Hin]; [discriminate|]).
    by apply not_elem_of_nil in Hin.
  - apply Hok; [exact step_quadtree_reachable|apply list_elem_of_here].
Defined.

(** The noise patch of the grid scene: without leaves, and from its two
    leaves of side 2. *)
Lemma noise_data_selection_witness :
  ∃ ls s1 d s',
    Covariance.quadtree_leafs
      (Covariance.with__noise_data None grid_covariance) = Ok (ls, s1) ∧
    length ls = 2%nat ∧
    Covariance.noise_data (Covariance.with__noise_data None grid_covariance)
    = Ok (d, s') ∧
    ∃ n k,
      n ∈ ls ∧ Covariance.noise_key s1 n = Ok k ∧
      (∀ m km, m ∈ ls → Covariance.noise_key s1 m = Ok km → (km <= k)%Q) ∧
      s' = Covariance.with__noise_data (Some d) s1 ∧
      d = map (map (λ x, match x with NaN => 0%Q | Fin q => q end))
              (derampMatrix
                 (trimMatrix
                    (QuadNode.displacement
                       (Quadtree.scene (Covariance._quadtree s1)) n))).
Proof.
  evaluated (Covariance.quadtree_leafs
               (Covariance.with__noise_data None grid_covariance)) ls s1.
  assert (Covariance.quadtree_leafs
            (Covariance.with__noise_data None grid_covariance) = Ok (ls, s1))
    as Hls by (vm_compute; reflexivity).
  evaluated (Covariance.noise_data
               (Covariance.with__noise_data None grid_covariance)) d s'.
  assert (Covariance.noise_data
            (Covariance.with__noise_data None grid_covariance) = Ok (d, s'))
    as Hd by (vm_compute; reflexivity).
  destruct (noise_data_selection _ ls s1 Hls) as (_ & _ & _ & Hsel).
  exists ls, s1, d, s'. split; [exact Hls|]. split; [reflexivity|].
  split; [exact Hd|]. exact (Hsel d s' eq_refl Hd).
Defined.

(** The covariance of the two leaves of the grid scene, in both orders. *)
Lemma getCovariance_on_leaves_witness :
  ∃ M s1 ls,
    Covariance.covariance_matrix grid_covariance = Ok (M, s1) ∧
    Covariance.quadtree_leafs s1 = Ok (ls, s1) ∧
    length M = length ls ∧ length ls = 2%nat ∧
    ∀ l1 l2, l1 ∈ ls → l2 ∈ ls →
      ∃ i j v l1' l2',
        ls !! i = Some l1' ∧ QuadNode.id l1' = QuadNode.id l1 ∧
        ls !! j = Some l2' ∧ QuadNode.id l2' = QuadNode.id l2 ∧
        mget M i j = Some v ∧
        Covariance.getCovariance (LeafNode l1) (LeafNode l2) grid_covariance
        = Ok (v, s1) ∧
        Covariance.getCovariance (LeafNode l2) (LeafNode l1) grid_covariance
        = Ok (v, s1).
Proof.
  evaluated (Covariance.covariance_matrix grid_covariance) M s1.
  assert (Covariance.covariance_matrix grid_covariance = Ok (M, s1)) as Hm
    by (vm_compute; reflexivity).
  destruct (getCovariance_on_leaves grid_covariance M s1 eq_refl Hm)
    as (ls & Hls & Hlen & Hall).
  exists M, s1, ls. split; [exact Hm|]. split; [exact Hls|].
  split; [exact Hlen|]. split; [by rewrite <- Hlen|]. exact Hall.
Defined.

Lemma gap_quadtree_reachable : Run.reachable gap_quadtree.
Proof.
  apply (Run.reachable_init gap_scene fine_config). vm_compute. reflexivity.
Qed.

(** The right base tile of the scene whose right half holds no sample. *)
Lemma leafs_raise_on_tile_without_data_witness :
  Quadtree.cached__base_nodes gap_quadtree
  = Some [QuadNode.mk 0 0 64 (Some [leaf_node 0 0 32; leaf_node 0 32 32;
                                    leaf_node 32 0 32; leaf_node 32 32 32]);
          QuadNode.mk 0 64 64 (Some [])] ∧
  Quadtree.iterLeafs gap_quadtree (QuadNode.mk 0 64 64 (Some []))
  = Raise IndexError ∧
  ∃ e, Quadtree.leafs gap_quadtree = Raise e.
Proof.
  pose (bs := [QuadNode.mk 0 0 64
                 (Some [leaf_node 0 0 32; leaf_node 0 32 32;
                        leaf_node 32 0 32; leaf_node 32 32 32]);
               QuadNode.mk 0 64 64 (Some [])]).
  assert (Quadtree.cached__base_nodes gap_quadtree = Some bs) as Hbs
    by (vm_compute; reflexivity).
  split; [exact Hbs|].
  apply (leafs_raise_on_tile_without_data gap_quadtree bs
           (QuadNode.mk 0 64 64 (Some [])) gap_quadtree_reachable);
    [vm_compute; reflexivity | exact Hbs
    | apply list_elem_of_further, list_elem_of_here
    | simpl; lia | vm_compute; reflexivity | vm_compute; reflexivity].
Defined.

(** Eight leaves of the step scene with 1/32 allowed, nine with 9/10. *)
Lemma leafs_monotone_in_nan_allowed_witness :
  ∃ l1 q1 l2 q2,
    More.leafs_allowing (1 # 32) step_quadtree = Ok (l1, q1) ∧
    More.leafs_allowing (9 # 10) step_quadtree = Ok (l2, q2) ∧
    length l1 = 8%nat ∧ length l2 = 9%nat ∧
    sublist l1 l2.
Proof.
  evaluated (More.leafs_allowing (1 # 32) step_quadtree) l1 q1.
  evaluated (More.leafs_allowing (9 # 10) step_quadtree) l2 q2.
  assert (More.leafs_allowing (1 # 32) step_quadtree = Ok (l1, q1)) as H1
    by (vm_compute; reflexivity).
  assert (More.leafs_allowing (9 # 10) step_quadtree = Ok (l2, q2)) as H2
    by (vm_compute; reflexivity).
  exists l1, q1, l2, q2.
  split; [exact H1|]. split; [exact H2|].
  split; [reflexivity|]. split; [reflexivity|].
  apply (leafs_monotone_in_nan_allowed step_quadtree (1 # 32) (9 # 10)
           l1 q1 l2 q2 step_quadtree_reachable);
    [vm_compute; reflexivity | vm_compute; discriminate
    | vm_compute; discriminate | exact H1 | exact H2].
Defined.

(** The covariance of the grid scene before and after other noise data
    was set. *)
Lemma covariance_interp_is_kept_witness :
  ∃ cm s1 s2 s3 d cov,
    Covariance.covariance [[1%Q]] grid_covariance = Ok (cm, s1) ∧
    Covariance.set_noise_data [[Fin 5; Fin 7]] s1 = Ok (tt, s2) ∧
    Covariance._clear s2 = Ok (tt, s3) ∧
    Covariance.cached_covariance_func s3 = None ∧
    cm = map (map (interp1d_nearest d cov)) [[1%Q]] ∧
    Covariance.covariance [[2%Q]] s3
    = Ok (map (map (interp1d_nearest d cov)) [[2%Q]], s3).
Proof.
  evaluated (Covariance.covariance [[1%Q]] grid_covariance) cm s1.
  assert (Covariance.covariance [[1%Q]] grid_covariance = Ok (cm, s1)) as Hc
    by (vm_compute; reflexivity).
  destruct (covariance_interp_is_kept [[1%Q]] grid_covariance cm s1
              [[Fin 5; Fin 7]] _ _ [[2%Q]] Hc eq_refl eq_refl)
    as (Hnone & d & cov & Hcm & Hcov).
  eexists cm, s1, _, _, d, cov.
  split; [exact Hc|]. split; [reflexivity|]. split; [reflexivity|].
  split; [exact Hnone|]. split; [exact Hcm|exact Hcov].
Defined.

(** The means of the step scene cast to the raster: the value of the
    first leaf at the corner, NaN where the sample is missing, and a
    method that does not exist. *)
Lemma leaf_matrix_values_witness :
  LeafMatrix._getLeafsNormMatrix (λ _, Raise (AttributeError "getLeafWeight"))
                                 "mode" step_quadtree
  = Raise (AttributeError "Method mode") ∧
  ∃ ls q' A,
    Quadtree.leafs step_quadtree = Ok (ls, q') ∧
    LeafMatrix._getLeafsNormMatrix
      (λ _, Raise (AttributeError "getLeafWeight")) "mean" step_quadtree
    = Ok (A, q') ∧
    get2 (Quadtree.displacement step_quadtree) 0 0 = Some (Fin 1) ∧
    get2 A 0 0 = Some (Fin 0) ∧
    get2 (Quadtree.displacement step_quadtree) 39 39 = Some NaN ∧
    get2 A 39 39 = Some NaN ∧
    get2 A 40 0 = None.
Proof.
  pose (w := λ _ : QuadNode.t,
               @Raise fval (AttributeError "getLeafWeight")).
  destruct (leaf_matrix_values w "mode" step_quadtree)
    as (_ & Hattr & _).
  destruct (leaf_matrix_values w "mean" step_quadtree)
    as (_ & _ & _ & _ & _ & Hval).
  split; [apply Hattr; vm_compute; reflexivity|].
  evaluated (Quadtree.leafs step_quadtree) ls q'.
  assert (Quadtree.leafs step_quadtree = Ok (ls, q')) as Hl
    by (vm_compute; reflexivity).
  destruct (Hval (λ n, Ok (QuadNode.mean (Quadtree.scene step_quadtree) n))
              (QuadNode.mean (Quadtree.scene step_quadtree)) ls q'
              eq_refl step_quadtree_reachable Hl (λ l _, eq_refl))
    as (A & HA & Hget).
  assert (get2 (Quadtree.displacement step_quadtree) 0 0 = Some (Fin 1))
    as H00 by (vm_compute; reflexivity).
  assert (get2 (Quadtree.displacement step_quadtree) 39 39 = Some NaN)
    as H99 by (vm_compute; reflexivity).
  evaluated_some (ls !! 0%nat) l.
  assert (l ∈ ls) as Hin
    by (apply (list_elem_of_lookup_2 _ 0%nat); reflexivity).
  exists ls, q', A. split; [exact Hl|]. split; [exact HA|].
  split; [exact H00|]. split; [|split; [exact H99|split]].
  - destruct (Hget 0%nat 0%nat) as [_ H1].
    destruct (H1 (Fin 1) H00) as (_ & Hleaf & _).
    rewrite (Hleaf l Hin); [vm_compute; reflexivity| |done].
    vm_compute. intuition discriminate.
  - destruct (Hget 39%nat 39%nat) as [_ H1].
    destruct (H1 NaN H99) as (Hnan & _). by apply Hnan.
  - destruct (Hget 40%nat 0%nat) as [Hnone _]. apply Hnone.
    vm_compute. reflexivity.
Defined.

(** The leaves of the step scene, whose base tile holds numbers. *)
Lemma leafs_returns_witness :
  Quadtree.cached__base_nodes step_quadtree = Some [step_root] ∧
  Quadtree.eval__tile_size_lim_px step_quadtree = Ok (1, 1000) ∧
  ∃ ls q', Quadtree.leafs step_quadtree = Ok (ls, q').
Proof.
  assert (Quadtree.cached__base_nodes step_quadtree = Some [step_root])
    as Hbs by (vm_compute; reflexivity).
  assert (Quadtree.eval__tile_size_lim_px step_quadtree = Ok (1, 1000))
    as Hlm by (vm_compute; reflexivity).
  split; [exact Hbs|]. split; [exact Hlm|].
  apply (leafs_returns step_quadtree [step_root] (1, 1000)
           step_quadtree_reachable); [vm_compute; by eexists|exact Hbs
                                     |exact Hlm|].
  intros b Hb. apply list_elem_of_singleton in Hb as ->.
  vm_compute. reflexivity.
Defined.

(** The tile of the step scene with 1/16 of its samples missing, and a
    tile beside the raster. *)
Lemma nan_fraction_range_witness :
  QuadNode.nan_fraction step_scene (leaf_node 0 32 32) = Ok (16 # 256) ∧
  (0 <= 16 # 256)%Q ∧ (16 # 256 <= 1)%Q ∧
  QuadNode.nan_fraction step_scene (leaf_node 0 64 32)
  = Raise ZeroDivisionError.
Proof.
  destruct (nan_fraction_range step_scene (leaf_node 0 32 32)) as [_ Hr].
  destruct (nan_fraction_range step_scene (leaf_node 0 64 32)) as [Hz _].
  assert (QuadNode.nan_fraction step_scene (leaf_node 0 32 32)
          = Ok (16 # 256)) as Hf by (vm_compute; reflexivity).
  destruct (Hr (16 # 256) Hf) as (H0 & H1 & _).
  split; [exact Hf|]. split; [exact H0|]. split; [exact H1|].
  apply Hz. vm_compute. reflexivity.
Defined.

(** The identifier of the 16-pixel node of the step scene. *)
Lemma node_ids_unique_witness :
  ∃ ns q',
    Quadtree.nodes step_quadtree = Ok (ns, q') ∧ step_node16 ∈ ns ∧
    QuadNode.id step_node16 = "node_0-0_16" ∧
    ∀ m, m ∈ ns → QuadNode.id m = "node_0-0_16" →
         QuadNode.llr step_node16 = QuadNode.llr m ∧
         QuadNode.llc step_node16 = QuadNode.llc m ∧
         QuadNode.length step_node16 = QuadNode.length m.
Proof.
  evaluated (Quadtree.nodes step_quadtree) ns q'.
  assert (Quadtree.nodes step_quadtree = Ok (ns, q')) as Hn
    by (vm_compute; reflexivity).
  assert (step_node16 ∈ ns) as Hin
    by (apply (list_elem_of_lookup_2 _ 2%nat); vm_compute; reflexivity).
  assert (QuadNode.id step_node16 = "node_0-0_16") as Hid
    by (vm_compute; reflexivity).
  exists ns, q'. split; [exact Hn|]. split; [exact Hin|].
  split; [exact Hid|]. intros m Hm Hidm.
  apply (node_ids_unique step_quadtree ns q' step_node16 m
           step_quadtree_reachable Hn Hin Hm).
  by rewrite Hidm.
Defined.

(** The identifier of the first leaf of the step scene. *)
Lemma leaf_ids_distinct_witness :
  ∃ ls q' a,
    Quadtree.leafs step_quadtree = Ok (ls, q') ∧
    ls !! 0%nat = Some a ∧ QuadNode.id a = "node_0-0_8" ∧
    ∀ j b, ls !! j = Some b → QuadNode.id b = "node_0-0_8" → 0%nat = j.
Proof.
  evaluated (Quadtree.leafs step_quadtree) ls q'.
  assert (Quadtree.leafs step_quadtree = Ok (ls, q')) as Hl
    by (vm_compute; reflexivity).
  evaluated_some (ls !! 0%nat) a.
  assert (ls !! 0%nat = Some a) as H0 by reflexivity.
  assert (QuadNode.id a = "node_0-0_8") as Hid by (vm_compute; reflexivity).
  exists ls, q', a. split; [exact Hl|]. split; [exact H0|].
  split; [exact Hid|]. intros j b Hj Hidb.
  apply (leaf_ids_distinct step_quadtree ls q' 0%nat j a b
           step_quadtree_reachable Hl H0 Hj).
  by rewrite Hidb.
Defined.

End Witnesses.
